(** * Legal-document chunking pipeline: a shallow embedding

    The development follows the Python sources

      - [src/utils/text_utils.py]               (module [TextUtils])
      - [src/data_processing/document_splitter.py] (module [Splitter])
      - [src/data_processing/document_parser.py]   (module [Parser])
      - [src/core/models.py]                     (module [Models])
      - [src/data_processing/chunker.py]         (module [Chunker])

    A Python [str] is a sequence of Unicode code points, so it is
    modelled as a list of [N]; Python integers are [Z]; [len] of a
    string is the [Z] image of the list length. *)

From Stdlib Require Import List NArith ZArith QArith Lia Bool Permutation.
From Stdlib Require String Ascii.
Import ListNotations.
Import String.StringSyntax.
Close Scope Q_scope.
Delimit Scope string_scope with string.

Set Implicit Arguments.

(** ** The fragment of the Python runtime used by the sources *)

Module Py.

Definition char := N.
Definition str := list char.

Definition len {A : Type} (s : list A) : Z := Z.of_nat (length s).

(** [str.isspace] on one code point; the same set is used by [str.split],
    [str.strip] and the regular-expression class [\s]. *)
Definition isspace (c : char) : bool :=
  (((0x9 <=? c) && (c <=? 0xd)) || ((0x1c <=? c) && (c <=? 0x20))
   || (c =? 0x85) || (c =? 0xa0) || (c =? 0x1680)
   || ((0x2000 <=? c) && (c <=? 0x200a))
   || (c =? 0x2028) || (c =? 0x2029) || (c =? 0x202f) || (c =? 0x205f)
   || (c =? 0x3000))%N.

Definition space : char := 0x20%N.
Definition newline : char := 0xa%N.

Definition is_nil {A : Type} (l : list A) : bool :=
  match l with [] => true | _ :: _ => false end.

(** Truthiness of a string or list: [if s:] *)
Definition truthy {A : Type} (l : list A) : bool := negb (is_nil l).

Fixpoint lstrip (s : str) : str :=
  match s with
  | [] => []
  | c :: t => if isspace c then lstrip t else s
  end.

Fixpoint rstrip (s : str) : str :=
  match s with
  | [] => []
  | c :: t =>
      let t' := rstrip t in
      if isspace c && is_nil t' then [] else c :: t'
  end.

Definition strip (s : str) : str := rstrip (lstrip s).

Definition flush (cur : str) : list str :=
  match cur with [] => [] | _ :: _ => [cur] end.

(** [s.split()] with no argument: maximal runs of non-whitespace. [cur]
    is the word being read. *)
Fixpoint words_from (cur : str) (s : str) : list str :=
  match s with
  | [] => flush cur
  | c :: t =>
      if isspace c then flush cur ++ words_from [] t
      else words_from (cur ++ [c]) t
  end.

Definition split (s : str) : list str := words_from [] s.

(** [sep.join(l)] *)
Fixpoint join (sep : str) (l : list str) : str :=
  match l with
  | [] => []
  | w :: rest =>
      match rest with
      | [] => w
      | _ :: _ => w ++ sep ++ join sep rest
      end
  end.

Fixpoint str_eqb (a b : str) : bool :=
  match a, b with
  | [], [] => true
  | x :: a', y :: b' => (x =? y)%N && str_eqb a' b'
  | _, _ => false
  end.

Fixpoint startswith (p s : str) : bool :=
  match p, s with
  | [], _ => true
  | x :: p', y :: s' => (x =? y)%N && startswith p' s'
  | _ :: _, [] => false
  end.

(** [needle in s] *)
Fixpoint contains (needle s : str) : bool :=
  startswith needle s ||
  match s with
  | [] => false
  | _ :: t => contains needle t
  end.

(** [s.replace(old, new)] for a non-empty [old]: leftmost
    non-overlapping occurrences.  [skip] counts the characters of an
    occurrence still to be dropped. *)
Fixpoint replace_from (old new : str) (skip : nat) (s : str) : str :=
  match s with
  | [] => []
  | c :: t =>
      match skip with
      | S k => replace_from old new k t
      | O =>
          if startswith old s
          then new ++ replace_from old new (pred (length old)) t
          else c :: replace_from old new 0 t
      end
  end.

(** [s.replace(old, new)]; for an empty [old] Python inserts [new]
    before every character and at the end. *)
Definition replace (old new s : str) : str :=
  match old with
  | [] => new ++ flat_map (fun c => c :: new) s
  | _ :: _ => replace_from old new 0 s
  end.

(** Slices.  [slice_from i l] is [l[i:]] for any integer [i]: a negative
    index counts from the end, and out-of-range indices are clamped. *)
Definition slice_from {A : Type} (i : Z) (l : list A) : list A :=
  let n := len l in
  let j := if (i <? 0)%Z then Z.max 0 (i + n) else Z.min i n in
  skipn (Z.to_nat j) l.

(** [l[:i]] for any integer [i]. *)
Definition slice_to {A : Type} (i : Z) (l : list A) : list A :=
  let n := len l in
  let j := if (i <? 0)%Z then Z.max 0 (i + n) else Z.min i n in
  firstn (Z.to_nat j) l.

(** [l[a:b]] for natural [a], [b]. *)
Definition substr {A : Type} (l : list A) (a b : nat) : list A :=
  firstn (b - a) (skipn a l).

(** [s.split(sep)] for a one-character separator: every occurrence of
    [sep] cuts, empty pieces are kept. *)
Fixpoint split_on (sep : char) (s : str) : list str :=
  match s with
  | [] => [[]]
  | c :: t =>
      if (c =? sep)%N then [] :: split_on sep t
      else match split_on sep t with
           | [] => [[c]]
           | p :: ps => (c :: p) :: ps
           end
  end.

(** Decimal digits of a natural number, for [f"{n}"]. *)
Fixpoint digits_fuel (fuel : nat) (n : N) (acc : str) : str :=
  match fuel with
  | O => acc
  | S f =>
      let acc' := (0x30 + n mod 10)%N :: acc in
      if (n / 10 =? 0)%N then acc' else digits_fuel f (n / 10)%N acc'
  end.

Definition str_of_N (n : N) : str := digits_fuel (S (N.to_nat (N.log2 n))) n [].

(** [s.find(needle)]: the first index at which [needle] occurs, or -1. *)
Fixpoint find_from (needle : str) (i : Z) (s : str) : Z :=
  if startswith needle s then i
  else match s with
       | [] => (-1)%Z
       | _ :: t => find_from needle (i + 1)%Z t
       end.

Definition find (needle s : str) : Z := find_from needle 0 s.

(** [sorted(l, key=key)] and [l.sort(key=key)]: the sort is stable; an
    element is inserted after those already placed whose key is not
    greater. *)
Fixpoint insert_by {A : Type} (key : A -> Z) (x : A) (l : list A) : list A :=
  match l with
  | [] => [x]
  | y :: t => if (key y <=? key x)%Z then y :: insert_by key x t else x :: l
  end.

Definition sorted_by {A : Type} (key : A -> Z) (l : list A) : list A :=
  fold_left (fun acc x => insert_by key x acc) l [].

(** String literals of this file are UTF-8 byte strings; [utf8] decodes
    them to code points. *)
Fixpoint utf8_from (need : nat) (acc : N) (bs : list N) : str :=
  match bs with
  | [] => []
  | b :: t =>
      match need with
      | S k =>
          let acc' := (acc * 64 + b mod 64)%N in
          match k with
          | O => acc' :: utf8_from 0 0%N t
          | S _ => utf8_from k acc' t
          end
      | O =>
          if (b <? 0x80)%N then b :: utf8_from 0 0%N t
          else if (b <? 0xE0)%N then utf8_from 1 (b mod 32)%N t
          else if (b <? 0xF0)%N then utf8_from 2 (b mod 16)%N t
          else utf8_from 3 (b mod 8)%N t
      end
  end.

Definition utf8 (s : String.string) : str :=
  utf8_from 0 0%N
    (map (fun a => N.of_nat (Ascii.nat_of_ascii a)) (String.list_ascii_of_string s)).

Arguments utf8 s%_string.

(** [d.get(key, default)] on a dictionary literal with string keys,
    written as the list of its items. *)
Fixpoint dict_get {V : Type} (d : list (str * V)) (key : str) (default : V) : V :=
  match d with
  | [] => default
  | (k, v) :: rest => if str_eqb k key then v else dict_get rest key default
  end.

(** [str.maketrans(x, y)] for two strings of equal length: a dictionary
    from the characters of [x] to those of [y], a later entry for the
    same character replacing an earlier one. *)
Definition maketrans (x y : str) : list (char * char) := combine x y.

Fixpoint table_get (table : list (char * char)) (c : char) : option char :=
  match table with
  | [] => None
  | (k, v) :: rest =>
      match table_get rest c with
      | Some d => Some d
      | None => if (c =? k)%N then Some v else None
      end
  end.

(** [text.translate(table)]: a character with an entry is replaced, any
    other is kept. *)
Definition translate (table : list (char * char)) (text : str) : str :=
  map (fun c => match table_get table c with Some d => d | None => c end) text.

Definition no_space (w : str) : Prop := Forall (fun c => isspace c = false) w.

(** A word as [split] produces them: non-empty and free of whitespace. *)
Definition word (w : str) : Prop := w <> [] /\ no_space w.

(** [f"{n:03d}"] *)
Definition zero_pad3 (n : N) : str :=
  let d := str_of_N n in
  repeat 0x30%N (3 - length d) ++ d.

End Py.

(** ** Regular expressions with the backtracking semantics of [re]

    Only the constructs occurring in the sources are represented.  The
    matcher is written in continuation-passing style: alternatives are
    tried in priority order and the first overall success wins, which
    is how [re] resolves greedy and lazy quantifiers. *)

Module Re.
Import Py.

Inductive regex : Type :=
| Eps : regex
| Chr : (char -> bool) -> regex        (* a literal or a character class *)
| Dot : regex                          (* [.] *)
| Seq : regex -> regex -> regex
| Alt : regex -> regex -> regex
| Star : bool -> regex -> regex        (* [r*] (true) and [r*?] (false) *)
| Group : nat -> regex -> regex        (* capturing group number n *)
| Bol : regex                          (* [^] *)
| Eol : regex                          (* [$] *)
| Eot : regex                          (* [\Z] *)
| Look : regex -> regex.               (* [(?=r)] *)

Record flags : Type := { MULTILINE : bool; DOTALL : bool }.

Definition no_flags : flags := {| MULTILINE := false; DOTALL := false |}.
Definition multiline : flags := {| MULTILINE := true; DOTALL := false |}.
Definition multiline_dotall : flags := {| MULTILINE := true; DOTALL := true |}.

(** A position in the subject: the index, the character just before it
    and the remaining suffix, with the text of the groups captured so
    far (the latest capture of a group first). *)
Record state : Type :=
  { pos : nat; prev : option char; rest : str; caps : list (nat * str) }.

Definition advance (c : char) (t : str) (st : state) : state :=
  {| pos := S (pos st); prev := Some c; rest := t; caps := caps st |}.

Definition at_bol (fl : flags) (st : state) : bool :=
  match prev st with
  | None => true
  | Some c => MULTILINE fl && (c =? newline)%N
  end.

Definition at_eol (fl : flags) (st : state) : bool :=
  match rest st with
  | [] => true
  | c :: t => (c =? newline)%N && (MULTILINE fl || is_nil t)
  end.

Definition dot_ok (fl : flags) (c : char) : bool :=
  DOTALL fl || negb (c =? newline)%N.

Definition orelse {A : Type} (a b : option A) : option A :=
  match a with Some _ => a | None => b end.

(** The iterations of [r*] and [r*?], [step] being the matcher of [r]:
    an iteration must consume something, so [n], one more than the
    number of characters left, bounds their number. *)
Fixpoint star_loop (step : state -> (state -> option state) -> option state)
  (greedy : bool) (k : state -> option state) (n : nat) (st0 : state)
  {struct n} : option state :=
  match n with
  | O => k st0
  | S n' =>
      let more :=
        step st0
          (fun st1 => if pos st0 <? pos st1 then star_loop step greedy k n' st1
                      else None) in
      if greedy then orelse more (k st0) else orelse (k st0) more
  end.

Fixpoint m (fl : flags) (r : regex) (st : state) (k : state -> option state)
  {struct r} : option state :=
  match r with
  | Eps => k st
  | Chr p =>
      match rest st with
      | c :: t => if p c then k (advance c t st) else None
      | [] => None
      end
  | Dot =>
      match rest st with
      | c :: t => if dot_ok fl c then k (advance c t st) else None
      | [] => None
      end
  | Seq r1 r2 => m fl r1 st (fun st1 => m fl r2 st1 k)
  | Alt r1 r2 => orelse (m fl r1 st k) (m fl r2 st k)
  | Star greedy r1 => star_loop (m fl r1) greedy k (S (length (rest st))) st
  | Group n r1 =>
      m fl r1 st
        (fun st1 =>
           k {| pos := pos st1; prev := prev st1; rest := rest st1;
                caps := (n, firstn (pos st1 - pos st) (rest st)) :: caps st1 |})
  | Bol => if at_bol fl st then k st else None
  | Eol => if at_eol fl st then k st else None
  | Eot => if is_nil (rest st) then k st else None
  | Look r1 =>
      match m fl r1 st Some with
      | Some st1 =>
          k {| pos := pos st; prev := prev st; rest := rest st; caps := caps st1 |}
      | None => None
      end
  end.

(** Derived forms. *)
Definition Plus (greedy : bool) (r : regex) : regex := Seq r (Star greedy r).
Definition Opt (r : regex) : regex := Alt r Eps.
Fixpoint Lit (s : str) : regex :=
  match s with
  | [] => Eps
  | c :: t => Seq (Chr (N.eqb c)) (Lit t)
  end.
Fixpoint Times (n : nat) (r : regex) : regex :=
  match n with
  | O => Eps
  | S n' => Seq r (Times n' r)
  end.
(** [r{n,}] *)
Definition AtLeast (n : nat) (r : regex) : regex := Seq (Times n r) (Star true r).
(** [r{a,b}], greedy *)
Fixpoint UpTo (n : nat) (r : regex) : regex :=
  match n with
  | O => Eps
  | S n' => Opt (Seq r (UpTo n' r))
  end.
Definition Between (a b : nat) (r : regex) : regex := Seq (Times a r) (UpTo (b - a) r).

Definition one_of (l : list char) (c : char) : bool := existsb (N.eqb c) l.
Definition in_range (a b : char) (c : char) : bool := ((a <=? c) && (c <=? b))%N.
Definition not_space (c : char) : bool := negb (isspace c).

(** A match object: [start()], [end()] and the captured groups. *)
Record match_obj : Type :=
  { m_start : nat; m_end : nat; m_caps : list (nat * str) }.

Definition found (i : nat) (st : state) : match_obj :=
  {| m_start := i; m_end := pos st; m_caps := caps st |}.

(** The matches that start at index [i], and how far to jump.  After an
    empty match the same position is tried once more for a non-empty one
    (the rule of Python 3.7 and later). *)
Definition attempt (fl : flags) (r : regex) (i : nat) (pv : option char) (s : str)
  : list match_obj * nat :=
  let st0 := {| pos := i; prev := pv; rest := s; caps := [] |} in
  match m fl r st0 Some with
  | None => ([], 0)
  | Some st1 =>
      if pos st1 =? i then
        match m fl r st0 (fun st' => if pos st' =? i then None else Some st') with
        | None => ([found i st1], 0)
        | Some st2 => ([found i st1; found i st2], pos st2 - i)
        end
      else ([found i st1], pos st1 - i)
  end.

(** Left-to-right scan of the subject; [skip] characters belong to the
    match found last and are passed over. *)
Fixpoint scan (fl : flags) (r : regex) (i : nat) (pv : option char) (s : str)
  (skip : nat) {struct s} : list match_obj :=
  match s with
  | [] =>
      match skip with
      | O => fst (attempt fl r i pv [])
      | S _ => []
      end
  | c :: t =>
      match skip with
      | S k => scan fl r (S i) (Some c) t k
      | O =>
          let (ms, jump) := attempt fl r i pv s in
          ms ++ scan fl r (S i) (Some c) t (pred jump)
      end
  end.

(** [re.finditer(r, text, flags)] *)
Definition finditer (fl : flags) (r : regex) (text : str) : list match_obj :=
  scan fl r 0 None text 0.

(** [re.search(r, text, flags)] *)
Definition search (fl : flags) (r : regex) (text : str) : option match_obj :=
  hd_error (finditer fl r text).

(** [match.group(n)]; [None] when the group did not take part. *)
Fixpoint lookup_group (n : nat) (cs : list (nat * str)) : option str :=
  match cs with
  | [] => None
  | (g, text) :: cs' => if g =? n then Some text else lookup_group n cs'
  end.

Definition group (mt : match_obj) (n : nat) : option str :=
  lookup_group n (m_caps mt).

Definition group_or_empty (mt : match_obj) (n : nat) : str :=
  match group mt n with Some g => g | None => [] end.

(** [re.sub(r, repl, text, count=n)], as the scan proceeds: a character
    outside every match is copied, a match is replaced by [repl] and
    its characters are passed over.  [budget] is the number of
    replacements still allowed, [None] when there is no limit. *)
Definition spend (budget : option nat) (n : nat) : option nat :=
  match budget with
  | None => None
  | Some b => Some (b - n)
  end.

Definition exhausted (budget : option nat) : bool :=
  match budget with
  | Some O => true
  | _ => false
  end.

Definition within (budget : option nat) (ms : list match_obj) : list match_obj :=
  match budget with
  | None => ms
  | Some b => firstn b ms
  end.

Fixpoint sub_scan (fl : flags) (r : regex) (repl : match_obj -> str)
  (budget : option nat) (i : nat) (pv : option char) (s : str) (skip : nat)
  {struct s} : str :=
  match s with
  | [] =>
      match skip with
      | O =>
          if exhausted budget then []
          else flat_map repl (within budget (fst (attempt fl r i pv [])))
      | S _ => []
      end
  | c :: t =>
      match skip with
      | S k => sub_scan fl r repl budget (S i) (Some c) t k
      | O =>
          if exhausted budget then s
          else
            let (ms, jump) := attempt fl r i pv s in
            let done := within budget ms in
            let jump' := if length done =? length ms then jump else 0 in
            flat_map repl done
              ++ (if jump' =? 0 then [c] else [])
              ++ sub_scan fl r repl (spend budget (length done)) (S i) (Some c) t
                   (pred jump')
      end
  end.

(** [re.sub(r, repl, text)] and [re.sub(r, repl, text, count=n)] for
    [n > 0] *)
Definition sub (fl : flags) (r : regex) (repl : match_obj -> str) (text : str) : str :=
  sub_scan fl r repl None 0 None text 0.

Definition sub_count (fl : flags) (r : regex) (repl : match_obj -> str)
  (count : nat) (text : str) : str :=
  sub_scan fl r repl (Some count) 0 None text 0.

(** [text[a:b]] between two matches, for [re.split]. *)
Fixpoint split_build (text : str) (last : nat) (ms : list match_obj) : list str :=
  match ms with
  | [] => [skipn last text]
  | mt :: ms' => substr text last (m_start mt) :: split_build text (m_end mt) ms'
  end.

(** [re.split(r, text)] for a pattern without capturing groups *)
Definition split (fl : flags) (r : regex) (text : str) : list str :=
  split_build text 0 (finditer fl r text).

(** [re.match(r, text, flags)]: a match at the start of the text *)
Definition match_ (fl : flags) (r : regex) (text : str) : option match_obj :=
  match m fl r {| pos := 0; prev := None; rest := text; caps := [] |} Some with
  | Some st1 => Some (found 0 st1)
  | None => None
  end.

(** [re.findall(r, text)] for a pattern with one capturing group: the
    texts of the group, empty where it took no part. *)
Definition findall1 (fl : flags) (r : regex) (text : str) : list str :=
  map (fun mt => group_or_empty mt 1) (finditer fl r text).

(** [re.findall(r, text)] for a pattern without capturing groups: the
    matched texts. *)
Definition findall (fl : flags) (r : regex) (text : str) : list str :=
  map (fun mt => substr text (m_start mt) (m_end mt)) (finditer fl r text).

End Re.

(** ** [src/utils/text_utils.py]: class [PersianTextProcessor] *)

Module TextUtils.
Import Py.

(** [self.char_map], in the insertion order of the dictionary literal:
    Arabic kaf, yeh, hamza, the alef forms, teh marbuta, waw and yeh
    with hamza, then the ten Arabic-Indic digits. *)
Definition char_map : list (char * char) :=
  [ (0x643, 0x6A9); (0x64A, 0x6CC); (0x621, 0x626); (0x623, 0x627);
    (0x625, 0x627); (0x622, 0x627); (0x629, 0x647); (0x624, 0x648);
    (0x626, 0x6CC);
    (0x660, 0x6F0); (0x661, 0x6F1); (0x662, 0x6F2); (0x663, 0x6F3);
    (0x664, 0x6F4); (0x665, 0x6F5); (0x666, 0x6F6); (0x667, 0x6F7);
    (0x668, 0x6F8); (0x669, 0x6F9) ]%N.

(** The loop [for old_char, new_char in self.char_map.items():
    text = text.replace(old_char, new_char)]. *)
Definition apply_char_map (text : str) : str :=
  fold_left (fun t on => replace [fst on] [snd on] t) char_map text.

(** The punctuation class [[،؛؟!.]] of [clean_text] and the class
    [[.؟!؛]] of [split_sentences]. *)
Definition is_punct (c : char) : bool := Re.one_of [0x60C; 0x61B; 0x61F; 0x21; 0x2E]%N c.
Definition is_sentence_end (c : char) : bool := Re.one_of [0x2E; 0x61F; 0x21; 0x61B]%N c.
Definition is_paren (c : char) : bool := Re.one_of [0x28; 0x29]%N c.

(** "\s+", "\s*([،؛؟!.])\s*", "\s*([()])\s*" and "[.؟!؛]\s+" *)
Definition spaces_re : Re.regex := Re.Plus true (Re.Chr isspace).
Definition around (cls : char -> bool) : Re.regex :=
  Re.Seq (Re.Star true (Re.Chr isspace))
    (Re.Seq (Re.Group 1 (Re.Chr cls)) (Re.Star true (Re.Chr isspace))).
Definition punct_re : Re.regex := around is_punct.
Definition paren_re : Re.regex := around is_paren.
Definition sentence_re : Re.regex :=
  Re.Seq (Re.Chr is_sentence_end) (Re.Plus true (Re.Chr isspace)).

(** The three substitutions of [clean_text]. *)
Definition collapse_spaces (text : str) : str :=
  Re.sub Re.no_flags spaces_re (fun _ => [space]) text.
Definition space_punct (text : str) : str :=
  Re.sub Re.no_flags punct_re (fun mt => Re.group_or_empty mt 1 ++ [space]) text.
Definition space_parens (text : str) : str :=
  Re.sub Re.no_flags paren_re
    (fun mt => [space] ++ Re.group_or_empty mt 1 ++ [space]) text.

Section Unicode.

(** [unicodedata.normalize('NFKC', _)] and the class [\w] come from the
    Unicode tables of the interpreter; the functions are parameters. *)
Variable nfkc : str -> str.
Variable isword : char -> bool.

Definition normalize_persian_text (text : str) : str :=
  if is_nil text then []
  else apply_char_map (nfkc text).

Definition clean_text (text : str) : str :=
  if is_nil text then []
  else
    let text := normalize_persian_text text in
    let text := collapse_spaces text in
    let text := space_punct text in
    let text := space_parens text in
    strip text.

(** [is_valid_persian_text]: at least 30% of the [\w] characters lie in
    the block U+0600..U+06FF.  The source compares the floating-point
    quotient with [0.3]; the comparison is done here on the integers,
    which agrees with it for every text below 10^15 characters. *)
Definition is_valid_persian_text (text : str) : bool :=
  if is_nil text || (len (strip text) <? 3)%Z then false
  else
    let persian_char_count := len (filter (Re.in_range 0x600 0x6FF)%N text) in
    let total_chars := len (filter isword text) in
    if (total_chars =? 0)%Z then false
    else (3 * total_chars <=? 10 * persian_char_count)%Z.

End Unicode.

(** [split_sentences] *)
Definition split_sentences (text : str) : list str :=
  if is_nil text then []
  else
    let sentences := Re.split Re.no_flags sentence_re (strip text) in
    filter (fun sentence => truthy sentence && (10 <? len sentence)%Z)
      (map strip sentences).

(** [self.persian_to_english] and [self.english_to_persian] *)
Definition persian_digits : str :=
  [0x6F0; 0x6F1; 0x6F2; 0x6F3; 0x6F4; 0x6F5; 0x6F6; 0x6F7; 0x6F8; 0x6F9]%N.
Definition english_digits : str :=
  [0x30; 0x31; 0x32; 0x33; 0x34; 0x35; 0x36; 0x37; 0x38; 0x39]%N.

Definition persian_to_english : list (char * char) :=
  maketrans persian_digits english_digits.
Definition english_to_persian : list (char * char) :=
  maketrans english_digits persian_digits.

Definition convert_persian_to_english_digits (text : str) : str :=
  translate persian_to_english text.

Definition convert_english_to_persian_digits (text : str) : str :=
  translate english_to_persian text.

(** [extract_persian_numbers]: the pattern is one or more Persian
    digits, then any number of groups of a dot or a slash and one or
    more Persian digits. *)
Definition is_persian_digit (c : char) : bool := Re.in_range 0x6F0%N 0x6F9%N c.
Definition is_number_sep (c : char) : bool := Re.one_of [0x2E; 0x2F]%N c.
Definition persian_number_re : Re.regex :=
  Re.Seq (Re.Plus true (Re.Chr is_persian_digit))
    (Re.Star true
       (Re.Seq (Re.Chr is_number_sep) (Re.Plus true (Re.Chr is_persian_digit)))).

Definition extract_persian_numbers (text : str) : list str :=
  Re.findall Re.no_flags persian_number_re text.

(** [self.legal_keywords] *)
Definition legal_keywords : list str :=
  [ [0x642; 0x627; 0x646; 0x648; 0x646];
    [0x622; 0x6CC; 0x6CC; 0x646; 0x200C; 0x646; 0x627; 0x645; 0x647];
    [0x62F; 0x633; 0x62A; 0x648; 0x631; 0x627; 0x644; 0x639; 0x645; 0x644];
    [0x645; 0x635; 0x648; 0x628; 0x647];
    [0x628; 0x62E; 0x634; 0x646; 0x627; 0x645; 0x647];
    [0x645; 0x627; 0x62F; 0x647];
    [0x62A; 0x628; 0x635; 0x631; 0x647];
    [0x628; 0x646; 0x62F];
    [0x641; 0x635; 0x644];
    [0x642; 0x633; 0x645; 0x62A];
    [0x628; 0x62E; 0x634];
    [0x645; 0x62C; 0x644; 0x633];
    [0x634; 0x648; 0x631; 0x627; 0x6CC];
    [0x648; 0x632; 0x6CC; 0x631];
    [0x631; 0x626; 0x6CC; 0x633; 0x200C; 0x62C; 0x645; 0x647; 0x648; 0x631];
    [0x647; 0x6CC; 0x626; 0x62A; 0x200C; 0x648; 0x632; 0x6CC; 0x631; 0x627; 0x646];
    [0x62A; 0x635; 0x648; 0x6CC; 0x628];
    [0x627; 0x628; 0x644; 0x627; 0x63A];
    [0x627; 0x62C; 0x631; 0x627];
    [0x644; 0x63A; 0x648];
    [0x627; 0x635; 0x644; 0x627; 0x62D];
    [0x627; 0x644; 0x62D; 0x627; 0x642] ]%N.

(** The class of the word pattern of [extract_keywords]: the block
    U+0600..U+06FF and the two joiners U+200C and U+200D. *)
Definition is_word_char (c : char) : bool :=
  Re.in_range 0x600%N 0x6FF%N c || Re.one_of [0x200C; 0x200D]%N c.
Definition word_re : Re.regex := Re.Plus true (Re.Chr is_word_char).

(** [score = 2 if word in self.legal_keywords else 1] *)
Definition keyword_score (word : str) : Z :=
  if existsb (str_eqb word) legal_keywords then 2 else 1.

(** [keyword_scores[word] = keyword_scores.get(word, 0) + score]; the
    dictionary keeps its keys in the order in which they were first
    inserted. *)
Fixpoint add_score (word : str) (score : Z) (keyword_scores : list (str * Z))
  : list (str * Z) :=
  match keyword_scores with
  | [] => [(word, (0 + score)%Z)]
  | (w, n) :: rest =>
      if str_eqb w word then (w, (n + score)%Z) :: rest
      else (w, n) :: add_score word score rest
  end.

(** The loop of [extract_keywords] over the words. *)
Definition score_words (min_length : Z) (words : list str) : list (str * Z) :=
  fold_left
    (fun keyword_scores word =>
       if (min_length <=? len word)%Z
       then add_score word (keyword_score word) keyword_scores
       else keyword_scores)
    words [].

Section Keywords.

Variable nfkc : str -> str.

(** [extract_keywords]; [sorted(..., reverse=True)] is stable: items of
    equal score stay in the order of the dictionary. *)
Definition extract_keywords (text : str) (min_length max_keywords : Z) : list str :=
  if is_nil text then []
  else
    let cleaned_text := clean_text nfkc text in
    let words := Re.findall Re.no_flags word_re cleaned_text in
    let keyword_scores := score_words min_length words in
    let sorted_keywords := sorted_by (fun x => (- snd x)%Z) keyword_scores in
    map fst (slice_to max_keywords sorted_keywords).

End Keywords.

(** [extract_legal_references]: the dictionaries with the keys 'text',
    'type' and 'position'. *)
Inductive reference_type : Type :=
| article_ref | note_ref | subsection_ref | chapter_ref | law_ref.

Record legal_reference : Type :=
  { ref_text : str; ref_type : reference_type; ref_position : Z }.

(** The words of the five patterns *)
Definition reference_word (ty : reference_type) : str :=
  match ty with
  | article_ref => [0x645; 0x627; 0x62F; 0x647]%N
  | note_ref => [0x62A; 0x628; 0x635; 0x631; 0x647]%N
  | subsection_ref => [0x628; 0x646; 0x62F]%N
  | chapter_ref => [0x641; 0x635; 0x644]%N
  | law_ref => [0x642; 0x627; 0x646; 0x648; 0x646]%N
  end.

(** A character other than the full stop, the Arabic comma and the
    Arabic semicolon *)
Definition not_stop (c : char) : bool := negb (Re.one_of [0x2E; 0x60C; 0x61B]%N c).

(** The word, whitespace or none, and Persian digits (none at all after
    the word of a note); for a law, the word, whitespace and what
    follows up to a stop.  One group holds the whole pattern. *)
Definition reference_pattern (ty : reference_type) : Re.regex :=
  Re.Group 1
    (Re.Seq (Re.Lit (reference_word ty))
       match ty with
       | note_ref =>
           Re.Seq (Re.Star true (Re.Chr isspace))
             (Re.Star true (Re.Chr is_persian_digit))
       | law_ref =>
           Re.Seq (Re.Plus true (Re.Chr isspace)) (Re.Plus true (Re.Chr not_stop))
       | _ =>
           Re.Seq (Re.Star true (Re.Chr isspace))
             (Re.Plus true (Re.Chr is_persian_digit))
       end).

Definition reference_types : list reference_type :=
  [article_ref; note_ref; subsection_ref; chapter_ref; law_ref].

Definition extract_legal_references (text : str) : list legal_reference :=
  flat_map
    (fun ty =>
       map (fun matched =>
              {| ref_text := matched; ref_type := ty;
                 ref_position := find matched text |})
         (Re.findall1 Re.no_flags (reference_pattern ty) text))
    reference_types.

End TextUtils.

(** ** Exceptions *)

Module Exn.

Inductive exn : Type := ValueError | Exception.

Inductive result (A : Type) : Type :=
| Ok : A -> result A
| Raise : exn -> result A.

Arguments Ok {A} _.
Arguments Raise {A} _.

End Exn.

(** ** [src/core/models.py]: the validated models

    Only the fields read by the chunker are kept: identifiers, keyword
    lists, timestamps and the free-form metadata maps influence neither
    the control flow nor any other field. *)

Module Models.
Import Py Exn.

Inductive SubsectionType : Type := NUMBERED | LETTERED | DASH.

Inductive ChunkType : Type :=
  ARTICLE | NOTE | SUBSECTION | CHAPTER_TITLE | FOOTNOTE | COMBINED.

Record LegalSubsection : Type :=
  { subsection_number : str;
    subsection_content : str;
    subsection_type : SubsectionType }.

Record LegalNote : Type :=
  { note_number : str;
    note_content : str;
    note_subsections : list LegalSubsection }.

Record LegalArticle : Type :=
  { article_number : str;
    article_title : str;
    article_content : str;
    article_subsections : list LegalSubsection;
    article_notes : list LegalNote;
    article_word_count : Z }.

Record LegalChapter : Type :=
  { chapter_number : str;
    chapter_title : str;
    chapter_articles : list LegalArticle }.

Record LegalDocument : Type :=
  { document_title : str;
    chapters : list LegalChapter;
    standalone_articles : list LegalArticle;
    footnotes : list str }.

Record TextChunk : Type :=
  { content : str;
    chunk_type : ChunkType;
    position : Z;
    word_count : Z;
    character_count : Z;
    legal_references : list str }.

(** The validator [content_not_empty], shared by [LegalSubsection],
    [LegalNote], [LegalArticle] and [TextChunk]: reject a value that is
    empty or blank, otherwise store it stripped. *)
Definition content_not_empty (v : str) : result str :=
  if is_nil v || is_nil (strip v) then Raise ValueError else Ok (strip v).

(** [LegalArticle(number=..., title=..., content=..., ...)]: the
    [content] validator runs first, then [calculate_word_count]. *)
Definition new_LegalArticle (number title content0 : str)
  (subsections : list LegalSubsection) (notes : list LegalNote)
  : result LegalArticle :=
  match content_not_empty content0 with
  | Raise e => Raise e
  | Ok c =>
      Ok {| article_number := number;
            article_title := title;
            article_content := c;
            article_subsections := subsections;
            article_notes := notes;
            article_word_count := if truthy c then len (split c) else 0 |}
  end.

(** [TextChunk(content=..., chunk_type=..., position=..., ...)]: the
    counts passed by the caller are overwritten by the validators
    [calculate_word_count] and [calculate_character_count]. *)
Definition new_TextChunk (content0 : str) (ty : ChunkType) (position0 : Z)
  (refs : list str) : result TextChunk :=
  match content_not_empty content0 with
  | Raise e => Raise e
  | Ok c =>
      Ok {| content := c;
            chunk_type := ty;
            position := position0;
            word_count := if truthy c then len (split c) else 0;
            character_count := if truthy c then len c else 0;
            legal_references := refs |}
  end.

(** The state in which validation leaves an article. *)
Definition valid_article (a : LegalArticle) : Prop :=
  article_content a <> [] /\ strip (article_content a) = article_content a.

Definition valid_chapter (c : LegalChapter) : Prop :=
  Forall valid_article (chapter_articles c).

Definition valid_document (d : LegalDocument) : Prop :=
  Forall valid_chapter (chapters d) /\ Forall valid_article (standalone_articles d).

(** The properties [LegalChapter.article_count] and
    [LegalDocument.total_articles]. *)
Definition article_count (c : LegalChapter) : Z := len (chapter_articles c).

Definition total_articles (d : LegalDocument) : Z :=
  fold_right Z.add 0%Z (map (fun chapter => len (chapter_articles chapter)) (chapters d))
  + len (standalone_articles d).

(** [ProcessingReport]: the counters and the derived [success_rate].
    The rate is a float in the source; it is kept here as an exact
    rational. *)
Record ProcessingReport : Type :=
  { total_items : Z; processed_items : Z; failed_items : Z }.

Definition success_rate (r : ProcessingReport) : Q :=
  if (total_items r =? 0)%Z then 0%Q
  else ((inject_Z (processed_items r) / inject_Z (total_items r)) * 100)%Q.

(** [validate_persian_date] *)
Section Dates.

(** The class [\d]: the decimal digits of the Unicode tables. *)
Variable isdecimal : char -> bool.

Definition slash : char := 0x2F%N.

(** "^D{1,2}/D{1,2}/D{y}$" for a class D of digits *)
Definition date_pattern (digit : char -> bool) (year : nat) : Re.regex :=
  Re.Seq Re.Bol
    (Re.Seq (Re.Between 1 2 (Re.Chr digit)) (Re.Seq (Re.Chr (N.eqb slash))
      (Re.Seq (Re.Between 1 2 (Re.Chr digit)) (Re.Seq (Re.Chr (N.eqb slash))
        (Re.Seq (Re.Times year (Re.Chr digit)) Re.Eol))))).

Definition date_patterns : list Re.regex :=
  [ date_pattern isdecimal 4;
    date_pattern isdecimal 2;
    date_pattern TextUtils.is_persian_digit 4;
    date_pattern TextUtils.is_persian_digit 2 ].

(** The word for an unknown date *)
Definition unknown : str := [0x646; 0x627; 0x645; 0x634; 0x62E; 0x635]%N.

Definition validate_persian_date (date_str : str) : bool :=
  if negb (truthy date_str) || str_eqb (strip date_str) unknown then true
  else
    existsb
      (fun pattern =>
         match Re.match_ Re.no_flags pattern (strip date_str) with
         | Some _ => true
         | None => false
         end)
      date_patterns.

End Dates.

End Models.

(** ** [src/data_processing/chunker.py]: class [IntelligentChunker] *)

Module Chunker.
Import Py Exn Models.

(** [self.min_chunk_size], [self.max_chunk_size], [self.chunk_overlap] *)
Record config : Type :=
  { min_chunk_size : Z; max_chunk_size : Z; chunk_overlap : Z }.

(** [DOCUMENT_CONFIG] of [src/core/config.py] *)
Definition DOCUMENT_CONFIG : config :=
  {| min_chunk_size := 200; max_chunk_size := 1000; chunk_overlap := 100 |}.

(** [self.chunking_stats] *)
Record stats : Type :=
  { documents_chunked : Z;
    total_chunks_created : Z;
    article_chunks : Z;
    note_chunks : Z;
    subsection_chunks : Z;
    combined_chunks : Z;
    oversized_chunks : Z;
    undersized_chunks : Z }.

Definition stats0 : stats :=
  {| documents_chunked := 0; total_chunks_created := 0; article_chunks := 0;
     note_chunks := 0; subsection_chunks := 0; combined_chunks := 0;
     oversized_chunks := 0; undersized_chunks := 0 |}.

Section WithConfig.

Variable cfg : config.

(** [calculate_chunk_priority] *)
Definition base_priority : list (str * Z) :=
  [ (utf8 "article", 100%Z); (utf8 "single_article", 100%Z); (utf8 "note", 80%Z);
    (utf8 "subsection", 60%Z); (utf8 "chapter_title", 90%Z);
    (utf8 "footnote", 40%Z) ].

Definition calculate_chunk_priority (content_type : str) (position0 : Z) : Z :=
  let priority := dict_get base_priority content_type 50%Z in
  let position_bonus := Z.max 0 (50 - position0) in
  (priority + position_bonus)%Z.

(** [can_combine_contents] *)
Definition can_combine_contents (content1 content2 : str) : bool :=
  let combined_length := (len content1 + len content2 + chunk_overlap cfg)%Z in
  (combined_length <=? max_chunk_size cfg)%Z.

Definition should_split_content (content : str) : bool :=
  (max_chunk_size cfg <? len content)%Z.

(** The loop of [split_by_words] over [words], with the local variables
    [chunks], [current_chunk_words] and [current_length]. *)
Fixpoint pack_words (words : list str) (chunks : list str)
  (current_chunk_words : list str) (current_length : Z) : list str :=
  match words with
  | [] =>
      if truthy current_chunk_words
      then chunks ++ [join [space] current_chunk_words]
      else chunks
  | word :: rest =>
      let word_length := (len word + 1)%Z in
      if (current_length + word_length <=? max_chunk_size cfg)%Z
      then pack_words rest chunks (current_chunk_words ++ [word])
             (current_length + word_length)
      else
        pack_words rest
          (if truthy current_chunk_words
           then chunks ++ [join [space] current_chunk_words]
           else chunks)
          [word] word_length
  end.

Definition split_by_words (content : str) : list str :=
  pack_words (split content) [] [] 0.

(** The body of the loop of [add_overlap_to_chunks] for an index
    [i > 0]: [prev_chunk] is [chunks[i-1]]. *)
Definition overlap_text_of (prev_chunk : str) : str :=
  join [space] (slice_from (- chunk_overlap cfg / 10) (split prev_chunk)).

Definition with_overlap (prev_chunk chunk : str) : str :=
  let overlap_text := overlap_text_of prev_chunk in
  if (len overlap_text + len chunk <=? max_chunk_size cfg)%Z
  then overlap_text ++ [space] ++ chunk
  else chunk.

Fixpoint overlap_from (prev_chunk : str) (chunks : list str) : list str :=
  match chunks with
  | [] => []
  | chunk :: rest => with_overlap prev_chunk chunk :: overlap_from chunk rest
  end.

Definition add_overlap_to_chunks (chunks : list str) : list str :=
  if (len chunks <=? 1)%Z || (chunk_overlap cfg =? 0)%Z then chunks
  else
    match chunks with
    | [] => []
    | first :: rest => first :: overlap_from first rest
    end.

(** The sentence loop of [split_long_content], with the local
    variables [chunks] and [current_chunk]. *)
Fixpoint pack_sentences (sentences : list str) (chunks : list str)
  (current_chunk : str) : list str :=
  match sentences with
  | [] =>
      if truthy current_chunk then chunks ++ [strip current_chunk] else chunks
  | sentence :: rest =>
      let potential_chunk :=
        if truthy current_chunk then current_chunk ++ [space] ++ sentence
        else sentence in
      if (len potential_chunk <=? max_chunk_size cfg)%Z
      then pack_sentences rest chunks potential_chunk
      else
        let chunks1 :=
          if truthy current_chunk then chunks ++ [strip current_chunk]
          else chunks in
        if (len sentence <=? max_chunk_size cfg)%Z
        then pack_sentences rest chunks1 sentence
        else
          let word_chunks := split_by_words sentence in
          pack_sentences rest (chunks1 ++ removelast word_chunks)
            (last word_chunks [])
  end.

(** The chunks of [split_long_content] before overlap is added. *)
Definition split_long_content_chunks (content : str) : list str :=
  let sentences := TextUtils.split_sentences content in
  if (1 <? len sentences)%Z then pack_sentences sentences [] []
  else split_by_words content.

Definition split_long_content (content : str) : list str :=
  if (len content <=? max_chunk_size cfg)%Z then [content]
  else add_overlap_to_chunks (split_long_content_chunks content).

(** The common pattern of [chunk_article]:
    [if self.should_split_content(c): self.split_long_content(c, _)
     else: [c]]. *)
Definition pieces (content : str) : list str :=
  if should_split_content content then split_long_content content
  else [content].

(** *** Statistics and exceptions

    The methods update [self.chunking_stats] and can be interrupted by
    the [ValueError] of a model validator: a computation takes the
    statistics and returns a result with the statistics reached. *)

Definition M (A : Type) : Type := stats -> result A * stats.

Definition ret {A : Type} (a : A) : M A := fun s => (Ok a, s).

Definition bind {A B : Type} (c : M A) (f : A -> M B) : M B :=
  fun s =>
    match c s with
    | (Ok a, s') => f a s'
    | (Raise e, s') => (Raise e, s')
    end.

Definition lift {A : Type} (r : result A) : M A := fun s => (r, s).

Definition modify (f : stats -> stats) : M unit := fun s => (Ok tt, f s).

Notation "x <- c ;; k" := (bind c (fun x => k))
  (at level 61, c at next level, right associativity).
Notation "c ;;; k" := (bind c (fun _ => k))
  (at level 61, right associativity).

Definition incr_article_chunks (s : stats) : stats :=
  {| documents_chunked := documents_chunked s;
     total_chunks_created := total_chunks_created s;
     article_chunks := article_chunks s + 1;
     note_chunks := note_chunks s;
     subsection_chunks := subsection_chunks s;
     combined_chunks := combined_chunks s;
     oversized_chunks := oversized_chunks s;
     undersized_chunks := undersized_chunks s |}.

Definition incr_subsection_chunks (s : stats) : stats :=
  {| documents_chunked := documents_chunked s;
     total_chunks_created := total_chunks_created s;
     article_chunks := article_chunks s;
     note_chunks := note_chunks s;
     subsection_chunks := subsection_chunks s + 1;
     combined_chunks := combined_chunks s;
     oversized_chunks := oversized_chunks s;
     undersized_chunks := undersized_chunks s |}.

Definition incr_note_chunks (s : stats) : stats :=
  {| documents_chunked := documents_chunked s;
     total_chunks_created := total_chunks_created s;
     article_chunks := article_chunks s;
     note_chunks := note_chunks s + 1;
     subsection_chunks := subsection_chunks s;
     combined_chunks := combined_chunks s;
     oversized_chunks := oversized_chunks s;
     undersized_chunks := undersized_chunks s |}.

Definition incr_oversized (s : stats) : stats :=
  {| documents_chunked := documents_chunked s;
     total_chunks_created := total_chunks_created s;
     article_chunks := article_chunks s;
     note_chunks := note_chunks s;
     subsection_chunks := subsection_chunks s;
     combined_chunks := combined_chunks s;
     oversized_chunks := oversized_chunks s + 1;
     undersized_chunks := undersized_chunks s |}.

Definition incr_undersized (s : stats) : stats :=
  {| documents_chunked := documents_chunked s;
     total_chunks_created := total_chunks_created s;
     article_chunks := article_chunks s;
     note_chunks := note_chunks s;
     subsection_chunks := subsection_chunks s;
     combined_chunks := combined_chunks s;
     oversized_chunks := oversized_chunks s;
     undersized_chunks := undersized_chunks s + 1 |}.

Definition count_document (n : Z) (s : stats) : stats :=
  {| documents_chunked := documents_chunked s + 1;
     total_chunks_created := total_chunks_created s + n;
     article_chunks := article_chunks s;
     note_chunks := note_chunks s;
     subsection_chunks := subsection_chunks s;
     combined_chunks := combined_chunks s;
     oversized_chunks := oversized_chunks s;
     undersized_chunks := undersized_chunks s |}.

(** One [for content in ...: chunk = TextChunk(...); chunks.append(chunk);
    self.chunking_stats[...] += 1] loop. *)
Fixpoint emit (ty : ChunkType) (position0 : Z) (refs : list str)
  (count : stats -> stats) (contents : list str) : M (list TextChunk) :=
  match contents with
  | [] => ret []
  | c :: rest =>
      chunk <- lift (new_TextChunk c ty position0 refs) ;;
      modify count ;;;
      more <- emit ty position0 refs count rest ;;
      ret (chunk :: more)
  end.

(** [for x in xs: chunks.extend(f x)] *)
Fixpoint for_each {A B : Type} (f : A -> M (list B)) (xs : list A) : M (list B) :=
  match xs with
  | [] => ret []
  | x :: rest =>
      here <- f x ;;
      more <- for_each f rest ;;
      ret (here ++ more)
  end.

Section Formatting.

(** How an f-string renders a [SubsectionType] member depends on the
    interpreter version (the value before 3.11, the qualified member
    name from 3.11); the rendering is a parameter. *)
Variable format_type : SubsectionType -> str.

Definition dash_sep : str := [0x20; 0x2D; 0x20]%N.
Definition blank_line : str := [newline; newline].

Definition main_content_of (article : LegalArticle) : str :=
  if truthy (article_title article)
  then article_number article ++ dash_sep ++ article_title article
         ++ blank_line ++ article_content article
  else article_number article ++ blank_line ++ article_content article.

Definition subsection_content_of (article : LegalArticle)
  (subsection : LegalSubsection) : str :=
  article_number article ++ dash_sep ++ format_type (subsection_type subsection)
    ++ [space] ++ subsection_number subsection ++ blank_line
    ++ subsection_content subsection.

Definition note_content_of (article : LegalArticle) (note : LegalNote) : str :=
  article_number article ++ dash_sep ++ note_number note ++ blank_line
    ++ note_content note.

(** The literal [بند ] of the subsection reference. *)
Definition band : str := [0x628; 0x646; 0x62F; 0x20]%N.

Definition chunk_article (article : LegalArticle) (position0 : Z)
  : M (list TextChunk) :=
  main <-
    (if truthy (article_content article)
     then emit ARTICLE position0 [article_number article] incr_article_chunks
            (pieces (main_content_of article))
     else ret []) ;;
  subs <-
    for_each
      (fun subsection =>
         if truthy (subsection_content subsection)
         then emit SUBSECTION position0
                [article_number article; band ++ subsection_number subsection]
                incr_subsection_chunks
                (pieces (subsection_content_of article subsection))
         else ret [])
      (article_subsections article) ;;
  notes <-
    for_each
      (fun note =>
         if truthy (note_content note)
         then emit NOTE position0 [article_number article; note_number note]
                incr_note_chunks (pieces (note_content_of article note))
         else ret [])
      (article_notes article) ;;
  ret (main ++ subs ++ notes).

(** [for i, article in enumerate(chapter.articles)], with [i] counted
    from [i0]. *)
Fixpoint chapter_articles_from (position0 : Z) (i0 : Z)
  (articles : list LegalArticle) : M (list TextChunk) :=
  match articles with
  | [] => ret []
  | article :: rest =>
      here <- chunk_article article (position0 + i0 + 1) ;;
      more <- chapter_articles_from position0 (i0 + 1) rest ;;
      ret (here ++ more)
  end.

Definition chunk_chapter (chapter : LegalChapter) (position0 : Z)
  : M (list TextChunk) :=
  title <-
    (if truthy (chapter_title chapter)
     then
       chunk <- lift (new_TextChunk
                        (chapter_number chapter ++ dash_sep ++ chapter_title chapter)
                        CHAPTER_TITLE position0 [chapter_number chapter]) ;;
       ret [chunk]
     else ret []) ;;
  arts <- chapter_articles_from position0 0 (chapter_articles chapter) ;;
  ret (title ++ arts).

(** The two loops of [chunk_document] that advance
    [position_counter] by the number of chunks produced. *)
Fixpoint counted {A : Type} (f : A -> Z -> M (list TextChunk))
  (position_counter : Z) (xs : list A) : M (list TextChunk * Z) :=
  match xs with
  | [] => ret ([], position_counter)
  | x :: rest =>
      here <- f x position_counter ;;
      more <- counted f (position_counter + len here) rest ;;
      ret (here ++ fst more, snd more)
  end.

(** [f"پاورقی {i+1}: {footnote}"] for [i] counted from [i0] *)
Definition footnote_label : str := [0x67E; 0x627; 0x648; 0x631; 0x642; 0x6CC]%N.

Fixpoint footnote_lines (i0 : N) (footnotes0 : list str) : list str :=
  match footnotes0 with
  | [] => []
  | footnote :: rest =>
      (footnote_label ++ [space] ++ str_of_N (i0 + 1) ++ [0x3A; 0x20]%N ++ footnote)
        :: footnote_lines (i0 + 1) rest
  end.

(** The loop that updates the chunk quality statistics. *)
Fixpoint tally (chunks : list TextChunk) : M unit :=
  match chunks with
  | [] => ret tt
  | chunk :: rest =>
      (if (max_chunk_size cfg <? character_count chunk)%Z
       then modify incr_oversized
       else if (character_count chunk <? min_chunk_size cfg)%Z
            then modify incr_undersized
            else ret tt) ;;;
      tally rest
  end.

(** The body of the [try] block of [chunk_document]. *)
Definition chunk_document_body (document : LegalDocument) : M (list TextChunk) :=
  ch <- counted chunk_chapter 0 (chapters document) ;;
  st <- counted chunk_article (snd ch) (standalone_articles document) ;;
  let position_counter := snd st in
  fn <-
    (if truthy (footnotes document)
     then
       let footnotes_content := join blank_line (footnote_lines 0 (footnotes document)) in
       if truthy footnotes_content
       then
         chunk <- lift (new_TextChunk footnotes_content FOOTNOTE position_counter
                          [footnote_label]) ;;
         ret [chunk]
       else ret []
     else ret []) ;;
  let chunks := fst ch ++ fst st ++ fn in
  modify (count_document (len chunks)) ;;;
  tally chunks ;;;
  ret chunks.

(** [chunk_document]: any exception is re-raised as [Exception]. *)
Definition chunk_document (document : LegalDocument) : M (list TextChunk) :=
  fun s =>
    match chunk_document_body document s with
    | (Ok chunks, s') => (Ok chunks, s')
    | (Raise _, s') => (Raise Exception, s')
    end.

(** [chunk_documents_batch]: the loop over the documents, with
    [all_chunks] and the counters of the report.  The messages, the times
    and the status of the report are left out; the statistics copied
    into it are the statistics reached. *)
Fixpoint batch_loop (documents : list LegalDocument) (all_chunks : list TextChunk)
  (report : ProcessingReport) (s : stats)
  : list TextChunk * ProcessingReport * stats :=
  match documents with
  | [] => (all_chunks, report, s)
  | document :: rest =>
      match chunk_document document s with
      | (Ok document_chunks, s') =>
          batch_loop rest (all_chunks ++ document_chunks)
            {| total_items := total_items report;
               processed_items := processed_items report + 1;
               failed_items := failed_items report |} s'
      | (Raise _, s') =>
          batch_loop rest all_chunks
            {| total_items := total_items report;
               processed_items := processed_items report;
               failed_items := failed_items report + 1 |} s'
      end
  end.

Definition chunk_documents_batch (documents : list LegalDocument) (s : stats)
  : list TextChunk * ProcessingReport * stats :=
  batch_loop documents []
    {| total_items := len documents; processed_items := 0; failed_items := 0 |} s.

End Formatting.
End WithConfig.

(** [stats['quality_metrics']] of [get_chunking_statistics] *)
Record quality_metrics : Type :=
  { average_chunk_size : Q;
    oversized_percentage : Q;
    undersized_percentage : Q }.

(** [get_chunking_statistics]: the copy of the statistics, and the
    quality metrics when chunks were created.  No code sets the key
    'total_characters', so [stats.get('total_characters', 0)] is 0.
    The quotients are floats in the source; they are kept here as
    exact rationals. *)
Definition get_chunking_statistics (s : stats) : stats * option quality_metrics :=
  (s,
   if (0 <? total_chunks_created s)%Z
   then
     Some {| average_chunk_size := (0 / inject_Z (total_chunks_created s))%Q;
             oversized_percentage :=
               (inject_Z (oversized_chunks s) / inject_Z (total_chunks_created s)
                * 100)%Q;
             undersized_percentage :=
               (inject_Z (undersized_chunks s) / inject_Z (total_chunks_created s)
                * 100)%Q |}
   else None).

(** *** Chunk identifiers

    The record [TextChunk] above leaves out the field [id].  The
    functions below give the identifiers that [chunk_article],
    [chunk_chapter] and [chunk_document] put in it, in the order of the
    chunks returned; they depend on the number of chunks only. *)

Definition underscore : char := 0x5F%N.

(** [f"{base_chunk_id}_{chunk_counter:03d}"] *)
Definition chunk_id (base_chunk_id : str) (chunk_counter : N) : str :=
  base_chunk_id ++ [underscore] ++ zero_pad3 chunk_counter.

(** [n] chunks in a row: [chunk_counter] grows by one with each. *)
Fixpoint ids_from (base_chunk_id : str) (chunk_counter : N) (n : nat) : list str :=
  match n with
  | O => []
  | S n' =>
      chunk_id base_chunk_id chunk_counter
        :: ids_from base_chunk_id (chunk_counter + 1) n'
  end.

(** [chunk_article]: every chunk is given its index among the chunks
    returned. *)
Definition chunk_article_ids (base_chunk_id : str) (chunks : list TextChunk)
  : list str :=
  ids_from base_chunk_id 0 (length chunks).

(** The loop of [chunk_chapter] over the articles, [article_chunks]
    being the chunks that [chunk_article] returns for each of them: the
    base is [f"{base_chunk_id}_{chunk_counter}"]. *)
Fixpoint chapter_article_ids (base_chunk_id : str) (chunk_counter : N)
  (article_chunks : list (list TextChunk)) : list str :=
  match article_chunks with
  | [] => []
  | chunks :: rest =>
      chunk_article_ids (base_chunk_id ++ [underscore] ++ str_of_N chunk_counter) chunks
        ++ chapter_article_ids base_chunk_id
             (chunk_counter + N.of_nat (length chunks)) rest
  end.

(** [chunk_chapter]; [has_title] tells whether the chapter has a
    title, which is given a chunk of its own. *)
Definition chunk_chapter_ids (base_chunk_id : str) (has_title : bool)
  (article_chunks : list (list TextChunk)) : list str :=
  if has_title
  then chunk_id base_chunk_id 0 :: chapter_article_ids base_chunk_id 1 article_chunks
  else chapter_article_ids base_chunk_id 0 article_chunks.

(** "_ch", "_art" and "_footnotes" *)
Definition ch_tag : str := [0x5F; 0x63; 0x68]%N.
Definition art_tag : str := [0x5F; 0x61; 0x72; 0x74]%N.
Definition footnotes_tag : str :=
  [0x5F; 0x66; 0x6F; 0x6F; 0x74; 0x6E; 0x6F; 0x74; 0x65; 0x73]%N.

(** The two loops of [chunk_document], with the bases
    [f"{document.id}_ch{i}"] and [f"{document.id}_art{i}"]. *)
Fixpoint chapters_ids (document_id : str) (i : N)
  (chapters0 : list (bool * list (list TextChunk))) : list str :=
  match chapters0 with
  | [] => []
  | (has_title, article_chunks) :: rest =>
      chunk_chapter_ids (document_id ++ ch_tag ++ str_of_N i) has_title article_chunks
        ++ chapters_ids document_id (i + 1) rest
  end.

Fixpoint standalone_ids (document_id : str) (i : N)
  (article_chunks : list (list TextChunk)) : list str :=
  match article_chunks with
  | [] => []
  | chunks :: rest =>
      chunk_article_ids (document_id ++ art_tag ++ str_of_N i) chunks
        ++ standalone_ids document_id (i + 1) rest
  end.

(** [chunk_document]; the footnote chunk has the identifier
    [f"{document.id}_footnotes"]. *)
Definition chunk_document_ids (document_id : str)
  (chapters0 : list (bool * list (list TextChunk)))
  (article_chunks : list (list TextChunk)) (has_footnotes : bool) : list str :=
  chapters_ids document_id 0 chapters0
    ++ standalone_ids document_id 0 article_chunks
    ++ (if has_footnotes then [document_id ++ footnotes_tag] else []).

End Chunker.

(** ** The patterns of [DOCUMENT_CONFIG] in [src/core/config.py] *)

Module Patterns.
Import Py Re.

Definition ws : regex := Chr isspace.
Definition non_ws : regex := Chr not_space.
(** [[-–—]] *)
Definition dash : regex := Chr (one_of [0x2D; 0x2013; 0x2014]%N).
(** [[۰-۹]] *)
Definition persian_digit : regex := Chr (in_range 0x6F0 0x6F9)%N.

Definition madeh : str := [0x645; 0x627; 0x62F; 0x647]%N.
Definition vahedeh : str := [0x648; 0x627; 0x62D; 0x62F; 0x647]%N.
Definition fasl : str := [0x641; 0x635; 0x644]%N.
Definition tabsareh : str := [0x62A; 0x628; 0x635; 0x631; 0x647]%N.
Definition mosavvab_open : str := [0x28; 0x645; 0x635; 0x648; 0x628]%N.

(** The common tail of the header patterns: "\s*[-–—]?\s*", then group
    2 made of a greedy dot-star, then "$"; written TAIL below. *)
Definition header_tail : regex :=
  Seq (Star true ws) (Seq (Opt dash) (Seq (Star true ws)
    (Seq (Group 2 (Star true Dot)) Eol))).

(** law_separator: "\*{10,}" *)
Definition law_separator : regex := AtLeast 10 (Chr (N.eqb 0x2A)).

(** law_title_pattern: "^(.+?)\s*\(مصوب\s+(.+?)\)$" *)
Definition law_title_pattern : regex :=
  Seq Bol (Seq (Group 1 (Plus false Dot)) (Seq (Star true ws)
    (Seq (Lit mosavvab_open) (Seq (Plus true ws)
      (Seq (Group 2 (Plus false Dot)) (Seq (Chr (N.eqb 0x29)) Eol)))))).

(** chapter_pattern: "^(فصل\s+[^\s]+)TAIL" *)
Definition chapter_pattern : regex :=
  Seq Bol (Seq (Group 1 (Seq (Lit fasl) (Seq (Plus true ws) (Plus true non_ws))))
    header_tail).

(** article_pattern: "^(ماده\s*[^\s]+)TAIL" *)
Definition article_pattern : regex :=
  Seq Bol (Seq (Group 1 (Seq (Lit madeh) (Seq (Star true ws) (Plus true non_ws))))
    header_tail).

(** single_article_pattern: "^(ماده\s*واحده)TAIL" *)
Definition single_article_pattern : regex :=
  Seq Bol (Seq (Group 1 (Seq (Lit madeh) (Seq (Star true ws) (Lit vahedeh))))
    header_tail).

(** note_pattern: "^(تبصره\s*[^\s]* )TAIL", a space added before the
    closing parenthesis *)
Definition note_pattern : regex :=
  Seq Bol (Seq (Group 1 (Seq (Lit tabsareh) (Seq (Star true ws) (Star true non_ws))))
    header_tail).

(** "ماده\s*[۰-۹]+" and "ماده\s*واحده" of [calculate_quality_score] *)
Definition numbered_article_re : regex :=
  Seq (Lit madeh) (Seq (Star true ws) (Plus true persian_digit)).
Definition single_article_re : regex :=
  Seq (Lit madeh) (Seq (Star true ws) (Lit vahedeh)).

(** The subsection patterns of [extract_subsections]:
    "^(label+)\s*[-–—]\s*(.+?)(?=^label+\s*[-–—]|\Z)" *)
Definition labelled (label : regex) : regex :=
  Seq Bol (Seq (Group 1 (Plus true label)) (Seq (Star true ws) (Seq dash
    (Seq (Star true ws) (Seq (Group 2 (Plus false Dot))
      (Look (Alt (Seq Bol (Seq (Plus true label) (Seq (Star true ws) dash)))
                 Eot))))))).

Definition numbered_pattern : regex := labelled persian_digit.

(** [[الف-ی]]: alef, lam and the range from feh to Farsi yeh *)
Definition letter : regex :=
  Chr (fun c => one_of [0x627; 0x644]%N c || in_range 0x641 0x6CC c)%N.
Definition lettered_pattern : regex := labelled letter.

(** "^[-–—]\s*(.+?)(?=^[-–—]|\Z)" *)
Definition dash_pattern : regex :=
  Seq Bol (Seq dash (Seq (Star true ws) (Seq (Group 1 (Plus false Dot))
    (Look (Alt (Seq Bol dash) Eot))))).

End Patterns.

(** ** [src/data_processing/document_splitter.py]: class [DocumentSplitter]

    Offsets into a text come from [len] and from match objects; they are
    natural numbers. *)

Module Splitter.
Import Py.

(** [QUALITY_ASSURANCE["min_law_length"]] *)
Definition min_law_length : Z := 50.

(** [LawMetadata], without the approval date, the authority and the
    timestamp, which nothing below reads. *)
Record LawMetadata : Type :=
  { id : str;
    title : str;
    raw_content : str;
    word_count : Z;
    quality_score : Q }.

(** [self.processing_stats] *)
Record processing_stats : Type :=
  { total_laws_found : Z; valid_laws : Z; invalid_laws : Z }.

(** [read_docx_file] on the paragraph texts delivered by the document
    reader. *)
Definition read_docx_file (paragraphs : list str) : str :=
  join [newline] (map strip (filter (fun p => truthy (strip p)) paragraphs)).

(** The loop of [identify_law_boundaries] over [separators]. *)
Fixpoint boundaries_from (start_pos : nat) (separators : list nat) (n : nat)
  : list (nat * nat) :=
  match separators with
  | [] => if start_pos <? n then [(start_pos, n)] else []
  | separator_pos :: rest =>
      (if start_pos <? separator_pos then [(start_pos, separator_pos)] else [])
        ++ boundaries_from separator_pos rest n
  end.

Definition identify_law_boundaries (text : str) : list (nat * nat) :=
  let separators :=
    map Re.m_end (Re.finditer Re.no_flags Patterns.law_separator text) in
  boundaries_from 0 separators (length text).

Definition legal_words : list str :=
  [ [0x642; 0x627; 0x646; 0x648; 0x646];
    [0x622; 0x6CC; 0x6CC; 0x646; 0x200C; 0x646; 0x627; 0x645; 0x647];
    [0x62F; 0x633; 0x62A; 0x648; 0x631; 0x627; 0x644; 0x639; 0x645; 0x644] ]%N.

Definition legal_indicators : list str :=
  [ Patterns.madeh; Patterns.tabsareh; [0x628; 0x646; 0x62F]%N; Patterns.fasl ].

Section Unicode.

Variable nfkc : str -> str.
Variable isword : char -> bool.

(** The title returned by [extract_law_title_and_date]; [None] stands
    for the [None] of the source. *)
Definition extract_law_title (law_text : str) : option str :=
  let cleaned_text := TextUtils.clean_text nfkc law_text in
  let lines := firstn 5 (split_on newline cleaned_text) in
  let first_content := strip (join [space] lines) in
  match Re.search Re.no_flags Patterns.law_title_pattern first_content with
  | Some mt => Some (strip (Re.group_or_empty mt 1))
  | None =>
      hd_error
        (filter (fun line => existsb (fun w => contains w line) legal_words)
           (map strip lines))
  end.

(** The score is a sum of at most five terms [0.2]; the floating-point
    sums 0.2, 0.4, 0.6000000000000001, 0.8 and 1.0 compare with the
    threshold 0.4 as the exact fractions do. *)
Definition calculate_quality_score (law_text title0 : str) : Q :=
  let check (b : bool) : Q := if b then (2 # 10)%Q else 0%Q in
  let score :=
    (check (min_law_length <=? len law_text)%Z
     + check (truthy title0 && (10 <? len title0)%Z)
     + check (TextUtils.is_valid_persian_text isword law_text)
     + check (2 <=? len (filter (fun ind => contains ind law_text) legal_indicators))%Z
     + check
         (match Re.search Re.no_flags Patterns.numbered_article_re law_text with
          | Some _ => true
          | None =>
              match Re.search Re.no_flags Patterns.single_article_re law_text with
              | Some _ => true
              | None => false
              end
          end))%Q in
  if Qle_bool score 1 then score else 1%Q.

Definition sanad_prefix : str :=
  [0x633; 0x646; 0x62F; 0x20; 0x62D; 0x642; 0x648; 0x642; 0x6CC; 0x20;
   0x634; 0x645; 0x627; 0x631; 0x647; 0x20]%N.
Definition law_prefix : str := [0x6C; 0x61; 0x77; 0x5F]%N.
Definition ellipsis : str := [0x2E; 0x2E; 0x2E]%N.

(** [process_individual_law]; [None] is the [None] of the source. *)
Definition process_individual_law (law_text : str) (law_index : N)
  : option LawMetadata :=
  let cleaned_text := TextUtils.clean_text nfkc law_text in
  if (len cleaned_text <? min_law_length)%Z then None
  else
    let title1 :=
      match extract_law_title cleaned_text with
      | Some t => t
      | None => []
      end in
    let title2 :=
      if truthy title1 then title1
      else
        match
          filter (fun line => truthy (strip line) && (10 <? len (strip line))%Z)
            (firstn 3 (split_on newline cleaned_text))
        with
        | line :: _ => firstn 100 (strip line) ++ ellipsis
        | [] => sanad_prefix ++ str_of_N (law_index + 1)
        end in
    Some {| id := law_prefix ++ zero_pad3 (law_index + 1);
            title := title2;
            raw_content := cleaned_text;
            word_count := len (split cleaned_text);
            quality_score := calculate_quality_score cleaned_text title2 |}.

(** The loop of [split_document] over [enumerate(boundaries)], with
    [valid_laws] and the two counters. *)
Fixpoint split_loop (full_text : str) (i : N) (boundaries : list (nat * nat))
  (valid : list LawMetadata) (st : processing_stats)
  : list LawMetadata * processing_stats :=
  match boundaries with
  | [] => (valid, st)
  | (start, stop) :: rest =>
      let law_text := strip (substr full_text start stop) in
      if truthy law_text then
        match process_individual_law law_text i with
        | Some metadata =>
            if Qle_bool (4 # 10) (quality_score metadata)
            then split_loop full_text (i + 1) rest (valid ++ [metadata])
                   {| total_laws_found := total_laws_found st;
                      valid_laws := valid_laws st + 1;
                      invalid_laws := invalid_laws st |}
            else split_loop full_text (i + 1) rest valid
                   {| total_laws_found := total_laws_found st;
                      valid_laws := valid_laws st;
                      invalid_laws := invalid_laws st + 1 |}
        | None =>
            split_loop full_text (i + 1) rest valid
              {| total_laws_found := total_laws_found st;
                 valid_laws := valid_laws st;
                 invalid_laws := invalid_laws st + 1 |}
        end
      else split_loop full_text (i + 1) rest valid st
  end.

(** [split_document], from the paragraphs of the input file to
    [self.laws] and [self.processing_stats]. *)
Definition split_document (paragraphs : list str)
  : list LawMetadata * processing_stats :=
  let full_text := read_docx_file paragraphs in
  let boundaries := identify_law_boundaries full_text in
  split_loop full_text 0 boundaries []
    {| total_laws_found := len boundaries; valid_laws := 0; invalid_laws := 0 |}.

End Unicode.

(** [analyze_quality] over [self.laws].  For an empty list the source
    returns an average of 0 and an empty distribution, with no highest
    and lowest score.  The scores are exact rationals, as in
    [calculate_quality_score]. *)
Record quality_distribution : Type :=
  { excellent : Z; good : Z; fair : Z; poor : Z }.

Record quality_analysis : Type :=
  { average_quality : Q;
    distribution : option quality_distribution;
    highest_quality : option Q;
    lowest_quality : option Q }.

(** [max(l)] and [min(l)] of a non-empty list: the first of the largest
    (smallest) elements. *)
Definition max_of (first : Q) (others : list Q) : Q :=
  fold_left (fun best x => if Qle_bool x best then best else x) others first.
Definition min_of (first : Q) (others : list Q) : Q :=
  fold_left (fun best x => if Qle_bool best x then best else x) others first.

Definition analyze_quality (laws : list LawMetadata) : quality_analysis :=
  match map quality_score laws with
  | [] =>
      {| average_quality := 0; distribution := None;
         highest_quality := None; lowest_quality := None |}
  | first :: others =>
      let quality_scores := first :: others in
      {| average_quality :=
           (fold_left Qplus quality_scores 0 / inject_Z (len quality_scores))%Q;
         distribution :=
           Some
             {| excellent := len (filter (fun s => Qle_bool (8 # 10) s) quality_scores);
                good :=
                  len (filter (fun s => Qle_bool (6 # 10) s && negb (Qle_bool (8 # 10) s))
                         quality_scores);
                fair :=
                  len (filter (fun s => Qle_bool (4 # 10) s && negb (Qle_bool (6 # 10) s))
                         quality_scores);
                poor := len (filter (fun s => negb (Qle_bool (4 # 10) s)) quality_scores) |};
         highest_quality := Some (max_of first others);
         lowest_quality := Some (min_of first others) |}
  end.

(** [get_law_by_id] *)
Fixpoint get_law_by_id (laws : list LawMetadata) (law_id : str) : option LawMetadata :=
  match laws with
  | [] => None
  | law :: rest =>
      if str_eqb (id law) law_id then Some law else get_law_by_id rest law_id
  end.

End Splitter.

(** ** [src/data_processing/document_parser.py]: class [LegalDocumentParser]

    The classes of this module are plain dataclasses: their
    [__post_init__] fills in defaults and validates nothing. *)

Module Parser.
Import Py Exn.

Inductive subsection_kind : Type := numbered | lettered | dash.

Record LegalSubsection : Type :=
  { subsection_number : str;
    subsection_content : str;
    subsection_type : subsection_kind }.

Record LegalNote : Type :=
  { note_number : str;
    note_content : str;
    note_subsections : list LegalSubsection }.

Record LegalArticle : Type :=
  { article_number : str;
    article_title : str;
    article_content : str;
    article_subsections : list LegalSubsection;
    article_notes : list LegalNote;
    article_word_count : Z }.

Record LegalChapter : Type :=
  { chapter_number : str;
    chapter_title : str;
    chapter_articles : list LegalArticle }.

Record ParsedLegalDocument : Type :=
  { document_title : str;
    chapters : list LegalChapter;
    standalone_articles : list LegalArticle;
    footnotes : list str }.

(** [LegalArticle(number=..., title=..., content=..., ...)]:
    [__post_init__] sets
    [word_count = len(self.content.split()) if self.content else 0]. *)
Definition new_LegalArticle (number title0 content0 : str)
  (subsections : list LegalSubsection) (notes : list LegalNote) : LegalArticle :=
  {| article_number := number;
     article_title := title0;
     article_content := content0;
     article_subsections := subsections;
     article_notes := notes;
     article_word_count := if truthy content0 then len (split content0) else 0 |}.

(** The input dictionary of [parse_document_from_dict], with the two
    keys that are read below. *)
Record law_dict : Type := { raw_content : str; title : str }.

(** The loop shared by [extract_chapters] and [extract_articles]: a
    header ends where the next one starts, the last one at the end of
    the text.  [single] marks a match of the single-article pattern,
    whose title is left empty. *)
Fixpoint header_spans (text : str) (matches : list (Re.match_obj * bool))
  : list (str * str * nat * nat) :=
  match matches with
  | [] => []
  | (mt, single) :: rest =>
      let num := strip (Re.group_or_empty mt 1) in
      let title0 :=
        if single then []
        else if truthy (Re.group_or_empty mt 2)
             then strip (Re.group_or_empty mt 2) else [] in
      let end_pos :=
        match rest with
        | (next, _) :: _ => Re.m_start next
        | [] => length text
        end in
      (num, title0, Re.m_start mt, end_pos) :: header_spans text rest
  end.

Definition extract_chapters (text : str) : list (str * str * nat * nat) :=
  header_spans text
    (map (fun mt => (mt, false))
       (Re.finditer Re.multiline Patterns.chapter_pattern text)).

Definition extract_articles (text : str) : list (str * str * nat * nat) :=
  let article_matches := Re.finditer Re.multiline Patterns.article_pattern text in
  let single_matches :=
    Re.finditer Re.multiline Patterns.single_article_pattern text in
  let all_matches :=
    map (fun mt => (mt, false)) article_matches
      ++ map (fun mt => (mt, true)) single_matches in
  header_spans text
    (sorted_by (fun x => Z.of_nat (Re.m_start (fst x))) all_matches).

(** The matches of one subsection pattern, blank contents dropped. *)
Definition subsections_of (article_text : str) (pattern : Re.regex)
  (kind : subsection_kind) : list LegalSubsection :=
  flat_map
    (fun mt =>
       let number :=
         match kind with
         | dash => [0x2D%N]
         | _ => strip (Re.group_or_empty mt 1)
         end in
       let content0 :=
         match kind with
         | dash => strip (Re.group_or_empty mt 1)
         | _ => strip (Re.group_or_empty mt 2)
         end in
       if truthy content0
       then [ {| subsection_number := number;
                 subsection_content := content0;
                 subsection_type := kind |} ]
       else [])
    (Re.finditer Re.multiline_dotall pattern article_text).

Definition extract_subsections (article_text : str) : list LegalSubsection :=
  sorted_by (fun x => find (subsection_content x) article_text)
    (subsections_of article_text Patterns.numbered_pattern numbered
       ++ subsections_of article_text Patterns.lettered_pattern lettered
       ++ subsections_of article_text Patterns.dash_pattern dash).

(** The loop of [extract_notes] over the matches of the note pattern. *)
Fixpoint notes_from (article_text : str) (note_matches : list Re.match_obj)
  : list LegalNote :=
  match note_matches with
  | [] => []
  | mt :: rest =>
      let note_num := strip (Re.group_or_empty mt 1) in
      let note_start := Re.m_start mt in
      let note_end :=
        match rest with
        | next :: _ => Re.m_start next
        | [] => length article_text
        end in
      let note_text := strip (substr article_text note_start note_end) in
      let note_content0 :=
        strip (Re.sub_count Re.no_flags Patterns.note_pattern (fun _ => []) 1
                 note_text) in
      {| note_number := note_num;
         note_content := note_content0;
         note_subsections := extract_subsections note_content0 |}
        :: notes_from article_text rest
  end.

Definition extract_notes (article_text : str) : list LegalNote :=
  notes_from article_text
    (Re.finditer Re.multiline Patterns.note_pattern article_text).

Section Unicode.

Variable nfkc : str -> str.
(** The class [\d] of the footnote pattern: the decimal digits of the
    Unicode tables. *)
Variable isdecimal : char -> bool.

(** The article interior: the cleaned text with the first match of the
    article pattern, then of the single-article pattern, removed. *)
Definition article_interior (article_text : str) : str :=
  let cleaned_text := TextUtils.clean_text nfkc article_text in
  let content_text :=
    Re.sub_count Re.no_flags Patterns.article_pattern (fun _ => []) 1 cleaned_text in
  let content_text :=
    Re.sub_count Re.no_flags Patterns.single_article_pattern (fun _ => []) 1
      content_text in
  strip content_text.

(** The main content: the interior with the content of every note and
    subsection removed, whitespace collapsed and trimmed. *)
Definition main_content_of (content_text : str) (subsections : list LegalSubsection)
  (notes : list LegalNote) : str :=
  let main_content :=
    fold_left (fun acc note => replace (note_content note) [] acc) notes content_text in
  let main_content :=
    fold_left (fun acc subsection => replace (subsection_content subsection) [] acc)
      subsections main_content in
  strip (TextUtils.collapse_spaces main_content).

Definition parse_article (article_text article_num article_title0 : str)
  : LegalArticle :=
  let content_text := article_interior article_text in
  let subsections := extract_subsections content_text in
  let notes := extract_notes content_text in
  new_LegalArticle article_num article_title0
    (main_content_of content_text subsections notes) subsections notes.

Definition parse_articles_in (text : str) : list LegalArticle :=
  map (fun '(article_num, article_title0, start_pos, end_pos) =>
         parse_article (substr text start_pos end_pos) article_num article_title0)
    (extract_articles text).

Definition parse_chapter (chapter_text chapter_num chapter_title0 : str)
  : LegalChapter :=
  {| chapter_number := chapter_num;
     chapter_title := chapter_title0;
     chapter_articles := parse_articles_in chapter_text |}.

(** "^\(\d+\)(.+?)(?=\(\d+\)|\Z)", matched with DOTALL only *)
Definition footnote_re : Re.regex :=
  let marker :=
    Re.Seq (Re.Chr (N.eqb 0x28))
      (Re.Seq (Re.Plus true (Re.Chr isdecimal)) (Re.Chr (N.eqb 0x29))) in
  Re.Seq Re.Bol (Re.Seq marker (Re.Seq (Re.Group 1 (Re.Plus false Re.Dot))
    (Re.Look (Re.Alt marker Re.Eot)))).

Definition extract_footnotes (text : str) : list str :=
  filter (fun footnote_text => truthy footnote_text)
    (map (fun mt => strip (Re.group_or_empty mt 1))
       (Re.finditer {| Re.MULTILINE := false; Re.DOTALL := true |} footnote_re text)).

(** [parse_document_from_dict]; the document type and the metadata
    dictionary, which depend on nothing but the title and counts, are
    left out.  Every exception is re-raised as [Exception]. *)
Definition parse_document_from_dict (d : law_dict) : result ParsedLegalDocument :=
  let text := raw_content d in
  if is_nil text then Raise Exception
  else
    let chapters0 :=
      map (fun '(chapter_num, chapter_title0, start_pos, end_pos) =>
             parse_chapter (substr text start_pos end_pos) chapter_num chapter_title0)
        (extract_chapters text) in
    let standalone := if is_nil chapters0 then parse_articles_in text else [] in
    Ok {| document_title := title d;
          chapters := chapters0;
          standalone_articles := standalone;
          footnotes := extract_footnotes text |}.

(** The articles of a parsed document, in order. *)
Definition all_articles (doc : ParsedLegalDocument) : list LegalArticle :=
  flat_map chapter_articles (chapters doc) ++ standalone_articles doc.

End Unicode.

End Parser.

(** * Specification vocabulary

    Predicates used to state the properties, and the concrete inputs at
    which the code is evaluated. *)

Module Spec.
Import Py Chunker.

(** [current_length] of [split_by_words] is the length of the joined
    current words plus one (zero when there are none). *)
Definition tracks (cur : list str) (cl : Z) : Prop :=
  match cur with
  | [] => cl = 0%Z
  | _ :: _ => cl = (len (join [space] cur) + 1)%Z
  end.

(** A chunk is acceptable when it is non-empty and either fits or is a
    single unbreakable word. *)
Definition fits_or_word (cfg : config) (c : str) : Prop :=
  c <> [] /\ ((len c <= max_chunk_size cfg)%Z \/ no_space c).

Definition current_ok (cfg : config) (cur : list str) (cl : Z) : Prop :=
  tracks cur cl /\ Forall word cur /\
  (cur = [] \/ (cl <= max_chunk_size cfg)%Z \/ exists w, cur = [w]).

(** One entry of [char_map] applied to one character, and all entries
    in order. *)
Definition subst1 (on : char * char) (c : char) : char :=
  if (c =? fst on)%N then snd on else c.

Definition map_char (c : char) : char :=
  fold_left (fun c on => subst1 on c) TextUtils.char_map c.

(** The spans of [split_document] whose stripped text is not empty:
    the records that are processed. *)
Definition nonblank_spans (full_text : str) (boundaries : list (nat * nat))
  : list (nat * nat) :=
  filter (fun b => truthy (strip (substr full_text (fst b) (snd b)))) boundaries.

(** What [split_document] promises of a record it keeps. *)
Definition kept_ok (m : Splitter.LawMetadata) : Prop :=
  (4 # 10 <= Splitter.quality_score m)%Q
  /\ (Splitter.min_law_length <= len (Splitter.raw_content m))%Z.

(** Where the matcher enters its continuation: at or after the position
    given, with the same text ahead and behind. *)
Definition reached (st st' : Re.state) : Prop :=
  Re.pos st <= Re.pos st'
  /\ Re.pos st' + length (Re.rest st') = Re.pos st + length (Re.rest st).

(** Matches as [finditer] yields them: each one starts at or after the
    end of the one before and lies within the text. *)
Fixpoint ordered_from (lo n : nat) (ms : list Re.match_obj) : Prop :=
  match ms with
  | [] => True
  | mt :: rest =>
      lo <= Re.m_start mt /\ Re.m_start mt <= Re.m_end mt /\ Re.m_end mt <= n
      /\ ordered_from (Re.m_end mt) n rest
  end.

(** Separator offsets in non-decreasing order, from [lo] up to [n]. *)
Fixpoint ends_sorted (lo n : nat) (seps : list nat) : Prop :=
  match seps with
  | [] => lo <= n
  | s :: rest => lo <= s /\ ends_sorted s n rest
  end.

(** A list in non-decreasing order of [key]. *)
Fixpoint sorted_keys {A : Type} (key : A -> Z) (l : list A) : Prop :=
  match l with
  | [] => True
  | x :: rest =>
      match rest with
      | [] => True
      | y :: _ => (key x <= key y)%Z
      end
      /\ sorted_keys key rest
  end.

(** The sort key of [extract_articles]: [x[0].start()]. *)
Definition start_key (x : Re.match_obj * bool) : Z := Z.of_nat (Re.m_start (fst x)).

(** Spans that follow one another: no span is reversed, each one ends
    where the next starts, and the last one ends at [n]. *)
Fixpoint chain (n : nat) (spans : list (nat * nat)) : Prop :=
  match spans with
  | [] => True
  | (a, b) :: rest =>
      a <= b
      /\ match rest with
         | [] => b = n
         | (a', _) :: _ => b = a'
         end
      /\ chain n rest
  end.

(** Every offset from [lo] up to [n] lies in some span. *)
Definition covers_from (lo n : nat) (spans : list (nat * nat)) : Prop :=
  forall i, lo <= i -> i < n -> Exists (fun ab => fst ab <= i /\ i < snd ab) spans.

(** The start of the first span, or [n] when there is none. *)
Definition first_start (n : nat) (spans : list (nat * nat)) : nat :=
  match spans with
  | [] => n
  | (a, _) :: _ => a
  end.

(** The [(start, end)] part of the tuples of [extract_chapters] and
    [extract_articles]. *)
Definition span_of (x : str * str * nat * nat) : nat * nat :=
  let '(_, _, a, b) := x in (a, b).

(** The state reached from [st] by passing over the whitespace at the
    head of [s], the text that remains at [st]. *)
Fixpoint run_ws (st : Re.state) (s : str) : Re.state :=
  match s with
  | [] => st
  | c :: t => if isspace c then run_ws (Re.advance c t st) t else st
  end.

(** The number of whitespace characters at the head of [s]. *)
Fixpoint leading_ws (s : str) : nat :=
  match s with
  | [] => 0
  | c :: t => if isspace c then S (leading_ws t) else 0
  end.

(** The state in which a match of "\s*(cls)\s*" that started at
    index [i] of text [s] ends: [d] is the character matched by the
    group and [t] the text after it. *)
Definition after_match (i : nat) (s : str) (d : char) (t : str) : Re.state :=
  run_ws {| Re.pos := S (i + leading_ws s); Re.prev := Some d; Re.rest := t;
            Re.caps := [(1, [d])] |} t.

(** What the pattern "\s*(cls)\s*" matches at the head of [s]: the
    character of class [cls] that follows the leading whitespace, and
    the length of the match, whitespace on both sides included. *)
Definition ahead (cls : char -> bool) (s : str) : option (char * nat) :=
  match lstrip s with
  | [] => None
  | d :: t => if cls d then Some (d, leading_ws s + 1 + leading_ws t) else None
  end.

(** [re.sub] for that pattern with the replacement [pre \1 post],
    written on the text alone: [skip] characters of the last match are
    still to be passed over. *)
Fixpoint respace (cls : char -> bool) (pre post : str) (s : str) (skip : nat) : str :=
  match s with
  | [] => []
  | c :: t =>
      match skip with
      | S k => respace cls pre post t k
      | O =>
          match ahead cls s with
          | Some (d, jump) => pre ++ [d] ++ post ++ respace cls pre post t (pred jump)
          | None => c :: respace cls pre post t 0
          end
      end
  end.

(** Every character of class [cls] is directly followed by a space;
    in the second form the last character of the text is exempt. *)
Fixpoint followed_by_space (cls : char -> bool) (s : str) : Prop :=
  match s with
  | [] => True
  | c :: t =>
      (cls c = true -> exists t', t = space :: t') /\ followed_by_space cls t
  end.

Fixpoint followed_unless_last (cls : char -> bool) (s : str) : Prop :=
  match s with
  | [] => True
  | c :: t =>
      (cls c = true -> t = [] \/ exists t', t = space :: t')
      /\ followed_unless_last cls t
  end.

(** Every character of class [cls] directly follows a space, [before]
    being the character in front of the text; in the second form the
    first character of the whole text ([before] is [None]) is
    exempt. *)
Fixpoint preceded_by_space (cls : char -> bool) (before : option char) (s : str)
  : Prop :=
  match s with
  | [] => True
  | c :: t =>
      (cls c = true -> before = Some space) /\ preceded_by_space cls (Some c) t
  end.

Fixpoint preceded_unless_first (cls : char -> bool) (before : option char)
  (s : str) : Prop :=
  match s with
  | [] => True
  | c :: t =>
      (cls c = true -> before = None \/ before = Some space)
      /\ preceded_unless_first cls (Some c) t
  end.

(** No whitespace at either end. *)
Definition trimmed (s : str) : Prop :=
  (forall c t, s = c :: t -> isspace c = false)
  /\ (s <> [] -> isspace (last s space) = false).

(** Two whitespace characters in a row somewhere in the text. *)
Fixpoint has_space_run (s : str) : bool :=
  match s with
  | [] => false
  | c :: t =>
      match t with
      | [] => false
      | d :: _ => (isspace c && isspace d) || has_space_run t
      end
  end.

(** The text has a character that is not whitespace. *)
Definition has_word (s : str) : Prop := Exists (fun c => isspace c = false) s.

(** What holds of a piece of content before it becomes a chunk: it fits
    in the maximum, or it is a single word that cannot be broken. *)
Definition fits (cfg : config) (c : str) : Prop :=
  (len c <= max_chunk_size cfg)%Z \/ no_space c.

(** The chunk types that [chunk_article] produces from content it may
    split. *)
Definition splittable (ty : Models.ChunkType) : Prop :=
  ty = Models.ARTICLE \/ ty = Models.SUBSECTION \/ ty = Models.NOTE.

(** What holds of every chunk of [chunk_document]: it has a legal
    reference, and if it comes from an article, a subsection or a note
    and no overlap is configured, it fits in the maximum or is a single
    unbreakable word. *)
Definition chunk_ok (cfg : config) (chunk : Models.TextChunk) : Prop :=
  Models.legal_references chunk <> []
  /\ (splittable (Models.chunk_type chunk) ->
      chunk_overlap cfg = 0%Z ->
      (Models.character_count chunk <= max_chunk_size cfg)%Z
      \/ no_space (Models.content chunk)).

(** A chunk emitted at position [p]. *)
Definition placed (cfg : config) (p : Z) (chunk : Models.TextChunk) : Prop :=
  chunk_ok cfg chunk /\ Models.position chunk = p.

(** Positions in non-decreasing order, from [lo] up to [hi]. *)
Fixpoint ascending (lo hi : Z) (chunks : list Models.TextChunk) : Prop :=
  match chunks with
  | [] => True
  | chunk :: rest =>
      (lo <= Models.position chunk)%Z /\ (Models.position chunk <= hi)%Z
      /\ ascending (Models.position chunk) hi rest
  end.

(** Positions in non-decreasing order. *)
Fixpoint nondecreasing (chunks : list Models.TextChunk) : Prop :=
  match chunks with
  | [] => True
  | chunk :: rest =>
      match rest with
      | [] => True
      | next :: _ => (Models.position chunk <= Models.position next)%Z
      end
      /\ nondecreasing rest
  end.

(** The statistics that only [chunk_document] itself updates. *)
Definition same_tallies (s s' : stats) : Prop :=
  documents_chunked s' = documents_chunked s
  /\ total_chunks_created s' = total_chunks_created s
  /\ oversized_chunks s' = oversized_chunks s
  /\ undersized_chunks s' = undersized_chunks s.

(** A computation that leaves those statistics alone and whose result,
    when it returns one, satisfies [post]. *)
Definition yields {A : Type} (c : M A) (post : A -> Prop) : Prop :=
  forall s r s',
    c s = (r, s') -> same_tallies s s' /\ forall a, r = Exn.Ok a -> post a.

(** A computation that returns a result from every state: it raises
    nothing. *)
Definition returns {A : Type} (c : M A) : Prop :=
  forall s, exists a s', c s = (Exn.Ok a, s').

(** [re.sub] of the pattern "\s+" by the text [rep], written on the
    text alone: [skip] characters of the run found last are still to be
    passed over. *)
Fixpoint collapse (rep : str) (s : str) (skip : nat) : str :=
  match s with
  | [] => []
  | c :: t =>
      match skip with
      | S k => collapse rep t k
      | O => if isspace c then rep ++ collapse rep t (leading_ws t)
             else c :: collapse rep t 0
      end
  end.

(** The only whitespace of the text is the plain space (U+0020). *)
Definition only_spaces (s : str) : Prop :=
  Forall (fun c => isspace c = true -> c = space) s.

(** No two whitespace characters follow each other. *)
Fixpoint single_spaced (s : str) : Prop :=
  match s with
  | [] => True
  | c :: t =>
      match t with
      | [] => True
      | d :: _ => isspace c = true -> isspace d = false
      end
      /\ single_spaced t
  end.

(** A law separator: ten asterisks in a row. *)
Definition separator_run : str := repeat 0x2A%N 10.

(** The text holds a separator somewhere. *)
Definition has_separator (text : str) : Prop :=
  exists before after, text = before ++ separator_run ++ after.

(** The ten characters in front of the offset [b] are a separator. *)
Definition ends_separator (text : str) (b : nat) : Prop :=
  10 <= b /\ substr text (b - 10) b = separator_run.

(** The pattern cannot match without passing a character. *)
Fixpoint consumes (r : Re.regex) : bool :=
  match r with
  | Re.Chr _ | Re.Dot => true
  | Re.Seq a b => consumes a || consumes b
  | Re.Alt a b => consumes a && consumes b
  | Re.Group _ a => consumes a
  | _ => false
  end.

(** The pattern ends with the anchor [$]. *)
Fixpoint ends_at_eol (r : Re.regex) : bool :=
  match r with
  | Re.Eol => true
  | Re.Seq _ b => ends_at_eol b
  | Re.Group _ a => ends_at_eol a
  | _ => false
  end.

(** A text of one line, and a matcher state within such a text. *)
Definition one_line (s : str) : Prop := ~ In newline s.

Definition one_line_state (st : Re.state) : Prop :=
  Re.prev st <> Some newline /\ one_line (Re.rest st).

(** Where the anchor [^] holds at the start of the text only: the flag
    MULTILINE is off, or the text is one line. *)
Definition start_only (fl : Re.flags) (text : str) : Prop :=
  Re.MULTILINE fl = false \/ one_line text.

(** [re.search] finds the pattern in the text. *)
Definition found_in (fl : Re.flags) (r : Re.regex) (text : str) : bool :=
  match Re.search fl r text with
  | Some _ => true
  | None => false
  end.

(** The cleaned text of an article is a header line: the article
    pattern or the single-article pattern is found in it. *)
Definition headed (cleaned : str) : bool :=
  found_in Re.no_flags Patterns.article_pattern cleaned
  || found_in Re.no_flags Patterns.single_article_pattern cleaned.

(** The line names a kind of law: one of the words of
    [extract_law_title_and_date] occurs in it. *)
Definition names_law (line : str) : bool :=
  existsb (fun w => contains w line) Splitter.legal_words.

(** The title that [extract_law_title_and_date] gives a cleaned text of
    one line. *)
Definition title_of_line (line : str) : option str :=
  match Re.search Re.no_flags Patterns.law_title_pattern line with
  | Some mt => Some (strip (Re.group_or_empty mt 1))
  | None => if names_law line then Some line else None
  end.

(** The shape of a Persian number after one of its digits: digits, and
    separators each followed by a digit. *)
Fixpoint number_tail (s : str) : bool :=
  match s with
  | [] => true
  | c :: t =>
      if TextUtils.is_persian_digit c then number_tail t
      else TextUtils.is_number_sep c
           && match t with
              | d :: t' => TextUtils.is_persian_digit d && number_tail t'
              | [] => false
              end
  end.

(** Groups of Persian digits with one dot or slash between them. *)
Definition persian_number (s : str) : bool :=
  match s with
  | c :: t => TextUtils.is_persian_digit c && number_tail t
  | [] => false
  end.

(** The number of times the word occurs among the words. *)
Definition occurrences (word : str) (words : list str) : Z :=
  len (filter (str_eqb word) words).

(** The score of a keyword among the words found: its occurrences,
    counted twice for a legal term. *)
Definition total_score (words : list str) (word : str) : Z :=
  (occurrences word words * TextUtils.keyword_score word)%Z.

(** A list in non-increasing order of [score]. *)
Fixpoint descending {A : Type} (score : A -> Z) (l : list A) : Prop :=
  match l with
  | [] => True
  | x :: rest =>
      match rest with
      | [] => True
      | y :: _ => (score y <= score x)%Z
      end
      /\ descending score rest
  end.

(** [keyword_scores.get(word)] *)
Fixpoint score_of (word : str) (keyword_scores : list (str * Z)) : option Z :=
  match keyword_scores with
  | [] => None
  | (w, n) :: rest => if str_eqb w word then Some n else score_of word rest
  end.

(** The dictionary of [extract_keywords] after the words [seen]: its
    keys are distinct, and the words of the minimal length seen so far
    have their total score. *)
Definition scored (min_length : Z) (seen : list str) (keyword_scores : list (str * Z))
  : Prop :=
  NoDup (map fst keyword_scores)
  /\ forall word,
       score_of word keyword_scores
       = if (min_length <=? len word)%Z && (0 <? occurrences word seen)%Z
         then Some (total_score seen word) else None.

(** The text made of the pieces with the separators between them. *)
Fixpoint weave (pieces seps : list str) : str :=
  match pieces with
  | [] => []
  | p :: ps =>
      match seps with
      | [] => p
      | s :: ss => p ++ s ++ weave ps ss
      end
  end.

(** What separates two sentences: an end mark and the whitespace that
    follows it. *)
Definition sentence_break (s : str) : Prop :=
  exists c ws,
    s = c :: ws /\ TextUtils.is_sentence_end c = true
    /\ ws <> [] /\ Forall (fun d => isspace d = true) ws.

(** The counters of chunk sizes are consistent: none is negative, and
    no more chunks were counted as oversized or undersized than were
    created. *)
Definition sized (s : Chunker.stats) : Prop :=
  (0 <= Chunker.oversized_chunks s)%Z
  /\ (0 <= Chunker.undersized_chunks s)%Z
  /\ (Chunker.oversized_chunks s + Chunker.undersized_chunks s
      <= Chunker.total_chunks_created s)%Z.

(** The offset is the start of a line of the text. *)
Definition line_start (text : str) (i : nat) : Prop :=
  match i with
  | O => True
  | S j => nth_error text j = Some newline
  end.

(** A header tuple of [extract_chapters] or [extract_articles] for a
    header that begins with [word]: it starts at a line start, where
    the text has the word, and its number and title are stripped. *)
Definition header_at (word text : str) (x : str * str * nat * nat) : Prop :=
  let '(num, title0, start_pos, end_pos) := x in
  line_start text start_pos
  /\ startswith word (skipn start_pos text) = true
  /\ start_pos < length text
  /\ strip num = num
  /\ strip title0 = title0.

(** What identifies a chunk within its document: the title of chapter
    [i]; chunk [j] of the article of chapter [i] that starts at the
    counter [c]; chunk [j] of the standalone article [i]; the
    footnotes. *)
Inductive chunk_key : Type :=
| TitleKey : N -> chunk_key
| ChapterKey : N -> N -> N -> chunk_key
| ArticleKey : N -> N -> chunk_key
| FootnoteKey : chunk_key.

(** The identifier of a key, after the identifier of the document. *)
Definition key_suffix (k : chunk_key) : str :=
  match k with
  | TitleKey i =>
      Chunker.ch_tag ++ str_of_N i ++ [Chunker.underscore] ++ zero_pad3 0
  | ChapterKey i c j =>
      Chunker.ch_tag ++ str_of_N i ++ [Chunker.underscore] ++ str_of_N c
        ++ [Chunker.underscore] ++ zero_pad3 j
  | ArticleKey i j =>
      Chunker.art_tag ++ str_of_N i ++ [Chunker.underscore] ++ zero_pad3 j
  | FootnoteKey => Chunker.footnotes_tag
  end.

(** The counters [c], [c + 1], ... of [n] chunks in a row. *)
Fixpoint counters (c : N) (n : nat) : list N :=
  match n with
  | O => []
  | S n' => c :: counters (c + 1) n'
  end.

(** The keys of the chunks, in the order of the identifiers. *)
Fixpoint chapter_article_keys (i c : N) (article_chunks : list (list Models.TextChunk))
  : list chunk_key :=
  match article_chunks with
  | [] => []
  | chunks :: rest =>
      map (ChapterKey i c) (counters 0 (length chunks))
        ++ chapter_article_keys i (c + N.of_nat (length chunks)) rest
  end.

Definition chapter_keys (i : N) (has_title : bool)
  (article_chunks : list (list Models.TextChunk)) : list chunk_key :=
  if has_title then TitleKey i :: chapter_article_keys i 1 article_chunks
  else chapter_article_keys i 0 article_chunks.

Fixpoint chapters_keys (i : N)
  (chapters0 : list (bool * list (list Models.TextChunk))) : list chunk_key :=
  match chapters0 with
  | [] => []
  | (has_title, article_chunks) :: rest =>
      chapter_keys i has_title article_chunks ++ chapters_keys (i + 1) rest
  end.

Fixpoint standalone_keys (i : N) (article_chunks : list (list Models.TextChunk))
  : list chunk_key :=
  match article_chunks with
  | [] => []
  | chunks :: rest =>
      map (ArticleKey i) (counters 0 (length chunks)) ++ standalone_keys (i + 1) rest
  end.

Definition document_keys (chapters0 : list (bool * list (list Models.TextChunk)))
  (article_chunks : list (list Models.TextChunk)) (has_footnotes : bool)
  : list chunk_key :=
  chapters_keys 0 chapters0
    ++ standalone_keys 0 article_chunks
    ++ (if has_footnotes then [FootnoteKey] else []).

(** An ASCII digit. *)
Definition is_digit (c : char) : bool := ((0x30 <=? c) && (c <=? 0x39))%N.

(** A date of digits of one class: a day and a month of one or two
    digits and a year of [year] digits, with slashes between them. *)
Definition date_shape (digit : char -> bool) (year : nat) (s : str) : Prop :=
  exists day month yr,
    s = day ++ Models.slash :: month ++ Models.slash :: yr
    /\ 1 <= length day <= 2
    /\ 1 <= length month <= 2
    /\ length yr = year
    /\ Forall (fun c => digit c = true) (day ++ month ++ yr).

(** The text [w] occurs in [text] at the offset [k] and at no offset
    before it. *)
Definition occurs_first (w text : str) (k : nat) : Prop :=
  startswith w (skipn k text) = true
  /\ forall j, j < k -> startswith w (skipn j text) = false.

(** The number of characters of the class at the head of the text. *)
Fixpoint leading (f : char -> bool) (s : str) : nat :=
  match s with
  | [] => 0
  | c :: t => if f c then S (leading f t) else 0
  end.

(** The state reached from [st] by passing over the characters of the
    class at the head of [s], and by passing over [n] characters. *)
Fixpoint run_class (f : char -> bool) (st : Re.state) (s : str) : Re.state :=
  match s with
  | [] => st
  | c :: t => if f c then run_class f (Re.advance c t st) t else st
  end.

Fixpoint pass (n : nat) (st : Re.state) (s : str) : Re.state :=
  match n, s with
  | S n', c :: t => pass n' (Re.advance c t st) t
  | _, _ => st
  end.

Definition is_asterisk (c : char) : bool := N.eqb 0x2A%N c.

(** The offsets at which [re.finditer] ends its matches of the law
    separator, written on the text alone: a run of ten asterisks or
    more is matched whole; [skip] characters of the run found last are
    still to be passed over. *)
Fixpoint separator_ends (i : nat) (s : str) (skip : nat) : list nat :=
  match s with
  | [] => []
  | c :: t =>
      match skip with
      | S k => separator_ends (S i) t k
      | O =>
          let n := leading is_asterisk s in
          if 10 <=? n then (i + n) :: separator_ends (S i) t (n - 1)
          else separator_ends (S i) t 0
      end
  end.

(** *** What a pattern can match

    A place in the subject is the character before it and the text
    ahead.  [steps fl r p q] says that the pattern [r] can match from the
    place [p] to the place [q]: the relation describes every path the
    matcher may take, without the priorities among them. *)
Definition place : Type := (option char * str)%type.

Definition place_of (st : Re.state) : place := (Re.prev st, Re.rest st).

Definition place_bol (fl : Re.flags) (p : place) : bool :=
  match fst p with
  | None => true
  | Some c => Re.MULTILINE fl && (c =? newline)%N
  end.

Definition place_eol (fl : Re.flags) (p : place) : bool :=
  match snd p with
  | [] => true
  | c :: t => (c =? newline)%N && (Re.MULTILINE fl || is_nil t)
  end.

Inductive steps (fl : Re.flags) : Re.regex -> place -> place -> Prop :=
| steps_eps : forall p, steps fl Re.Eps p p
| steps_chr : forall f pv c t, f c = true -> steps fl (Re.Chr f) (pv, c :: t) (Some c, t)
| steps_dot : forall pv c t,
    Re.dot_ok fl c = true -> steps fl Re.Dot (pv, c :: t) (Some c, t)
| steps_seq : forall r1 r2 p q u,
    steps fl r1 p q -> steps fl r2 q u -> steps fl (Re.Seq r1 r2) p u
| steps_alt_l : forall r1 r2 p q, steps fl r1 p q -> steps fl (Re.Alt r1 r2) p q
| steps_alt_r : forall r1 r2 p q, steps fl r2 p q -> steps fl (Re.Alt r1 r2) p q
| steps_star_stop : forall g r p, steps fl (Re.Star g r) p p
| steps_star_more : forall g r p q u,
    steps fl r p q -> steps fl (Re.Star g r) q u -> steps fl (Re.Star g r) p u
| steps_group : forall n r p q, steps fl r p q -> steps fl (Re.Group n r) p q
| steps_bol : forall p, place_bol fl p = true -> steps fl Re.Bol p p
| steps_eol : forall p, place_eol fl p = true -> steps fl Re.Eol p p
| steps_eot : forall p, snd p = [] -> steps fl Re.Eot p p
| steps_look : forall r p q, steps fl r p q -> steps fl (Re.Look r) p p.

(** The character in front of the place that follows the text
    [before], [pv] being the character in front of that text. *)
Definition prev_after (pv : option char) (before : str) : option char :=
  match before with
  | [] => pv
  | c :: t => Some (last t c)
  end.

(** A match object of the pattern [r] in [text]: it spans a piece [w]
    of the text that the pattern can match where it stands. *)
Definition matched (fl : Re.flags) (r : Re.regex) (text : str) (mt : Re.match_obj)
  : Prop :=
  exists before w after pv',
    text = before ++ w ++ after
    /\ Re.m_start mt = length before
    /\ Re.m_end mt = length before + length w
    /\ steps fl r (prev_after None before, w ++ after) (pv', after).

(** The text between two places, when the second lies ahead of the
    first. *)
Definition between (p q : place) (w : str) : Prop := snd p = w ++ snd q.

(** The chunks [outs] that [add_overlap_to_chunks] makes of the chunks
    [ins] that follow the chunk [prev]: each is the chunk it was made
    of, alone or after a prefix and one space, the words of the prefix
    being the last words of the chunk before. *)
Fixpoint overlapped (prev : str) (ins outs : list str) : Prop :=
  match ins, outs with
  | [], [] => True
  | chunk :: ins', out :: outs' =>
      (out = chunk
       \/ exists prefix front,
            out = prefix ++ [space] ++ chunk /\ split prev = front ++ split prefix)
      /\ overlapped chunk ins' outs'
  | _, _ => False
  end.

(** A score that passes the threshold of [split_document] and is at
    most 1. *)
Definition passing (q : Q) : Prop := (4 # 10 <= q)%Q /\ (q <= 1)%Q.

(** The number written by a string of decimal digits, read from the
    left with [a] as the value so far. *)
Definition val_from (a : N) (s : str) : N :=
  fold_left (fun a c => (a * 10 + (c - 0x30))%N) s a.

(** Laws as [split_document] produces them: each is the record built by
    [process_individual_law] for some text and index, the indexes
    increasing from [lo]. *)
Fixpoint produced (nfkc : str -> str) (isword : char -> bool) (lo : N)
  (laws : list Splitter.LawMetadata) : Prop :=
  match laws with
  | [] => True
  | law :: rest =>
      exists law_text i,
        (lo <= i)%N
        /\ Splitter.process_individual_law nfkc isword law_text i = Some law
        /\ produced nfkc isword (i + 1) rest
  end.

(** One character through the two digit tables of [translate]. *)
Definition to_english1 (c : char) : char :=
  match table_get TextUtils.persian_to_english c with Some d => d | None => c end.
Definition to_persian1 (c : char) : char :=
  match table_get TextUtils.english_to_persian c with Some d => d | None => c end.

(** What a computation guarantees of the result and the statistics
    when it returns. *)
Definition triple {A : Type} (c : M A) (post : stats -> A -> stats -> Prop) : Prop :=
  forall s a s', c s = (Exn.Ok a, s') -> post s a s'.

(** A chunk as the validators of [TextChunk] leave it: the content is
    stripped and not empty, and the two counts are those of the
    content. *)
Definition well_formed_chunk (chunk : Models.TextChunk) : Prop :=
  Models.content chunk <> []
  /\ strip (Models.content chunk) = Models.content chunk
  /\ Models.character_count chunk = len (Models.content chunk)
  /\ Models.word_count chunk = len (split (Models.content chunk))
  /\ (1 <= Models.word_count chunk)%Z.

Definition chunk_type_eqb (a b : Models.ChunkType) : bool :=
  match a, b with
  | Models.ARTICLE, Models.ARTICLE | Models.NOTE, Models.NOTE
  | Models.SUBSECTION, Models.SUBSECTION
  | Models.CHAPTER_TITLE, Models.CHAPTER_TITLE
  | Models.FOOTNOTE, Models.FOOTNOTE | Models.COMBINED, Models.COMBINED => true
  | _, _ => false
  end.

(** The number of chunks of a type. *)
Definition count_type (ty : Models.ChunkType) (chunks : list Models.TextChunk) : Z :=
  len (filter (fun chunk => chunk_type_eqb (Models.chunk_type chunk) ty) chunks).

(** The chunks counted as oversized and as undersized by the final loop
    of [chunk_document]. *)
Definition is_oversized (cfg : config) (chunk : Models.TextChunk) : bool :=
  (max_chunk_size cfg <? Models.character_count chunk)%Z.

Definition is_undersized (cfg : config) (chunk : Models.TextChunk) : bool :=
  negb (is_oversized cfg chunk)
  && (Models.character_count chunk <? min_chunk_size cfg)%Z.

(** The statistics by chunk type after a computation that returned
    [chunks]: the three counters grew by the number of chunks of their
    type and [combined_chunks] did not move. *)
Definition accounted (s : stats) (chunks : list Models.TextChunk) (s' : stats) : Prop :=
  article_chunks s' = (article_chunks s + count_type Models.ARTICLE chunks)%Z
  /\ subsection_chunks s' = (subsection_chunks s + count_type Models.SUBSECTION chunks)%Z
  /\ note_chunks s' = (note_chunks s + count_type Models.NOTE chunks)%Z
  /\ combined_chunks s' = combined_chunks s.

(** The pieces into which [chunk_article] cuts a content, before
    [add_overlap_to_chunks] puts a prefix in front of some of them: the
    content itself when it needs no split. *)
Definition cuts (cfg : config) (content : str) : list str :=
  if should_split_content cfg content then split_long_content_chunks cfg content
  else [content].

(** The pieces of an article, of a chapter and of a document, each with
    the type of the chunk made of it, in the order in which
    [chunk_document] creates the chunks.  Chapter titles and the joined
    footnotes are one piece each. *)
Definition article_cuts (cfg : config) (format_type : Models.SubsectionType -> str)
  (article : Models.LegalArticle) : list (Models.ChunkType * str) :=
  (if truthy (Models.article_content article)
   then map (pair Models.ARTICLE) (cuts cfg (main_content_of article))
   else [])
  ++ flat_map
       (fun subsection =>
          if truthy (Models.subsection_content subsection)
          then map (pair Models.SUBSECTION)
                 (cuts cfg (subsection_content_of format_type article subsection))
          else [])
       (Models.article_subsections article)
  ++ flat_map
       (fun note =>
          if truthy (Models.note_content note)
          then map (pair Models.NOTE) (cuts cfg (note_content_of article note))
          else [])
       (Models.article_notes article).

Definition chapter_cuts (cfg : config) (format_type : Models.SubsectionType -> str)
  (chapter : Models.LegalChapter) : list (Models.ChunkType * str) :=
  (if truthy (Models.chapter_title chapter)
   then [(Models.CHAPTER_TITLE,
          Models.chapter_number chapter ++ dash_sep ++ Models.chapter_title chapter)]
   else [])
  ++ flat_map (article_cuts cfg format_type) (Models.chapter_articles chapter).

Definition document_cuts (cfg : config) (format_type : Models.SubsectionType -> str)
  (document : Models.LegalDocument) : list (Models.ChunkType * str) :=
  flat_map (chapter_cuts cfg format_type) (Models.chapters document)
  ++ flat_map (article_cuts cfg format_type) (Models.standalone_articles document)
  ++ (if truthy (Models.footnotes document)
         && truthy (join blank_line (footnote_lines 0 (Models.footnotes document)))
      then [(Models.FOOTNOTE,
             join blank_line (footnote_lines 0 (Models.footnotes document)))]
      else []).

(** A text made of a piece: the piece alone, or, when overlap is
    configured, a prefix and a space followed by the piece. *)
Definition carries (cfg : config) (piece out : str) : Prop :=
  out = piece
  \/ (chunk_overlap cfg <> 0%Z /\ exists prefix, out = prefix ++ [space] ++ piece).

(** The chunk made of a piece: it has the type of the piece, its
    content is the piece, stripped by the validator of [TextChunk],
    alone or behind an overlap prefix, and its character count is that
    of its content. *)
Definition made_of (cfg : config) (chunk : Models.TextChunk)
  (piece : Models.ChunkType * str) : Prop :=
  Models.chunk_type chunk = fst piece
  /\ Models.character_count chunk = len (Models.content chunk)
  /\ exists out, carries cfg (snd piece) out /\ Models.content chunk = strip out.

(** What [chunk_document] makes of a piece: a chunk made of it, the
    piece of an article, a subsection or a note fitting in the maximum
    unless it is a single word. *)
Definition emitted (cfg : config) (chunk : Models.TextChunk)
  (piece : Models.ChunkType * str) : Prop :=
  made_of cfg chunk piece /\ (splittable (fst piece) -> fits cfg (snd piece)).

(** The pattern [r] can match in [text] at the offset [i]. *)
Definition matches_at (fl : Re.flags) (r : Re.regex) (text : str) (i : nat) : Prop :=
  exists before s q,
    text = before ++ s /\ i = length before
    /\ steps fl r (prev_after None before, s) q.

(** Spans cut at the headers of a family, the headers being the places
    where one of the patterns of the family matches: every span starts
    at a header, and wherever there is a header there are spans, the
    first of them starts at that header or before it, and the spans
    cover the text from that header to the end. *)
Definition cut_at_headers (fl : Re.flags) (patterns : list Re.regex) (text : str)
  (spans : list (nat * nat)) : Prop :=
  Forall (fun ab => exists r, In r patterns /\ matches_at fl r text (fst ab)) spans
  /\ forall r i,
       In r patterns -> matches_at fl r text i ->
       spans <> []
       /\ first_start (length text) spans <= i
       /\ covers_from i (length text) spans.

(** [(note_start, note_end)] for each note of [extract_notes]: the
    offsets between which the text of the note is cut. *)
Fixpoint note_spans_from (article_text : str) (note_matches : list Re.match_obj)
  : list (nat * nat) :=
  match note_matches with
  | [] => []
  | mt :: rest =>
      (Re.m_start mt,
       match rest with
       | next :: _ => Re.m_start next
       | [] => length article_text
       end) :: note_spans_from article_text rest
  end.

Definition note_spans (article_text : str) : list (nat * nat) :=
  note_spans_from article_text
    (Re.finditer Re.multiline Patterns.note_pattern article_text).

(** The content that [extract_notes] gives the note cut between two
    offsets: the text between them, stripped, without its header. *)
Definition note_content_between (article_text : str) (ab : nat * nat) : str :=
  strip (Re.sub_count Re.no_flags Patterns.note_pattern (fun _ => []) 1
           (strip (substr article_text (fst ab) (snd ab)))).


(** A class of characters on a neighbour that may be missing: [opt]
    asks for a neighbour of the class, [free] for no whitespace on that
    side (no neighbour, or one that is not whitespace). *)
Definition opt (f : char -> bool) (x : option char) : bool :=
  match x with
  | Some c => f c
  | None => false
  end.

Definition free (x : option char) : bool :=
  match x with
  | Some c => Re.not_space c
  | None => true
  end.

(** [P x y z] for every character [y] of the text, [x] being the
    character before it ([before] for the first one) and [z] the
    character after it, [None] where there is none. *)
Fixpoint neighbours (P : option char -> char -> option char -> Prop)
  (before : option char) (s : str) : Prop :=
  match s with
  | [] => True
  | c :: t => P before c (hd_error t) /\ neighbours P (Some c) t
  end.

(** A whitespace character is a plain space that stands next to a
    parenthesis, or between two characters that are not whitespace.
    So two spaces follow each other only where a parenthesis comes
    before the first and another after the second, and three never
    do.  In the loose form the end of the text counts as no
    whitespace. *)
Definition space_alone (x : option char) (y : char) (z : option char) : Prop :=
  isspace y = true ->
  y = space
  /\ (opt TextUtils.is_paren x = true \/ opt TextUtils.is_paren z = true
      \/ (opt Re.not_space x = true /\ opt Re.not_space z = true)).

Definition space_alone_loose (x : option char) (y : char) (z : option char) : Prop :=
  isspace y = true ->
  opt TextUtils.is_paren x = true \/ opt TextUtils.is_paren z = true
  \/ (free x = true /\ free z = true).

(** The character after a character of class [cls] is a space, and the
    character after that space is not whitespace: exactly one space
    follows. *)
Definition one_space_after (cls : char -> bool)
  (x : option char) (y : char) (z : option char) : Prop :=
  opt cls x = true -> y = space /\ opt Re.not_space z = true.

(** A space in front of a punctuation mark is the space that follows
    another mark or a parenthesis. *)
Definition space_before_mark (x : option char) (y : char) (z : option char) : Prop :=
  isspace y = true -> opt TextUtils.is_punct z = true ->
  opt TextUtils.is_punct x = true \/ opt TextUtils.is_paren x = true.

(** One space on each side of every character of class [cls], but for
    the ends of the text and for two of them next to each other: a
    character of the class that is not the last one is followed by a
    space and then by a character that is not whitespace, unless
    another character of the class comes right after that one; and the
    same on its left. *)
Definition one_space_beside (cls : char -> bool) (s : str) : Prop :=
  forall a p b,
    s = a ++ p :: b -> cls p = true ->
    (b = []
     \/ exists e b',
          b = space :: e :: b'
          /\ (isspace e = false \/ opt cls (hd_error b') = true))
    /\ (a = []
        \/ exists a' e,
             a = a' ++ [e; space]
             /\ (isspace e = false \/ opt cls (prev_after None a') = true)).

(** After the punctuation rule: whitespace is single, and a space in
    front of a mark follows another mark. *)
Definition after_marks (x : option char) (y : char) (z : option char) : Prop :=
  isspace y = true ->
  opt isspace z = false
  /\ (opt TextUtils.is_punct z = true -> opt TextUtils.is_punct x = true).

End Spec.

(** The Unicode tables at the inputs used below. *)

Module Unicode.
Import Py.

(** The primary composites of an Arabic letter with madda above
    (U+0653), hamza above (U+0654) and hamza below (U+0655). *)
Definition compose (base mark : char) : option char :=
  (if (base =? 0x627) && (mark =? 0x653) then Some 0x622
   else if (base =? 0x627) && (mark =? 0x654) then Some 0x623
   else if (base =? 0x648) && (mark =? 0x654) then Some 0x624
   else if (base =? 0x627) && (mark =? 0x655) then Some 0x625
   else if (base =? 0x64A) && (mark =? 0x654) then Some 0x626
   else if (base =? 0x6D5) && (mark =? 0x654) then Some 0x6C0
   else if (base =? 0x6C1) && (mark =? 0x654) then Some 0x6C2
   else if (base =? 0x6D2) && (mark =? 0x654) then Some 0x6D3
   else None)%N.

(** Modelled from the spec: [unicodedata.normalize('NFKC', text)], the
    "Unicode canonical-composition normalization" of section 4.1, is a
    routine of the interpreter.  This is its composition step on
    Arabic text: a base letter directly followed by its combining mark
    becomes the precomposed letter, every other character is kept.
    Compatibility mappings and the reordering of marks are left out:
    the function is the routine's result on every text at which it is
    evaluated in this file. *)
Fixpoint nfkc (s : str) : str :=
  match s with
  | [] => []
  | b :: rest =>
      match rest with
      | [] => [b]
      | mk :: rest' =>
          match compose b mk with
          | Some c => c :: nfkc rest'
          | None => b :: nfkc rest
          end
      end
  end.

(** Modelled from the spec: the class [\d] of the interpreter's
    regular expressions, restricted to ASCII and the Arabic block
    U+0600..U+06FF, where it is the ASCII, Arabic-Indic and Persian
    digits. *)
Definition isdecimal (c : char) : bool :=
  (Re.in_range 0x30 0x39 c || Re.in_range 0x660 0x669 c
   || Re.in_range 0x6F0 0x6F9 c)%N.

(** Modelled from the spec: the class [\w] of the interpreter's
    regular expressions, restricted to ASCII and the Arabic block
    U+0600..U+06FF: letters, digits and the underscore. *)
Definition isword (c : char) : bool :=
  (Re.in_range 0x30 0x39 c || Re.in_range 0x41 0x5A c || Re.in_range 0x61 0x7A c
   || (c =? 0x5F)
   || Re.in_range 0x620 0x64A c || Re.in_range 0x660 0x669 c
   || Re.in_range 0x66E 0x66F c || Re.in_range 0x671 0x6D3 c || (c =? 0x6D5)
   || Re.in_range 0x6E5 0x6E6 c || Re.in_range 0x6EE 0x6FC c || (c =? 0x6FF))%N.

End Unicode.

Module Inputs.
Import Py Chunker.

(** A small configuration with the overlap below the maximum, as
    [ProcessingConfig] requires. *)
Definition small : config :=
  {| min_chunk_size := 5; max_chunk_size := 20; chunk_overlap := 10 |}.

Definition four_words : str := utf8 "aaaaaaaaa bbbbbbbbb ccccccccc d".

(** 189 words of nine letters and one of eleven: 1901 characters, with
    no sentence end. *)
Definition many_words : str :=
  join [space] (repeat (utf8 "aaaaaaaaa") 189 ++ [utf8 "bbbbbbbbbbb"]).

(** The same sizes with no overlap. *)
Definition no_overlap : config :=
  {| min_chunk_size := 5; max_chunk_size := 20; chunk_overlap := 0 |}.

(** A [SubsectionType] member rendered as its value, as interpreters
    before 3.11 do. *)
Definition format_value (ty : Models.SubsectionType) : str :=
  match ty with
  | Models.NUMBERED => utf8 "numbered"
  | Models.LETTERED => utf8 "lettered"
  | Models.DASH => utf8 "dash"
  end.

(** A validated article: the content is stripped and is not empty. *)
Definition article_1 : Models.LegalArticle :=
  {| Models.article_number := utf8 "ماده ۱";
     Models.article_title := utf8 "تعاریف";
     Models.article_content := utf8 "این متن بلند است و باید به چند بخش تقسیم شود";
     Models.article_subsections :=
       [ {| Models.subsection_number := utf8 "۱";
            Models.subsection_content := utf8 "بند اول";
            Models.subsection_type := Models.NUMBERED |} ];
     Models.article_notes :=
       [ {| Models.note_number := utf8 "تبصره ۱";
            Models.note_content := utf8 "متن تبصره";
            Models.note_subsections := [] |} ];
     Models.article_word_count := 10 |}.

Definition article_2 : Models.LegalArticle :=
  {| Models.article_number := utf8 "ماده ۲";
     Models.article_title := [];
     Models.article_content := utf8 "متن کوتاه";
     Models.article_subsections := [];
     Models.article_notes := [];
     Models.article_word_count := 2 |}.

(** A document with two chapters, the second one without a title, and
    a footnote. *)
Definition two_chapters : Models.LegalDocument :=
  {| Models.document_title := utf8 "قانون نمونه";
     Models.chapters :=
       [ {| Models.chapter_number := utf8 "فصل اول";
            Models.chapter_title := utf8 "کلیات";
            Models.chapter_articles := [article_1; article_2] |};
         {| Models.chapter_number := utf8 "فصل دوم";
            Models.chapter_title := [];
            Models.chapter_articles := [article_2] |} ];
     Models.standalone_articles := [];
     Models.footnotes := [utf8 "اصلاحی ۱۳۷۰"] |}.

(** A document whose only content is forty footnotes of 27
    characters. *)
Definition forty_footnotes : Models.LegalDocument :=
  {| Models.document_title := utf8 "قانون نمونه";
     Models.chapters := [];
     Models.standalone_articles := [];
     Models.footnotes := repeat (utf8 "یک پاورقی نمونه برای آزمایش") 40 |}.

(** A document of one article whose content starts with a word of 25
    letters, longer than the maximum of the small configurations. *)
Definition long_word : Models.LegalDocument :=
  {| Models.document_title := utf8 "قانون نمونه";
     Models.chapters := [];
     Models.standalone_articles :=
       [ {| Models.article_number := utf8 "ماده ۳";
            Models.article_title := [];
            Models.article_content := utf8 "aaaaaaaaaaaaaaaaaaaaaaaaa b c";
            Models.article_subsections := [];
            Models.article_notes := [];
            Models.article_word_count := 3 |} ];
     Models.footnotes := [] |}.

(** A law with a preamble line before its only chapter header. *)
Definition preamble_then_chapter : str :=
  utf8 "مقدمه" ++ [newline] ++ utf8 "فصل اول - کلیات" ++ [newline]
    ++ utf8 "ماده ۱ - تعاریف".

(** The law record of example scenario 2 of the specification. *)
Definition short_article : str := utf8 "ماده ۱ - این یک متن کوتاه است.".


(** A reference to two items in parentheses, one after the other. *)
Definition two_items : str := utf8 "بند (الف)(ب)".

(** Two items in parentheses followed by two punctuation marks. *)
Definition items_and_marks : str := utf8 "(الف)(ب)!.".

(** Alef with madda above followed by a second madda (U+0622 U+0653). *)
Definition alef_madda_madda : str := [0x622; 0x653]%N.

(** The word for "book" written with the Arabic kaf (U+0643). *)
Definition ketab_arabic_kaf : str := [0x643; 0x62A; 0x627; 0x628]%N.

End Inputs.

(** * Properties *)

(** ** The model at a few inputs

    The expected values are those of the Python interpreter for the same
    calls. *)

Module Checks.
Import Py.

Example finditer_empty_alternative :
  map (fun mt => (Re.m_start mt, Re.m_end mt))
    (Re.finditer Re.no_flags (Re.Alt Re.Eps (Re.Chr (N.eqb 0x61))) (utf8 "a"))
  = [(0, 0); (0, 1); (1, 1)].
Proof. vm_compute. reflexivity. Qed.

Example sub_star_empty_matches :
  Re.sub Re.no_flags (Re.Star true (Re.Chr (N.eqb 0x78))) (fun _ => utf8 "-")
    (utf8 "abxd")
  = utf8 "-a-b--d-".
Proof. vm_compute. reflexivity. Qed.

Example clean_text_spaces_and_marks :
  TextUtils.clean_text Unicode.nfkc (utf8 "  ماده ۱ .متن  ( الف )،ادامه  ")
  = utf8 "ماده ۱. متن ( الف ) ، ادامه".
Proof. vm_compute. reflexivity. Qed.

Example law_boundaries_two_separators :
  Splitter.identify_law_boundaries
    (utf8 "x" ++ [newline] ++ utf8 "************" ++ [newline]
       ++ utf8 "law two text" ++ [newline] ++ utf8 "*********" ++ [newline]
       ++ utf8 "more**********")
  = [(0, 14); (14, 52)].
Proof. vm_compute. reflexivity. Qed.

Example articles_single_article_matched_twice :
  map Spec.span_of
    (Parser.extract_articles
       (utf8 "ماده ۱ - تعاریف" ++ [newline] ++ utf8 "ماده واحده - متن"))
  = [(0, 16); (16, 16); (16, 32)].
Proof. vm_compute. reflexivity. Qed.

Example split_long_content_by_sentences :
  Chunker.split_long_content Inputs.small
    (utf8 "first sentence here. second sentence here! third one is longer")
  = [utf8 "first sentence here"; utf8 "second sentence here";
     utf8 "third one is longer"].
Proof. vm_compute. reflexivity. Qed.

Example chunk_document_positions :
  match fst (Chunker.chunk_document Inputs.small Inputs.format_value
               Inputs.two_chapters Chunker.stats0) with
  | Exn.Ok chunks => map Models.position chunks
  | Exn.Raise _ => []
  end
  = [0; 1; 1; 1; 1; 1; 1; 1; 1; 2; 11; 11]%Z.
Proof. vm_compute. reflexivity. Qed.

Example split_document_keeps_one_of_two :
  let out :=
    Splitter.split_document Unicode.nfkc Unicode.isword
      [ utf8 "قانون مقررات انتظامی هیئت علمی";
        utf8 "ماده ۱ - هیئت علمی موظف به رعایت مقررات این قانون هستند.";
        utf8 "************";
        utf8 "متن کوتاه" ] in
  map Splitter.id (fst out) = [utf8 "law_001"]
  /\ map (fun m => Qred (Splitter.quality_score m)) (fst out) = [(4 # 5)%Q]
  /\ snd out
     = {| Splitter.total_laws_found := 2; Splitter.valid_laws := 1;
          Splitter.invalid_laws := 1 |}.
Proof. vm_compute. repeat split; reflexivity. Qed.

End Checks.

(** ** Words, joining and stripping *)

Module PyFacts.
Import Py.

Lemma space_isspace : isspace space = true.
Proof. reflexivity. Qed.

Lemma no_space_app (a b : str) : no_space a -> no_space b -> no_space (a ++ b).
Proof. unfold no_space; intros; apply Forall_app; auto. Qed.

Lemma words_from_app (w : str) :
  no_space w -> forall cur rest, words_from cur (w ++ rest) = words_from (cur ++ w) rest.
Proof.
  induction 1 as [|c w Hc Hw IH]; intros cur rest; simpl.
  - now rewrite app_nil_r.
  - rewrite Hc, IH, <- app_assoc. reflexivity.
Qed.

Lemma flush_word (w : str) : w <> [] -> flush w = [w].
Proof. destruct w; [congruence | reflexivity]. Qed.

Lemma words_from_words (s : str) :
  forall cur, no_space cur -> Forall word (words_from cur s).
Proof.
  induction s as [|c t IH]; intros cur Hcur; simpl.
  - destruct cur; simpl; constructor; [split; [discriminate | assumption] | constructor].
  - destruct (isspace c) eqn:Hc.
    + apply Forall_app; split.
      * destruct cur; simpl; constructor; [split; [discriminate | assumption] | constructor].
      * apply IH; constructor.
    + apply IH. apply no_space_app; [assumption | repeat constructor; assumption].
Qed.

Lemma split_words (s : str) : Forall word (split s).
Proof. apply words_from_words; constructor. Qed.

Lemma split_word (w : str) : word w -> split w = [w].
Proof.
  intros [Hne Hns]. unfold split.
  rewrite <- (app_nil_r w) at 1. rewrite words_from_app by assumption.
  simpl. now apply flush_word.
Qed.

Lemma split_join (ws : list str) : Forall word ws -> split (join [space] ws) = ws.
Proof.
  induction 1 as [|w rest Hw Hrest IH]; [reflexivity|].
  simpl. destruct rest as [|w' rest'].
  - now apply split_word.
  - unfold split. destruct Hw as [Hne Hns].
    rewrite words_from_app by assumption. simpl.
    rewrite flush_word by assumption. simpl. f_equal. exact IH.
Qed.

Lemma join_nonempty (sep : str) (ws : list str) :
  ws <> [] -> Forall word ws -> join sep ws <> [].
Proof.
  intros Hne Hws. destruct Hws as [|w rest [Hw _] _]; [congruence|].
  simpl. destruct rest; [assumption|].
  destruct w; [congruence | discriminate].
Qed.

Lemma len_app {A : Type} (a b : list A) : len (a ++ b) = (len a + len b)%Z.
Proof. unfold len. rewrite length_app. lia. Qed.

Lemma len_nonneg {A : Type} (a : list A) : (0 <= len a)%Z.
Proof. unfold len. lia. Qed.

Lemma len_cons {A : Type} (x : A) (a : list A) : len (x :: a) = (len a + 1)%Z.
Proof. unfold len. simpl length. lia. Qed.

End PyFacts.

(** ** The greedy word packing of [split_by_words] *)

Module WordPacking.
Import Py PyFacts Chunker Spec.

Section WithConfig.

Variable cfg : config.

Lemma join_snoc (sep : str) (cur : list str) (w : str) :
  cur <> [] -> join sep (cur ++ [w]) = join sep cur ++ sep ++ w.
Proof.
  induction cur as [|x rest IH]; [congruence|]. intros _.
  destruct rest as [|y rest'].
  - reflexivity.
  - change (join sep ((x :: y :: rest') ++ [w]))
      with (x ++ sep ++ join sep ((y :: rest') ++ [w])).
    rewrite IH by discriminate.
    change (join sep (x :: y :: rest')) with (x ++ sep ++ join sep (y :: rest')).
    now rewrite <- !app_assoc.
Qed.

Lemma tracks_snoc (cur : list str) (cl : Z) (w : str) :
  tracks cur cl -> tracks (cur ++ [w]) (cl + (len w + 1)).
Proof.
  unfold tracks. destruct cur as [|x rest]; intros ->.
  - simpl. lia.
  - simpl app. cbv beta iota.
    change (x :: rest ++ [w]) with ((x :: rest) ++ [w]).
    rewrite join_snoc by discriminate. rewrite !len_app.
    change (len [space]) with 1%Z. lia.
Qed.

(** The words of the chunks, in order, are the words given. *)
Lemma flat_snoc (chunks : list str) (cur : list str) :
  Forall word cur ->
  concat (map split (chunks ++ [join [space] cur])) = concat (map split chunks) ++ cur.
Proof.
  intros Hcur. rewrite map_app, concat_app. cbn [map concat].
  rewrite split_join by assumption. now rewrite app_nil_r.
Qed.

Lemma pack_words_flat (words : list str) :
  forall chunks cur cl,
    Forall word words -> Forall word cur ->
    concat (map split (pack_words cfg words chunks cur cl))
    = concat (map split chunks) ++ cur ++ words.
Proof.
  induction words as [|w rest IH]; intros chunks cur cl Hws Hcur;
    cbn [pack_words].
  - rewrite app_nil_r. destruct cur as [|x cur']; cbn [truthy is_nil negb].
    + now rewrite app_nil_r.
    + now apply flat_snoc.
  - inversion Hws as [|? ? Hw Hrest]; subst.
    destruct (_ <=? _)%Z.
    + rewrite IH; auto.
      * now rewrite <- app_assoc.
      * apply Forall_app; auto.
    + rewrite IH; auto. destruct cur as [|x cur']; cbn [truthy is_nil negb].
      * reflexivity.
      * rewrite flat_snoc by assumption. now rewrite <- !app_assoc.
Qed.

Lemma current_ok_chunk (cur : list str) (cl : Z) :
  current_ok cfg cur cl -> cur <> [] -> fits_or_word cfg (join [space] cur).
Proof.
  intros (Ht & Hw & Hb) Hne. split.
  - now apply join_nonempty.
  - destruct Hb as [Hb | [Hb | [w ->]]]; [congruence | |].
    + left. destruct cur; [congruence|]. unfold tracks in Ht. lia.
    + right. simpl. inversion Hw as [|? ? [_ Hns] _]; subst. exact Hns.
Qed.

Lemma pack_words_chunks (words : list str) :
  forall chunks cur cl,
    Forall word words -> current_ok cfg cur cl -> Forall (fits_or_word cfg) chunks ->
    Forall (fits_or_word cfg) (pack_words cfg words chunks cur cl).
Proof.
  assert (Hflush : forall chunks cur cl,
             current_ok cfg cur cl -> Forall (fits_or_word cfg) chunks ->
             Forall (fits_or_word cfg)
               (if truthy cur then chunks ++ [join [space] cur] else chunks)).
  { intros chunks cur cl Hcur Hch.
    destruct cur as [|x cur'] eqn:E; cbn [truthy is_nil negb]; [assumption|].
    apply Forall_app; split; [assumption|]. constructor; [|constructor].
    apply (current_ok_chunk Hcur). discriminate. }
  induction words as [|w rest IH]; intros chunks cur cl Hws Hcur Hch;
    cbn [pack_words].
  - now apply Hflush with cl.
  - inversion Hws as [|? ? Hw Hrest]; subst.
    destruct (_ <=? _)%Z eqn:Hle.
    + apply IH; auto. destruct Hcur as (Ht & Hwc & _).
      split; [|split].
      * now apply tracks_snoc.
      * apply Forall_app; auto.
      * right; left. lia.
    + apply IH; auto.
      * split; [reflexivity | split; [auto | right; right; eauto]].
      * now apply Hflush with cl.
Qed.

Lemma split_by_words_chunks (content : str) :
  Forall (fits_or_word cfg) (split_by_words cfg content).
Proof.
  apply pack_words_chunks.
  - apply split_words.
  - split; [reflexivity | split; [constructor | now left]].
  - constructor.
Qed.

Lemma split_by_words_flat (content : str) :
  concat (map split (split_by_words cfg content)) = split content.
Proof.
  unfold split_by_words. rewrite pack_words_flat.
  - reflexivity.
  - apply split_words.
  - constructor.
Qed.

End WithConfig.

End WordPacking.

(** C10.  For every configuration and every string, the chunks returned
    by [split_by_words] are all non-empty, and splitting each chunk
    back into whitespace-delimited words and concatenating the lists
    gives exactly the words of the string, in their order: no word is
    lost, duplicated or moved. *)
Theorem C10_split_by_words_keeps_the_words (cfg : Chunker.config) (s : Py.str) :
  Forall (fun chunk => chunk <> []) (Chunker.split_by_words cfg s)
  /\ concat (map Py.split (Chunker.split_by_words cfg s)) = Py.split s.
Proof.
  split.
  - eapply Forall_impl; [|apply WordPacking.split_by_words_chunks].
    intros c [Hne _]. exact Hne.
  - apply WordPacking.split_by_words_flat.
Qed.

(** C4.  The text ["aaaaaaaaa bbbbbbbbb ccccccccc d"] (31 characters) is
    split with a maximum of 20 and an overlap of 10, that is one word.
    The second chunk, ["ccccccccc d"], is given the prefix
    ["bbbbbbbbb"] because 9 + 11 <= 20, and the combined chunk has 21
    characters: it was prefixed although the result does not fit.
    The same happens with the configuration of the repository (maximum
    1000, overlap 100, that is ten words): the 1901 characters of
    [Inputs.many_words] are packed into chunks of 999 and 901
    characters, the second one receives the last ten words of the first
    (99 characters, and 99 + 901 <= 1000), and has 1001 characters. *)
Theorem C4_overlap_prefix_added_beyond_the_maximum :
  Chunker.split_long_content Inputs.small Inputs.four_words
  = [Py.utf8 "aaaaaaaaa bbbbbbbbb"; Py.utf8 "bbbbbbbbb ccccccccc d"]
  /\ Chunker.with_overlap Inputs.small (Py.utf8 "aaaaaaaaa bbbbbbbbb")
       (Py.utf8 "ccccccccc d")
     = Py.utf8 "bbbbbbbbb" ++ [Py.space] ++ Py.utf8 "ccccccccc d"
  /\ (Py.len (Py.utf8 "bbbbbbbbb ccccccccc d") > Chunker.max_chunk_size Inputs.small)%Z
  /\ map Py.len (Chunker.split_by_words Chunker.DOCUMENT_CONFIG Inputs.many_words)
     = [999; 901]%Z
  /\ map Py.len (Chunker.split_long_content Chunker.DOCUMENT_CONFIG Inputs.many_words)
     = [999; 1001]%Z
  /\ (1001 > Chunker.max_chunk_size Chunker.DOCUMENT_CONFIG)%Z.
Proof. vm_compute. repeat split; reflexivity. Qed.

(** ** The splitter's quality threshold *)

Module SplitterFacts.
Import Py PyFacts Splitter Spec.

Section Unicode.

Variable nfkc : str -> str.
Variable isword : char -> bool.

Lemma processed_long_enough (law_text : str) (i : N) (m : LawMetadata) :
  process_individual_law nfkc isword law_text i = Some m ->
  (min_law_length <= len (raw_content m))%Z.
Proof.
  unfold process_individual_law.
  destruct (len (TextUtils.clean_text nfkc law_text) <? min_law_length)%Z eqn:E;
    [discriminate|].
  intros [= <-]. cbn [raw_content]. lia.
Qed.

Lemma split_loop_spec (full_text : str) (boundaries : list (nat * nat)) :
  forall i valid st,
    Forall kept_ok valid ->
    let out := split_loop nfkc isword full_text i boundaries valid st in
    Forall kept_ok (fst out)
    /\ (valid_laws (snd out) - valid_laws st = len (fst out) - len valid)%Z
    /\ (valid_laws (snd out) + invalid_laws (snd out)
        = valid_laws st + invalid_laws st + len (nonblank_spans full_text boundaries))%Z.
Proof.
  induction boundaries as [|[start stop] rest IH]; intros i valid st Hvalid;
    cbn [split_loop nonblank_spans filter fst snd].
  - cbn. repeat split; [assumption | lia | lia].
  - fold (nonblank_spans full_text rest).
    destruct (truthy (strip (substr full_text start stop))) eqn:Hblank.
    + rewrite len_cons.
      destruct (process_individual_law nfkc isword _ i) as [m|] eqn:Hproc.
      * destruct (Qle_bool (4 # 10) (quality_score m)) eqn:Hq.
        -- match goal with
           | |- context [split_loop _ _ _ ?i' _ ?v ?s] =>
               specialize (IH i' v s)
           end.
           destruct IH as (H1 & H2 & H3).
           { apply Forall_app; split; [assumption|].
             constructor; [|constructor]. split.
             - now apply Qle_bool_iff.
             - eapply processed_long_enough; eassumption. }
           rewrite len_app in H2. cbn [valid_laws invalid_laws] in *.
           change (len [m]) with 1%Z in H2.
           repeat split; [assumption | lia | lia].
        -- match goal with
           | |- context [split_loop _ _ _ ?i' _ ?v ?s] =>
               specialize (IH i' v s Hvalid)
           end.
           destruct IH as (H1 & H2 & H3). cbn [valid_laws invalid_laws] in *.
           repeat split; [assumption | lia | lia].
      * match goal with
        | |- context [split_loop _ _ _ ?i' _ ?v ?s] =>
            specialize (IH i' v s Hvalid)
        end.
        destruct IH as (H1 & H2 & H3). cbn [valid_laws invalid_laws] in *.
        repeat split; [assumption | lia | lia].
    + apply IH. assumption.
Qed.

End Unicode.

End SplitterFacts.

(** C6.  For every document (sequence of paragraphs), every law record
    kept by [split_document] has a quality score of at least 0.4 and a
    cleaned text of at least 50 characters.  The counter of valid laws
    is the number of records kept, and every other processed record
    (one scoring below 0.4, or too short) is counted as invalid: the
    two counters add up to the number of non-blank spans. *)
Theorem C6_kept_records_pass_the_quality_threshold
  (nfkc : Py.str -> Py.str) (isword : Py.char -> bool) (paragraphs : list Py.str) :
  let out := Splitter.split_document nfkc isword paragraphs in
  let full_text := Splitter.read_docx_file paragraphs in
  Forall Spec.kept_ok (fst out)
  /\ Splitter.valid_laws (snd out) = Py.len (fst out)
  /\ (Splitter.valid_laws (snd out) + Splitter.invalid_laws (snd out)
      = Py.len (Spec.nonblank_spans full_text
                  (Splitter.identify_law_boundaries full_text)))%Z.
Proof.
  intros out full_text. subst out. unfold Splitter.split_document.
  fold full_text.
  pose proof (@SplitterFacts.split_loop_spec nfkc isword full_text
                (Splitter.identify_law_boundaries full_text) 0%N []
                {| Splitter.total_laws_found :=
                     Py.len (Splitter.identify_law_boundaries full_text);
                   Splitter.valid_laws := 0; Splitter.invalid_laws := 0 |}
                (Forall_nil _)) as (H1 & H2 & H3).
  cbn [Splitter.valid_laws Splitter.invalid_laws] in H2, H3.
  change (Py.len (@nil Splitter.LawMetadata)) with 0%Z in H2.
  repeat split; [exact H1 | lia | lia].
Qed.

(** C9.  An empty paragraph sequence gives no law record and counters
    at zero (the function returns: nothing in it can raise), and a
    [ProcessingReport] whose [total_items] is 0 has a [success_rate]
    of 0. *)
Theorem C9_empty_input_gives_nothing
  (nfkc : Py.str -> Py.str) (isword : Py.char -> bool)
  (r : Models.ProcessingReport) (Hzero : Models.total_items r = 0%Z) :
  Splitter.split_document nfkc isword []
  = ([], {| Splitter.total_laws_found := 0; Splitter.valid_laws := 0;
            Splitter.invalid_laws := 0 |})
  /\ Models.success_rate r = 0%Q.
Proof.
  split.
  - reflexivity.
  - unfold Models.success_rate. rewrite Hzero. reflexivity.
Qed.

Lemma C9_empty_input_witness :
  Splitter.split_document (fun x => x) (fun _ => false) []
  = ([], {| Splitter.total_laws_found := 0; Splitter.valid_laws := 0;
            Splitter.invalid_laws := 0 |})
  /\ Models.success_rate
       {| Models.total_items := 0; Models.processed_items := 0;
          Models.failed_items := 0 |} = 0%Q.
Proof.
  apply (C9_empty_input_gives_nothing (fun x => x) (fun _ => false)
           {| Models.total_items := 0; Models.processed_items := 0;
              Models.failed_items := 0 |}).
  reflexivity.
Defined.

(** ** The matcher only moves forward *)

Module ReFacts.
Import Py Re Spec.

Lemma reached_refl (st : state) : reached st st.
Proof. split; lia. Qed.

Lemma reached_trans (a b c : state) : reached a b -> reached b c -> reached a c.
Proof. unfold reached. intros [? ?] [? ?]. split; lia. Qed.

Lemma m_forward (fl : flags) (r : regex) :
  forall st k res,
    m fl r st k = Some res -> exists st', k st' = Some res /\ reached st st'.
Proof.
  induction r as [ | p | | r1 IH1 r2 IH2 | r1 IH1 r2 IH2 | g r1 IH1
                 | n r1 IH1 | | | | r1 IH1 ]; intros st k res H; cbn [m] in H.
  - exists st. split; [assumption | apply reached_refl].
  - destruct (rest st) as [|c t] eqn:E; [discriminate|].
    destruct (p c); [|discriminate].
    eexists; split; [eassumption|]. unfold reached, advance; cbn. rewrite E. cbn. lia.
  - destruct (rest st) as [|c t] eqn:E; [discriminate|].
    destruct (dot_ok fl c); [|discriminate].
    eexists; split; [eassumption|]. unfold reached, advance; cbn. rewrite E. cbn. lia.
  - apply IH1 in H. destruct H as (st1 & H & R1).
    apply IH2 in H. destruct H as (st2 & H & R2).
    exists st2. split; [assumption | eapply reached_trans; eassumption].
  - unfold orelse in H. destruct (m fl r1 st k) eqn:E.
    + injection H as <-. now apply IH1.
    + now apply IH2.
  - revert H. generalize (S (length (rest st))). intros n. revert st res.
    induction n as [|n IHn]; intros st res H; cbn [star_loop] in H.
    + exists st. split; [assumption | apply reached_refl].
    + assert (Hmore : forall x,
                m fl r1 st
                  (fun st1 => if pos st <? pos st1
                              then star_loop (m fl r1) g k n st1 else None)
                = Some x ->
                exists st', k st' = Some x /\ reached st st').
      { intros x Hx. apply IH1 in Hx.
        destruct Hx as (st1 & Hx & R1).
        destruct (pos st <? pos st1); [|discriminate].
        apply IHn in Hx. destruct Hx as (st2 & Hx & R2).
        exists st2. split; [assumption | eapply reached_trans; eassumption]. }
      assert (Hk : forall x, k st = Some x ->
                exists st', k st' = Some x /\ reached st st').
      { intros x Hx. exists st. split; [assumption | apply reached_refl]. }
      unfold orelse in H. destruct g.
      * destruct (m fl r1 st _) as [x|]; [injection H as <-; now apply Hmore | now apply Hk].
      * destruct (k st) as [x|]; [injection H as <-; now apply Hk | now apply Hmore].
  - apply IH1 in H. destruct H as (st1 & H & R1).
    eexists; split; [eassumption|]. exact R1.
  - destruct (at_bol fl st); [|discriminate].
    exists st. split; [assumption | apply reached_refl].
  - destruct (at_eol fl st); [|discriminate].
    exists st. split; [assumption | apply reached_refl].
  - destruct (is_nil (rest st)); [|discriminate].
    exists st. split; [assumption | apply reached_refl].
  - destruct (m fl r1 st Some); [|discriminate].
    eexists; split; [eassumption|]. split; cbn; lia.
Qed.

Lemma ordered_from_weaken (n : nat) (ms : list match_obj) (lo lo' : nat) :
  lo' <= lo -> ordered_from lo n ms -> ordered_from lo' n ms.
Proof.
  destruct ms as [|mt rest]; [trivial|]. cbn. intros Hle (H1 & H2 & H3 & H4).
  repeat split; try assumption; lia.
Qed.

(** The matches found at one index, and the jump that follows. *)
Lemma attempt_ordered (fl : flags) (r : regex) (i : nat) (pv : option char) (s : str) :
  forall tail,
    let ms := fst (attempt fl r i pv s) in
    let jump := snd (attempt fl r i pv s) in
    jump <= length s
    /\ (ordered_from (i + jump) (i + length s) tail ->
        ordered_from i (i + length s) (ms ++ tail)).
Proof.
  intros tail. unfold attempt.
  destruct (m fl r _ Some) as [st1|] eqn:E1; cbn [fst snd].
  - apply m_forward in E1. destruct E1 as (st1' & [= ->] & R1 & R1').
    cbn [pos rest] in R1, R1'.
    destruct (pos st1 =? i) eqn:Eq.
    + apply Nat.eqb_eq in Eq.
      destruct (m fl r _ (fun st' => _)) as [st2|] eqn:E2; cbn [fst snd].
      * apply m_forward in E2. destruct E2 as (st2' & E2 & R2 & R2').
        cbn [pos rest] in R2, R2'.
        destruct (pos st2' =? i) eqn:Eq2; [discriminate|]. injection E2 as ->.
        apply Nat.eqb_neq in Eq2.
        split; [lia|]. intros Ht. cbn.
        repeat split; try lia.
        eapply ordered_from_weaken; [|eassumption]. lia.
      * split; [lia|]. intros Ht. cbn. repeat split; try lia.
        eapply ordered_from_weaken; [|eassumption]. lia.
    + apply Nat.eqb_neq in Eq. cbn [fst snd]. split; [lia|]. intros Ht. cbn.
      repeat split; try lia.
      eapply ordered_from_weaken; [|eassumption]. lia.
  - split; [lia|]. intros Ht. cbn. eapply ordered_from_weaken; [|eassumption]. lia.
Qed.

Lemma scan_ordered (fl : flags) (r : regex) (s : str) :
  forall i pv skip,
    skip <= length s ->
    ordered_from (i + skip) (i + length s) (scan fl r i pv s skip).
Proof.
  induction s as [|c t IH]; intros i pv skip Hskip; cbn [scan].
  - destruct skip; [|cbn; trivial].
    destruct (attempt_ordered fl r i pv [] []) as [_ H].
    rewrite app_nil_r in H. rewrite Nat.add_0_r. apply H. cbn. trivial.
  - destruct skip as [|k].
    + destruct (attempt fl r i pv (c :: t)) as [ms jump] eqn:E.
      pose proof (attempt_ordered fl r i pv (c :: t)
                    (scan fl r (S i) (Some c) t (pred jump))) as [Hj H].
      rewrite E in Hj, H. cbn [fst snd] in Hj, H.
      rewrite Nat.add_0_r. apply H.
      cbn [length] in Hj |- *.
      eapply ordered_from_weaken;
        [|replace (i + S (length t)) with (S i + length t) by lia;
          apply IH; lia].
      lia.
    + cbn [length] in Hskip |- *.
      replace (i + S k) with (S i + k) by lia.
      replace (i + S (length t)) with (S i + length t) by lia.
      apply IH. lia.
Qed.

(** [finditer] yields its matches in order and within the text. *)
Lemma finditer_ordered (fl : flags) (r : regex) (text : str) :
  ordered_from 0 (length text) (finditer fl r text).
Proof. apply (@scan_ordered fl r text 0 None 0). lia. Qed.

End ReFacts.

(** ** Boundary spans *)

Module Boundaries.
Import Py Re Spec ReFacts.

Lemma chain_covers (n : nat) (spans : list (nat * nat)) :
  chain n spans -> covers_from (first_start n spans) n spans.
Proof.
  induction spans as [|[a b] rest IH]; intros Hc i Hlo Hhi.
  - cbn in Hlo. lia.
  - cbn in Hc, Hlo. destruct Hc as (Hab & Hlink & Hrest).
    destruct (Nat.lt_ge_cases i b) as [Hib | Hbi].
    + apply Exists_cons_hd. cbn. lia.
    + apply Exists_cons_tl. apply IH; [assumption | | assumption].
      destruct rest as [|[a' b'] rest']; cbn; lia.
Qed.

Lemma boundaries_chain (n : nat) (seps : list nat) :
  forall lo,
    ends_sorted lo n seps ->
    chain n (Splitter.boundaries_from lo seps n)
    /\ first_start n (Splitter.boundaries_from lo seps n) = lo.
Proof.
  induction seps as [|sep rest IH]; intros lo Hs; cbn [Splitter.boundaries_from].
  - cbn in Hs. destruct (lo <? n) eqn:E.
    + apply Nat.ltb_lt in E. cbn. repeat split; lia.
    + apply Nat.ltb_ge in E. cbn. split; [trivial | lia].
  - destruct Hs as [Hle Hs]. destruct (IH sep Hs) as [Hc Hf].
    destruct (lo <? sep) eqn:E.
    + apply Nat.ltb_lt in E. cbn [app chain first_start]. repeat split.
      * lia.
      * destruct (Splitter.boundaries_from sep rest n) as [|[a' b'] R]; cbn in Hf; lia.
      * assumption.
    + apply Nat.ltb_ge in E. cbn [app]. split; [assumption|]. lia.
Qed.

Lemma ordered_ends (n : nat) (ms : list match_obj) :
  forall lo, lo <= n -> ordered_from lo n ms -> ends_sorted lo n (map m_end ms).
Proof.
  induction ms as [|mt rest IH]; intros lo Hlo Ho; cbn in *.
  - assumption.
  - destruct Ho as (H1 & H2 & H3 & H4). split; [lia|]. now apply IH.
Qed.

Lemma law_boundaries_chain (text : str) :
  chain (length text) (Splitter.identify_law_boundaries text)
  /\ first_start (length text) (Splitter.identify_law_boundaries text) = 0.
Proof.
  apply boundaries_chain. apply ordered_ends; [lia|]. apply finditer_ordered.
Qed.

Lemma header_spans_chain (text : str) (ms : list (match_obj * bool)) :
  sorted_keys start_key ms ->
  Forall (fun x => m_start (fst x) <= length text) ms ->
  chain (length text) (map span_of (Parser.header_spans text ms)).
Proof.
  induction ms as [|[mt single] rest IH]; intros Hs Hb; [exact I|].
  inversion Hb as [|? ? Hmt Hrest]; subst. cbn [fst] in Hmt.
  cbn [sorted_keys] in Hs. destruct Hs as [Hnext Hs].
  specialize (IH Hs Hrest).
  destruct rest as [|[next single'] rest'].
  - cbn. repeat split; lia.
  - cbn [Parser.header_spans map span_of] in IH |- *.
    cbn [chain]. split; [|split].
    + unfold start_key in Hnext. cbn [fst] in Hnext. lia.
    + reflexivity.
    + exact IH.
Qed.

Lemma ordered_starts (n : nat) (ms : list match_obj) (tag : bool) :
  forall lo,
    ordered_from lo n ms ->
    sorted_keys start_key (map (fun mt => (mt, tag)) ms)
    /\ Forall (fun x => m_start (fst x) <= n) (map (fun mt => (mt, tag)) ms).
Proof.
  induction ms as [|mt rest IH]; intros lo Ho; cbn [map].
  - split; constructor.
  - cbn [ordered_from] in Ho. destruct Ho as (H1 & H2 & H3 & H4).
    destruct (IH _ H4) as [Hs Hb]. split.
    + cbn [sorted_keys]. split; [|assumption].
      destruct rest as [|mt' rest']; [exact I|]. cbn [map].
      cbn [ordered_from] in H4. unfold start_key. cbn [fst]. lia.
    + constructor; [cbn [fst]; lia | assumption].
Qed.

Lemma insert_by_sorted {A : Type} (key : A -> Z) (x : A) (l : list A) :
  sorted_keys key l -> sorted_keys key (insert_by key x l).
Proof.
  induction l as [|y t IH]; intros Hs; cbn [insert_by].
  - cbn. auto.
  - destruct (key y <=? key x)%Z eqn:E.
    + cbn [sorted_keys] in Hs. destruct Hs as [Hy Ht].
      specialize (IH Ht). cbn [sorted_keys]. split; [|assumption].
      destruct t as [|z t']; cbn [insert_by] in *.
      * lia.
      * destruct (key z <=? key x)%Z; lia.
    + cbn [sorted_keys]. split; [lia | assumption].
Qed.

Lemma insert_by_Forall {A : Type} (key : A -> Z) (P : A -> Prop) (x : A) (l : list A) :
  P x -> Forall P l -> Forall P (insert_by key x l).
Proof.
  intros Hx. induction 1 as [|y t Hy Ht IH]; cbn [insert_by].
  - repeat constructor; assumption.
  - destruct (key y <=? key x)%Z; repeat constructor; assumption.
Qed.

Lemma sorted_by_spec {A : Type} (key : A -> Z) (P : A -> Prop) (l : list A) :
  Forall P l -> sorted_keys key (sorted_by key l) /\ Forall P (sorted_by key l).
Proof.
  unfold sorted_by.
  assert (H : forall acc, sorted_keys key acc -> Forall P acc -> Forall P l ->
            sorted_keys key (fold_left (fun acc x => insert_by key x acc) l acc)
            /\ Forall P (fold_left (fun acc x => insert_by key x acc) l acc)).
  { induction l as [|x t IH]; intros acc Hs Ha Hl; cbn [fold_left].
    - split; assumption.
    - inversion Hl; subst. apply IH.
      + now apply insert_by_sorted.
      + now apply insert_by_Forall.
      + assumption. }
  intros Hl. apply H; [exact I | constructor | assumption].
Qed.

Lemma chapters_chain (text : str) :
  chain (length text) (map span_of (Parser.extract_chapters text)).
Proof.
  unfold Parser.extract_chapters.
  destruct (@ordered_starts (length text) _ false 0
              (finditer_ordered multiline Patterns.chapter_pattern text)).
  now apply header_spans_chain.
Qed.

Lemma articles_chain (text : str) :
  chain (length text) (map span_of (Parser.extract_articles text)).
Proof.
  unfold Parser.extract_articles.
  destruct (@ordered_starts (length text) _ false 0
              (finditer_ordered multiline Patterns.article_pattern text))
    as [_ H1].
  destruct (@ordered_starts (length text) _ true 0
              (finditer_ordered multiline Patterns.single_article_pattern text))
    as [_ H2].
  destruct (@sorted_by_spec _ start_key _ _ (proj2 (Forall_app _ _ _) (conj H1 H2)))
    as [Hs Hb].
  now apply header_spans_chain.
Qed.

End Boundaries.

(** ** The character table of [normalize_persian_text] *)

Module CharMap.
Import Py TextUtils Spec.

Lemma replace_one (o n : char) (t : str) :
  replace [o] [n] t = map (subst1 (o, n)) t.
Proof.
  unfold replace. induction t as [|c t IH]; [reflexivity|].
  cbn [replace_from startswith map length pred]. unfold subst1 at 1. cbn [fst snd].
  rewrite andb_true_r, N.eqb_sym.
  destruct (c =? o)%N; cbn [app]; now rewrite IH.
Qed.

Lemma apply_char_map_pointwise (t : str) : apply_char_map t = map map_char t.
Proof.
  unfold apply_char_map, map_char. generalize char_map. intros cm. revert t.
  induction cm as [|on cm IH]; intros t; cbn [fold_left].
  - now rewrite map_id.
  - destruct on as [o n]. cbn [fst snd]. rewrite replace_one, IH, map_map.
    reflexivity.
Qed.

Lemma not_a_key (cm : list (char * char)) (c : char) :
  existsb (N.eqb c) (map fst cm) = false ->
  fold_left (fun c on => subst1 on c) cm c = c.
Proof.
  induction cm as [|[o n] cm IH]; intros H; cbn [fold_left].
  { reflexivity. }
  cbn [map fst existsb] in H. apply orb_false_iff in H. destruct H as [Ho Hcm].
  unfold subst1 at 2. cbn [fst snd]. rewrite Ho. now apply IH.
Qed.

(** After one pass no key of the table is left: hamza, mapped to yeh
    with hamza, meets the later entry that maps it to Farsi yeh. *)
Lemma map_char_idempotent (c : char) : map_char (map_char c) = map_char c.
Proof.
  destruct (existsb (N.eqb c) (map fst char_map)) eqn:E.
  - apply existsb_exists in E. destruct E as (k & Hk & Hck).
    apply N.eqb_eq in Hck. subst k.
    assert (Hall : forallb (fun k => (map_char (map_char k) =? map_char k)%N)
                     (map fst char_map) = true) by (vm_compute; reflexivity).
    rewrite forallb_forall in Hall. apply N.eqb_eq. now apply Hall.
  - unfold map_char at 2. rewrite not_a_key by assumption.
    unfold map_char. now rewrite not_a_key.
Qed.

Lemma apply_char_map_idempotent (t : str) :
  apply_char_map (apply_char_map t) = apply_char_map t.
Proof.
  rewrite !apply_char_map_pointwise, map_map.
  apply map_ext. intros c. apply map_char_idempotent.
Qed.

End CharMap.

(** C7, as stated, fails.  For alef with madda followed by a second
    madda (U+0622 U+0653), normalization leaves the composed letter in
    place, then the table turns it into a plain alef: the result is
    U+0627 U+0653.  Normalizing that result composes alef and madda
    into U+0622, which the table turns into U+0627: the second pass
    changes the text. *)
Lemma C7_second_pass_changes_alef_madda :
  TextUtils.normalize_persian_text Unicode.nfkc Inputs.alef_madda_madda
  = [0x627; 0x653]%N
  /\ TextUtils.normalize_persian_text Unicode.nfkc
       (TextUtils.normalize_persian_text Unicode.nfkc Inputs.alef_madda_madda)
     = [0x627]%N
  /\ TextUtils.normalize_persian_text Unicode.nfkc
       (TextUtils.normalize_persian_text Unicode.nfkc Inputs.alef_madda_madda)
     <> TextUtils.normalize_persian_text Unicode.nfkc Inputs.alef_madda_madda.
Proof.
  vm_compute. split; [reflexivity|]. split; [reflexivity | discriminate].
Qed.

(** C7, amended.  The character table is idempotent, so normalizing
    twice equals normalizing once for every text whose normalized form
    is left unchanged by the Unicode normalization step (it contains no
    letter of the table's values followed by a combining mark that
    composes with it). *)
Theorem C7_normalize_idempotent_on_stable_text
  (nfkc : Py.str -> Py.str) (x : Py.str)
  (Hstable : nfkc (TextUtils.normalize_persian_text nfkc x)
             = TextUtils.normalize_persian_text nfkc x) :
  TextUtils.normalize_persian_text nfkc (TextUtils.normalize_persian_text nfkc x)
  = TextUtils.normalize_persian_text nfkc x.
Proof.
  remember (TextUtils.normalize_persian_text nfkc x) as y eqn:Hy.
  unfold TextUtils.normalize_persian_text at 1.
  destruct y as [|c t]; [reflexivity|]. cbn [Py.is_nil].
  rewrite Hstable, Hy. unfold TextUtils.normalize_persian_text.
  destruct (Py.is_nil x); [reflexivity|].
  apply CharMap.apply_char_map_idempotent.
Qed.

Lemma C7_normalize_idempotent_witness :
  TextUtils.normalize_persian_text Unicode.nfkc
    (TextUtils.normalize_persian_text Unicode.nfkc Inputs.ketab_arabic_kaf)
  = TextUtils.normalize_persian_text Unicode.nfkc Inputs.ketab_arabic_kaf.
Proof.
  apply (C7_normalize_idempotent_on_stable_text Unicode.nfkc Inputs.ketab_arabic_kaf).
  vm_compute. reflexivity.
Defined.

(** ** Stripping *)

Module StripFacts.
Import Py PyFacts Spec.

Lemma lstrip_len (s : str) : (len (lstrip s) <= len s)%Z.
Proof.
  induction s as [|c t IH]; cbn [lstrip]; [lia|].
  destruct (isspace c); [rewrite len_cons; lia | lia].
Qed.

Lemma rstrip_len (s : str) : (len (rstrip s) <= len s)%Z.
Proof.
  induction s as [|c t IH]; cbn [rstrip]; [lia|].
  destruct (isspace c && is_nil (rstrip t)).
  - rewrite len_cons. pose proof (len_nonneg t). unfold len at 1. simpl. lia.
  - rewrite !len_cons. lia.
Qed.

Lemma strip_len (s : str) : (len (strip s) <= len s)%Z.
Proof.
  unfold strip. pose proof (rstrip_len (lstrip s)). pose proof (lstrip_len s). lia.
Qed.

Lemma lstrip_no_space (s : str) : no_space s -> lstrip s = s.
Proof. destruct 1 as [|c t Hc Ht]; [reflexivity|]. cbn. now rewrite Hc. Qed.

Lemma rstrip_no_space (s : str) : no_space s -> rstrip s = s.
Proof.
  induction 1 as [|c t Hc Ht IH]; [reflexivity|]. cbn [rstrip].
  rewrite Hc, IH. reflexivity.
Qed.

Lemma strip_no_space (s : str) : no_space s -> strip s = s.
Proof.
  intros H. unfold strip. rewrite lstrip_no_space by assumption.
  now apply rstrip_no_space.
Qed.

(** A stripped text does not start with whitespace. *)
Lemma lstrip_head (s : str) (c : char) (t : str) :
  lstrip s = c :: t -> isspace c = false.
Proof.
  induction s as [|d s' IH]; cbn [lstrip]; [discriminate|].
  destruct (isspace d) eqn:E; [assumption|]. intros [= <- _]. exact E.
Qed.

Lemma rstrip_head (s : str) (c : char) (t : str) :
  rstrip s = c :: t -> exists t', s = c :: t'.
Proof.
  destruct s as [|d s']; cbn [rstrip]; [discriminate|].
  destruct (isspace d && is_nil (rstrip s')); [discriminate|].
  intros [= <- _]. eauto.
Qed.

Lemma strip_head (s : str) (c : char) (t : str) :
  strip s = c :: t -> isspace c = false.
Proof.
  unfold strip. intros H. apply rstrip_head in H. destruct H as [t' H].
  eapply lstrip_head; eassumption.
Qed.

Lemma words_from_current (s cur : str) : cur <> [] -> words_from cur s <> [].
Proof.
  revert cur. induction s as [|c t IH]; intros cur Hcur; cbn [words_from].
  - destruct cur; [congruence | discriminate].
  - destruct (isspace c).
    + destruct cur; [congruence | discriminate].
    + apply IH. destruct cur; discriminate.
Qed.

Lemma has_word_split (s : str) : has_word s -> split s <> [].
Proof.
  unfold split. generalize (@nil char) as cur.
  induction s as [|c t IH]; intros cur H; [inversion H|]. cbn [words_from].
  destruct (isspace c) eqn:E.
  - inversion H as [? ? Hc | ? ? Ht]; subst; [congruence|].
    intros Happ. apply app_eq_nil in Happ. destruct Happ as [_ Happ].
    exact (IH [] Ht Happ).
  - apply words_from_current. destruct cur; discriminate.
Qed.

Lemma has_word_app_r (a b : str) : has_word b -> has_word (a ++ b).
Proof. intros H. apply Exists_app. now right. Qed.

Lemma has_word_app_l (a b : str) : has_word a -> has_word (a ++ b).
Proof. intros H. apply Exists_app. now left. Qed.

Lemma stripped_has_word (s : str) : strip s <> [] -> has_word (strip s).
Proof.
  destruct (strip s) as [|c t] eqn:E; [congruence|]. intros _.
  apply Exists_cons_hd. eapply strip_head; eassumption.
Qed.

(** A text with a word is not blank: stripping leaves something. *)
Lemma lstrip_has_word (s : str) : has_word s -> has_word (lstrip s).
Proof.
  induction s as [|c t IH]; intros H; [inversion H|]. cbn [lstrip].
  destruct (isspace c) eqn:E; [|exact H].
  inversion H as [? ? Hc | ? ? Ht]; subst; [congruence | now apply IH].
Qed.

Lemma rstrip_has_word (s : str) : has_word s -> rstrip s <> [].
Proof.
  induction s as [|c t IH]; intros H; [inversion H|]. cbn [rstrip].
  inversion H as [? ? Hc | ? ? Ht]; subst.
  - rewrite Hc. discriminate.
  - specialize (IH Ht). destruct (rstrip t); [congruence|].
    rewrite andb_false_r. discriminate.
Qed.

Lemma has_word_strip (s : str) : has_word s -> strip s <> [].
Proof. intros H. apply rstrip_has_word, lstrip_has_word, H. Qed.

Lemma strip_has_word (s : str) : has_word s -> has_word (strip s).
Proof. intros H. apply stripped_has_word, has_word_strip, H. Qed.

Lemma join_has_word (sep : str) (ws : list str) :
  ws <> [] -> Forall word ws -> has_word (join sep ws).
Proof.
  destruct ws as [|w rest]; [congruence|]. intros _ H.
  inversion H as [|? ? [Hne Hns] _]; subst.
  assert (Hw : has_word w).
  { destruct w as [|c w']; [congruence|].
    inversion Hns; subst. now apply Exists_cons_hd. }
  cbn [join]. destruct rest; [assumption | now apply has_word_app_l].
Qed.

End StripFacts.

(** ** The pieces into which content is cut *)

Module Pieces.
Import Py PyFacts StripFacts Chunker Spec.

Section WithConfig.

Variable cfg : config.

Lemma fits_strip (c : str) : fits cfg c -> fits cfg (strip c).
Proof.
  intros [H | H].
  - left. pose proof (strip_len c). lia.
  - right. now rewrite strip_no_space.
Qed.

Lemma fits_nil : fits cfg [].
Proof. right. constructor. Qed.

Lemma split_by_words_fits (content : str) :
  Forall (fits cfg) (split_by_words cfg content).
Proof.
  eapply Forall_impl; [|apply WordPacking.split_by_words_chunks].
  intros c [_ H]. exact H.
Qed.

Lemma Forall_removelast {A : Type} (P : A -> Prop) (l : list A) :
  Forall P l -> Forall P (removelast l).
Proof.
  induction 1 as [|x l Hx Hl IH]; [constructor|]. cbn [removelast].
  destruct l; [constructor | constructor; assumption].
Qed.

Lemma Forall_last {A : Type} (P : A -> Prop) (l : list A) (d : A) :
  P d -> Forall P l -> P (last l d).
Proof.
  intros Hd. induction 1 as [|x l Hx Hl IH]; [assumption|]. cbn [last].
  destruct l; assumption.
Qed.

Lemma flush_current_fits (chunks : list str) (current : str) :
  Forall (fits cfg) chunks -> fits cfg current ->
  Forall (fits cfg) (if truthy current then chunks ++ [strip current] else chunks).
Proof.
  intros Hch Hcur. destruct (truthy current); [|assumption].
  apply Forall_app; split; [assumption|].
  constructor; [now apply fits_strip | constructor].
Qed.

Lemma pack_sentences_fits (sentences : list str) :
  forall chunks current,
    Forall (fits cfg) chunks -> fits cfg current ->
    Forall (fits cfg) (pack_sentences cfg sentences chunks current).
Proof.
  induction sentences as [|sentence rest IH]; intros chunks current Hch Hcur;
    cbn [pack_sentences].
  - now apply flush_current_fits.
  - destruct (len _ <=? max_chunk_size cfg)%Z eqn:Hpot.
    + apply IH; [assumption|]. left. lia.
    + destruct (len sentence <=? max_chunk_size cfg)%Z eqn:Hsen.
      * apply IH; [now apply flush_current_fits | left; lia].
      * apply IH.
        -- apply Forall_app; split; [now apply flush_current_fits|].
           apply Forall_removelast, split_by_words_fits.
        -- apply Forall_last; [apply fits_nil | apply split_by_words_fits].
Qed.

Lemma split_long_content_chunks_fit (content : str) :
  Forall (fits cfg) (split_long_content_chunks cfg content).
Proof.
  unfold split_long_content_chunks. destruct (1 <? _)%Z.
  - apply pack_sentences_fits; [constructor | apply fits_nil].
  - apply split_by_words_fits.
Qed.

(** Without overlap every piece fits or is a single word. *)
Lemma pieces_fit (content : str) :
  chunk_overlap cfg = 0%Z -> Forall (fits cfg) (pieces cfg content).
Proof.
  intros Hov. unfold pieces, should_split_content.
  destruct (max_chunk_size cfg <? len content)%Z eqn:E.
  - unfold split_long_content.
    destruct (len content <=? max_chunk_size cfg)%Z eqn:E'; [lia|].
    unfold add_overlap_to_chunks. rewrite Hov, Z.eqb_refl, orb_true_r.
    apply split_long_content_chunks_fit.
  - constructor; [left; lia | constructor].
Qed.

(** *** A text with a word gives at least one piece *)

Lemma pack_words_nonempty (words : list str) :
  forall chunks current cl,
    words <> [] \/ current <> [] \/ chunks <> [] ->
    pack_words cfg words chunks current cl <> [].
Proof.
  induction words as [|w rest IH]; intros chunks current cl H; cbn [pack_words].
  - destruct H as [H | [H | H]]; [congruence | |].
    + destruct current; [congruence|]. cbn. now destruct chunks.
    + destruct (truthy current); [|assumption]. now destruct chunks.
  - destruct (_ <=? _)%Z; apply IH; right; left.
    + now destruct current.
    + discriminate.
Qed.

Lemma split_by_words_nonempty (content : str) :
  has_word content -> split_by_words cfg content <> [].
Proof.
  intros H. apply pack_words_nonempty. left. now apply has_word_split.
Qed.

Lemma sentences_have_words (text : str) :
  Forall has_word (TextUtils.split_sentences text).
Proof.
  unfold TextUtils.split_sentences. destruct (is_nil text); [constructor|].
  apply Forall_forall. intros s Hs. apply filter_In in Hs. destruct Hs as [Hin Hs].
  apply andb_true_iff in Hs. destruct Hs as [Hne _].
  apply in_map_iff in Hin. destruct Hin as (x & <- & _).
  apply stripped_has_word. destruct (strip x); [discriminate | discriminate].
Qed.

Lemma pack_sentences_nonempty (sentences : list str) :
  forall chunks current,
    Forall has_word sentences ->
    sentences <> [] \/ current <> [] \/ chunks <> [] ->
    pack_sentences cfg sentences chunks current <> [].
Proof.
  induction sentences as [|sentence rest IH]; intros chunks current Hw H;
    cbn [pack_sentences].
  - destruct H as [H | [H | H]]; [congruence | |].
    + destruct current; [congruence|]. cbn. now destruct chunks.
    + destruct (truthy current); [|assumption]. now destruct chunks.
  - inversion Hw as [|? ? Hs Hrest]; subst.
    assert (Hne : sentence <> []) by (intros ->; inversion Hs).
    destruct (len _ <=? max_chunk_size cfg)%Z.
    + apply IH; [assumption|]. right; left.
      destruct (truthy current); [now destruct current | assumption].
    + destruct (len sentence <=? max_chunk_size cfg)%Z.
      * apply IH; [assumption|]. right; left. assumption.
      * apply IH; [assumption|]. right; left.
        pose proof (split_by_words_nonempty Hs) as Hwc.
        pose proof (WordPacking.split_by_words_chunks cfg sentence) as Hall.
        destruct (split_by_words cfg sentence) as [|c cs] eqn:E; [congruence|].
        assert (Hlast : fits_or_word cfg (last (c :: cs) [])).
        { rewrite Forall_forall in Hall. apply Hall.
          destruct (exists_last (l := c :: cs)) as (l' & a & ->); [discriminate|].
          rewrite last_last. apply in_or_app. right. now left. }
        exact (proj1 Hlast).
Qed.

(** *** No piece is blank *)

Lemma flush_words_have_words (chunks : list str) (cur : list str) :
  Forall word cur -> Forall has_word chunks ->
  Forall has_word (if truthy cur then chunks ++ [join [space] cur] else chunks).
Proof.
  intros Hcur Hch. destruct cur as [|w cur']; cbn [truthy is_nil negb];
    [assumption|].
  apply Forall_app; split; [assumption|]. constructor; [|constructor].
  apply join_has_word; [discriminate | assumption].
Qed.

Lemma pack_words_have_words (words : list str) :
  forall chunks cur cl,
    Forall word words -> Forall word cur -> Forall has_word chunks ->
    Forall has_word (pack_words cfg words chunks cur cl).
Proof.
  induction words as [|w rest IH]; intros chunks cur cl Hws Hcur Hch;
    cbn [pack_words].
  - now apply flush_words_have_words.
  - inversion Hws as [|? ? Hw Hrest]; subst. destruct (_ <=? _)%Z.
    + apply IH; [assumption | | assumption].
      apply Forall_app; split; [assumption | now constructor].
    + apply IH; [assumption | now constructor |].
      now apply flush_words_have_words.
Qed.

Lemma split_by_words_have_words (content : str) :
  Forall has_word (split_by_words cfg content).
Proof.
  apply pack_words_have_words; [apply split_words | constructor | constructor].
Qed.

Lemma flush_current_has_word (chunks : list str) (current : str) :
  Forall has_word chunks -> current = [] \/ has_word current ->
  Forall has_word (if truthy current then chunks ++ [strip current] else chunks).
Proof.
  intros Hch [-> | Hcur]; [assumption|].
  destruct (truthy current); [|assumption].
  apply Forall_app; split; [assumption|].
  constructor; [now apply strip_has_word | constructor].
Qed.

Lemma pack_sentences_have_words (sentences : list str) :
  forall chunks current,
    Forall has_word sentences -> Forall has_word chunks ->
    current = [] \/ has_word current ->
    Forall has_word (pack_sentences cfg sentences chunks current).
Proof.
  induction sentences as [|sentence rest IH]; intros chunks current Hs Hch Hcur;
    cbn [pack_sentences].
  - now apply flush_current_has_word.
  - inversion Hs as [|? ? Hsen Hrest]; subst.
    destruct (len _ <=? max_chunk_size cfg)%Z.
    + apply IH; [assumption | assumption |]. right.
      destruct (truthy current); [|assumption].
      now apply has_word_app_r, has_word_app_r.
    + destruct (len sentence <=? max_chunk_size cfg)%Z.
      * apply IH; [assumption | now apply flush_current_has_word | now right].
      * apply IH; [assumption | |].
        -- apply Forall_app; split; [now apply flush_current_has_word|].
           apply Forall_removelast, split_by_words_have_words.
        -- apply (@Forall_last _ (fun c => c = [] \/ has_word c)); [now left|].
           eapply Forall_impl; [|apply split_by_words_have_words].
           intros c Hc. now right.
Qed.

Lemma split_long_content_chunks_have_words (content : str) :
  Forall has_word (split_long_content_chunks cfg content).
Proof.
  unfold split_long_content_chunks. destruct (1 <? _)%Z.
  - apply pack_sentences_have_words;
      [apply sentences_have_words | constructor | now left].
  - apply split_by_words_have_words.
Qed.

Lemma with_overlap_has_word (prev chunk : str) :
  has_word chunk -> has_word (with_overlap cfg prev chunk).
Proof.
  intros H. unfold with_overlap. destruct (_ <=? _)%Z; [|assumption].
  now apply has_word_app_r, has_word_app_r.
Qed.

Lemma overlap_from_have_words (chunks : list str) :
  forall prev,
    Forall has_word chunks -> Forall has_word (overlap_from cfg prev chunks).
Proof.
  induction chunks as [|c rest IH]; intros prev H; cbn [overlap_from];
    [constructor|].
  inversion H; subst. constructor; [now apply with_overlap_has_word | now apply IH].
Qed.

Lemma add_overlap_have_words (chunks : list str) :
  Forall has_word chunks -> Forall has_word (add_overlap_to_chunks cfg chunks).
Proof.
  intros H. unfold add_overlap_to_chunks. destruct (_ || _); [assumption|].
  destruct chunks as [|c rest]; [constructor|]. inversion H; subst.
  constructor; [assumption | now apply overlap_from_have_words].
Qed.

(** The pieces of a text with a word all have a word, with or without
    overlap. *)
Lemma pieces_have_words (content : str) :
  has_word content -> Forall has_word (pieces cfg content).
Proof.
  intros Hw. unfold pieces. destruct (should_split_content cfg content);
    [|now constructor].
  unfold split_long_content. destruct (_ <=? _)%Z; [now constructor|].
  apply add_overlap_have_words, split_long_content_chunks_have_words.
Qed.

Lemma overlap_from_length (prev : str) (chunks : list str) :
  length (overlap_from cfg prev chunks) = length chunks.
Proof.
  revert prev. induction chunks as [|c t IH]; intros prev; cbn; [reflexivity|].
  now rewrite IH.
Qed.

Lemma add_overlap_length (chunks : list str) :
  length (add_overlap_to_chunks cfg chunks) = length chunks.
Proof.
  unfold add_overlap_to_chunks. destruct (_ || _); [reflexivity|].
  destruct chunks; [reflexivity|]. cbn. now rewrite overlap_from_length.
Qed.

Lemma pieces_nonempty (content : str) :
  has_word content -> pieces cfg content <> [].
Proof.
  intros Hw. unfold pieces. destruct (should_split_content cfg content);
    [|discriminate].
  unfold split_long_content. destruct (_ <=? _)%Z; [discriminate|].
  intros Hnil. apply (f_equal (@length str)) in Hnil.
  rewrite add_overlap_length in Hnil. cbn in Hnil.
  apply length_zero_iff_nil in Hnil. revert Hnil.
  unfold split_long_content_chunks. destruct (1 <? _)%Z eqn:E.
  - apply pack_sentences_nonempty; [apply sentences_have_words|]. left.
    destruct (TextUtils.split_sentences content); [discriminate | discriminate].
  - now apply split_by_words_nonempty.
Qed.

End WithConfig.

End Pieces.

(** ** The chunker's traversal of a document *)

Module ChunkerFacts.
Import Py PyFacts StripFacts Exn Models Chunker Spec.

Unset Implicit Arguments.

Lemma same_tallies_refl (s : stats) : same_tallies s s.
Proof. repeat split. Qed.

Lemma same_tallies_trans (a b c : stats) :
  same_tallies a b -> same_tallies b c -> same_tallies a c.
Proof.
  unfold same_tallies. intros (? & ? & ? & ?) (? & ? & ? & ?).
  repeat split; congruence.
Qed.

Lemma yields_ret {A : Type} (a : A) (post : A -> Prop) :
  post a -> yields (ret a) post.
Proof.
  intros Ha s r s' [= <- <-]. split; [apply same_tallies_refl|].
  intros a' [= <-]. exact Ha.
Qed.

Lemma yields_bind {A B : Type} (c : M A) (f : A -> M B)
  (postA : A -> Prop) (postB : B -> Prop) :
  yields c postA -> (forall a, postA a -> yields (f a) postB) ->
  yields (bind c f) postB.
Proof.
  intros Hc Hf s r s' H. unfold bind in H.
  destruct (c s) as [[a|e] s1] eqn:E.
  - destruct (Hc _ _ _ E) as [T1 Ha]. specialize (Ha a eq_refl).
    destruct (Hf a Ha _ _ _ H) as [T2 Hb].
    split; [eapply same_tallies_trans; eassumption | assumption].
  - injection H as <- <-. destruct (Hc _ _ _ E) as [T1 _].
    split; [assumption | discriminate].
Qed.

Lemma yields_lift {A : Type} (r : result A) (post : A -> Prop) :
  (forall a, r = Ok a -> post a) -> yields (lift r) post.
Proof.
  intros H s r' s' [= <- <-]. split; [apply same_tallies_refl | assumption].
Qed.

Lemma yields_modify (f : stats -> stats) :
  (forall s, same_tallies s (f s)) -> yields (modify f) (fun _ => True).
Proof. intros H s r s' [= <- <-]. split; [apply H | trivial]. Qed.

Lemma yields_impl {A : Type} (c : M A) (post post' : A -> Prop) :
  (forall a, post a -> post' a) -> yields c post -> yields c post'.
Proof.
  intros Himp Hc s r s' H. destruct (Hc _ _ _ H) as [T Ha].
  split; [assumption | auto].
Qed.

(** When a sequence returns, both parts returned. *)
Lemma bind_ok {A B : Type} (c : M A) (f : A -> M B) (s s' : stats) (b : B) :
  bind c f s = (Ok b, s') ->
  exists a s1, c s = (Ok a, s1) /\ f a s1 = (Ok b, s').
Proof.
  unfold bind. destruct (c s) as [[a|e] s1]; [eauto | discriminate].
Qed.

Section WithConfig.

Variable cfg : config.
Variable format_type : SubsectionType -> str.

(** A chunk of a given type, position and reference list, built from a
    piece of content. *)
Lemma new_chunk_ok (c : str) (ty : ChunkType) (p : Z) (refs : list str)
  (chunk : TextChunk) :
  new_TextChunk c ty p refs = Ok chunk ->
  refs <> [] ->
  (splittable ty -> chunk_overlap cfg = 0%Z -> fits cfg c) ->
  chunk_ok cfg chunk /\ position chunk = p.
Proof.
  unfold new_TextChunk, content_not_empty.
  destruct (is_nil c || is_nil (strip c)) eqn:E; [discriminate|].
  intros [= <-] Hrefs Hfit. cbn. split; [|reflexivity]. split; [assumption|].
  intros Hty Hov. specialize (Hfit Hty Hov).
  apply orb_false_iff in E. destruct E as [_ E].
  destruct (strip c) as [|x t] eqn:Es; [discriminate|]. cbn [truthy is_nil negb].
  rewrite <- Es. apply Pieces.fits_strip. assumption.
Qed.

Lemma emit_yields (ty : ChunkType) (p : Z) (refs : list str)
  (count : stats -> stats) (contents : list str) :
  (forall s, same_tallies s (count s)) ->
  refs <> [] ->
  (splittable ty -> chunk_overlap cfg = 0%Z -> Forall (fits cfg) contents) ->
  yields (emit ty p refs count contents)
    (fun chunks => Forall (placed cfg p) chunks /\ length chunks = length contents).
Proof.
  intros Hcount Hrefs. induction contents as [|c rest IH]; intros Hfit;
    cbn [emit].
  - apply yields_ret. split; [constructor | reflexivity].
  - eapply yields_bind.
    { apply yields_lift. intros chunk Hchunk.
      apply (new_chunk_ok c ty p refs chunk Hchunk Hrefs).
      intros Hty Hov. exact (Forall_inv (Hfit Hty Hov)). }
    intros chunk Hchunk. eapply yields_bind; [now apply yields_modify|].
    intros _ _. eapply yields_bind.
    { apply IH. intros Hty Hov. exact (Forall_inv_tail (Hfit Hty Hov)). }
    intros more [Hmore Hlen]. apply yields_ret. split.
    + constructor; assumption.
    + cbn. now rewrite Hlen.
Qed.

Lemma for_each_yields {A : Type} (f : A -> M (list TextChunk)) (p : Z)
  (xs : list A) :
  (forall x, yields (f x) (Forall (placed cfg p))) ->
  yields (for_each f xs) (Forall (placed cfg p)).
Proof.
  intros Hf. induction xs as [|x rest IH]; cbn [for_each].
  - apply yields_ret. constructor.
  - eapply yields_bind; [apply Hf|]. intros here Hhere.
    eapply yields_bind; [apply IH|]. intros more Hmore.
    apply yields_ret. apply Forall_app. split; assumption.
Qed.

Lemma incr_article_same (s : stats) : same_tallies s (incr_article_chunks s).
Proof. repeat split. Qed.
Lemma incr_subsection_same (s : stats) : same_tallies s (incr_subsection_chunks s).
Proof. repeat split. Qed.
Lemma incr_note_same (s : stats) : same_tallies s (incr_note_chunks s).
Proof. repeat split. Qed.

Lemma valid_main_has_word (article : LegalArticle) :
  valid_article article -> has_word (main_content_of article).
Proof.
  intros [Hne Hstrip].
  assert (H : has_word (article_content article)).
  { rewrite <- Hstrip. apply stripped_has_word. now rewrite Hstrip. }
  unfold main_content_of. destruct (truthy (article_title article));
    repeat apply has_word_app_r; assumption.
Qed.

Lemma chunk_article_yields (article : LegalArticle) (p : Z) :
  yields (chunk_article cfg format_type article p)
    (fun chunks =>
       Forall (placed cfg p) chunks /\ (valid_article article -> chunks <> [])).
Proof.
  unfold chunk_article.
  eapply yields_bind with
    (postA := fun main => Forall (placed cfg p) main
                          /\ (valid_article article -> main <> [])).
  { destruct (truthy (article_content article)) eqn:Hc.
    - eapply yields_impl;
        [|apply emit_yields;
          [apply incr_article_same | discriminate
          | intros _ Hov; now apply Pieces.pieces_fit]].
      intros main [Hmain Hlen]. split; [assumption|].
      intros Hvalid Hnil. subst main. cbn in Hlen. symmetry in Hlen.
      apply length_zero_iff_nil in Hlen. revert Hlen.
      apply (@Pieces.pieces_nonempty cfg). now apply valid_main_has_word.
    - apply yields_ret. split; [constructor|].
      intros [Hne _]. destruct (article_content article); [congruence | discriminate]. }
  intros main [Hmain Hne].
  eapply yields_bind.
  { apply for_each_yields with (p := p). intros subsection.
    destruct (truthy (subsection_content subsection)).
    - eapply yields_impl;
        [|apply emit_yields;
          [apply incr_subsection_same | discriminate
          | intros _ Hov; now apply Pieces.pieces_fit]].
      intros chunks [H _]. exact H.
    - apply yields_ret. constructor. }
  intros subs Hsubs. eapply yields_bind.
  { apply for_each_yields with (p := p). intros note.
    destruct (truthy (note_content note)).
    - eapply yields_impl;
        [|apply emit_yields;
          [apply incr_note_same | discriminate
          | intros _ Hov; now apply Pieces.pieces_fit]].
      intros chunks [H _]. exact H.
    - apply yields_ret. constructor. }
  intros notes Hnotes. apply yields_ret. split.
  - repeat (apply Forall_app; split); assumption.
  - intros Hvalid Hnil. apply app_eq_nil in Hnil. destruct Hnil as [Hnil _].
    now apply Hne.
Qed.

(** *** Positions *)

Lemma ascending_weaken (chunks : list TextChunk) (lo lo' hi hi' : Z) :
  (lo' <= lo)%Z -> (hi <= hi')%Z ->
  ascending lo hi chunks -> ascending lo' hi' chunks.
Proof.
  revert lo lo'. induction chunks as [|c rest IH]; intros lo lo' Hlo Hhi H;
    [exact I|].
  cbn [ascending] in *. destruct H as (H1 & H2 & H3).
  repeat split; try lia. apply (IH (position c) (position c)); [lia | lia | assumption].
Qed.

Lemma ascending_app (a b : list TextChunk) (lo mid hi : Z) :
  (lo <= mid)%Z -> (mid <= hi)%Z ->
  ascending lo mid a -> ascending mid hi b -> ascending lo hi (a ++ b).
Proof.
  revert lo. induction a as [|c rest IH]; intros lo Hlo Hmid Ha Hb; cbn [app].
  - apply (ascending_weaken b mid lo hi hi); [assumption | lia | assumption].
  - cbn [ascending] in *. destruct Ha as (H1 & H2 & H3).
    repeat split; try lia. now apply IH.
Qed.

Lemma placed_ascending (p lo hi : Z) (chunks : list TextChunk) :
  (lo <= p)%Z -> (p <= hi)%Z ->
  Forall (placed cfg p) chunks -> ascending lo hi chunks.
Proof.
  intros Hlo Hhi H. revert lo Hlo.
  induction H as [|c rest [_ Hc] Hrest IH]; intros lo Hlo; [exact I|].
  cbn [ascending]. rewrite Hc. repeat split; try lia. apply IH. lia.
Qed.

Lemma placed_ok (p : Z) (chunks : list TextChunk) :
  Forall (placed cfg p) chunks -> Forall (chunk_ok cfg) chunks.
Proof. apply Forall_impl. intros c [H _]. exact H. Qed.

Lemma ascending_nondecreasing (chunks : list TextChunk) (lo hi : Z) :
  ascending lo hi chunks -> nondecreasing chunks.
Proof.
  revert lo. induction chunks as [|c rest IH]; intros lo H; [exact I|].
  cbn [ascending] in H. destruct H as (_ & _ & H). cbn [nondecreasing].
  split; [|now apply (IH (position c))].
  destruct rest as [|c' rest']; [exact I|]. cbn [ascending] in H. lia.
Qed.

(** The articles of a chapter, numbered from [i0]: the chunks are in
    order between the first article's position and the last one's,
    and valid articles give at least one chunk each. *)
Lemma chapter_articles_yields (p : Z) (articles : list LegalArticle) :
  forall i0,
    yields (chapter_articles_from cfg format_type p i0 articles)
      (fun chunks =>
         Forall (chunk_ok cfg) chunks
         /\ ascending (p + i0 + 1) (p + i0 + len articles) chunks
         /\ (Forall valid_article articles -> (len articles <= len chunks)%Z)).
Proof.
  induction articles as [|article rest IH]; intros i0;
    cbn [chapter_articles_from].
  - apply yields_ret. repeat split; [constructor | intros _; reflexivity].
  - eapply yields_bind; [apply chunk_article_yields|].
    intros here [Hhere Hne]. eapply yields_bind; [apply (IH (i0 + 1)%Z)|].
    intros more (Hok & Hasc & Hcount). apply yields_ret.
    rewrite len_cons. pose proof (len_nonneg rest) as Hrest.
    split; [|split].
    + apply Forall_app. split; [now apply (placed_ok (p + i0 + 1)) | assumption].
    + apply (ascending_app here more (p + i0 + 1) (p + i0 + 1) (p + i0 + (len rest + 1)));
        [lia | lia | |].
      * apply (placed_ascending (p + i0 + 1)); [lia | lia | assumption].
      * apply (ascending_weaken more (p + (i0 + 1) + 1) (p + i0 + 1)
                 (p + (i0 + 1) + len rest) (p + i0 + (len rest + 1)));
          [lia | lia | assumption].
    + intros Hvalid. inversion Hvalid as [|? ? Ha Hr]; subst.
      specialize (Hne Ha). specialize (Hcount Hr). rewrite len_app.
      assert (1 <= len here)%Z by (destruct here; [congruence | rewrite len_cons; pose proof (len_nonneg here); lia]).
      lia.
Qed.

Lemma chunk_chapter_yields (chapter : LegalChapter) (p : Z) :
  yields (chunk_chapter cfg format_type chapter p)
    (fun chunks =>
       Forall (chunk_ok cfg) chunks
       /\ (valid_chapter chapter -> ascending p (p + len chunks) chunks)).
Proof.
  unfold chunk_chapter.
  eapply yields_bind with
    (postA := fun title => Forall (placed cfg p) title).
  { destruct (truthy (chapter_title chapter)).
    - eapply yields_bind.
      + apply yields_lift. intros chunk Hchunk.
        apply (new_chunk_ok _ _ _ _ _ Hchunk); [discriminate|].
        intros [H | [H | H]]; discriminate.
      + intros chunk Hchunk. apply yields_ret. constructor; [assumption | constructor].
    - apply yields_ret. constructor. }
  intros title Htitle.
  eapply yields_bind; [apply (chapter_articles_yields p (chapter_articles chapter) 0)|].
  intros arts (Hok & Hasc & Hcount). apply yields_ret. split.
  - apply Forall_app. split; [now apply (placed_ok p) | assumption].
  - intros Hvalid. specialize (Hcount Hvalid). rewrite len_app.
    pose proof (len_nonneg title). pose proof (len_nonneg arts).
    pose proof (len_nonneg (chapter_articles chapter)).
    apply (ascending_app title arts p p (p + (len title + len arts))); [lia | lia | |].
    + apply (placed_ascending p); [lia | lia | assumption].
    + apply (ascending_weaken arts (p + 0 + 1) p
               (p + 0 + len (chapter_articles chapter)) (p + (len title + len arts)));
        [lia | lia | assumption].
Qed.

Lemma chunk_article_block (article : LegalArticle) (p : Z) :
  yields (chunk_article cfg format_type article p)
    (fun chunks =>
       Forall (chunk_ok cfg) chunks
       /\ (valid_article article -> ascending p (p + len chunks) chunks)).
Proof.
  eapply yields_impl; [|apply chunk_article_yields].
  intros chunks [H _]. split; [now apply (placed_ok p)|]. intros _.
  pose proof (len_nonneg chunks).
  apply (placed_ascending p); [lia | lia | assumption].
Qed.

(** The loops of [chunk_document] that advance [position_counter]. *)
Lemma counted_yields {A : Type} (f : A -> Z -> M (list TextChunk))
  (valid : A -> Prop) (xs : list A) :
  (forall x p,
      yields (f x p)
        (fun chunks =>
           Forall (chunk_ok cfg) chunks
           /\ (valid x -> ascending p (p + len chunks) chunks))) ->
  forall pc,
    yields (counted f pc xs)
      (fun out =>
         Forall (chunk_ok cfg) (fst out)
         /\ snd out = (pc + len (fst out))%Z
         /\ (Forall valid xs -> ascending pc (snd out) (fst out))).
Proof.
  intros Hf. induction xs as [|x rest IH]; intros pc; cbn [counted].
  - apply yields_ret. cbn. repeat split; [constructor | lia].
  - eapply yields_bind; [apply Hf|]. intros here [Hhere Hasc].
    eapply yields_bind; [apply IH|]. intros [more pc'] (Hmore & Hpc & Hasc').
    cbn [fst snd] in *. apply yields_ret. cbn [fst snd].
    pose proof (len_nonneg here). pose proof (len_nonneg more).
    split; [|split].
    + apply Forall_app. split; assumption.
    + rewrite len_app. lia.
    + intros Hvalid. inversion Hvalid as [|? ? Hx Hr]; subst.
      apply (ascending_app here more pc (pc + len here)); [lia | lia | auto | auto].
Qed.

(** *** The final loop and the whole document *)

Lemma tally_spec (chunks : list TextChunk) :
  forall s,
  exists s',
    tally cfg chunks s = (Ok tt, s')
    /\ documents_chunked s' = documents_chunked s
    /\ total_chunks_created s' = total_chunks_created s
    /\ oversized_chunks s'
       = (oversized_chunks s + len (filter (is_oversized cfg) chunks))%Z
    /\ undersized_chunks s'
       = (undersized_chunks s + len (filter (is_undersized cfg) chunks))%Z.
Proof.
  induction chunks as [|c rest IH]; intros s; cbn [tally filter].
  - exists s. unfold ret. cbn. repeat split; lia.
  - unfold bind.
    destruct (max_chunk_size cfg <? character_count c)%Z eqn:Eo.
    + assert (Ho : is_oversized cfg c = true) by exact Eo.
      assert (Hu : is_undersized cfg c = false)
        by (unfold is_undersized; rewrite Ho; reflexivity).
      rewrite Ho, Hu. cbn [modify].
      destruct (IH (incr_oversized s)) as (s' & Hrun & H1 & H2 & H3 & H4).
      exists s'. rewrite Hrun. cbn [incr_oversized documents_chunked
        total_chunks_created oversized_chunks undersized_chunks] in *.
      rewrite len_cons. repeat split; try assumption; lia.
    + assert (Ho : is_oversized cfg c = false) by exact Eo. rewrite Ho.
      destruct (character_count c <? min_chunk_size cfg)%Z eqn:Eu.
      * assert (Hu : is_undersized cfg c = true)
          by (unfold is_undersized; rewrite Ho, Eu; reflexivity).
        rewrite Hu. cbn [modify].
        destruct (IH (incr_undersized s)) as (s' & Hrun & H1 & H2 & H3 & H4).
        exists s'. rewrite Hrun. cbn [incr_undersized documents_chunked
          total_chunks_created oversized_chunks undersized_chunks] in *.
        rewrite len_cons. repeat split; try assumption; lia.
      * assert (Hu : is_undersized cfg c = false)
          by (unfold is_undersized; rewrite Ho, Eu; reflexivity).
        rewrite Hu. cbn [ret].
        destruct (IH s) as (s' & Hrun & H1 & H2 & H3 & H4).
        exists s'. rewrite Hrun. repeat split; assumption.
Qed.

(** *** A validated document is chunked without an exception *)

Lemma returns_ret {A : Type} (a : A) : returns (ret a).
Proof. intros s. exists a, s. reflexivity. Qed.

Lemma returns_bind {A B : Type} (c : M A) (f : A -> M B) :
  returns c -> (forall a, returns (f a)) -> returns (bind c f).
Proof.
  intros Hc Hf s. destruct (Hc s) as (a & s1 & E).
  destruct (Hf a s1) as (b & s2 & E2). exists b, s2.
  unfold bind. now rewrite E.
Qed.

Lemma returns_modify (f : stats -> stats) : returns (modify f).
Proof. intros s. exists tt, (f s). reflexivity. Qed.

(** The validator of [TextChunk] accepts every content with a word. *)
Lemma new_chunk_returns (c : str) (ty : ChunkType) (p : Z) (refs : list str) :
  has_word c -> returns (lift (new_TextChunk c ty p refs)).
Proof.
  intros Hw s. unfold lift, new_TextChunk, content_not_empty.
  pose proof (@has_word_strip c Hw) as Hs.
  destruct c as [|x t]; [inversion Hw|].
  destruct (strip (x :: t)) as [|y u] eqn:E; [congruence|]. cbn [is_nil orb].
  eexists. exists s. reflexivity.
Qed.

Lemma emit_returns (ty : ChunkType) (p : Z) (refs : list str)
  (count : stats -> stats) (contents : list str) :
  Forall has_word contents -> returns (emit ty p refs count contents).
Proof.
  induction 1 as [|c rest Hc Hrest IH]; cbn [emit].
  - apply returns_ret.
  - apply returns_bind; [now apply new_chunk_returns|]. intros chunk.
    apply returns_bind; [apply returns_modify|]. intros _.
    apply returns_bind; [exact IH|]. intros more. apply returns_ret.
Qed.

Lemma for_each_returns {A B : Type} (f : A -> M (list B)) (xs : list A) :
  (forall x, returns (f x)) -> returns (for_each f xs).
Proof.
  intros Hf. induction xs as [|x rest IH]; cbn [for_each].
  - apply returns_ret.
  - apply returns_bind; [apply Hf|]. intros here.
    apply returns_bind; [exact IH|]. intros more. apply returns_ret.
Qed.

(** The dash that the f-strings put after the article or chapter
    number. *)
Lemma dash_has_word (a b : str) : has_word (a ++ dash_sep ++ b).
Proof.
  apply has_word_app_r, has_word_app_l.
  apply Exists_cons_tl, Exists_cons_hd. reflexivity.
Qed.

Lemma chunk_article_returns (article : LegalArticle) (p : Z) :
  valid_article article -> returns (chunk_article cfg format_type article p).
Proof.
  intros Hvalid. unfold chunk_article. apply returns_bind.
  { destruct (truthy (article_content article)); [|apply returns_ret].
    apply emit_returns, Pieces.pieces_have_words, valid_main_has_word, Hvalid. }
  intros main. apply returns_bind.
  { apply for_each_returns. intros subsection.
    destruct (truthy (subsection_content subsection)); [|apply returns_ret].
    apply emit_returns, Pieces.pieces_have_words, dash_has_word. }
  intros subs. apply returns_bind.
  { apply for_each_returns. intros note.
    destruct (truthy (note_content note)); [|apply returns_ret].
    apply emit_returns, Pieces.pieces_have_words, dash_has_word. }
  intros notes. apply returns_ret.
Qed.

Lemma chapter_articles_returns (p : Z) (articles : list LegalArticle) :
  Forall valid_article articles ->
  forall i0, returns (chapter_articles_from cfg format_type p i0 articles).
Proof.
  induction 1 as [|article rest Ha Hrest IH]; intros i0;
    cbn [chapter_articles_from].
  - apply returns_ret.
  - apply returns_bind; [now apply chunk_article_returns|]. intros here.
    apply returns_bind; [apply IH|]. intros more. apply returns_ret.
Qed.

Lemma chunk_chapter_returns (chapter : LegalChapter) (p : Z) :
  valid_chapter chapter -> returns (chunk_chapter cfg format_type chapter p).
Proof.
  intros Hvalid. unfold chunk_chapter. apply returns_bind.
  { destruct (truthy (chapter_title chapter)); [|apply returns_ret].
    apply returns_bind; [apply new_chunk_returns, dash_has_word|].
    intros chunk. apply returns_ret. }
  intros title. apply returns_bind; [now apply chapter_articles_returns|].
  intros arts. apply returns_ret.
Qed.

Lemma counted_returns {A : Type} (f : A -> Z -> M (list TextChunk))
  (valid : A -> Prop) (xs : list A) :
  (forall x p, valid x -> returns (f x p)) ->
  Forall valid xs -> forall pc, returns (counted f pc xs).
Proof.
  intros Hf. induction 1 as [|x rest Hx Hrest IH]; intros pc; cbn [counted].
  - apply returns_ret.
  - apply returns_bind; [now apply Hf|]. intros here.
    apply returns_bind; [apply IH|]. intros more. apply returns_ret.
Qed.

Lemma footnotes_have_word (i0 : N) (fs : list str) :
  fs <> [] -> has_word (join blank_line (footnote_lines i0 fs)).
Proof.
  destruct fs as [|f rest]; [congruence|]. intros _. cbn [footnote_lines join].
  destruct (footnote_lines (i0 + 1) rest); [|apply has_word_app_l];
    apply has_word_app_l; apply Exists_cons_hd; reflexivity.
Qed.

Lemma chunk_document_returns (document : LegalDocument) :
  valid_document document -> returns (chunk_document cfg format_type document).
Proof.
  intros [Vch Vst].
  assert (Hbody : returns (chunk_document_body cfg format_type document)).
  { unfold chunk_document_body. apply returns_bind.
    { apply (counted_returns _ valid_chapter); [|assumption].
      intros chapter p Hc. now apply chunk_chapter_returns. }
    intros ch. apply returns_bind.
    { apply (counted_returns _ valid_article); [|assumption].
      intros article p Ha. now apply chunk_article_returns. }
    intros st. cbv zeta. apply returns_bind.
    { destruct (footnotes document) as [|f rest] eqn:E;
        cbn [truthy is_nil negb]; [apply returns_ret|].
      destruct (truthy (join blank_line (footnote_lines 0 (f :: rest))));
        [|apply returns_ret].
      apply returns_bind; [|intros chunk; apply returns_ret].
      apply new_chunk_returns, footnotes_have_word. discriminate. }
    intros fn. apply returns_bind; [apply returns_modify|]. intros _.
    apply returns_bind; [|intros _; apply returns_ret].
    intros s. destruct (tally_spec (fst ch ++ fst st ++ fn) s) as (s' & H & _).
    exists tt, s'. exact H. }
  intros s. destruct (Hbody s) as (chunks & s' & E). exists chunks, s'.
  unfold chunk_document. now rewrite E.
Qed.

Lemma chunk_document_spec (document : LegalDocument) (s s' : stats)
  (chunks : list TextChunk) :
  chunk_document cfg format_type document s = (Ok chunks, s') ->
  Forall (chunk_ok cfg) chunks
  /\ (valid_document document -> nondecreasing chunks)
  /\ total_chunks_created s' = (total_chunks_created s + len chunks)%Z
  /\ oversized_chunks s'
     = (oversized_chunks s + len (filter (is_oversized cfg) chunks))%Z
  /\ undersized_chunks s'
     = (undersized_chunks s + len (filter (is_undersized cfg) chunks))%Z.
Proof.
  unfold chunk_document.
  destruct (chunk_document_body cfg format_type document s) as [[out|e] s0] eqn:Hbody;
    [|discriminate].
  intros [= -> ->]. unfold chunk_document_body in Hbody.
  apply bind_ok in Hbody. destruct Hbody as (ch & s1 & Hch & Hbody).
  apply bind_ok in Hbody. destruct Hbody as (st & s2 & Hst & Hbody).
  apply bind_ok in Hbody. destruct Hbody as (fn & s3 & Hfn & Hbody).
  destruct (counted_yields (chunk_chapter cfg format_type) valid_chapter
              (chapters document) chunk_chapter_yields 0%Z _ _ _ Hch)
    as [T1 Pch].
  destruct (Pch ch eq_refl) as (Och & Ech & Ach). clear Pch.
  destruct (counted_yields (chunk_article cfg format_type) valid_article
              (standalone_articles document) chunk_article_block (snd ch) _ _ _ Hst)
    as [T2 Pst].
  destruct (Pst st eq_refl) as (Ost & Est & Ast). clear Pst.
  assert (Hfoot : yields
            (if truthy (footnotes document)
             then
               if truthy (join blank_line (footnote_lines 0 (footnotes document)))
               then bind (lift (new_TextChunk
                                  (join blank_line (footnote_lines 0 (footnotes document)))
                                  FOOTNOTE (snd st) [footnote_label]))
                      (fun chunk => ret [chunk])
               else ret []
             else ret [])
            (Forall (placed cfg (snd st)))).
  { destruct (truthy (footnotes document)); [|apply yields_ret; constructor].
    destruct (truthy (join _ _)); [|apply yields_ret; constructor].
    eapply yields_bind.
    - apply yields_lift. intros chunk Hchunk.
      apply (new_chunk_ok _ _ _ _ _ Hchunk); [discriminate|].
      intros [H | [H | H]]; discriminate.
    - intros chunk Hchunk. apply yields_ret. constructor; [assumption | constructor]. }
  destruct (Hfoot _ _ _ Hfn) as [T3 Pfn]. specialize (Pfn fn eq_refl). clear Hfoot.
  unfold bind at 1 in Hbody. cbn [modify] in Hbody.
  unfold bind at 1 in Hbody.
  destruct (tally_spec (fst ch ++ fst st ++ fn)
              (count_document (len (fst ch ++ fst st ++ fn)) s3))
    as (s4 & Htally & D & T & O & U).
  rewrite Htally in Hbody. cbn [ret] in Hbody. injection Hbody as <- <-.
  cbn [count_document documents_chunked total_chunks_created oversized_chunks
         undersized_chunks] in D, T, O, U.
  destruct T1 as (_ & T1 & O1 & U1). destruct T2 as (_ & T2 & O2 & U2).
  destruct T3 as (_ & T3 & O3 & U3).
  split; [|split; [|split; [|split]]].
  - repeat (apply Forall_app; split); try assumption. now apply (placed_ok (snd st)).
  - intros [Vch Vst].
    apply (ascending_nondecreasing _ 0 (snd st)).
    pose proof (len_nonneg (fst ch)). pose proof (len_nonneg (fst st)).
    apply (ascending_app (fst ch) (fst st ++ fn) 0 (snd ch) (snd st));
      [lia | lia | now apply Ach |].
    apply (ascending_app (fst st) fn (snd ch) (snd st) (snd st));
      [lia | lia | now apply Ast |].
    apply (placed_ascending (snd st)); [lia | lia | assumption].
  - lia.
  - lia.
  - lia.
Qed.

End WithConfig.

End ChunkerFacts.

(** C5.  For every validated [LegalDocument] (every article holds the
    non-empty, stripped content that its validator leaves) and from
    every state of the statistics, [chunk_document] raises nothing and
    returns a chunk sequence in which the positions are non-decreasing
    in emission order and every chunk's [legal_references] list is
    non-empty. *)
Theorem C5_positions_never_decrease_and_references_exist
  (cfg : Chunker.config) (format_type : Models.SubsectionType -> Py.str)
  (document : Models.LegalDocument) (s : Chunker.stats)
  (Hvalid : Models.valid_document document) :
  exists chunks s',
    Chunker.chunk_document cfg format_type document s = (Exn.Ok chunks, s')
    /\ Spec.nondecreasing chunks
    /\ Forall (fun chunk => Models.legal_references chunk <> []) chunks.
Proof.
  destruct (ChunkerFacts.chunk_document_returns cfg format_type document Hvalid s)
    as (chunks & s' & Hrun).
  exists chunks, s'. split; [exact Hrun|].
  destruct (ChunkerFacts.chunk_document_spec cfg format_type document s s' chunks Hrun)
    as (Hok & Hpos & _).
  split; [now apply Hpos|].
  eapply Forall_impl; [|exact Hok]. intros c [H _]. exact H.
Qed.

Lemma C5_positions_witness :
  Models.valid_document Inputs.two_chapters
  /\ exists chunks s',
       Chunker.chunk_document Inputs.small Inputs.format_value Inputs.two_chapters
         Chunker.stats0 = (Exn.Ok chunks, s')
       /\ Spec.nondecreasing chunks
       /\ Forall (fun chunk => Models.legal_references chunk <> []) chunks.
Proof.
  assert (Hvalid : Models.valid_document Inputs.two_chapters).
  { split; [|constructor].
    repeat constructor; try discriminate; vm_compute; reflexivity. }
  split; [exact Hvalid|].
  exact (@C5_positions_never_decrease_and_references_exist Inputs.small
           Inputs.format_value Inputs.two_chapters Chunker.stats0 Hvalid).
Defined.

(** ** The chunks and the pieces they are made of *)

Module CutFacts.
Import Py PyFacts StripFacts Exn Models Chunker Spec.

Unset Implicit Arguments.

Section WithConfig.

Variable cfg : config.
Variable format_type : SubsectionType -> str.

Lemma pieces_cuts (content : str) :
  pieces cfg content = add_overlap_to_chunks cfg (cuts cfg content).
Proof.
  unfold pieces, cuts, should_split_content.
  destruct (max_chunk_size cfg <? len content)%Z eqn:E.
  - unfold split_long_content.
    destruct (len content <=? max_chunk_size cfg)%Z eqn:E'; [lia | reflexivity].
  - unfold add_overlap_to_chunks. destruct (_ || _); reflexivity.
Qed.

Lemma cuts_fit (content : str) : Forall (fits cfg) (cuts cfg content).
Proof.
  unfold cuts, should_split_content.
  destruct (max_chunk_size cfg <? len content)%Z eqn:E.
  - apply Pieces.split_long_content_chunks_fit.
  - constructor; [left; lia | constructor].
Qed.

Lemma carries_same (l : list str) : Forall2 (carries cfg) l l.
Proof. induction l; constructor; [now left | assumption]. Qed.

Lemma overlap_from_carries (l : list str) :
  chunk_overlap cfg <> 0%Z ->
  forall prev, Forall2 (carries cfg) l (overlap_from cfg prev l).
Proof.
  intros Hov. induction l as [|piece rest IH]; intros prev; cbn [overlap_from];
    constructor; [|apply IH].
  unfold with_overlap. destruct (_ <=? _)%Z; [right | now left].
  split; [exact Hov|]. eexists. reflexivity.
Qed.

(** Each chunk of [add_overlap_to_chunks] carries the chunk it was
    given in the same place. *)
Lemma add_overlap_carries (l : list str) :
  Forall2 (carries cfg) l (add_overlap_to_chunks cfg l).
Proof.
  unfold add_overlap_to_chunks.
  destruct (len l <=? 1)%Z; cbn [orb]; [apply carries_same|].
  destruct (chunk_overlap cfg =? 0)%Z eqn:E; [apply carries_same|].
  destruct l as [|first rest]; constructor; [now left|].
  apply overlap_from_carries. lia.
Qed.

Lemma new_chunk_made (c : str) (ty : ChunkType) (p : Z) (refs : list str)
  (chunk : TextChunk) :
  new_TextChunk c ty p refs = Ok chunk ->
  chunk_type chunk = ty
  /\ character_count chunk = len (content chunk)
  /\ content chunk = strip c.
Proof.
  unfold new_TextChunk, content_not_empty.
  destruct (is_nil c || is_nil (strip c)) eqn:E; [discriminate|].
  intros [= <-]. cbn. split; [reflexivity|]. split; [|reflexivity].
  apply orb_false_iff in E. destruct E as [_ E].
  destruct (strip c); [discriminate | reflexivity].
Qed.

Lemma emit_emitted (ty : ChunkType) (p : Z) (refs : list str)
  (count : stats -> stats) (pieces0 : list str) :
  forall contents,
    Forall2 (carries cfg) pieces0 contents ->
    (splittable ty -> Forall (fits cfg) pieces0) ->
    triple (emit ty p refs count contents)
      (fun _ chunks _ => Forall2 (emitted cfg) chunks (map (pair ty) pieces0)).
Proof.
  induction pieces0 as [|piece rest IH]; intros contents HF Hfit s a s' H;
    inversion HF as [|? out ? outs Hout Houts]; subst; cbn [emit] in H.
  - injection H as <- <-. constructor.
  - apply ChunkerFacts.bind_ok in H. destruct H as (chunk & s1 & H1 & H).
    injection H1 as H1 <-.
    apply ChunkerFacts.bind_ok in H. destruct H as (u & s2 & H2 & H).
    injection H2 as _ <-.
    apply ChunkerFacts.bind_ok in H. destruct H as (more & s3 & H3 & H).
    injection H as <- <-.
    destruct (new_chunk_made _ _ _ _ _ H1) as (Hty & Hcount & Hc).
    cbn [map]. constructor.
    + split.
      * split; [exact Hty|]. split; [exact Hcount|]. exists out. now split.
      * intros Hs. exact (Forall_inv (Hfit Hs)).
    + apply (IH outs Houts) with (s := count s) (s' := s3); [|exact H3].
      intros Hs. exact (Forall_inv_tail (Hfit Hs)).
Qed.

(** The chunks of one content, cut and given its overlap. *)
Lemma emit_pieces (ty : ChunkType) (p : Z) (refs : list str)
  (count : stats -> stats) (content0 : str) :
  triple (emit ty p refs count (pieces cfg content0))
    (fun _ chunks _ => Forall2 (emitted cfg) chunks (map (pair ty) (cuts cfg content0))).
Proof.
  rewrite pieces_cuts. apply emit_emitted; [apply add_overlap_carries|].
  intros _. apply cuts_fit.
Qed.

Lemma ret_emitted : triple (ret (@nil TextChunk)) (fun _ chunks _ => Forall2 (emitted cfg) chunks []).
Proof. intros s a s' [= <- <-]. constructor. Qed.

Lemma for_each_emitted {A : Type} (f : A -> M (list TextChunk))
  (g : A -> list (ChunkType * str)) (xs : list A) :
  (forall x, triple (f x) (fun _ chunks _ => Forall2 (emitted cfg) chunks (g x))) ->
  triple (for_each f xs)
    (fun _ chunks _ => Forall2 (emitted cfg) chunks (flat_map g xs)).
Proof.
  intros Hf. induction xs as [|x rest IH]; intros s a s' H; cbn [for_each] in H.
  - injection H as <- <-. constructor.
  - apply ChunkerFacts.bind_ok in H. destruct H as (here & s1 & H1 & H).
    apply ChunkerFacts.bind_ok in H. destruct H as (more & s2 & H2 & H).
    injection H as <- <-. cbn [flat_map]. apply Forall2_app.
    + exact (Hf x _ _ _ H1).
    + exact (IH _ _ _ H2).
Qed.

Lemma chunk_article_emitted (article : LegalArticle) (p : Z) :
  triple (chunk_article cfg format_type article p)
    (fun _ chunks _ =>
       Forall2 (emitted cfg) chunks (article_cuts cfg format_type article)).
Proof.
  intros s a s' H. unfold chunk_article in H.
  apply ChunkerFacts.bind_ok in H. destruct H as (main & s1 & H1 & H).
  apply ChunkerFacts.bind_ok in H. destruct H as (subs & s2 & H2 & H).
  apply ChunkerFacts.bind_ok in H. destruct H as (notes & s3 & H3 & H).
  injection H as <- <-. unfold article_cuts.
  apply Forall2_app; [|apply Forall2_app].
  - destruct (truthy (article_content article)).
    + exact (emit_pieces _ _ _ _ _ _ _ _ H1).
    + exact (ret_emitted _ _ _ H1).
  - revert H2. apply for_each_emitted. intros subsection.
    destruct (truthy (subsection_content subsection));
      [apply emit_pieces | apply ret_emitted].
  - revert H3. apply for_each_emitted. intros note.
    destruct (truthy (note_content note)); [apply emit_pieces | apply ret_emitted].
Qed.

Lemma chapter_articles_emitted (p : Z) (articles : list LegalArticle) :
  forall i0,
    triple (chapter_articles_from cfg format_type p i0 articles)
      (fun _ chunks _ =>
         Forall2 (emitted cfg) chunks
           (flat_map (article_cuts cfg format_type) articles)).
Proof.
  induction articles as [|article rest IH]; intros i0 s a s' H;
    cbn [chapter_articles_from] in H.
  - injection H as <- <-. constructor.
  - apply ChunkerFacts.bind_ok in H. destruct H as (here & s1 & H1 & H).
    apply ChunkerFacts.bind_ok in H. destruct H as (more & s2 & H2 & H).
    injection H as <- <-. cbn [flat_map]. apply Forall2_app.
    + exact (chunk_article_emitted _ _ _ _ _ H1).
    + exact (IH _ _ _ _ H2).
Qed.

(** A chunk of a type that is never split, made of its whole content. *)
Lemma whole_emitted (c : str) (ty : ChunkType) (p : Z) (refs : list str)
  (chunk : TextChunk) :
  new_TextChunk c ty p refs = Ok chunk ->
  ~ splittable ty -> emitted cfg chunk (ty, c).
Proof.
  intros H Hty. destruct (new_chunk_made _ _ _ _ _ H) as (H1 & H2 & H3). split.
  - split; [exact H1|]. split; [exact H2|]. exists c. split; [now left | exact H3].
  - intros Hs. contradiction.
Qed.

Lemma chunk_chapter_emitted (chapter : LegalChapter) (p : Z) :
  triple (chunk_chapter cfg format_type chapter p)
    (fun _ chunks _ =>
       Forall2 (emitted cfg) chunks (chapter_cuts cfg format_type chapter)).
Proof.
  intros s a s' H. unfold chunk_chapter in H.
  apply ChunkerFacts.bind_ok in H. destruct H as (title & s1 & H1 & H).
  apply ChunkerFacts.bind_ok in H. destruct H as (arts & s2 & H2 & H).
  injection H as <- <-. unfold chapter_cuts. apply Forall2_app.
  - destruct (truthy (chapter_title chapter)).
    + apply ChunkerFacts.bind_ok in H1. destruct H1 as (chunk & s0 & Hc & H1).
      injection H1 as <- <-. injection Hc as Hc _.
      constructor; [|constructor]. apply (whole_emitted _ _ _ _ _ Hc).
      intros [E | [E | E]]; discriminate.
    + injection H1 as <- <-. constructor.
  - exact (chapter_articles_emitted _ _ _ _ _ _ H2).
Qed.

Lemma counted_emitted {A : Type} (f : A -> Z -> M (list TextChunk))
  (g : A -> list (ChunkType * str)) (xs : list A) :
  (forall x p, triple (f x p) (fun _ chunks _ => Forall2 (emitted cfg) chunks (g x))) ->
  forall pc,
    triple (counted f pc xs)
      (fun _ out _ => Forall2 (emitted cfg) (fst out) (flat_map g xs)).
Proof.
  intros Hf. induction xs as [|x rest IH]; intros pc s a s' H; cbn [counted] in H.
  - injection H as <- <-. constructor.
  - apply ChunkerFacts.bind_ok in H. destruct H as (here & s1 & H1 & H).
    apply ChunkerFacts.bind_ok in H. destruct H as (more & s2 & H2 & H).
    injection H as <- <-. cbn [fst flat_map]. apply Forall2_app.
    + exact (Hf x pc _ _ _ H1).
    + exact (IH _ _ _ _ H2).
Qed.

(** The chunks returned are made of the pieces of the document, one
    chunk of each piece, in order. *)
Lemma chunk_document_emitted (document : LegalDocument) (s s' : stats)
  (chunks : list TextChunk) :
  chunk_document cfg format_type document s = (Ok chunks, s') ->
  Forall2 (emitted cfg) chunks (document_cuts cfg format_type document).
Proof.
  unfold chunk_document.
  destruct (chunk_document_body cfg format_type document s) as [[out|e] s0] eqn:Hbody;
    [|discriminate].
  intros [= -> ->]. unfold chunk_document_body in Hbody.
  apply ChunkerFacts.bind_ok in Hbody. destruct Hbody as (ch & s1 & Hch & Hbody).
  apply ChunkerFacts.bind_ok in Hbody. destruct Hbody as (st & s2 & Hst & Hbody).
  apply ChunkerFacts.bind_ok in Hbody. destruct Hbody as (fn & s3 & Hfn & Hbody).
  apply ChunkerFacts.bind_ok in Hbody. destruct Hbody as (u & s4 & _ & Hbody).
  apply ChunkerFacts.bind_ok in Hbody. destruct Hbody as (v & s5 & _ & Hbody).
  injection Hbody as <- <-. unfold document_cuts.
  apply Forall2_app; [|apply Forall2_app].
  - exact (counted_emitted _ _ _ chunk_chapter_emitted _ _ _ _ Hch).
  - exact (counted_emitted _ _ _ chunk_article_emitted _ _ _ _ Hst).
  - destruct (truthy (footnotes document)); cbn [andb].
    + destruct (truthy (join blank_line (footnote_lines 0 (footnotes document)))).
      * apply ChunkerFacts.bind_ok in Hfn. destruct Hfn as (chunk & s6 & Hc & Hfn).
        injection Hfn as <- <-. injection Hc as Hc _.
        constructor; [|constructor]. apply (whole_emitted _ _ _ _ _ Hc).
        intros [E | [E | E]]; discriminate.
      * injection Hfn as <- <-. constructor.
    + injection Hfn as <- <-. constructor.
Qed.

End WithConfig.

End CutFacts.

(** C1, as stated, fails.  With the default configuration (maximum
    1000), a document with forty footnotes gives a single chunk, the
    joined footnotes, of 1589 characters.  It is not the remainder of a
    split: footnote chunks, like chapter-title chunks, are never split.
    The chunk is emitted and counted as oversized.  And with a maximum
    of 20, an article whose content starts with a word of 25 letters
    gives three chunks of 6, 25 and 3 characters: the word cannot be
    broken, and its chunk is not the last one of the split. *)
Lemma C1_unsplit_chunks_exceed_the_maximum :
  (exists chunk s',
     Chunker.chunk_document Chunker.DOCUMENT_CONFIG Inputs.format_value
       Inputs.forty_footnotes Chunker.stats0 = (Exn.Ok [chunk], s')
     /\ Models.chunk_type chunk = Models.FOOTNOTE
     /\ Models.character_count chunk = 1589%Z
     /\ (Models.character_count chunk > Chunker.max_chunk_size Chunker.DOCUMENT_CONFIG)%Z
     /\ Chunker.oversized_chunks s' = 1%Z)
  /\ (exists chunks s',
        Chunker.chunk_document Inputs.no_overlap Inputs.format_value
          Inputs.long_word Chunker.stats0 = (Exn.Ok chunks, s')
        /\ map Models.chunk_type chunks
           = [Models.ARTICLE; Models.ARTICLE; Models.ARTICLE]
        /\ map Models.character_count chunks = [6; 25; 3]%Z
        /\ Chunker.max_chunk_size Inputs.no_overlap = 20%Z).
Proof.
  split.
  - eexists. eexists. split; [vm_compute; reflexivity|].
    vm_compute. repeat split; reflexivity.
  - eexists. eexists. split; [vm_compute; reflexivity|].
    vm_compute. repeat split; reflexivity.
Qed.

(** C1, amended.  For every validated [LegalDocument] and every
    configuration, [chunk_document] raises nothing and returns its
    chunks.  Whenever it returns, for any document, the chunks returned
    are the chunks of all the pieces of the document, one chunk of each
    piece and in order, whatever their size: none is dropped.  A chunk
    holds its piece, stripped, alone or, when overlap is configured,
    behind an overlap prefix.  The piece of an article, subsection or
    note chunk has at most [max_chunk_size] characters unless it is a
    single word without whitespace, which cannot be broken; so such a
    chunk that holds its piece alone has a character count of at most
    [max_chunk_size] or is that word, and so has each of them when no
    overlap is configured.  Nothing is said of the length of a chunk
    with a prefix.  Chapter-title and footnote chunks are never split
    and carry no bound.  Each chunk is counted once in
    [total_chunks_created], those above the maximum are counted as
    oversized and those below the minimum (and not above the maximum)
    as undersized. *)
Theorem C1_chunks_fit_unless_unbreakable_and_all_are_emitted
  (cfg : Chunker.config) (format_type : Models.SubsectionType -> Py.str)
  (document : Models.LegalDocument) (s : Chunker.stats) :
  (Models.valid_document document ->
   exists chunks s',
     Chunker.chunk_document cfg format_type document s = (Exn.Ok chunks, s'))
  /\ forall chunks s',
       Chunker.chunk_document cfg format_type document s = (Exn.Ok chunks, s') ->
       Forall2
         (fun chunk piece =>
            Spec.made_of cfg chunk piece
            /\ (Spec.splittable (Models.chunk_type chunk) ->
                Spec.fits cfg (snd piece)
                /\ (Models.content chunk = Py.strip (snd piece) ->
                    (Models.character_count chunk <= Chunker.max_chunk_size cfg)%Z
                    \/ Py.no_space (Models.content chunk))))
         chunks (Spec.document_cuts cfg format_type document)
       /\ (Chunker.chunk_overlap cfg = 0%Z ->
           Forall (fun chunk =>
                     Spec.splittable (Models.chunk_type chunk) ->
                     (Models.character_count chunk <= Chunker.max_chunk_size cfg)%Z
                     \/ Py.no_space (Models.content chunk))
             chunks)
       /\ Chunker.total_chunks_created s'
          = (Chunker.total_chunks_created s + Py.len chunks)%Z
       /\ Chunker.oversized_chunks s'
          = (Chunker.oversized_chunks s
             + Py.len (filter (Spec.is_oversized cfg) chunks))%Z
       /\ Chunker.undersized_chunks s'
          = (Chunker.undersized_chunks s
             + Py.len (filter (Spec.is_undersized cfg) chunks))%Z.
Proof.
  split.
  - intros Hvalid.
    exact (ChunkerFacts.chunk_document_returns cfg format_type document Hvalid s).
  - intros chunks s' Hrun.
    destruct (ChunkerFacts.chunk_document_spec cfg format_type document s s' chunks Hrun)
      as (Hok & _ & Ht & Ho & Hu).
    split; [|split; [|repeat split; assumption]].
    + eapply Forall2_impl;
        [|exact (CutFacts.chunk_document_emitted cfg format_type document s s'
                   chunks Hrun)].
      intros chunk piece [Hmade Hfit]. split; [exact Hmade|].
      destruct Hmade as (Hty & Hcount & _). rewrite Hty. intros Hs.
      specialize (Hfit Hs). split; [exact Hfit|].
      intros Hc. rewrite Hcount, Hc.
      destruct (@Pieces.fits_strip cfg (snd piece) Hfit) as [H | H];
        [now left | now right].
    + intros Hov. eapply Forall_impl; [|exact Hok].
      intros c [_ H] Hty. now apply H.
Qed.

Lemma C1_chunks_fit_witness :
  Models.valid_document Inputs.two_chapters
  /\ exists chunks s',
       Chunker.chunk_document Inputs.small Inputs.format_value
         Inputs.two_chapters Chunker.stats0 = (Exn.Ok chunks, s')
       /\ map (fun piece => Py.len (snd piece))
            (Spec.document_cuts Inputs.small Inputs.format_value Inputs.two_chapters)
          = [15; 19; 19; 16; 3; 19; 7; 16; 9; 17; 17; 21]%Z
       /\ map Models.character_count chunks
          = [15; 19; 19; 21; 9; 19; 9; 16; 11; 17; 17; 21]%Z
       /\ Forall2
            (fun chunk piece =>
               Spec.made_of Inputs.small chunk piece
               /\ (Spec.splittable (Models.chunk_type chunk) ->
                   Spec.fits Inputs.small (snd piece)
                   /\ (Models.content chunk = Py.strip (snd piece) ->
                       (Models.character_count chunk
                        <= Chunker.max_chunk_size Inputs.small)%Z
                       \/ Py.no_space (Models.content chunk))))
            chunks
            (Spec.document_cuts Inputs.small Inputs.format_value Inputs.two_chapters)
       /\ Chunker.total_chunks_created s' = 12%Z
       /\ Chunker.oversized_chunks s' = 2%Z
       /\ Chunker.undersized_chunks s' = 0%Z.
Proof.
  assert (Hvalid : Models.valid_document Inputs.two_chapters).
  { split; [|constructor].
    repeat constructor; try discriminate; vm_compute; reflexivity. }
  split; [exact Hvalid|].
  destruct (@C1_chunks_fit_unless_unbreakable_and_all_are_emitted
              Inputs.small Inputs.format_value Inputs.two_chapters
              Chunker.stats0) as [Hreturns Hchunks].
  destruct (Hreturns Hvalid) as (chunks & s' & Hrun).
  exists chunks, s'. split; [exact Hrun|].
  destruct (Hchunks chunks s' Hrun) as (Hmade & _ & Ht & Ho & Hu).
  split; [vm_compute; reflexivity|].
  split; [|split; [exact Hmade|]].
  - assert (Hrun' := Hrun). vm_compute in Hrun'. injection Hrun' as <- _.
    vm_compute. reflexivity.
  - assert (Hrun' := Hrun). vm_compute in Hrun'. injection Hrun' as <- <-.
    rewrite Ht, Ho, Hu. vm_compute. repeat split; reflexivity.
Defined.

(** ** The substitutions of [clean_text] on the text alone *)

Module Respace.
Import Py Re Spec TextUtils.

Unset Implicit Arguments.

Lemma orelse_none_r {A : Type} (a : option A) : orelse a None = a.
Proof. now destruct a. Qed.

Lemma run_ws_pos (s : str) :
  forall st, pos (run_ws st s) = pos st + leading_ws s.
Proof.
  induction s as [|c t IH]; intros st; cbn [run_ws leading_ws]; [lia|].
  destruct (isspace c); [|lia]. rewrite IH. cbn. lia.
Qed.

Lemma run_ws_rest (s : str) :
  forall st, rest st = s -> rest (run_ws st s) = lstrip s.
Proof.
  induction s as [|c t IH]; intros st Hst; cbn [run_ws lstrip]; [assumption|].
  destruct (isspace c); [|assumption]. now apply IH.
Qed.

Lemma run_ws_caps (s : str) :
  forall st, caps (run_ws st s) = caps st.
Proof.
  induction s as [|c t IH]; intros st; cbn [run_ws]; [reflexivity|].
  destruct (isspace c); [|reflexivity]. now rewrite IH.
Qed.

Lemma m_chr (fl : flags) (p : char -> bool) (st : state) (k : state -> option state) :
  m fl (Chr p) st k
  = match rest st with
    | c :: t => if p c then k (advance c t st) else None
    | [] => None
    end.
Proof. reflexivity. Qed.

(** The greedy star over whitespace, when the continuation cannot
    succeed in front of a whitespace character: only the longest run is
    left to try. *)
Lemma star_ws_longest (fl : flags) (k : state -> option state) :
  (forall st c t, rest st = c :: t -> isspace c = true -> k st = None) ->
  forall s st n,
    rest st = s -> length s < n ->
    star_loop (m fl (Chr isspace)) true k n st = k (run_ws st s).
Proof.
  intros Hk. induction s as [|c t IH]; intros st n Hst Hn.
  - destruct n; [cbn in Hn; lia|]. cbn [star_loop run_ws]. rewrite m_chr, Hst.
    reflexivity.
  - destruct n; [cbn in Hn; lia|]. cbn [star_loop run_ws]. rewrite m_chr, Hst.
    destruct (isspace c) eqn:Hc; [|reflexivity].
    replace (pos st <? pos (advance c t st)) with true
      by (symmetry; apply Nat.ltb_lt; cbn; lia).
    rewrite (IH (advance c t st) n); [|reflexivity | cbn in Hn; lia].
    rewrite (Hk st c t Hst Hc). apply orelse_none_r.
Qed.

(** The greedy star over whitespace in front of a continuation that
    succeeds after the longest run. *)
Lemma star_ws_total (fl : flags) (k : state -> option state) :
  forall s st n x,
    rest st = s -> length s < n ->
    k (run_ws st s) = Some x ->
    star_loop (m fl (Chr isspace)) true k n st = Some x.
Proof.
  induction s as [|c t IH]; intros st n x Hst Hn Hx.
  - destruct n; [cbn in Hn; lia|]. cbn [star_loop run_ws] in *.
    rewrite m_chr, Hst. exact Hx.
  - destruct n; [cbn in Hn; lia|]. cbn [star_loop run_ws] in *.
    rewrite m_chr, Hst.
    destruct (isspace c) eqn:Hc; [|exact Hx].
    replace (pos st <? pos (advance c t st)) with true
      by (symmetry; apply Nat.ltb_lt; cbn; lia).
    rewrite (IH (advance c t st) n x); [reflexivity | reflexivity | cbn in Hn; lia | exact Hx].
Qed.

Lemma m_seq (fl : flags) (r1 r2 : regex) (st : state) (k : state -> option state) :
  m fl (Seq r1 r2) st k = m fl r1 st (fun st1 => m fl r2 st1 k).
Proof. reflexivity. Qed.

Lemma m_star (fl : flags) (g : bool) (r : regex) (st : state)
  (k : state -> option state) :
  m fl (Star g r) st k = star_loop (m fl r) g k (S (length (rest st))) st.
Proof. reflexivity. Qed.

Lemma m_group (fl : flags) (n : nat) (r : regex) (st : state)
  (k : state -> option state) :
  m fl (Group n r) st k
  = m fl r st
      (fun st1 =>
         k {| pos := pos st1; prev := prev st1; rest := rest st1;
              caps := (n, firstn (pos st1 - pos st) (rest st)) :: caps st1 |}).
Proof. reflexivity. Qed.

Section Around.

Variable cls : char -> bool.
Hypothesis cls_not_space : forall c, cls c = true -> isspace c = false.

Lemma around_match (fl : flags) (i : nat) (pv : option char) (s : str)
  (k : state -> option state) :
  m fl (around cls) {| pos := i; prev := pv; rest := s; caps := [] |} k
  = match lstrip s with
    | [] => None
    | d :: t =>
        if cls d
        then star_loop (m fl (Chr isspace)) true k (S (length t))
               {| pos := S (i + leading_ws s); prev := Some d; rest := t;
                  caps := [(1, [d])] |}
        else None
    end.
Proof.
  unfold around. rewrite m_seq, m_star. cbn [rest].
  rewrite (star_ws_longest fl) with (s := s); [|  | reflexivity | lia].
  - set (st1 := run_ws _ s).
    assert (Hrest : rest st1 = lstrip s) by (apply run_ws_rest; reflexivity).
    assert (Hpos : pos st1 = i + leading_ws s) by (unfold st1; now rewrite run_ws_pos).
    assert (Hcaps : caps st1 = []) by (unfold st1; now rewrite run_ws_caps).
    rewrite m_seq, m_group, m_chr, Hrest.
    destruct (lstrip s) as [|d t]; [reflexivity|].
    destruct (cls d); [|reflexivity].
    rewrite m_star. cbn [advance pos prev rest caps]. rewrite Hcaps, Hpos.
    replace (S (i + leading_ws s) - (i + leading_ws s)) with 1 by lia.
    reflexivity.
  - intros st c t Hst Hc. rewrite m_seq, m_group, m_chr, Hst.
    destruct (cls c) eqn:E; [|reflexivity].
    apply cls_not_space in E. congruence.
Qed.

Lemma after_match_pos (i : nat) (s : str) (d : char) (t : str) :
  pos (after_match i s d t) = i + (leading_ws s + 1 + leading_ws t).
Proof. unfold after_match. rewrite run_ws_pos. cbn. lia. Qed.

Lemma attempt_around (fl : flags) (i : nat) (pv : option char) (s : str) :
  attempt fl (around cls) i pv s
  = match ahead cls s with
    | Some (d, jump) =>
        ([ {| m_start := i; m_end := i + jump; m_caps := [(1, [d])] |} ], jump)
    | None => ([], 0)
    end.
Proof.
  unfold attempt, ahead. rewrite !around_match.
  destruct (lstrip s) as [|d t]; [reflexivity|].
  destruct (cls d); [|reflexivity].
  rewrite (star_ws_total fl Some t _ (S (length t)) (after_match i s d t));
    [|reflexivity | lia | reflexivity].
  rewrite after_match_pos.
  replace (i + (leading_ws s + 1 + leading_ws t) =? i) with false
    by (symmetry; apply Nat.eqb_neq; lia).
  unfold found. rewrite after_match_pos. unfold after_match. rewrite run_ws_caps.
  cbn [caps].
  replace (i + (leading_ws s + 1 + leading_ws t) - i)
    with (leading_ws s + 1 + leading_ws t) by lia.
  reflexivity.
Qed.

Variables pre post : str.

(** [re.sub] with this pattern is [respace]. *)
Lemma sub_scan_around (fl : flags) (s : str) :
  forall i pv skip,
    sub_scan fl (around cls) (fun mt => pre ++ group_or_empty mt 1 ++ post)
      None i pv s skip
    = respace cls pre post s skip.
Proof.
  induction s as [|c t IH]; intros i pv skip; cbn [sub_scan respace].
  - destruct skip; [|reflexivity]. cbn [exhausted within].
    rewrite attempt_around. reflexivity.
  - destruct skip as [|k]; [|apply IH]. cbn [exhausted].
    rewrite attempt_around. destruct (ahead cls (c :: t)) as [[d jump]|] eqn:E.
    + cbn [within fst snd length flat_map]. rewrite Nat.eqb_refl.
      assert (Hj : (jump =? 0) = false).
      { apply Nat.eqb_neq. unfold ahead in E.
        destruct (lstrip (c :: t)); [discriminate|].
        destruct (cls c0); [|discriminate]. injection E as _ <-. lia. }
      rewrite Hj. cbn [spend]. rewrite IH.
      unfold group_or_empty, group. cbn [m_caps lookup_group Nat.eqb].
      rewrite app_nil_r. cbn [app]. now rewrite <- !app_assoc.
    + cbn [within fst snd length flat_map Nat.eqb app spend pred]. now rewrite IH.
Qed.

End Around.

Lemma punct_not_space (c : char) : is_punct c = true -> isspace c = false.
Proof.
  unfold is_punct, one_of. cbn [existsb]. rewrite !orb_true_iff.
  intros H. repeat destruct H as [H | H]; try discriminate;
    apply N.eqb_eq in H; subst c; reflexivity.
Qed.

Lemma paren_not_space (c : char) : is_paren c = true -> isspace c = false.
Proof.
  unfold is_paren, one_of. cbn [existsb]. rewrite !orb_true_iff.
  intros H. repeat destruct H as [H | H]; try discriminate;
    apply N.eqb_eq in H; subst c; reflexivity.
Qed.

Lemma space_punct_respace (text : str) :
  space_punct text = respace is_punct [] [space] text 0.
Proof.
  unfold space_punct, sub, punct_re.
  apply (sub_scan_around is_punct punct_not_space [] [space]).
Qed.

Lemma space_parens_respace (text : str) :
  space_parens text = respace is_paren [space] [space] text 0.
Proof.
  unfold space_parens, sub, paren_re.
  apply (sub_scan_around is_paren paren_not_space [space] [space]).
Qed.

End Respace.

(** ** Spacing around punctuation and parentheses *)

Module Spacing.
Import Py Re Spec TextUtils Respace.

Unset Implicit Arguments.

Lemma ahead_none_head (cls : char -> bool) (c : char) (t : str) :
  (forall x, cls x = true -> isspace x = false) ->
  ahead cls (c :: t) = None -> cls c = false.
Proof.
  intros Hdisj H. destruct (cls c) eqn:E; [|reflexivity].
  unfold ahead in H. cbn [lstrip] in H. rewrite (Hdisj c E), E in H. discriminate.
Qed.

Lemma punct_followed (s : str) :
  forall skip, followed_by_space is_punct (respace is_punct [] [space] s skip).
Proof.
  induction s as [|c t IH]; intros skip; cbn [respace]; [exact I|].
  destruct skip as [|k]; [|apply IH].
  destruct (ahead is_punct (c :: t)) as [[d jump]|] eqn:E.
  - cbn [app followed_by_space]. split; [eauto|]. split; [discriminate | apply IH].
  - cbn [followed_by_space]. split; [|apply IH].
    rewrite (ahead_none_head is_punct c t punct_not_space E). discriminate.
Qed.

Lemma paren_followed (s : str) :
  forall skip, followed_by_space is_paren (respace is_paren [space] [space] s skip).
Proof.
  induction s as [|c t IH]; intros skip; cbn [respace]; [exact I|].
  destruct skip as [|k]; [|apply IH].
  destruct (ahead is_paren (c :: t)) as [[d jump]|] eqn:E.
  - cbn [app followed_by_space]. split; [discriminate|]. split; [eauto|].
    split; [discriminate | apply IH].
  - cbn [followed_by_space]. split; [|apply IH].
    rewrite (ahead_none_head is_paren c t paren_not_space E). discriminate.
Qed.

Lemma paren_preceded (s : str) :
  forall skip before,
    preceded_by_space is_paren before (respace is_paren [space] [space] s skip).
Proof.
  induction s as [|c t IH]; intros skip before; cbn [respace]; [exact I|].
  destruct skip as [|k]; [|apply IH].
  destruct (ahead is_paren (c :: t)) as [[d jump]|] eqn:E.
  - cbn [app preceded_by_space]. split; [discriminate|]. split; [reflexivity|].
    split; [discriminate | apply IH].
  - cbn [preceded_by_space]. split; [|apply IH].
    rewrite (ahead_none_head is_paren c t paren_not_space E). discriminate.
Qed.

(** *** Parentheses leave the space after a punctuation mark in place *)

Lemma leading_ws_spaces (s : str) :
  Forall (fun c => isspace c = true) (firstn (leading_ws s) s).
Proof.
  induction s as [|c t IH]; cbn [leading_ws]; [constructor|].
  destruct (isspace c) eqn:E; [|constructor]. cbn [firstn]. now constructor.
Qed.

Lemma leading_ws_split (s : str) : s = firstn (leading_ws s) s ++ lstrip s.
Proof.
  induction s as [|c t IH]; cbn [leading_ws lstrip]; [reflexivity|].
  destruct (isspace c); [|reflexivity]. cbn [firstn app]. now rewrite <- IH.
Qed.

Lemma leading_ws_length (s : str) : leading_ws s <= length s.
Proof.
  induction s as [|c t IH]; cbn [leading_ws length]; [lia|].
  destruct (isspace c); lia.
Qed.

(** The characters of a match are whitespace or of the class. *)
Lemma ahead_region (cls : char -> bool) (s : str) (d : char) (jump : nat) :
  ahead cls s = Some (d, jump) ->
  Forall (fun c => isspace c = true \/ cls c = true) (firstn jump s).
Proof.
  unfold ahead. destruct (lstrip s) as [|d' t] eqn:El; [discriminate|].
  destruct (cls d') eqn:Ec; [|discriminate]. intros [= <- <-].
  rewrite (leading_ws_split s) at 2. rewrite El.
  assert (Hlen : length (firstn (leading_ws s) s) = leading_ws s)
    by (apply firstn_length_le, leading_ws_length).
  rewrite firstn_app, Hlen.
  replace (leading_ws s + 1 + leading_ws t - leading_ws s)
    with (S (leading_ws t)) by lia.
  rewrite firstn_all2 by (rewrite Hlen; lia). cbn [firstn].
  apply Forall_app. split.
  - eapply Forall_impl; [|apply leading_ws_spaces]. intros c Hc. now left.
  - constructor; [now right|].
    eapply Forall_impl; [|apply leading_ws_spaces]. intros c Hc. now left.
Qed.

Lemma ahead_jump_positive (cls : char -> bool) (s : str) (d : char) (jump : nat) :
  ahead cls s = Some (d, jump) -> jump = S (pred jump).
Proof.
  unfold ahead. destruct (lstrip s) as [|d' t]; [discriminate|].
  destruct (cls d'); [|discriminate]. intros [= <- <-]. lia.
Qed.

Lemma punct_not_paren (c : char) :
  isspace c = true \/ is_paren c = true -> is_punct c = false.
Proof.
  intros [H | H].
  - destruct (is_punct c) eqn:E; [|reflexivity].
    apply punct_not_space in E. congruence.
  - unfold is_paren, one_of in H. cbn [existsb] in H. rewrite !orb_true_iff in H.
    repeat destruct H as [H | H]; try discriminate;
      apply N.eqb_eq in H; subst c; reflexivity.
Qed.

Lemma respace_paren_head_space (t : str) :
  exists r, respace is_paren [space] [space] (space :: t) 0 = space :: r.
Proof.
  cbn [respace]. destruct (ahead is_paren (space :: t)) as [[d jump]|]; cbn [app]; eauto.
Qed.

Lemma punct_still_followed (s : str) :
  forall skip,
    followed_by_space is_punct s ->
    Forall (fun c => is_punct c = false) (firstn skip s) ->
    followed_by_space is_punct (respace is_paren [space] [space] s skip).
Proof.
  induction s as [|c t IH]; intros skip Hf Hskip; cbn [respace]; [exact I|].
  cbn [followed_by_space] in Hf. destruct Hf as [Hc Ht].
  destruct skip as [|k].
  - destruct (ahead is_paren (c :: t)) as [[d jump]|] eqn:E.
    + pose proof (ahead_region is_paren (c :: t) d jump E) as Hreg.
      rewrite (ahead_jump_positive is_paren (c :: t) d jump E) in Hreg.
      cbn [firstn] in Hreg. inversion Hreg as [|? ? _ Hreg']; subst.
      cbn [app followed_by_space]. split; [discriminate|]. split.
      { intros Hd. exfalso.
        assert (Hp : is_paren d = true).
        { unfold ahead in E. destruct (lstrip (c :: t)); [discriminate|].
          destruct (is_paren c0) eqn:E0; [|discriminate]. now injection E as <- _. }
        rewrite (punct_not_paren d (or_intror Hp)) in Hd. discriminate. }
      split; [discriminate|]. apply IH; [assumption|].
      eapply Forall_impl; [|exact Hreg']. intros x Hx. now apply punct_not_paren.
    + cbn [followed_by_space]. split.
      * intros Hp. destruct (Hc Hp) as [t' ->]. apply respace_paren_head_space.
      * apply IH; [assumption | constructor].
  - cbn [firstn] in Hskip. inversion Hskip; subst. now apply IH.
Qed.

(** *** Stripping keeps the spacing, up to the two ends *)

Lemma followed_weaken (cls : char -> bool) (s : str) :
  followed_by_space cls s -> followed_unless_last cls s.
Proof.
  induction s as [|c t IH]; [trivial|]. cbn. intros [H Ht]. split; [|auto].
  intros Hc. right. auto.
Qed.

Lemma followed_lstrip (cls : char -> bool) (s : str) :
  followed_unless_last cls s -> followed_unless_last cls (lstrip s).
Proof.
  induction s as [|c t IH]; [trivial|]. cbn [lstrip]. intros H.
  destruct (isspace c); [|assumption]. apply IH. exact (proj2 H).
Qed.

Lemma followed_rstrip (cls : char -> bool) (s : str) :
  followed_unless_last cls s -> followed_unless_last cls (rstrip s).
Proof.
  induction s as [|c t IH]; [trivial|]. cbn [followed_unless_last rstrip].
  intros [Hc Ht]. destruct (isspace c && is_nil (rstrip t)); [exact I|].
  cbn [followed_unless_last]. split; [|auto].
  intros Hcls. destruct (Hc Hcls) as [-> | [t' ->]]; [now left|].
  cbn [rstrip]. destruct (isspace space && is_nil (rstrip t')); [now left | right; eauto].
Qed.

Lemma preceded_weaken (cls : char -> bool) (s : str) :
  forall before,
    preceded_by_space cls before s -> preceded_unless_first cls before s.
Proof.
  induction s as [|c t IH]; intros before; [trivial|]. cbn. intros [H Ht].
  split; [|auto]. intros Hc. right. auto.
Qed.

Lemma preceded_lstrip (cls : char -> bool) (s : str) :
  forall before,
    preceded_by_space cls before s -> preceded_unless_first cls None (lstrip s).
Proof.
  induction s as [|c t IH]; intros before; [trivial|]. cbn [lstrip].
  intros [Hc Ht]. destruct (isspace c); [now apply (IH (Some c))|].
  cbn [preceded_unless_first]. split; [now left | now apply preceded_weaken].
Qed.

Lemma preceded_rstrip (cls : char -> bool) (s : str) :
  forall before,
    preceded_unless_first cls before s ->
    preceded_unless_first cls before (rstrip s).
Proof.
  induction s as [|c t IH]; intros before; [trivial|].
  cbn [preceded_unless_first rstrip]. intros [Hc Ht].
  destruct (isspace c && is_nil (rstrip t)); [exact I|].
  cbn [preceded_unless_first]. split; [assumption | now apply IH].
Qed.

Lemma rstrip_last (s : str) (d : char) :
  rstrip s <> [] -> isspace (last (rstrip s) d) = false.
Proof.
  induction s as [|c t IH]; cbn [rstrip]; [congruence|].
  destruct (isspace c && is_nil (rstrip t)) eqn:E; [congruence|]. intros _.
  cbn [last]. destruct (rstrip t) as [|x r] eqn:Er.
  - cbn [is_nil] in E. now rewrite andb_true_r in E.
  - apply IH. discriminate.
Qed.

Lemma strip_trimmed (s : str) : trimmed (strip s).
Proof.
  split.
  - intros c t H. eapply StripFacts.strip_head. eassumption.
  - apply rstrip_last.
Qed.

End Spacing.

(** * Further properties of the code *)

(** ** Digit conversion *)

Module DigitFacts.
Import Py Re TextUtils Spec.

Unset Implicit Arguments.

Ltac by_digit c :=
  repeat match goal with
         | |- context [(c =? ?k)%N] =>
             destruct (N.eqb_spec c k) as [->|?]; [try reflexivity; try discriminate|]
         end.

Lemma to_english1_spec (c : char) :
  to_english1 c = if in_range 0x6F0%N 0x6F9%N c then (c - 0x6C0)%N else c.
Proof.
  unfold to_english1, persian_to_english, maketrans, persian_digits, english_digits.
  cbn [combine table_get]. by_digit c.
  unfold in_range. destruct (N.leb_spec 0x6F0 c); destruct (N.leb_spec c 0x6F9);
    cbn [andb]; try reflexivity. lia.
Qed.

Lemma to_persian1_spec (c : char) :
  to_persian1 c = if in_range 0x30%N 0x39%N c then (c + 0x6C0)%N else c.
Proof.
  unfold to_persian1, english_to_persian, maketrans, persian_digits, english_digits.
  cbn [combine table_get]. by_digit c.
  unfold in_range. destruct (N.leb_spec 0x30 c); destruct (N.leb_spec c 0x39);
    cbn [andb]; try reflexivity. lia.
Qed.

Lemma in_range_spec (a b c : char) :
  in_range a b c = true <-> (a <= c /\ c <= b)%N.
Proof.
  unfold in_range. rewrite andb_true_iff, !N.leb_le. reflexivity.
Qed.

Lemma in_range_false (a b c : char) :
  in_range a b c = false <-> (c < a \/ b < c)%N.
Proof.
  unfold in_range. rewrite andb_false_iff, !N.leb_gt. reflexivity.
Qed.

Lemma english_of_persian1 (c : char) :
  in_range 0x6F0%N 0x6F9%N c = false -> to_english1 (to_persian1 c) = c.
Proof.
  intros Hc. rewrite to_persian1_spec.
  destruct (in_range 0x30%N 0x39%N c) eqn:E.
  - rewrite to_english1_spec. apply in_range_spec in E.
    replace (in_range 0x6F0%N 0x6F9%N (c + 0x6C0)%N) with true
      by (symmetry; apply in_range_spec; lia).
    lia.
  - rewrite to_english1_spec, Hc. reflexivity.
Qed.

Lemma persian_of_english1 (c : char) :
  in_range 0x30%N 0x39%N c = false -> to_persian1 (to_english1 c) = c.
Proof.
  intros Hc. rewrite to_english1_spec.
  destruct (in_range 0x6F0%N 0x6F9%N c) eqn:E.
  - rewrite to_persian1_spec. apply in_range_spec in E.
    replace (in_range 0x30%N 0x39%N (c - 0x6C0)%N) with true
      by (symmetry; apply in_range_spec; lia).
    lia.
  - rewrite to_persian1_spec, Hc. reflexivity.
Qed.

Lemma to_english1_clean (c : char) : in_range 0x6F0%N 0x6F9%N (to_english1 c) = false.
Proof.
  rewrite to_english1_spec. destruct (in_range 0x6F0%N 0x6F9%N c) eqn:E; [|exact E].
  apply in_range_spec in E. apply in_range_false. lia.
Qed.

Lemma to_persian1_clean (c : char) : in_range 0x30%N 0x39%N (to_persian1 c) = false.
Proof.
  rewrite to_persian1_spec. destruct (in_range 0x30%N 0x39%N c) eqn:E; [|exact E].
  apply in_range_spec in E. apply in_range_false. lia.
Qed.

End DigitFacts.

(** X1.  Converting the English digits of a text to Persian digits and
    back gives the text again when it held no Persian digit, and the
    other way round when it held no English digit.  The result of
    [convert_persian_to_english_digits] holds no Persian digit, that of
    [convert_english_to_persian_digits] no English digit, and both
    keep the length of the text. *)
Theorem X1_digit_conversions_are_inverse (text : Py.str) :
  (Forall (fun c => Re.in_range 0x6F0%N 0x6F9%N c = false) text ->
   TextUtils.convert_persian_to_english_digits
     (TextUtils.convert_english_to_persian_digits text) = text)
  /\ (Forall (fun c => Re.in_range 0x30%N 0x39%N c = false) text ->
      TextUtils.convert_english_to_persian_digits
        (TextUtils.convert_persian_to_english_digits text) = text)
  /\ Forall (fun c => Re.in_range 0x6F0%N 0x6F9%N c = false)
       (TextUtils.convert_persian_to_english_digits text)
  /\ Forall (fun c => Re.in_range 0x30%N 0x39%N c = false)
       (TextUtils.convert_english_to_persian_digits text)
  /\ length (TextUtils.convert_persian_to_english_digits text) = length text
  /\ length (TextUtils.convert_english_to_persian_digits text) = length text.
Proof.
  unfold TextUtils.convert_persian_to_english_digits,
    TextUtils.convert_english_to_persian_digits, Py.translate.
  fold Spec.to_english1 Spec.to_persian1.
  repeat split.
  - intros H. rewrite map_map. rewrite <- (map_id text) at 2.
    apply map_ext_in. intros c Hc. rewrite Forall_forall in H.
    apply DigitFacts.english_of_persian1. now apply H.
  - intros H. rewrite map_map. rewrite <- (map_id text) at 2.
    apply map_ext_in. intros c Hc. rewrite Forall_forall in H.
    apply DigitFacts.persian_of_english1. now apply H.
  - apply Forall_map, Forall_forall. intros c _. apply DigitFacts.to_english1_clean.
  - apply Forall_map, Forall_forall. intros c _. apply DigitFacts.to_persian1_clean.
  - apply length_map.
  - apply length_map.
Qed.

Lemma X1_digit_conversions_witness :
  TextUtils.convert_persian_to_english_digits
    (TextUtils.convert_english_to_persian_digits (Py.utf8 "ماده 12")) = Py.utf8 "ماده 12"
  /\ TextUtils.convert_english_to_persian_digits
       (TextUtils.convert_persian_to_english_digits (Py.utf8 "ماده ۱۲")) = Py.utf8 "ماده ۱۲".
Proof.
  split.
  - apply (proj1 (X1_digit_conversions_are_inverse (Py.utf8 "ماده 12"))).
    vm_compute. repeat constructor.
  - apply (proj1 (proj2 (X1_digit_conversions_are_inverse (Py.utf8 "ماده ۱۲")))).
    vm_compute. repeat constructor.
Defined.

(** ** The validators of the models *)

Module ValidatorFacts.
Import Py PyFacts StripFacts Exn Models Spec.

Unset Implicit Arguments.

Lemma rstrip_idem (s : str) : rstrip (rstrip s) = rstrip s.
Proof.
  induction s as [|c t IH]; [reflexivity|]. cbn [rstrip].
  destruct (isspace c && is_nil (rstrip t)) eqn:E; [reflexivity|].
  cbn [rstrip]. rewrite IH, E. reflexivity.
Qed.

Lemma lstrip_stripped (s : str) : lstrip (strip s) = strip s.
Proof.
  unfold strip. destruct (lstrip s) as [|c t] eqn:E; [reflexivity|].
  pose proof (lstrip_head s E) as Hc. cbn [rstrip]. rewrite Hc. cbn [andb lstrip].
  rewrite Hc. reflexivity.
Qed.

(** Stripping twice is stripping once. *)
Lemma strip_idem (s : str) : strip (strip s) = strip s.
Proof.
  unfold strip at 1. rewrite lstrip_stripped. unfold strip. apply rstrip_idem.
Qed.

Lemma stripped_words (c : str) : strip c <> [] -> (1 <= len (split (strip c)))%Z.
Proof.
  intros H. pose proof (has_word_split (stripped_has_word c H)) as Hw.
  destruct (split (strip c)) as [|w ws]; [congruence|].
  rewrite len_cons. pose proof (len_nonneg ws). lia.
Qed.

Lemma content_not_empty_spec (v : str) :
  match content_not_empty v with
  | Ok c => c = strip v /\ strip v <> []
  | Raise e => e = ValueError /\ strip v = []
  end.
Proof.
  unfold content_not_empty. destruct v as [|x t]; [cbn; auto|].
  cbn [is_nil orb]. destruct (strip (x :: t)) eqn:E; cbn [is_nil].
  - auto.
  - split; [reflexivity | discriminate].
Qed.

Lemma new_chunk_well_formed (c : str) (ty : ChunkType) (p : Z) (refs : list str)
  (chunk : TextChunk) :
  new_TextChunk c ty p refs = Ok chunk ->
  well_formed_chunk chunk /\ chunk_type chunk = ty /\ position chunk = p
  /\ legal_references chunk = refs /\ content chunk = strip c.
Proof.
  unfold new_TextChunk. pose proof (content_not_empty_spec c) as H.
  destruct (content_not_empty c) as [c'|e]; [|discriminate].
  destruct H as [-> Hne]. intros [= <-]. cbn.
  assert (Ht : truthy (strip c) = true) by (destruct (strip c); [congruence | reflexivity]).
  rewrite Ht. repeat split; try assumption.
  - apply strip_idem.
  - now apply stripped_words.
Qed.

End ValidatorFacts.

(** X2.  The validated model [LegalArticle] rejects a content that is
    empty or blank with a [ValueError], and otherwise stores the
    stripped content: the article built satisfies the invariant that
    the chunker relies on (content non-empty and equal to its own
    stripped form), its word count is the number of whitespace-separated
    words of the stored content and is at least one, and the other
    fields are the arguments. *)
Theorem X2_validated_article_has_stripped_content
  (number title content0 : Py.str)
  (subsections : list Models.LegalSubsection) (notes : list Models.LegalNote) :
  match Models.new_LegalArticle number title content0 subsections notes with
  | Exn.Ok article =>
      Py.strip content0 <> []
      /\ Models.article_content article = Py.strip content0
      /\ Models.valid_article article
      /\ Models.article_word_count article
         = Py.len (Py.split (Models.article_content article))
      /\ (1 <= Models.article_word_count article)%Z
      /\ Models.article_number article = number
      /\ Models.article_title article = title
      /\ Models.article_subsections article = subsections
      /\ Models.article_notes article = notes
  | Exn.Raise e => e = Exn.ValueError /\ Py.strip content0 = []
  end.
Proof.
  unfold Models.new_LegalArticle.
  pose proof (ValidatorFacts.content_not_empty_spec content0) as H.
  destruct (Models.content_not_empty content0) as [c|e]; [|exact H].
  destruct H as [-> Hne]. cbn.
  assert (Ht : Py.truthy (Py.strip content0) = true)
    by (destruct (Py.strip content0); [congruence | reflexivity]).
  rewrite Ht. repeat split; try assumption; try reflexivity.
  - apply ValidatorFacts.strip_idem.
  - now apply ValidatorFacts.stripped_words.
Qed.

(** ** The chunks of a document and the statistics by type *)

Module ChunkAccounting.
Import Py PyFacts StripFacts Exn Models Chunker Spec.

Unset Implicit Arguments.

Lemma count_type_app (ty : ChunkType) (a b : list TextChunk) :
  count_type ty (a ++ b) = (count_type ty a + count_type ty b)%Z.
Proof. unfold count_type. now rewrite filter_app, len_app. Qed.

Lemma count_type_nonneg (ty : ChunkType) (a : list TextChunk) :
  (0 <= count_type ty a)%Z.
Proof. apply len_nonneg. Qed.

Lemma chunk_type_eqb_eq (a b : ChunkType) : chunk_type_eqb a b = true <-> a = b.
Proof. destruct a, b; cbn; split; intros H; try discriminate; reflexivity. Qed.

Lemma count_type_zero (ty : ChunkType) (chunks : list TextChunk) :
  Forall (fun c => chunk_type c <> ty) chunks -> count_type ty chunks = 0%Z.
Proof.
  unfold count_type. induction 1 as [|c rest Hc Hrest IH]; [reflexivity|].
  cbn [filter]. destruct (chunk_type_eqb (chunk_type c) ty) eqn:E; [|exact IH].
  apply chunk_type_eqb_eq in E. contradiction.
Qed.

Lemma count_type_all (ty : ChunkType) (chunks : list TextChunk) :
  Forall (fun c => chunk_type c = ty) chunks -> count_type ty chunks = len chunks.
Proof.
  unfold count_type. induction 1 as [|c rest Hc Hrest IH]; [reflexivity|].
  cbn [filter]. rewrite Hc.
  replace (chunk_type_eqb ty ty) with true by (now destruct ty).
  rewrite !len_cons. now rewrite IH.
Qed.

Lemma accounted_refl (s : stats) : accounted s [] s.
Proof. unfold accounted, count_type. cbn. repeat split; lia. Qed.

Lemma accounted_app (s s1 s' : stats) (a b : list TextChunk) :
  accounted s a s1 -> accounted s1 b s' -> accounted s (a ++ b) s'.
Proof.
  unfold accounted. intros (A1 & A2 & A3 & A4) (B1 & B2 & B3 & B4).
  rewrite !count_type_app. repeat split; lia.
Qed.

(** Chunks of the other types leave the three counters alone. *)
Lemma accounted_other (s : stats) (chunks : list TextChunk) :
  Forall (fun c => ~ splittable (chunk_type c)) chunks -> accounted s chunks s.
Proof.
  intros H. unfold accounted.
  rewrite !count_type_zero; [repeat split; lia | | |];
    (eapply Forall_impl; [|exact H]); intros c Hc E; apply Hc; unfold splittable; auto.
Qed.

Lemma accounted_counters (s s' s'' : stats) (chunks : list TextChunk) :
  accounted s chunks s' ->
  article_chunks s'' = article_chunks s' -> subsection_chunks s'' = subsection_chunks s' ->
  note_chunks s'' = note_chunks s' -> combined_chunks s'' = combined_chunks s' ->
  accounted s chunks s''.
Proof. unfold accounted. intros (A1 & A2 & A3 & A4) B1 B2 B3 B4. repeat split; lia. Qed.

Lemma article_counted (s : stats) (chunk : TextChunk) :
  chunk_type chunk = ARTICLE -> accounted s [chunk] (incr_article_chunks s).
Proof. intros H. unfold accounted, count_type. cbn. rewrite H. cbn. repeat split; lia. Qed.

Lemma subsection_counted (s : stats) (chunk : TextChunk) :
  chunk_type chunk = SUBSECTION -> accounted s [chunk] (incr_subsection_chunks s).
Proof. intros H. unfold accounted, count_type. cbn. rewrite H. cbn. repeat split; lia. Qed.

Lemma note_counted (s : stats) (chunk : TextChunk) :
  chunk_type chunk = NOTE -> accounted s [chunk] (incr_note_chunks s).
Proof. intros H. unfold accounted, count_type. cbn. rewrite H. cbn. repeat split; lia. Qed.

Section WithConfig.

Variable cfg : config.
Variable format_type : SubsectionType -> str.

Lemma emit_accounted (ty : ChunkType) (p : Z) (refs : list str)
  (count : stats -> stats) (contents : list str) :
  (forall s chunk, chunk_type chunk = ty -> accounted s [chunk] (count s)) ->
  triple (emit ty p refs count contents)
    (fun s chunks s' =>
       accounted s chunks s'
       /\ Forall (fun c => well_formed_chunk c /\ chunk_type c = ty) chunks).
Proof.
  intros Hcount. induction contents as [|c rest IH]; intros s a s' H; cbn [emit] in H.
  - injection H as <- <-. split; [apply accounted_refl | constructor].
  - apply ChunkerFacts.bind_ok in H. destruct H as (chunk & s1 & H1 & H).
    injection H1 as H1 <-.
    apply ChunkerFacts.bind_ok in H. destruct H as (u & s2 & H2 & H).
    injection H2 as _ <-.
    apply ChunkerFacts.bind_ok in H. destruct H as (more & s3 & H3 & H).
    injection H as <- <-.
    destruct (ValidatorFacts.new_chunk_well_formed _ _ _ _ _ H1) as (Hwf & Hty & _).
    destruct (IH _ _ _ H3) as [Hacc Hall]. split.
    + apply (@accounted_app s (count s) s3 [chunk] more); [now apply Hcount | assumption].
    + constructor; [split; assumption | assumption].
Qed.

Lemma for_each_accounted {A : Type} (f : A -> M (list TextChunk))
  (G : TextChunk -> Prop) (xs : list A) :
  (forall x, triple (f x) (fun s chunks s' => accounted s chunks s' /\ Forall G chunks)) ->
  triple (for_each f xs) (fun s chunks s' => accounted s chunks s' /\ Forall G chunks).
Proof.
  intros Hf. induction xs as [|x rest IH]; intros s a s' H; cbn [for_each] in H.
  - injection H as <- <-. split; [apply accounted_refl | constructor].
  - apply ChunkerFacts.bind_ok in H. destruct H as (here & s1 & H1 & H).
    apply ChunkerFacts.bind_ok in H. destruct H as (more & s2 & H2 & H).
    injection H as <- <-.
    destruct (Hf x _ _ _ H1) as [A1 G1]. destruct (IH _ _ _ H2) as [A2 G2]. split.
    + now apply (@accounted_app s s1 s2).
    + apply Forall_app. split; assumption.
Qed.

Lemma emitted_splittable (ty : ChunkType) (chunks : list TextChunk) :
  splittable ty ->
  Forall (fun c => well_formed_chunk c /\ chunk_type c = ty) chunks ->
  Forall (fun c => well_formed_chunk c /\ splittable (chunk_type c)) chunks.
Proof.
  intros Hty. apply Forall_impl. intros c [Hwf ->]. split; assumption.
Qed.

Lemma chunk_article_accounted (article : LegalArticle) (p : Z) :
  triple (chunk_article cfg format_type article p)
    (fun s chunks s' =>
       accounted s chunks s'
       /\ Forall (fun c => well_formed_chunk c /\ splittable (chunk_type c)) chunks).
Proof.
  intros s a s' H. unfold chunk_article in H.
  apply ChunkerFacts.bind_ok in H. destruct H as (main & s1 & H1 & H).
  apply ChunkerFacts.bind_ok in H. destruct H as (subs & s2 & H2 & H).
  apply ChunkerFacts.bind_ok in H. destruct H as (notes & s3 & H3 & H).
  injection H as <- <-.
  assert (M : accounted s main s1
              /\ Forall (fun c => well_formed_chunk c /\ splittable (chunk_type c)) main).
  { destruct (truthy (article_content article)).
    - destruct (emit_accounted ARTICLE p _ incr_article_chunks _ article_counted
                  _ _ _ H1) as [A G].
      split; [assumption|]. apply (emitted_splittable ARTICLE); [|assumption].
      unfold splittable; auto.
    - injection H1 as <- <-. split; [apply accounted_refl | constructor]. }
  assert (S : accounted s1 subs s2
              /\ Forall (fun c => well_formed_chunk c /\ splittable (chunk_type c)) subs).
  { revert H2. apply for_each_accounted. intros subsection u b u' Hs.
    destruct (truthy (subsection_content subsection)).
    - destruct (emit_accounted SUBSECTION p _ incr_subsection_chunks _
                  subsection_counted _ _ _ Hs) as [A G].
      split; [assumption|]. apply (emitted_splittable SUBSECTION); [|assumption].
      unfold splittable; auto.
    - injection Hs as <- <-. split; [apply accounted_refl | constructor]. }
  assert (N : accounted s2 notes s3
              /\ Forall (fun c => well_formed_chunk c /\ splittable (chunk_type c)) notes).
  { revert H3. apply for_each_accounted. intros note u b u' Hs.
    destruct (truthy (note_content note)).
    - destruct (emit_accounted NOTE p _ incr_note_chunks _ note_counted _ _ _ Hs)
        as [A G].
      split; [assumption|]. apply (emitted_splittable NOTE); [|assumption].
      unfold splittable; auto.
    - injection Hs as <- <-. split; [apply accounted_refl | constructor]. }
  destruct M as [M1 M2], S as [S1 S2], N as [N1 N2]. split.
  - apply (@accounted_app s s1 s3); [assumption|]. now apply (@accounted_app s1 s2 s3).
  - repeat (apply Forall_app; split); assumption.
Qed.

Lemma chapter_articles_accounted (p : Z) (articles : list LegalArticle) :
  forall i0,
    triple (chapter_articles_from cfg format_type p i0 articles)
      (fun s chunks s' =>
         accounted s chunks s'
         /\ Forall (fun c => well_formed_chunk c /\ splittable (chunk_type c)) chunks).
Proof.
  induction articles as [|article rest IH]; intros i0 s a s' H;
    cbn [chapter_articles_from] in H.
  - injection H as <- <-. split; [apply accounted_refl | constructor].
  - apply ChunkerFacts.bind_ok in H. destruct H as (here & s1 & H1 & H).
    apply ChunkerFacts.bind_ok in H. destruct H as (more & s2 & H2 & H).
    injection H as <- <-.
    destruct (chunk_article_accounted _ _ _ _ _ H1) as [A1 G1].
    destruct (IH _ _ _ _ H2) as [A2 G2]. split.
    + now apply (@accounted_app s s1 s2).
    + apply Forall_app. split; assumption.
Qed.

Lemma splittable_not (ty : ChunkType) :
  splittable ty -> ty <> CHAPTER_TITLE /\ ty <> FOOTNOTE /\ ty <> COMBINED.
Proof. intros [-> | [-> | ->]]; repeat split; discriminate. Qed.

(** What holds of the chunks of a chapter: no footnote chunk and no
    combined chunk, and one title chunk when the chapter has a title. *)
Lemma chunk_chapter_accounted (chapter : LegalChapter) (p : Z) :
  triple (chunk_chapter cfg format_type chapter p)
    (fun s chunks s' =>
       accounted s chunks s'
       /\ Forall (fun c => well_formed_chunk c /\ chunk_type c <> FOOTNOTE
                           /\ chunk_type c <> COMBINED) chunks
       /\ count_type CHAPTER_TITLE chunks
          = (if truthy (chapter_title chapter) then 1 else 0)%Z).
Proof.
  intros s a s' H. unfold chunk_chapter in H.
  apply ChunkerFacts.bind_ok in H. destruct H as (title & s1 & H1 & H).
  apply ChunkerFacts.bind_ok in H. destruct H as (arts & s2 & H2 & H).
  injection H as <- <-.
  destruct (chapter_articles_accounted _ _ _ _ _ _ H2) as [A2 G2].
  assert (Harts : count_type CHAPTER_TITLE arts = 0%Z).
  { apply count_type_zero. eapply Forall_impl; [|exact G2].
    intros c [_ Hc]. now apply splittable_not. }
  assert (Garts : Forall (fun c => well_formed_chunk c /\ chunk_type c <> FOOTNOTE
                                   /\ chunk_type c <> COMBINED) arts).
  { eapply Forall_impl; [|exact G2]. intros c [Hwf Hc].
    destruct (splittable_not _ Hc) as (_ & ? & ?). auto. }
  destruct (truthy (chapter_title chapter)).
  - apply ChunkerFacts.bind_ok in H1. destruct H1 as (chunk & s0 & H0 & H1).
    injection H0 as H0 <-. injection H1 as <- <-.
    destruct (ValidatorFacts.new_chunk_well_formed _ _ _ _ _ H0) as (Hwf & Hty & _).
    split; [|split].
    + apply (@accounted_app s s s2 [chunk] arts); [|assumption].
      apply accounted_other. constructor; [|constructor]. rewrite Hty.
      intros [E | [E | E]]; discriminate.
    + constructor; [|assumption]. rewrite Hty.
      split; [assumption | split; discriminate].
    + rewrite count_type_app, Harts. unfold count_type. cbn. rewrite Hty. reflexivity.
  - injection H1 as <- <-. split; [|split]; assumption.
Qed.

Lemma counted_chapters (chapters0 : list LegalChapter) :
  forall pc,
    triple (counted (chunk_chapter cfg format_type) pc chapters0)
      (fun s out s' =>
         accounted s (fst out) s'
         /\ Forall (fun c => well_formed_chunk c /\ chunk_type c <> FOOTNOTE
                             /\ chunk_type c <> COMBINED) (fst out)
         /\ count_type CHAPTER_TITLE (fst out)
            = len (filter (fun chapter => truthy (chapter_title chapter)) chapters0)).
Proof.
  induction chapters0 as [|chapter rest IH]; intros pc s a s' H; cbn [counted] in H.
  - injection H as <- <-. cbn. split; [apply accounted_refl | split; [constructor | reflexivity]].
  - apply ChunkerFacts.bind_ok in H. destruct H as (here & s1 & H1 & H).
    apply ChunkerFacts.bind_ok in H. destruct H as (more & s2 & H2 & H).
    injection H as <- <-. cbn [fst].
    destruct (chunk_chapter_accounted _ _ _ _ _ H1) as (A1 & G1 & C1).
    destruct (IH _ _ _ _ H2) as (A2 & G2 & C2). split; [|split].
    + now apply (@accounted_app s s1 s2).
    + apply Forall_app. split; assumption.
    + rewrite count_type_app, C1, C2. cbn [filter].
      destruct (truthy (chapter_title chapter)); [rewrite len_cons|]; lia.
Qed.

Lemma counted_articles (articles : list LegalArticle) :
  forall pc,
    triple (counted (chunk_article cfg format_type) pc articles)
      (fun s out s' =>
         accounted s (fst out) s'
         /\ Forall (fun c => well_formed_chunk c /\ splittable (chunk_type c)) (fst out)).
Proof.
  induction articles as [|article rest IH]; intros pc s a s' H; cbn [counted] in H.
  - injection H as <- <-. cbn. split; [apply accounted_refl | constructor].
  - apply ChunkerFacts.bind_ok in H. destruct H as (here & s1 & H1 & H).
    apply ChunkerFacts.bind_ok in H. destruct H as (more & s2 & H2 & H).
    injection H as <- <-. cbn [fst].
    destruct (chunk_article_accounted _ _ _ _ _ H1) as (A1 & G1).
    destruct (IH _ _ _ _ H2) as (A2 & G2). split.
    + now apply (@accounted_app s s1 s2).
    + apply Forall_app. split; assumption.
Qed.

(** The final loop changes the two size counters only. *)
Lemma tally_keeps (chunks : list TextChunk) :
  forall s r s',
    tally cfg chunks s = (r, s') ->
    article_chunks s' = article_chunks s /\ subsection_chunks s' = subsection_chunks s
    /\ note_chunks s' = note_chunks s /\ combined_chunks s' = combined_chunks s
    /\ documents_chunked s' = documents_chunked s.
Proof.
  induction chunks as [|c rest IH]; intros s r s' H; cbn [tally] in H.
  - injection H as _ <-. repeat split.
  - unfold bind in H.
    destruct (max_chunk_size cfg <? character_count c)%Z.
    + cbn [modify] in H. apply IH in H. cbn in H. exact H.
    + destruct (character_count c <? min_chunk_size cfg)%Z.
      * cbn [modify] in H. apply IH in H. cbn in H. exact H.
      * cbn [ret] in H. now apply IH in H.
Qed.

Lemma chunk_document_accounted (document : LegalDocument) (s s' : stats)
  (chunks : list TextChunk) :
  chunk_document cfg format_type document s = (Ok chunks, s') ->
  accounted s chunks s'
  /\ Forall (fun c => well_formed_chunk c /\ chunk_type c <> COMBINED) chunks
  /\ documents_chunked s' = (documents_chunked s + 1)%Z
  /\ count_type CHAPTER_TITLE chunks
     = len (filter (fun chapter => truthy (chapter_title chapter)) (chapters document))
  /\ count_type FOOTNOTE chunks = (if truthy (footnotes document) then 1 else 0)%Z.
Proof.
  unfold chunk_document.
  destruct (chunk_document_body cfg format_type document s) as [[out|e] s0] eqn:Hbody;
    [|discriminate].
  intros [= -> ->]. unfold chunk_document_body in Hbody.
  apply ChunkerFacts.bind_ok in Hbody. destruct Hbody as (ch & s1 & Hch & Hbody).
  apply ChunkerFacts.bind_ok in Hbody. destruct Hbody as (st & s2 & Hst & Hbody).
  apply ChunkerFacts.bind_ok in Hbody. destruct Hbody as (fn & s3 & Hfn & Hbody).
  apply ChunkerFacts.bind_ok in Hbody. destruct Hbody as (u & s4 & Hcount & Hbody).
  apply ChunkerFacts.bind_ok in Hbody. destruct Hbody as (v & s5 & Htally & Hbody).
  injection Hbody as <- <-. injection Hcount as _ <-.
  destruct (counted_chapters _ _ _ _ _ Hch) as (A1 & G1 & C1).
  destruct (counted_articles _ _ _ _ _ Hst) as (A2 & G2).
  destruct (ChunkerFacts.counted_yields cfg (chunk_chapter cfg format_type)
              valid_chapter (chapters document)
              (ChunkerFacts.chunk_chapter_yields cfg format_type) 0%Z _ _ _ Hch)
    as [(D1 & _) _].
  destruct (ChunkerFacts.counted_yields cfg (chunk_article cfg format_type)
              valid_article (standalone_articles document)
              (ChunkerFacts.chunk_article_block cfg format_type) (snd ch) _ _ _ Hst)
    as [(D2 & _) _].
  destruct (tally_keeps _ _ _ _ Htally) as (T1 & T2 & T3 & T4 & T5).
  cbn [count_document article_chunks subsection_chunks note_chunks combined_chunks
         documents_chunked] in T1, T2, T3, T4, T5.
  assert (F : s3 = s2
              /\ Forall (fun c => well_formed_chunk c /\ chunk_type c = FOOTNOTE) fn
              /\ len fn = (if truthy (footnotes document) then 1 else 0)%Z).
  { destruct (footnotes document) as [|f rest] eqn:E; cbn [truthy is_nil negb] in *.
    - injection Hfn as <- <-. repeat split. constructor.
    - pose proof (ChunkerFacts.footnotes_have_word 0 (f :: rest)) as Hw.
      assert (Ht : truthy (join blank_line (footnote_lines 0 (f :: rest))) = true).
      { destruct (join blank_line (footnote_lines 0 (f :: rest)));
          [|reflexivity]. exfalso. assert (H0 : f :: rest <> []) by discriminate.
        specialize (Hw H0). inversion Hw. }
      rewrite Ht in Hfn.
      apply ChunkerFacts.bind_ok in Hfn. destruct Hfn as (chunk & s0 & H0 & Hfn).
      injection H0 as H0 <-. injection Hfn as <- <-.
      destruct (ValidatorFacts.new_chunk_well_formed _ _ _ _ _ H0) as (Hwf & Hty & _).
      repeat split. constructor; [split; assumption | constructor]. }
  destruct F as (-> & Gfn & Lfn).
  assert (S2 : Forall (fun c => chunk_type c <> CHAPTER_TITLE /\ chunk_type c <> FOOTNOTE)
                 (fst st)).
  { eapply Forall_impl; [|exact G2]. intros c [_ Hc].
    destruct (splittable_not _ Hc) as (? & ? & _). auto. }
  split; [|split; [|split; [|split]]].
  - apply (@accounted_counters s s2 s5); try lia.
    apply (@accounted_app s s1 s2); [assumption|].
    rewrite <- (app_nil_r (fst st ++ fn)), <- app_assoc.
    apply (@accounted_app s1 s2 s2); [assumption|].
    rewrite app_nil_r. apply accounted_other.
    eapply Forall_impl; [|exact Gfn]. intros c [_ ->] [E | [E | E]]; discriminate.
  - repeat (apply Forall_app; split).
    + eapply Forall_impl; [|exact G1]. intros c (? & _ & ?). auto.
    + eapply Forall_impl; [|exact G2]. intros c [? Hc].
      destruct (splittable_not _ Hc) as (_ & _ & ?). auto.
    + eapply Forall_impl; [|exact Gfn]. intros c [? ->]. split; [assumption | discriminate].
  - lia.
  - rewrite !count_type_app, C1.
    rewrite (count_type_zero CHAPTER_TITLE (fst st)), (count_type_zero CHAPTER_TITLE fn);
      [lia | |].
    + eapply Forall_impl; [|exact Gfn]. intros c [_ ->]. discriminate.
    + eapply Forall_impl; [|exact S2]. intros c [? _]. assumption.
  - rewrite !count_type_app.
    rewrite (count_type_zero FOOTNOTE (fst ch)), (count_type_zero FOOTNOTE (fst st)),
      (count_type_all FOOTNOTE fn); [lia | | |].
    + eapply Forall_impl; [|exact Gfn]. intros c [_ ?]. assumption.
    + eapply Forall_impl; [|exact S2]. intros c [_ ?]. assumption.
    + eapply Forall_impl; [|exact G1]. intros c (_ & ? & _). assumption.
Qed.

End WithConfig.

End ChunkAccounting.

(** X3.  Every chunk returned by [chunk_document] is in the state the
    validators of [TextChunk] leave it: its content is not empty and has
    no whitespace at either end, [character_count] is the length of the
    content, [word_count] is its number of whitespace-separated words
    and is at least one.  No chunk has the type [COMBINED]. *)
Theorem X3_chunks_carry_the_counts_of_their_content
  (cfg : Chunker.config) (format_type : Models.SubsectionType -> Py.str)
  (document : Models.LegalDocument) (s s' : Chunker.stats)
  (chunks : list Models.TextChunk)
  (Hrun : Chunker.chunk_document cfg format_type document s = (Exn.Ok chunks, s')) :
  Forall Spec.well_formed_chunk chunks
  /\ Forall (fun chunk => Models.chunk_type chunk <> Models.COMBINED) chunks.
Proof.
  destruct (ChunkAccounting.chunk_document_accounted cfg format_type document s s'
              chunks Hrun) as (_ & H & _).
  split; (eapply Forall_impl; [|exact H]); intros c [Hwf Hty]; assumption.
Qed.

Lemma X3_chunks_carry_the_counts_witness :
  exists chunks s',
    Chunker.chunk_document Inputs.small Inputs.format_value Inputs.two_chapters
      Chunker.stats0 = (Exn.Ok chunks, s')
    /\ Forall Spec.well_formed_chunk chunks
    /\ Forall (fun chunk => Models.chunk_type chunk <> Models.COMBINED) chunks.
Proof.
  eexists. eexists. split; [vm_compute; reflexivity|].
  eapply (X3_chunks_carry_the_counts_of_their_content Inputs.small Inputs.format_value
            Inputs.two_chapters Chunker.stats0).
  vm_compute. reflexivity.
Defined.

(** X4.  When [chunk_document] returns, the statistics have grown by
    what was returned: [article_chunks], [subsection_chunks] and
    [note_chunks] by the number of chunks of their type, and
    [documents_chunked] by one; [combined_chunks] is never changed.
    The chunks hold one chapter-title chunk for each chapter with a
    title, and one footnote chunk when the document has footnotes. *)
Theorem X4_statistics_count_the_chunks_by_type
  (cfg : Chunker.config) (format_type : Models.SubsectionType -> Py.str)
  (document : Models.LegalDocument) (s s' : Chunker.stats)
  (chunks : list Models.TextChunk)
  (Hrun : Chunker.chunk_document cfg format_type document s = (Exn.Ok chunks, s')) :
  Chunker.article_chunks s'
  = (Chunker.article_chunks s + Spec.count_type Models.ARTICLE chunks)%Z
  /\ Chunker.subsection_chunks s'
     = (Chunker.subsection_chunks s + Spec.count_type Models.SUBSECTION chunks)%Z
  /\ Chunker.note_chunks s'
     = (Chunker.note_chunks s + Spec.count_type Models.NOTE chunks)%Z
  /\ Chunker.combined_chunks s' = Chunker.combined_chunks s
  /\ Chunker.documents_chunked s' = (Chunker.documents_chunked s + 1)%Z
  /\ Spec.count_type Models.CHAPTER_TITLE chunks
     = Py.len (filter (fun chapter => Py.truthy (Models.chapter_title chapter))
                 (Models.chapters document))
  /\ Spec.count_type Models.FOOTNOTE chunks
     = (if Py.truthy (Models.footnotes document) then 1 else 0)%Z.
Proof.
  destruct (ChunkAccounting.chunk_document_accounted cfg format_type document s s'
              chunks Hrun) as ((A1 & A2 & A3 & A4) & _ & D & C & F).
  repeat split; assumption.
Qed.

Lemma X4_statistics_count_witness :
  exists chunks s',
    Chunker.chunk_document Inputs.small Inputs.format_value Inputs.two_chapters
      Chunker.stats0 = (Exn.Ok chunks, s')
    /\ (Chunker.article_chunks s', Chunker.subsection_chunks s',
        Chunker.note_chunks s') = (6, 2, 2)%Z
    /\ Chunker.article_chunks s'
       = (Chunker.article_chunks Chunker.stats0
          + Spec.count_type Models.ARTICLE chunks)%Z
    /\ Chunker.subsection_chunks s'
       = (Chunker.subsection_chunks Chunker.stats0
          + Spec.count_type Models.SUBSECTION chunks)%Z
    /\ Chunker.note_chunks s'
       = (Chunker.note_chunks Chunker.stats0 + Spec.count_type Models.NOTE chunks)%Z
    /\ Chunker.combined_chunks s' = Chunker.combined_chunks Chunker.stats0
    /\ Chunker.documents_chunked s'
       = (Chunker.documents_chunked Chunker.stats0 + 1)%Z
    /\ Spec.count_type Models.CHAPTER_TITLE chunks
       = Py.len (filter (fun chapter => Py.truthy (Models.chapter_title chapter))
                   (Models.chapters Inputs.two_chapters))
    /\ Spec.count_type Models.FOOTNOTE chunks
       = (if Py.truthy (Models.footnotes Inputs.two_chapters) then 1 else 0)%Z.
Proof.
  eexists. eexists. split; [vm_compute; reflexivity|].
  split; [vm_compute; reflexivity|].
  eapply (@X4_statistics_count_the_chunks_by_type Inputs.small Inputs.format_value
            Inputs.two_chapters Chunker.stats0).
  vm_compute. reflexivity.
Defined.

(** ** Batches of documents *)

Module BatchFacts.
Import Py PyFacts Exn Models Chunker Spec.

Unset Implicit Arguments.

Lemma bind_raise {A B : Type} (c : M A) (f : A -> M B) (s s' : stats) (e : exn) :
  bind c f s = (Raise e, s') ->
  c s = (Raise e, s') \/ exists a s1, c s = (Ok a, s1) /\ f a s1 = (Raise e, s').
Proof.
  unfold bind. destruct (c s) as [[a|e1] s1]; [eauto|].
  intros [= <- <-]. now left.
Qed.

Section WithConfig.

Variable cfg : config.
Variable format_type : SubsectionType -> str.

(** A document that is refused leaves the counters of documents and of
    chunks as they were. *)
Lemma chunk_document_raise (document : LegalDocument) (s s' : stats) (e : exn) :
  chunk_document cfg format_type document s = (Raise e, s') -> same_tallies s s'.
Proof.
  unfold chunk_document.
  destruct (chunk_document_body cfg format_type document s) as [[out|e0] s0] eqn:Hbody;
    [discriminate|].
  intros [= _ <-]. unfold chunk_document_body in Hbody.
  apply bind_raise in Hbody. destruct Hbody as [Hch | (ch & s1 & Hch & Hbody)].
  { exact (proj1 (ChunkerFacts.counted_yields cfg (chunk_chapter cfg format_type)
                    valid_chapter (chapters document)
                    (ChunkerFacts.chunk_chapter_yields cfg format_type) 0%Z _ _ _ Hch)). }
  pose proof (proj1 (ChunkerFacts.counted_yields cfg (chunk_chapter cfg format_type)
                       valid_chapter (chapters document)
                       (ChunkerFacts.chunk_chapter_yields cfg format_type) 0%Z _ _ _ Hch))
    as T1.
  apply bind_raise in Hbody. destruct Hbody as [Hst | (st & s2 & Hst & Hbody)].
  { eapply ChunkerFacts.same_tallies_trans; [exact T1|].
    exact (proj1 (ChunkerFacts.counted_yields cfg (chunk_article cfg format_type)
                    valid_article (standalone_articles document)
                    (ChunkerFacts.chunk_article_block cfg format_type) (snd ch) _ _ _ Hst)). }
  pose proof (proj1 (ChunkerFacts.counted_yields cfg (chunk_article cfg format_type)
                       valid_article (standalone_articles document)
                       (ChunkerFacts.chunk_article_block cfg format_type) (snd ch)
                       _ _ _ Hst)) as T2.
  assert (T12 : same_tallies s s2) by (eapply ChunkerFacts.same_tallies_trans; eassumption).
  apply bind_raise in Hbody. destruct Hbody as [Hfn | (fn & s3 & Hfn & Hbody)].
  { destruct (truthy (footnotes document)); [|discriminate].
    destruct (truthy (join blank_line (footnote_lines 0 (footnotes document))));
      [|discriminate].
    apply bind_raise in Hfn. destruct Hfn as [Hfn | (chunk & u & _ & Hfn)];
      [|discriminate].
    injection Hfn as _ <-. exact T12. }
  exfalso. apply bind_raise in Hbody.
  destruct Hbody as [Hm | (u & s4 & Hm & Hbody)]; [discriminate|].
  apply bind_raise in Hbody. destruct Hbody as [Ht | (v & s5 & Ht & Hbody)];
    [|discriminate].
  destruct (ChunkerFacts.tally_spec cfg (fst ch ++ fst st ++ fn) s4) as (s6 & Ht' & _).
  rewrite Ht' in Ht. discriminate.
Qed.

Lemma batch_loop_spec (documents : list LegalDocument) :
  forall all_chunks report s all_chunks' report' s',
    batch_loop cfg format_type documents all_chunks report s
    = (all_chunks', report', s') ->
    total_items report' = total_items report
    /\ (processed_items report <= processed_items report')%Z
    /\ (failed_items report <= failed_items report')%Z
    /\ (processed_items report' + failed_items report'
        = processed_items report + failed_items report + len documents)%Z
    /\ (total_chunks_created s' - total_chunks_created s
        = len all_chunks' - len all_chunks)%Z
    /\ (documents_chunked s' - documents_chunked s
        = processed_items report' - processed_items report)%Z
    /\ (Forall valid_document documents -> failed_items report' = failed_items report).
Proof.
  induction documents as [|document rest IH];
    intros all_chunks report s all_chunks' report' s' H; cbn [batch_loop] in H.
  - injection H as <- <- <-. change (len (@nil LegalDocument)) with 0%Z.
    repeat split; lia.
  - rewrite len_cons. pose proof (len_nonneg rest) as Hrest.
    destruct (chunk_document cfg format_type document s) as [[chunks|e] s1] eqn:Hdoc.
    + apply IH in H. cbn [total_items processed_items failed_items] in H.
      destruct H as (H1 & H2 & H3 & H4 & H5 & H6 & H7).
      destruct (ChunkerFacts.chunk_document_spec cfg format_type document s s1 chunks Hdoc)
        as (_ & _ & Ht & _).
      destruct (ChunkAccounting.chunk_document_accounted cfg format_type document s s1
                  chunks Hdoc) as (_ & _ & Hd & _).
      rewrite len_app in H5.
      repeat split; try lia. intros Hvalid. apply H7. now inversion Hvalid.
    + apply IH in H. cbn [total_items processed_items failed_items] in H.
      destruct H as (H1 & H2 & H3 & H4 & H5 & H6 & H7).
      destruct (chunk_document_raise document s s1 e Hdoc) as (Hd & Ht & _).
      repeat split; try lia. intros Hvalid. exfalso.
      inversion Hvalid as [|? ? Hv _]; subst.
      destruct (ChunkerFacts.chunk_document_returns cfg format_type document Hv s)
        as (chunks & s2 & Hok).
      rewrite Hok in Hdoc. discriminate.
Qed.

End WithConfig.

(** The quotient of a count by itself, as a percentage. *)
Lemma full_rate (n : Z) : (0 < n)%Z -> (inject_Z n / inject_Z n * 100 == 100)%Q.
Proof.
  intros Hn. unfold Qdiv. rewrite Qmult_inv_r; [reflexivity|].
  change 0%Q with (inject_Z 0). rewrite inject_Z_injective. lia.
Qed.

Lemma rate_bounds (p t : Z) :
  (0 <= p)%Z -> (p <= t)%Z -> (0 < t)%Z ->
  (0 <= inject_Z p / inject_Z t * 100 /\ inject_Z p / inject_Z t * 100 <= 100)%Q.
Proof.
  intros Hp Hpt Ht.
  assert (Ht' : (0 < inject_Z t)%Q) by (change 0%Q with (inject_Z 0); now rewrite <- Zlt_Qlt).
  assert (H0 : (0 <= inject_Z p / inject_Z t)%Q).
  { apply Qle_shift_div_l; [assumption|]. rewrite Qmult_0_l.
    change 0%Q with (inject_Z 0). now rewrite <- Zle_Qle. }
  assert (H1 : (inject_Z p / inject_Z t <= 1)%Q).
  { apply Qle_shift_div_r; [assumption|]. rewrite Qmult_1_l. now rewrite <- Zle_Qle. }
  split.
  - apply Qmult_le_0_compat; [assumption | discriminate].
  - change 100%Q with (1 * 100)%Q at 2. apply Qmult_le_compat_r; [assumption | discriminate].
Qed.

End BatchFacts.

(** X5.  [chunk_documents_batch] accounts for every document: the
    report's [total_items] is the number of documents and
    [processed_items + failed_items] equals it.  The statistics grow
    by exactly what is returned: [total_chunks_created] by the number
    of chunks in the result and [documents_chunked] by
    [processed_items]; a document that raises adds to neither.  When
    every document is validated, none fails, and for a non-empty batch
    the success rate is 100. *)
Theorem X5_batch_report_accounts_for_every_document
  (cfg : Chunker.config) (format_type : Models.SubsectionType -> Py.str)
  (documents : list Models.LegalDocument) (s : Chunker.stats) :
  let '(all_chunks, report, s') :=
    Chunker.chunk_documents_batch cfg format_type documents s in
  Models.total_items report = Py.len documents
  /\ (0 <= Models.processed_items report)%Z
  /\ (0 <= Models.failed_items report)%Z
  /\ (Models.processed_items report + Models.failed_items report
      = Models.total_items report)%Z
  /\ Chunker.total_chunks_created s'
     = (Chunker.total_chunks_created s + Py.len all_chunks)%Z
  /\ Chunker.documents_chunked s'
     = (Chunker.documents_chunked s + Models.processed_items report)%Z
  /\ (Forall Models.valid_document documents ->
      Models.failed_items report = 0%Z
      /\ Models.processed_items report = Py.len documents
      /\ (documents <> [] -> (Models.success_rate report == 100)%Q)).
Proof.
  unfold Chunker.chunk_documents_batch.
  destruct (Chunker.batch_loop cfg format_type documents [] _ s)
    as [[all_chunks report] s'] eqn:H.
  apply BatchFacts.batch_loop_spec in H.
  cbn [Models.total_items Models.processed_items Models.failed_items] in H.
  change (Py.len (@nil Models.TextChunk)) with 0%Z in H.
  destruct H as (H1 & H2 & H3 & H4 & H5 & H6 & H7).
  repeat split; try lia.
  - now apply H7.
  - specialize (H7 H). lia.
  - intros Hne. specialize (H7 H). unfold Models.success_rate.
    assert (Hlen : (0 < Py.len documents)%Z).
    { destruct documents; [congruence|]. rewrite PyFacts.len_cons.
      pose proof (PyFacts.len_nonneg documents). lia. }
    replace (Models.total_items report =? 0)%Z with false
      by (symmetry; apply Z.eqb_neq; lia).
    replace (Models.processed_items report) with (Models.total_items report) by lia.
    apply BatchFacts.full_rate. lia.
Qed.

(** X6.  The success rate of a [ProcessingReport] whose processed count
    lies between zero and the total is a percentage: between 0 and
    100. *)
Theorem X6_success_rate_is_a_percentage (r : Models.ProcessingReport)
  (Hlo : (0 <= Models.processed_items r)%Z)
  (Hhi : (Models.processed_items r <= Models.total_items r)%Z) :
  (0 <= Models.success_rate r)%Q /\ (Models.success_rate r <= 100)%Q.
Proof.
  unfold Models.success_rate.
  destruct (Models.total_items r =? 0)%Z eqn:E.
  - split; discriminate.
  - apply Z.eqb_neq in E. apply BatchFacts.rate_bounds; lia.
Qed.

Lemma X6_success_rate_witness :
  (0 <= Models.success_rate
          {| Models.total_items := 3; Models.processed_items := 2;
             Models.failed_items := 1 |})%Q
  /\ (Models.success_rate
        {| Models.total_items := 3; Models.processed_items := 2;
           Models.failed_items := 1 |} <= 100)%Q.
Proof.
  apply (@X6_success_rate_is_a_percentage
           {| Models.total_items := 3; Models.processed_items := 2;
              Models.failed_items := 1 |}); cbn; lia.
Defined.

(** ** Priorities and sizes *)

Module PriorityFacts.
Import Py Chunker.

Unset Implicit Arguments.

Lemma dict_get_bounds (d : list (str * Z)) (key : str) (default lo hi : Z) :
  Forall (fun kv => (lo <= snd kv <= hi)%Z) d -> (lo <= default <= hi)%Z ->
  (lo <= dict_get d key default <= hi)%Z.
Proof.
  intros Hd Hdef. induction Hd as [|[k v] rest Hkv Hrest IH]; cbn [dict_get];
    [assumption|].
  destruct (str_eqb k key); [exact Hkv | exact IH].
Qed.

Lemma base_priority_bounds (content_type : str) :
  (40 <= dict_get base_priority content_type 50 <= 100)%Z.
Proof.
  apply dict_get_bounds; [|lia].
  unfold base_priority. repeat constructor; cbn; lia.
Qed.

End PriorityFacts.

(** X7.  The priority of a chunk is its base priority (50 for an
    unknown content type) plus a bonus that shrinks with the position:
    it is at least 40, at most 150 for a position that is not negative,
    never grows when the position grows, and from position 50 on it is
    the base priority alone. *)
Theorem X7_chunk_priority_is_bounded_and_decreasing
  (content_type : Py.str) (position : Z) :
  (40 <= Chunker.calculate_chunk_priority content_type position)%Z
  /\ ((0 <= position)%Z ->
      (Chunker.calculate_chunk_priority content_type position <= 150)%Z)
  /\ (forall later, (position <= later)%Z ->
      (Chunker.calculate_chunk_priority content_type later
       <= Chunker.calculate_chunk_priority content_type position)%Z)
  /\ ((50 <= position)%Z ->
      Chunker.calculate_chunk_priority content_type position
      = Py.dict_get Chunker.base_priority content_type 50%Z).
Proof.
  unfold Chunker.calculate_chunk_priority.
  pose proof (PriorityFacts.base_priority_bounds content_type) as H.
  repeat split; intros; lia.
Qed.

(** ** Every article is represented *)

Module ArticleCoverage.
Import Py PyFacts StripFacts Exn Models Chunker Spec.

Unset Implicit Arguments.

Lemma count_type_le_len (ty : ChunkType) (chunks : list TextChunk) :
  (count_type ty chunks <= len chunks)%Z.
Proof.
  unfold count_type, len. pose proof (filter_length_le
    (fun chunk => chunk_type_eqb (chunk_type chunk) ty) chunks). lia.
Qed.

Section WithConfig.

Variable cfg : config.
Variable format_type : SubsectionType -> str.

Lemma chunk_article_covers (article : LegalArticle) (p : Z) (s s' : stats)
  (chunks : list TextChunk) :
  chunk_article cfg format_type article p s = (Ok chunks, s') ->
  valid_article article -> (1 <= count_type ARTICLE chunks)%Z.
Proof.
  intros H Hvalid. unfold chunk_article in H.
  apply ChunkerFacts.bind_ok in H. destruct H as (main & s1 & H1 & H).
  apply ChunkerFacts.bind_ok in H. destruct H as (subs & s2 & H2 & H).
  apply ChunkerFacts.bind_ok in H. destruct H as (notes & s3 & H3 & H).
  injection H as <- <-.
  assert (Ht : truthy (article_content article) = true).
  { destruct Hvalid as [Hne _]. destruct (article_content article);
      [congruence | reflexivity]. }
  rewrite Ht in H1.
  destruct (ChunkAccounting.emit_accounted ARTICLE p _ incr_article_chunks _
              ChunkAccounting.article_counted _ _ _ H1) as [_ G].
  assert (Hlen : length main = length (pieces cfg (main_content_of article))).
  { refine (proj2 (proj2 (ChunkerFacts.emit_yields cfg ARTICLE p _ incr_article_chunks _
                            ChunkerFacts.incr_article_same _ _ _ _ _ H1) main eq_refl)).
    - discriminate.
    - intros _ Hov. now apply Pieces.pieces_fit. }
  pose proof (@Pieces.pieces_nonempty cfg (main_content_of article)
                (ChunkerFacts.valid_main_has_word article Hvalid)) as Hne.
  rewrite ChunkAccounting.count_type_app.
  rewrite (ChunkAccounting.count_type_all ARTICLE main)
    by (eapply Forall_impl; [|exact G]; intros c [_ Hc]; exact Hc).
  pose proof (ChunkAccounting.count_type_nonneg ARTICLE (subs ++ notes)).
  assert (1 <= len main)%Z; [|lia].
  unfold len. destruct main; [|cbn; lia].
  destruct (pieces cfg (main_content_of article)); [congruence | discriminate].
Qed.

Lemma chapter_articles_cover (p : Z) (articles : list LegalArticle) :
  forall i0 s chunks s',
    chapter_articles_from cfg format_type p i0 articles s = (Ok chunks, s') ->
    Forall valid_article articles -> (len articles <= count_type ARTICLE chunks)%Z.
Proof.
  induction articles as [|article rest IH]; intros i0 s chunks s' H Hvalid;
    cbn [chapter_articles_from] in H.
  - injection H as <- <-. reflexivity.
  - apply ChunkerFacts.bind_ok in H. destruct H as (here & s1 & H1 & H).
    apply ChunkerFacts.bind_ok in H. destruct H as (more & s2 & H2 & H).
    injection H as <- <-. inversion Hvalid as [|? ? Ha Hr]; subst.
    pose proof (chunk_article_covers _ _ _ _ _ H1 Ha).
    pose proof (IH _ _ _ _ H2 Hr).
    rewrite len_cons, ChunkAccounting.count_type_app. lia.
Qed.

Lemma chunk_chapter_covers (chapter : LegalChapter) (p : Z) (s s' : stats)
  (chunks : list TextChunk) :
  chunk_chapter cfg format_type chapter p s = (Ok chunks, s') ->
  valid_chapter chapter ->
  (len (chapter_articles chapter) <= count_type ARTICLE chunks)%Z.
Proof.
  intros H Hvalid. unfold chunk_chapter in H.
  apply ChunkerFacts.bind_ok in H. destruct H as (title & s1 & H1 & H).
  apply ChunkerFacts.bind_ok in H. destruct H as (arts & s2 & H2 & H).
  injection H as <- <-.
  pose proof (chapter_articles_cover _ _ _ _ _ _ H2 Hvalid).
  pose proof (ChunkAccounting.count_type_nonneg ARTICLE title).
  rewrite ChunkAccounting.count_type_app. lia.
Qed.

Lemma counted_cover {A : Type} (f : A -> Z -> M (list TextChunk)) (valid : A -> Prop)
  (size : A -> Z) (xs : list A) :
  (forall x p s s' chunks,
      f x p s = (Ok chunks, s') -> valid x -> (size x <= count_type ARTICLE chunks)%Z) ->
  forall pc s out s',
    counted f pc xs s = (Ok out, s') -> Forall valid xs ->
    (fold_right Z.add 0 (map size xs) <= count_type ARTICLE (fst out))%Z.
Proof.
  intros Hf. induction xs as [|x rest IH]; intros pc s out s' H Hvalid;
    cbn [counted] in H.
  - injection H as <- <-. reflexivity.
  - apply ChunkerFacts.bind_ok in H. destruct H as (here & s1 & H1 & H).
    apply ChunkerFacts.bind_ok in H. destruct H as (more & s2 & H2 & H).
    injection H as <- <-. inversion Hvalid as [|? ? Hx Hr]; subst.
    pose proof (Hf _ _ _ _ _ H1 Hx). pose proof (IH _ _ _ _ H2 Hr).
    cbn [fst map fold_right]. rewrite ChunkAccounting.count_type_app. lia.
Qed.

Lemma ones_sum {A : Type} (xs : list A) :
  fold_right Z.add 0%Z (map (fun _ => 1%Z) xs) = len xs.
Proof.
  induction xs as [|x rest IH]; [reflexivity|]. cbn [map fold_right].
  rewrite IH, len_cons. lia.
Qed.

Lemma chunk_document_covers (document : LegalDocument) (s s' : stats)
  (chunks : list TextChunk) :
  chunk_document cfg format_type document s = (Ok chunks, s') ->
  valid_document document ->
  (total_articles document <= count_type ARTICLE chunks)%Z.
Proof.
  unfold chunk_document.
  destruct (chunk_document_body cfg format_type document s) as [[out|e] s0] eqn:Hbody;
    [|discriminate].
  intros [= -> ->] [Vch Vst]. unfold chunk_document_body in Hbody.
  apply ChunkerFacts.bind_ok in Hbody. destruct Hbody as (ch & s1 & Hch & Hbody).
  apply ChunkerFacts.bind_ok in Hbody. destruct Hbody as (st & s2 & Hst & Hbody).
  apply ChunkerFacts.bind_ok in Hbody. destruct Hbody as (fn & s3 & Hfn & Hbody).
  apply ChunkerFacts.bind_ok in Hbody. destruct Hbody as (u & s4 & Hcount & Hbody).
  apply ChunkerFacts.bind_ok in Hbody. destruct Hbody as (v & s5 & Htally & Hbody).
  injection Hbody as <- <-.
  pose proof (counted_cover (chunk_chapter cfg format_type) valid_chapter
                (fun chapter => len (chapter_articles chapter)) (chapters document)
                chunk_chapter_covers _ _ _ _ Hch Vch) as H1.
  pose proof (counted_cover (chunk_article cfg format_type) valid_article
                (fun _ => 1%Z) (standalone_articles document)
                chunk_article_covers _ _ _ _ Hst Vst) as H2.
  rewrite ones_sum in H2. unfold total_articles.
  rewrite !ChunkAccounting.count_type_app.
  pose proof (ChunkAccounting.count_type_nonneg ARTICLE fn). lia.
Qed.

End WithConfig.

End ArticleCoverage.

(** X8.  Every article of a validated document is represented: when
    [chunk_document] returns, the number of chunks of type [ARTICLE]
    is at least [total_articles], the number of articles of the
    document in its chapters and outside them, so the document has at
    least that many chunks. *)
Theorem X8_every_article_has_an_article_chunk
  (cfg : Chunker.config) (format_type : Models.SubsectionType -> Py.str)
  (document : Models.LegalDocument) (s s' : Chunker.stats)
  (chunks : list Models.TextChunk)
  (Hvalid : Models.valid_document document)
  (Hrun : Chunker.chunk_document cfg format_type document s = (Exn.Ok chunks, s')) :
  (Models.total_articles document <= Spec.count_type Models.ARTICLE chunks)%Z
  /\ (Spec.count_type Models.ARTICLE chunks <= Py.len chunks)%Z.
Proof.
  split.
  - exact (ArticleCoverage.chunk_document_covers cfg format_type document s s' chunks
             Hrun Hvalid).
  - apply ArticleCoverage.count_type_le_len.
Qed.

Lemma X8_every_article_witness :
  exists chunks s',
    Chunker.chunk_document Inputs.small Inputs.format_value Inputs.two_chapters
      Chunker.stats0 = (Exn.Ok chunks, s')
    /\ Models.total_articles Inputs.two_chapters = 3%Z
    /\ (Models.total_articles Inputs.two_chapters
        <= Spec.count_type Models.ARTICLE chunks)%Z
    /\ (Spec.count_type Models.ARTICLE chunks <= Py.len chunks)%Z.
Proof.
  eexists. eexists. split; [vm_compute; reflexivity|].
  split; [vm_compute; reflexivity|].
  eapply (@X8_every_article_has_an_article_chunk Inputs.small Inputs.format_value
            Inputs.two_chapters Chunker.stats0).
  - split; [|constructor].
    repeat constructor; try discriminate; vm_compute; reflexivity.
  - vm_compute. reflexivity.
Defined.

Lemma X5_batch_report_witness :
  Forall Models.valid_document [Inputs.two_chapters; Inputs.forty_footnotes]
  /\ let '(all_chunks, report, s') :=
       Chunker.chunk_documents_batch Inputs.small Inputs.format_value
         [Inputs.two_chapters; Inputs.forty_footnotes] Chunker.stats0 in
     Models.failed_items report = 0%Z
     /\ Models.processed_items report = 2%Z
     /\ (Models.success_rate report == 100)%Q.
Proof.
  assert (Hvalid : Forall Models.valid_document
                     [Inputs.two_chapters; Inputs.forty_footnotes]).
  { repeat constructor; try discriminate; vm_compute; reflexivity. }
  split; [exact Hvalid|].
  pose proof (@X5_batch_report_accounts_for_every_document Inputs.small
                Inputs.format_value [Inputs.two_chapters; Inputs.forty_footnotes]
                Chunker.stats0) as H.
  destruct (Chunker.chunk_documents_batch Inputs.small Inputs.format_value
              [Inputs.two_chapters; Inputs.forty_footnotes] Chunker.stats0)
    as [[all_chunks report] s'].
  destruct H as (_ & _ & _ & _ & _ & _ & H).
  destruct (H Hvalid) as (F & P & R).
  split; [exact F | split; [exact P | apply R; discriminate]].
Defined.

(** ** The laws kept by the splitter *)

Module LawFacts.
Import Py PyFacts Splitter Spec.

Unset Implicit Arguments.

Lemma val_from_cons (a : N) (c : char) (s : str) :
  val_from a (c :: s) = val_from (a * 10 + (c - 0x30))%N s.
Proof. reflexivity. Qed.

(** The digits written by [digits_fuel] read back as the number. *)
Lemma digits_fuel_val (fuel : nat) :
  forall n acc,
    (n < 2 ^ N.of_nat fuel)%N ->
    val_from 0 (digits_fuel fuel n acc) = val_from n acc.
Proof.
  induction fuel as [|f IH]; intros n acc Hn.
  - cbn in Hn. assert (n = 0%N) by lia. subst n. reflexivity.
  - cbn [digits_fuel]. rewrite Nat2N.inj_succ, N.pow_succ_r' in Hn.
    destruct (n / 10 =? 0)%N eqn:E.
    + apply N.eqb_eq in E. rewrite val_from_cons.
      assert (Hlt : (n < 10)%N).
      { destruct (N.lt_ge_cases n 10) as [H | H]; [assumption|].
        pose proof (N.Div0.div_le_mono 10 n 10 H) as Hd.
        change (10 / 10)%N with 1%N in Hd. lia. }
      rewrite N.mod_small by assumption.
      f_equal. lia.
    + rewrite IH.
      * rewrite val_from_cons. f_equal.
        pose proof (N.Div0.div_mod n 10) as Hdm. clear Hn E IH.
        generalize dependent (n / 10)%N. generalize (n mod 10)%N. intros. lia.
      * apply N.Div0.div_lt_upper_bound. clear E IH.
        generalize dependent (2 ^ N.of_nat f)%N. intros. lia.
Qed.

Lemma str_of_N_val (n : N) : val_from 0 (str_of_N n) = n.
Proof.
  unfold str_of_N. rewrite digits_fuel_val; [reflexivity|].
  rewrite Nat2N.inj_succ, N2Nat.id.
  destruct n as [|p]; [reflexivity|]. apply N.log2_spec. lia.
Qed.

Lemma zeros_val (k : nat) (s : str) :
  val_from 0 (repeat 0x30%N k ++ s) = val_from 0 s.
Proof. induction k as [|k IH]; [reflexivity|]. cbn [repeat app]. now rewrite val_from_cons. Qed.

Lemma zero_pad3_val (n : N) : val_from 0 (zero_pad3 n) = n.
Proof. unfold zero_pad3. rewrite zeros_val. apply str_of_N_val. Qed.

(** Two indexes with the same identifier are equal. *)
Lemma law_id_injective (a b : N) :
  law_prefix ++ zero_pad3 a = law_prefix ++ zero_pad3 b -> a = b.
Proof.
  intros H. apply app_inv_head in H.
  rewrite <- (zero_pad3_val a), <- (zero_pad3_val b). now rewrite H.
Qed.

Lemma str_eqb_eq (a b : str) : str_eqb a b = true <-> a = b.
Proof.
  revert b. induction a as [|x a IH]; intros [|y b]; cbn; split; intros H;
    try discriminate; try reflexivity.
  - apply andb_true_iff in H. destruct H as [Hx Ha].
    apply N.eqb_eq in Hx. apply IH in Ha. congruence.
  - injection H as -> ->. rewrite N.eqb_refl. cbn. now apply IH.
Qed.

Section Unicode.

Variable nfkc : str -> str.
Variable isword : char -> bool.

(** The score is one of 0, 1/5, ..., 1. *)
Lemma quality_score_values (law_text title0 : str) :
  exists k, (k <= 5)%nat
    /\ (calculate_quality_score isword law_text title0 == Z.of_nat k # 5)%Q.
Proof.
  unfold calculate_quality_score. cbv zeta.
  repeat match goal with
         | |- context [if ?b then (2 # 10)%Q else 0%Q] => destruct b
         end;
    first [ exists 0%nat; split; [lia | vm_compute; reflexivity]
          | exists 1%nat; split; [lia | vm_compute; reflexivity]
          | exists 2%nat; split; [lia | vm_compute; reflexivity]
          | exists 3%nat; split; [lia | vm_compute; reflexivity]
          | exists 4%nat; split; [lia | vm_compute; reflexivity]
          | exists 5%nat; split; [lia | vm_compute; reflexivity] ].
Qed.

Lemma quality_score_range (law_text title0 : str) :
  (0 <= calculate_quality_score isword law_text title0 <= 1)%Q.
Proof.
  destruct (quality_score_values law_text title0) as (k & Hk & ->).
  unfold Qle. cbn. lia.
Qed.

(** What [process_individual_law] puts in a record. *)
Lemma process_individual_law_record (law_text : str) (i : N) (m : LawMetadata) :
  process_individual_law nfkc isword law_text i = Some m ->
  id m = law_prefix ++ zero_pad3 (i + 1)
  /\ title m <> []
  /\ raw_content m = TextUtils.clean_text nfkc law_text
  /\ word_count m = len (split (raw_content m))
  /\ quality_score m = calculate_quality_score isword (raw_content m) (title m)
  /\ (min_law_length <= len (raw_content m))%Z.
Proof.
  unfold process_individual_law. cbv zeta.
  destruct (len (TextUtils.clean_text nfkc law_text) <? min_law_length)%Z eqn:E;
    [discriminate|].
  intros [= <-]. cbn. repeat split; try reflexivity; [|lia].
  destruct (truthy _) eqn:Et.
  - intros Hnil. rewrite Hnil in Et. discriminate.
  - destruct (filter _ _) as [|line rest].
    + unfold sanad_prefix. discriminate.
    + intros Hnil. apply app_eq_nil in Hnil. destruct Hnil as [_ Hnil]. discriminate.
Qed.

Lemma produced_weaken (laws : list LawMetadata) (lo lo' : N) :
  (lo' <= lo)%N -> produced nfkc isword lo laws -> produced nfkc isword lo' laws.
Proof.
  destruct laws as [|m rest]; [trivial|]. cbn [produced].
  intros Hle (law_text & i & Hi & Hp & Hrest). exists law_text, i.
  repeat split; [lia | assumption | assumption].
Qed.

Lemma split_loop_produced (full_text : str) (boundaries : list (nat * nat)) :
  forall i valid st,
  exists added,
    fst (split_loop nfkc isword full_text i boundaries valid st) = valid ++ added
    /\ produced nfkc isword i added.
Proof.
  induction boundaries as [|[start stop] rest IH]; intros i valid st;
    cbn [split_loop].
  - exists []. rewrite app_nil_r. split; [reflexivity | exact I].
  - cbv zeta. destruct (truthy _).
    + destruct (process_individual_law nfkc isword _ i) as [m|] eqn:Hp.
      * destruct (Qle_bool (4 # 10) (quality_score m)).
        -- destruct (IH (i + 1)%N (valid ++ [m]) {| total_laws_found := total_laws_found st;
                      valid_laws := valid_laws st + 1;
                      invalid_laws := invalid_laws st |}) as (added & E & P).
           exists (m :: added). rewrite E, <- app_assoc. split; [reflexivity|].
           cbn [produced]. eexists. exists i. repeat split; [lia | exact Hp | exact P].
        -- destruct (IH (i + 1)%N valid {| total_laws_found := total_laws_found st;
                      valid_laws := valid_laws st;
                      invalid_laws := invalid_laws st + 1 |}) as (added & E & P).
           exists added. split; [assumption|]. apply (produced_weaken added (i + 1)); [lia | assumption].
      * destruct (IH (i + 1)%N valid {| total_laws_found := total_laws_found st;
                    valid_laws := valid_laws st;
                    invalid_laws := invalid_laws st + 1 |}) as (added & E & P).
        exists added. split; [assumption|]. apply (produced_weaken added (i + 1)); [lia | assumption].
    + destruct (IH (i + 1)%N valid st) as (added & E & P).
      exists added. split; [assumption|]. apply (produced_weaken added (i + 1)); [lia | assumption].
Qed.

Lemma split_document_produced (paragraphs : list str) :
  produced nfkc isword 0 (fst (split_document nfkc isword paragraphs)).
Proof.
  unfold split_document. cbv zeta.
  destruct (split_loop_produced (read_docx_file paragraphs)
              (identify_law_boundaries (read_docx_file paragraphs)) 0%N []
              {| total_laws_found := len (identify_law_boundaries (read_docx_file paragraphs));
                 valid_laws := 0; invalid_laws := 0 |}) as (added & E & P).
  rewrite E. exact P.
Qed.

Lemma produced_ids (laws : list LawMetadata) :
  forall lo,
    produced nfkc isword lo laws ->
    Forall (fun m => exists i, (lo <= i)%N /\ id m = law_prefix ++ zero_pad3 (i + 1))
      laws
    /\ NoDup (map id laws).
Proof.
  induction laws as [|m rest IH]; intros lo H; [split; constructor|].
  cbn [produced] in H. destruct H as (law_text & i & Hi & Hp & Hrest).
  destruct (IH _ Hrest) as [Hall Hnd].
  destruct (process_individual_law_record _ _ _ Hp) as (Hid & _).
  split.
  - constructor; [exists i; auto|]. eapply Forall_impl; [|exact Hall].
    intros m' (j & Hj & Hm'). exists j. split; [lia | assumption].
  - cbn [map]. constructor; [|assumption]. intros Hin.
    apply in_map_iff in Hin. destruct Hin as (m' & Hm' & Hin').
    rewrite Forall_forall in Hall. destruct (Hall _ Hin') as (j & Hj & Hidj).
    rewrite Hid, Hidj in Hm'. apply law_id_injective in Hm'. lia.
Qed.

Lemma produced_records (laws : list LawMetadata) :
  forall lo,
    produced nfkc isword lo laws ->
    Forall (fun m => exists law_text i,
                process_individual_law nfkc isword law_text i = Some m) laws.
Proof.
  induction laws as [|m rest IH]; intros lo H; [constructor|].
  cbn [produced] in H. destruct H as (law_text & i & Hi & Hp & Hrest).
  constructor; [eauto | eapply IH; eassumption].
Qed.

End Unicode.

Lemma get_law_by_id_found (laws : list LawMetadata) :
  NoDup (map id laws) ->
  forall law, In law laws -> get_law_by_id laws (id law) = Some law.
Proof.
  induction laws as [|law0 rest IH]; intros Hnd law Hin; [contradiction|].
  cbn [get_law_by_id map] in *. inversion Hnd as [|? ? Hnotin Hnd']; subst.
  destruct (str_eqb (id law0) (id law)) eqn:E.
  - apply str_eqb_eq in E. destruct Hin as [-> | Hin]; [reflexivity|].
    exfalso. apply Hnotin. rewrite E. now apply in_map.
  - destruct Hin as [-> | Hin].
    + assert (E' : str_eqb (id law) (id law) = true) by now apply str_eqb_eq.
      congruence.
    + now apply IH.
Qed.

Lemma get_law_by_id_none (laws : list LawMetadata) (law_id : str) :
  get_law_by_id laws law_id = None <-> ~ In law_id (map id laws).
Proof.
  induction laws as [|law0 rest IH]; cbn [get_law_by_id map]; [split; auto|].
  destruct (str_eqb (id law0) law_id) eqn:E.
  - apply str_eqb_eq in E. split; [discriminate|]. intros H. exfalso. apply H. now left.
  - assert (Hne : id law0 <> law_id).
    { intros H. apply str_eqb_eq in H. congruence. }
    rewrite IH. cbn [In]. split; [intros H [H' | H']; auto | intros H H'; apply H; now right].
Qed.

End LawFacts.

(** ** The quality analysis *)

Module QualityFacts.
Import Py PyFacts Splitter Spec.

Unset Implicit Arguments.

Lemma pick_in (choose : Q -> Q -> bool) (others : list Q) :
  forall first,
    In (fold_left (fun best x => if choose best x then best else x) others first)
      (first :: others).
Proof.
  induction others as [|x rest IH]; intros first; cbn [fold_left]; [now left|].
  destruct (IH (if choose first x then first else x)) as [H | H].
  - destruct (choose first x); rewrite <- H; [now left | right; now left].
  - right. now right.
Qed.

Lemma max_of_in (first : Q) (others : list Q) : In (max_of first others) (first :: others).
Proof.
  unfold max_of.
  exact (pick_in (fun best x => Qle_bool x best) others first).
Qed.

Lemma min_of_in (first : Q) (others : list Q) : In (min_of first others) (first :: others).
Proof.
  unfold min_of.
  exact (pick_in (fun best x => Qle_bool best x) others first).
Qed.

Lemma min_of_le (others : list Q) : forall first, (min_of first others <= first)%Q.
Proof.
  unfold min_of. induction others as [|x rest IH]; intros first; cbn [fold_left];
    [apply Qle_refl|].
  eapply Qle_trans; [apply IH|].
  destruct (Qle_bool first x) eqn:E; [apply Qle_refl|].
  apply Qlt_le_weak, Qnot_le_lt. intros H. apply Qle_bool_iff in H. congruence.
Qed.

Lemma max_of_ge (others : list Q) : forall first, (first <= max_of first others)%Q.
Proof.
  unfold max_of. induction others as [|x rest IH]; intros first; cbn [fold_left];
    [apply Qle_refl|].
  eapply Qle_trans; [|apply IH].
  destruct (Qle_bool x first) eqn:E; [apply Qle_refl|].
  apply Qlt_le_weak, Qnot_le_lt. intros H. apply Qle_bool_iff in H. congruence.
Qed.

Lemma poor_none (qs : list Q) :
  Forall passing qs -> filter (fun s => negb (Qle_bool (4 # 10) s)) qs = [].
Proof.
  induction 1 as [|q rest [Hq _] Hrest IH]; [reflexivity|]. cbn [filter].
  apply Qle_bool_iff in Hq. rewrite Hq. exact IH.
Qed.

Lemma buckets_cover (qs : list Q) :
  Forall passing qs ->
  (len (filter (fun s => Qle_bool (8 # 10) s) qs)
   + len (filter (fun s => Qle_bool (6 # 10) s && negb (Qle_bool (8 # 10) s)) qs)
   + len (filter (fun s => Qle_bool (4 # 10) s && negb (Qle_bool (6 # 10) s)) qs)
   = len qs)%Z.
Proof.
  induction 1 as [|q rest [Hq _] Hrest IH]; [reflexivity|]. cbn [filter].
  apply Qle_bool_iff in Hq. rewrite Hq. rewrite len_cons.
  destruct (Qle_bool (8 # 10) q) eqn:E8.
  - assert (E6 : Qle_bool (6 # 10) q = true).
    { apply Qle_bool_iff. apply Qle_bool_iff in E8.
      eapply Qle_trans; [|exact E8]. discriminate. }
    rewrite E6. cbn [andb negb]. rewrite len_cons. lia.
  - destruct (Qle_bool (6 # 10) q); cbn [andb negb]; rewrite len_cons; lia.
Qed.

Section Unicode.

Variable nfkc : str -> str.
Variable isword : char -> bool.

(** The records kept by [split_document] score 2/5, 3/5, 4/5 or 1. *)
Lemma kept_scores (paragraphs : list str) :
  Forall (fun m => exists k, (2 <= k <= 5)%nat /\ (quality_score m == Z.of_nat k # 5)%Q)
    (fst (split_document nfkc isword paragraphs)).
Proof.
  pose proof (LawFacts.produced_records nfkc isword _ _
                (LawFacts.split_document_produced nfkc isword paragraphs)) as Hrec.
  assert (Hkept : Forall kept_ok (fst (split_document nfkc isword paragraphs))).
  { unfold split_document. cbv zeta.
    apply (SplitterFacts.split_loop_spec nfkc isword). constructor. }
  rewrite Forall_forall in *. intros m Hin.
  destruct (Hrec m Hin) as (law_text & i & Hp).
  destruct (LawFacts.process_individual_law_record nfkc isword _ _ _ Hp)
    as (_ & _ & _ & _ & Hs & _).
  destruct (LawFacts.quality_score_values isword (raw_content m) (title m))
    as (k & Hk & Hq).
  rewrite <- Hs in Hq. destruct (Hkept m Hin) as [Hge _].
  exists k. split; [|exact Hq]. rewrite Hq in Hge.
  unfold Qle in Hge. cbn in Hge. lia.
Qed.

Lemma kept_passing (paragraphs : list str) :
  Forall passing (map quality_score (fst (split_document nfkc isword paragraphs))).
Proof.
  apply Forall_map. eapply Forall_impl; [|apply kept_scores].
  intros m (k & Hk & Hq). unfold passing. rewrite Hq. unfold Qle. cbn. lia.
Qed.

End Unicode.

End QualityFacts.

(** X9.  The laws kept by [split_document] score 2/5, 3/5, 4/5 or 1.
    The quality analysis of those laws therefore never has a law in the
    class "poor": the classes "excellent", "good" and "fair" hold all of
    them, and the lowest and highest scores lie between 0.4 and 1, the
    lowest not above the highest.  The distribution is absent exactly
    when no law was kept. *)
Theorem X9_no_kept_law_is_of_poor_quality
  (nfkc : Py.str -> Py.str) (isword : Py.char -> bool) (paragraphs : list Py.str) :
  let laws := fst (Splitter.split_document nfkc isword paragraphs) in
  let analysis := Splitter.analyze_quality laws in
  Forall (fun m => exists k, (2 <= k <= 5)%nat
                     /\ (Splitter.quality_score m == Z.of_nat k # 5)%Q) laws
  /\ match Splitter.distribution analysis with
     | Some d =>
         laws <> []
         /\ Splitter.poor d = 0%Z
         /\ (Splitter.excellent d + Splitter.good d + Splitter.fair d = Py.len laws)%Z
     | None => laws = []
     end
  /\ match Splitter.lowest_quality analysis, Splitter.highest_quality analysis with
     | Some lowest, Some highest =>
         (4 # 10 <= lowest)%Q /\ (lowest <= highest)%Q /\ (highest <= 1)%Q
     | None, None => laws = []
     | _, _ => False
     end.
Proof.
  intros laws analysis. split; [apply QualityFacts.kept_scores|].
  pose proof (QualityFacts.kept_passing nfkc isword paragraphs) as Hpass.
  fold laws in Hpass. subst analysis. unfold Splitter.analyze_quality.
  destruct laws as [|m rest]; [cbn; auto|].
  cbn [map Splitter.distribution Splitter.lowest_quality Splitter.highest_quality] in *.
  split.
  - split; [discriminate|].
    cbn [Splitter.poor Splitter.excellent Splitter.good Splitter.fair]. split.
    + rewrite (QualityFacts.poor_none _ Hpass). reflexivity.
    + rewrite (QualityFacts.buckets_cover _ Hpass).
      unfold Py.len. cbn [length]. now rewrite length_map.
  - pose proof (QualityFacts.min_of_in (Splitter.quality_score m)
                  (map Splitter.quality_score rest)) as Hmin.
    pose proof (QualityFacts.max_of_in (Splitter.quality_score m)
                  (map Splitter.quality_score rest)) as Hmax.
    rewrite Forall_forall in Hpass.
    destruct (Hpass _ Hmin) as [Hlo _]. destruct (Hpass _ Hmax) as [_ Hhi].
    split; [exact Hlo | split; [|exact Hhi]].
    eapply Qle_trans; [apply QualityFacts.min_of_le | apply QualityFacts.max_of_ge].
Qed.

(** X10.  The laws kept by [split_document] have identifiers that are
    pairwise different, each of the form "law_" followed by the
    zero-padded number of the span, counted from 1; so [get_law_by_id]
    with the identifier of a kept law returns that very law, and it
    returns nothing exactly for an identifier that no kept law has.
    Every kept law has a title that is not empty, the cleaned text as
    its content, and the number of words of that text as its word
    count. *)
Theorem X10_kept_laws_are_found_by_their_identifier
  (nfkc : Py.str -> Py.str) (isword : Py.char -> bool) (paragraphs : list Py.str) :
  let laws := fst (Splitter.split_document nfkc isword paragraphs) in
  NoDup (map Splitter.id laws)
  /\ (forall law, In law laws -> Splitter.get_law_by_id laws (Splitter.id law) = Some law)
  /\ (forall law_id,
        Splitter.get_law_by_id laws law_id = None <-> ~ In law_id (map Splitter.id laws))
  /\ Forall (fun m =>
               (exists n, (1 <= n)%N
                  /\ Splitter.id m = Splitter.law_prefix ++ Py.zero_pad3 n)
               /\ Splitter.title m <> []
               /\ Splitter.word_count m = Py.len (Py.split (Splitter.raw_content m)))
       laws.
Proof.
  intros laws.
  pose proof (LawFacts.split_document_produced nfkc isword paragraphs) as Hp.
  fold laws in Hp.
  destruct (LawFacts.produced_ids nfkc isword laws 0%N Hp) as [Hids Hnd].
  pose proof (LawFacts.produced_records nfkc isword laws 0%N Hp) as Hrec.
  split; [exact Hnd|]. split; [now apply LawFacts.get_law_by_id_found|].
  split; [intros law_id; apply LawFacts.get_law_by_id_none|].
  rewrite Forall_forall in *. intros m Hin.
  destruct (Hids m Hin) as (i & _ & Hid).
  destruct (Hrec m Hin) as (law_text & j & Hj).
  destruct (LawFacts.process_individual_law_record nfkc isword _ _ _ Hj)
    as (_ & Ht & _ & Hw & _).
  split; [|split; assumption].
  exists (i + 1)%N. split; [lia | exact Hid].
Qed.

(** ** Overlap and pieces *)

Module OverlapFacts.
Import Py PyFacts StripFacts Chunker Spec.

Unset Implicit Arguments.

Section WithConfig.

Variable cfg : config.

Lemma slice_from_suffix {A : Type} (i : Z) (l : list A) :
  exists front, l = front ++ slice_from i l.
Proof.
  unfold slice_from. cbv zeta.
  exists (firstn (Z.to_nat (if (i <? 0)%Z then Z.max 0 (i + len l) else Z.min i (len l))) l).
  symmetry. apply firstn_skipn.
Qed.

Lemma Forall_skipn {A : Type} (P : A -> Prop) (n : nat) (l : list A) :
  Forall P l -> Forall P (skipn n l).
Proof.
  revert l. induction n as [|n IH]; intros l H; [exact H|].
  destruct H as [|x l Hx Hl]; [constructor | now apply IH].
Qed.

Lemma overlap_words (prev : str) :
  exists front, split prev = front ++ split (overlap_text_of cfg prev).
Proof.
  unfold overlap_text_of. rewrite split_join.
  - apply slice_from_suffix.
  - unfold slice_from. cbv zeta. apply Forall_skipn, split_words.
Qed.

Lemma overlap_from_overlapped (chunks : list str) :
  forall prev, overlapped prev chunks (overlap_from cfg prev chunks).
Proof.
  induction chunks as [|chunk rest IH]; intros prev; cbn [overlap_from overlapped];
    [exact I|].
  split; [|apply IH]. unfold with_overlap. cbv zeta.
  destruct (_ <=? _)%Z; [|now left]. right.
  destruct (overlap_words prev) as [front Hfront].
  exists (overlap_text_of cfg prev), front. split; [reflexivity | exact Hfront].
Qed.

Lemma overlapped_same (chunks : list str) : forall prev, overlapped prev chunks chunks.
Proof.
  induction chunks as [|chunk rest IH]; intros prev; cbn [overlapped]; [exact I|].
  split; [now left | apply IH].
Qed.

End WithConfig.

End OverlapFacts.

(** X11.  [add_overlap_to_chunks] returns as many chunks as it is
    given, and the first one unchanged.  Every later chunk is the chunk
    it was given, alone or after a prefix and one space, and the words
    of that prefix are the last words of the chunk given just before:
    no text of a chunk is removed or altered.  With an overlap of 0,
    or with at most one chunk, the list is returned as it is. *)
Theorem X11_overlap_only_prefixes_chunks (cfg : Chunker.config) (chunks : list Py.str) :
  length (Chunker.add_overlap_to_chunks cfg chunks) = length chunks
  /\ match chunks, Chunker.add_overlap_to_chunks cfg chunks with
     | [], [] => True
     | first :: rest, first' :: rest' =>
         first' = first /\ Spec.overlapped first rest rest'
     | _, _ => False
     end
  /\ (Chunker.chunk_overlap cfg = 0%Z \/ (Py.len chunks <= 1)%Z ->
      Chunker.add_overlap_to_chunks cfg chunks = chunks).
Proof.
  split; [apply Pieces.add_overlap_length|]. split.
  - unfold Chunker.add_overlap_to_chunks.
    destruct chunks as [|first rest]; [now destruct (_ || _)|].
    destruct (_ || _).
    + split; [reflexivity | apply OverlapFacts.overlapped_same].
    + split; [reflexivity | apply OverlapFacts.overlap_from_overlapped].
  - intros H. unfold Chunker.add_overlap_to_chunks.
    destruct H as [H | H].
    + rewrite H. cbn. now rewrite orb_true_r.
    + replace (Py.len chunks <=? 1)%Z with true by (symmetry; apply Z.leb_le; lia).
      reflexivity.
Qed.

(** X12.  [split_long_content] returns a content that fits in the
    maximum as it is, alone.  For a content that holds at least one
    character that is not whitespace it returns at least one chunk, and
    no chunk that is empty or blank, whatever the overlap; the test
    [should_split_content] made before calling it changes nothing. *)
Theorem X12_split_long_content_returns_no_blank_chunk
  (cfg : Chunker.config) (content : Py.str) :
  ((Py.len content <= Chunker.max_chunk_size cfg)%Z ->
   Chunker.split_long_content cfg content = [content])
  /\ (Spec.has_word content ->
      Chunker.split_long_content cfg content <> []
      /\ Forall Spec.has_word (Chunker.split_long_content cfg content)
      /\ Forall (fun chunk => Py.strip chunk <> [])
           (Chunker.split_long_content cfg content))
  /\ Chunker.pieces cfg content = Chunker.split_long_content cfg content.
Proof.
  assert (Hsame : Chunker.pieces cfg content = Chunker.split_long_content cfg content).
  { unfold Chunker.pieces, Chunker.should_split_content, Chunker.split_long_content.
    destruct (Chunker.max_chunk_size cfg <? Py.len content)%Z eqn:E; [reflexivity|].
    replace (Py.len content <=? Chunker.max_chunk_size cfg)%Z with true
      by (symmetry; apply Z.leb_le; lia).
    reflexivity. }
  split; [|split; [|exact Hsame]].
  - intros H. unfold Chunker.split_long_content.
    replace (Py.len content <=? Chunker.max_chunk_size cfg)%Z with true
      by (symmetry; apply Z.leb_le; lia).
    reflexivity.
  - intros Hw. rewrite <- Hsame.
    pose proof (@Pieces.pieces_have_words cfg content Hw) as Hall.
    split; [now apply Pieces.pieces_nonempty|]. split; [exact Hall|].
    eapply Forall_impl; [|exact Hall]. intros c Hc. now apply StripFacts.has_word_strip.
Qed.

(** ** The matcher follows the patterns *)

Module ReSound.
Import Py Re Spec ReFacts.

Unset Implicit Arguments.

(** Whatever the matcher returns was returned by the continuation, at a
    place that the pattern can reach. *)
Lemma m_sound (fl : flags) (r : regex) :
  forall st k res,
    m fl r st k = Some res ->
    exists st',
      k st' = Some res /\ steps fl r (place_of st) (place_of st') /\ reached st st'.
Proof.
  induction r as [ | p | | r1 IH1 r2 IH2 | r1 IH1 r2 IH2 | g r1 IH1
                 | n r1 IH1 | | | | r1 IH1 ]; intros st k res H; cbn [m] in H.
  - exists st. split; [assumption|]. split; [constructor | apply reached_refl].
  - destruct st as [i pv s cs]. cbn [rest] in H.
    destruct s as [|c t]; [discriminate|].
    destruct (p c) eqn:Ep; [|discriminate].
    eexists; split; [eassumption|]. split.
    + unfold place_of, advance. cbn. now constructor.
    + unfold reached, advance; cbn. lia.
  - destruct st as [i pv s cs]. cbn [rest] in H.
    destruct s as [|c t]; [discriminate|].
    destruct (dot_ok fl c) eqn:Ed; [|discriminate].
    eexists; split; [eassumption|]. split.
    + unfold place_of, advance. cbn. now constructor.
    + unfold reached, advance; cbn. lia.
  - apply IH1 in H. destruct H as (st1 & H & S1 & R1).
    apply IH2 in H. destruct H as (st2 & H & S2 & R2).
    exists st2. split; [assumption|]. split.
    + econstructor; eassumption.
    + eapply reached_trans; eassumption.
  - unfold orelse in H. destruct (m fl r1 st k) eqn:E.
    + injection H as <-. apply IH1 in E. destruct E as (st1 & E & S1 & R1).
      exists st1. split; [assumption|]. split; [now apply steps_alt_l | assumption].
    + apply IH2 in H. destruct H as (st1 & E' & S1 & R1).
      exists st1. split; [assumption|]. split; [now apply steps_alt_r | assumption].
  - revert H. generalize (S (length (rest st))). intros n. revert st res.
    induction n as [|n IHn]; intros st res H; cbn [star_loop] in H.
    + exists st. split; [assumption|]. split; [constructor | apply reached_refl].
    + assert (Hmore : forall x,
                m fl r1 st
                  (fun st1 => if pos st <? pos st1
                              then star_loop (m fl r1) g k n st1 else None)
                = Some x ->
                exists st', k st' = Some x
                  /\ steps fl (Star g r1) (place_of st) (place_of st') /\ reached st st').
      { intros x Hx. apply IH1 in Hx.
        destruct Hx as (st1 & Hx & S1 & R1).
        destruct (pos st <? pos st1); [|discriminate].
        apply IHn in Hx. destruct Hx as (st2 & Hx & S2 & R2).
        exists st2. split; [assumption|]. split.
        - eapply steps_star_more; eassumption.
        - eapply reached_trans; eassumption. }
      assert (Hk : forall x, k st = Some x ->
                exists st', k st' = Some x
                  /\ steps fl (Star g r1) (place_of st) (place_of st') /\ reached st st').
      { intros x Hx. exists st. split; [assumption|].
        split; [constructor | apply reached_refl]. }
      unfold orelse in H. destruct g.
      * destruct (m fl r1 st _) as [x|]; [injection H as <-; now apply Hmore | now apply Hk].
      * destruct (k st) as [x|]; [injection H as <-; now apply Hk | now apply Hmore].
  - apply IH1 in H. destruct H as (st1 & H & S1 & R1).
    eexists; split; [eassumption|]. split; [|exact R1].
    constructor. exact S1.
  - destruct (at_bol fl st) eqn:E; [|discriminate].
    exists st. split; [assumption|]. split; [now constructor | apply reached_refl].
  - destruct (at_eol fl st) eqn:E; [|discriminate].
    exists st. split; [assumption|]. split; [now constructor | apply reached_refl].
  - destruct (is_nil (rest st)) eqn:E; [|discriminate].
    exists st. split; [assumption|]. split; [|apply reached_refl].
    constructor. unfold place_of. cbn. destruct (rest st); [reflexivity | discriminate].
  - destruct (m fl r1 st Some) as [st1|] eqn:E; [|discriminate].
    apply IH1 in E. destruct E as (st1' & _ & S1 & _).
    eexists; split; [eassumption|]. split.
    + unfold place_of at 2. cbn. econstructor. exact S1.
    + split; cbn; lia.
Qed.

(** A pattern matches a piece of the text ahead. *)
Lemma steps_between (fl : flags) (r : regex) (p q : place) :
  steps fl r p q -> exists w, between p q w.
Proof.
  unfold between. induction 1;
    try (exists []; reflexivity).
  - exists [c]. reflexivity.
  - exists [c]. reflexivity.
  - destruct IHsteps1 as [w1 H1]. destruct IHsteps2 as [w2 H2].
    exists (w1 ++ w2). rewrite H1, H2. now rewrite app_assoc.
  - assumption.
  - assumption.
  - destruct IHsteps1 as [w1 H1]. destruct IHsteps2 as [w2 H2].
    exists (w1 ++ w2). rewrite H1, H2. now rewrite app_assoc.
  - assumption.
Qed.

End ReSound.

(** ** The matches of a scan *)

Module ScanFacts.
Import Py Re Spec ReFacts ReSound.

Unset Implicit Arguments.

Lemma prev_after_snoc (pv : option char) (before : str) (c : char) :
  prev_after pv (before ++ [c]) = Some c.
Proof.
  destruct before as [|x t]; [reflexivity|]. cbn [app prev_after].
  f_equal. rewrite last_last. reflexivity.
Qed.

(** A successful run of the matcher from index [i], in front of which
    lies [before], gives a match object of the pattern. *)
Lemma run_matched (fl : flags) (r : regex) (text before s : str)
  (k : state -> option state) (res : state) :
  text = before ++ s ->
  (forall st x, k st = Some x -> x = st) ->
  m fl r {| pos := length before; prev := prev_after None before; rest := s; caps := [] |} k
  = Some res ->
  matched fl r text (found (length before) res).
Proof.
  intros Htext Hk H. apply m_sound in H. destruct H as (st' & Hres & Hsteps & Hpos & Hlen).
  apply Hk in Hres. subst st'.
  destruct (steps_between _ _ _ _ Hsteps) as [w Hw]. unfold between in Hw. cbn in Hw.
  cbn [pos rest] in Hpos, Hlen.
  exists before, w, (rest res), (prev res). unfold found. cbn [m_start m_end].
  repeat split.
  - now rewrite Htext, Hw.
  - rewrite Hw, length_app in Hlen. lia.
  - unfold place_of in Hsteps. cbn in Hsteps. rewrite Hw in Hsteps. exact Hsteps.
Qed.

Lemma attempt_matched (fl : flags) (r : regex) (text before s : str) :
  text = before ++ s ->
  Forall (matched fl r text)
    (fst (attempt fl r (length before) (prev_after None before) s)).
Proof.
  intros Htext. unfold attempt.
  destruct (m fl r _ Some) as [st1|] eqn:E1; [|constructor].
  assert (M1 : matched fl r text (found (length before) st1)).
  { eapply run_matched; [exact Htext | | exact E1]. intros st x [= ->]. reflexivity. }
  destruct (pos st1 =? length before).
  - destruct (m fl r _ (fun st' => _)) as [st2|] eqn:E2; cbn [fst].
    + constructor; [assumption|]. constructor; [|constructor].
      eapply run_matched; [exact Htext | | exact E2].
      intros st x Hx. cbv beta in Hx.
      destruct (pos st =? length before); [discriminate|].
      now injection Hx.
    + constructor; [assumption | constructor].
  - cbn [fst]. constructor; [assumption | constructor].
Qed.

Lemma scan_matched (fl : flags) (r : regex) (text : str) (s : str) :
  forall before skip,
    text = before ++ s ->
    Forall (matched fl r text)
      (scan fl r (length before) (prev_after None before) s skip).
Proof.
  induction s as [|c t IH]; intros before skip Htext; cbn [scan].
  - destruct skip; [|constructor]. now apply attempt_matched.
  - assert (Hnext : forall skip',
              Forall (matched fl r text) (scan fl r (S (length before)) (Some c) t skip')).
    { intros skip'. specialize (IH (before ++ [c]) skip').
      rewrite length_app, prev_after_snoc in IH. cbn [length] in IH.
      replace (length before + 1) with (S (length before)) in IH by lia.
      apply IH. rewrite Htext, <- app_assoc. reflexivity. }
    destruct skip as [|k]; [|apply Hnext].
    pose proof (attempt_matched fl r text before (c :: t) Htext) as Ha.
    destruct (attempt fl r (length before) (prev_after None before) (c :: t))
      as [ms jump].
    apply Forall_app. split; [exact Ha | apply Hnext].
Qed.

(** Every match that [finditer] yields is a match of the pattern. *)
Lemma finditer_matched (fl : flags) (r : regex) (text : str) :
  Forall (matched fl r text) (finditer fl r text).
Proof. exact (scan_matched fl r text text [] 0 eq_refl). Qed.

Lemma substr_middle (before w after : str) :
  substr (before ++ w ++ after) (length before) (length before + length w) = w.
Proof.
  unfold substr. rewrite skipn_app, skipn_all, Nat.sub_diag. cbn [skipn app].
  replace (length before + length w - length before) with (length w) by lia.
  rewrite firstn_app, firstn_all, Nat.sub_diag. cbn [firstn]. apply app_nil_r.
Qed.

(** Every text that [findall] returns is a piece of the subject that
    the pattern can match where it stands. *)
Lemma findall_matched (fl : flags) (r : regex) (text : str) :
  Forall (fun w => exists before after pv',
              text = before ++ w ++ after
              /\ steps fl r (prev_after None before, w ++ after) (pv', after))
    (findall fl r text).
Proof.
  unfold findall. apply Forall_map.
  eapply Forall_impl; [|apply finditer_matched].
  intros mt (before & w & after & pv' & Ht & Hs & He & Hst).
  exists before, after, pv'. rewrite Hs, He, Ht, substr_middle. auto.
Qed.

(** *** What some patterns match *)

Lemma steps_chr_inv (fl : flags) (f : char -> bool) (p q : place) :
  steps fl (Chr f) p q ->
  exists c, f c = true /\ snd p = c :: snd q /\ fst q = Some c.
Proof. inversion 1; subst. exists c. auto. Qed.

Lemma steps_seq_inv (fl : flags) (r1 r2 : regex) (p u : place) :
  steps fl (Seq r1 r2) p u -> exists q, steps fl r1 p q /\ steps fl r2 q u.
Proof. inversion 1; subst. eauto. Qed.

(** A starred class matches a run of characters of the class. *)
Lemma steps_star_class (fl : flags) (g : bool) (f : char -> bool) (p q : place) :
  steps fl (Star g (Chr f)) p q ->
  exists w, snd p = w ++ snd q /\ Forall (fun c => f c = true) w.
Proof.
  intros H. remember (Star g (Chr f)) as r eqn:Er.
  induction H; try discriminate.
  - exists []. split; [reflexivity | constructor].
  - injection Er as -> ->. destruct (IHsteps2 eq_refl) as (w & Hw & Hall).
    apply steps_chr_inv in H. destruct H as (c & Hc & Hp & _).
    exists (c :: w). split; [rewrite Hp, Hw; reflexivity | now constructor].
Qed.

(** One or more characters of a class. *)
Lemma steps_plus_class (fl : flags) (g : bool) (f : char -> bool) (p q : place) :
  steps fl (Plus g (Chr f)) p q ->
  exists c w, snd p = (c :: w) ++ snd q /\ Forall (fun c => f c = true) (c :: w).
Proof.
  unfold Plus. intros H. apply steps_seq_inv in H. destruct H as (u & H1 & H2).
  apply steps_chr_inv in H1. destruct H1 as (c & Hc & Hp & _).
  apply steps_star_class in H2. destruct H2 as (w & Hw & Hall).
  exists c, w. split; [rewrite Hp, Hw; reflexivity | now constructor].
Qed.

End ScanFacts.

(** ** Whitespace after cleaning *)

Module CleanFacts.
Import Py PyFacts StripFacts Re Spec TextUtils Respace.

Unset Implicit Arguments.

Lemma attempt_spaces (fl : flags) (i : nat) (pv : option char) (s : str) :
  attempt fl spaces_re i pv s
  = match s with
    | c :: t =>
        if isspace c
        then ([ {| m_start := i; m_end := S i + leading_ws t; m_caps := [] |} ],
              S (leading_ws t))
        else ([], 0)
    | [] => ([], 0)
    end.
Proof.
  unfold attempt, spaces_re, Plus. rewrite !m_seq, !m_chr. cbn [rest].
  destruct s as [|c t]; [reflexivity|].
  destruct (isspace c); [|reflexivity].
  rewrite !m_star. cbn [rest].
  change (advance c t {| pos := i; prev := pv; rest := c :: t; caps := [] |})
    with {| pos := S i; prev := Some c; rest := t; caps := [] |}.
  cbn [rest].
  set (st1 := {| pos := S i; prev := Some c; rest := t; caps := [] |}).
  rewrite (star_ws_total fl Some t st1 (S (length t)) (run_ws st1 t));
    [|reflexivity | lia | reflexivity].
  rewrite run_ws_pos. cbn [pos st1].
  replace (S i + leading_ws t =? i) with false by (symmetry; apply Nat.eqb_neq; lia).
  unfold found. rewrite run_ws_pos, run_ws_caps. cbn [pos caps st1].
  replace (S i + leading_ws t - i) with (S (leading_ws t)) by lia.
  reflexivity.
Qed.

(** [re.sub] with the pattern of whitespace runs is [collapse]. *)
Lemma sub_scan_spaces (fl : flags) (rep : str) (s : str) :
  forall i pv skip,
    sub_scan fl spaces_re (fun _ => rep) None i pv s skip = collapse rep s skip.
Proof.
  induction s as [|c t IH]; intros i pv skip; cbn [sub_scan collapse].
  - destruct skip; [|reflexivity]. cbn [exhausted within].
    rewrite attempt_spaces. reflexivity.
  - destruct skip as [|k]; [|apply IH]. cbn [exhausted].
    rewrite attempt_spaces. destruct (isspace c).
    + cbn [within fst snd length flat_map]. rewrite Nat.eqb_refl.
      cbn [Nat.eqb spend pred]. rewrite IH. rewrite app_nil_r. reflexivity.
    + cbn [within fst snd length flat_map Nat.eqb app spend pred]. now rewrite IH.
Qed.

Lemma collapse_spaces_collapse (text : str) :
  collapse_spaces text = collapse [space] text 0.
Proof. unfold collapse_spaces, sub. apply sub_scan_spaces. Qed.

Lemma collapse_only_spaces (s : str) :
  forall skip, only_spaces (collapse [space] s skip).
Proof.
  unfold only_spaces. induction s as [|c t IH]; intros skip; cbn [collapse];
    [constructor|].
  destruct skip as [|k]; [|apply IH].
  destruct (isspace c) eqn:E.
  - cbn [app]. constructor; [reflexivity | apply IH].
  - constructor; [congruence | apply IH].
Qed.

(** After a run has been passed over, the text goes on with a character
    that is not whitespace. *)
Lemma collapse_after_run (t : str) :
  match collapse [space] t (leading_ws t) with
  | [] => True
  | d :: _ => isspace d = false
  end.
Proof.
  induction t as [|c t IH]; cbn [leading_ws collapse]; [exact I|].
  destruct (isspace c) eqn:E; [exact IH|]. cbn [collapse]. rewrite E. reflexivity.
Qed.

Lemma collapse_single_spaced (s : str) :
  forall skip, single_spaced (collapse [space] s skip).
Proof.
  induction s as [|c t IH]; intros skip; cbn [collapse]; [exact I|].
  destruct skip as [|k]; [|apply IH].
  destruct (isspace c) eqn:E.
  - cbn [app single_spaced]. split; [|apply IH].
    pose proof (collapse_after_run t) as H.
    destruct (collapse [space] t (leading_ws t)); [exact I | intros _; exact H].
  - cbn [single_spaced]. split; [|apply IH].
    destruct (collapse [space] t 0); [exact I | congruence].
Qed.

(** *** The later substitutions insert plain spaces only *)

Lemma lstrip_in (s : str) (d : char) (t : str) : lstrip s = d :: t -> In d s.
Proof.
  induction s as [|c s' IH]; cbn [lstrip]; [discriminate|].
  destruct (isspace c); [intros H; right; now apply IH|].
  intros [= -> _]. now left.
Qed.

Lemma respace_only_spaces (cls : char -> bool) (pre post : str) (s : str) :
  only_spaces pre -> only_spaces post ->
  forall skip, only_spaces s -> only_spaces (respace cls pre post s skip).
Proof.
  unfold only_spaces. intros Hpre Hpost.
  induction s as [|c t IH]; intros skip Hs; cbn [respace]; [constructor|].
  inversion Hs as [|? ? Hc Ht]; subst.
  destruct skip as [|k]; [|now apply IH].
  destruct (ahead cls (c :: t)) as [[d jump]|] eqn:E.
  - apply Forall_app. split; [assumption|]. cbn [app]. constructor.
    + unfold ahead in E. destruct (lstrip (c :: t)) as [|d' t'] eqn:El; [discriminate|].
      destruct (cls d'); [|discriminate]. injection E as <- _.
      apply lstrip_in in El. rewrite Forall_forall in Hs. now apply Hs.
    + apply Forall_app. split; [assumption | now apply IH].
  - constructor; [assumption | now apply IH].
Qed.

Lemma lstrip_Forall (P : char -> Prop) (s : str) : Forall P s -> Forall P (lstrip s).
Proof.
  induction 1 as [|c t Hc Ht IH]; cbn [lstrip]; [constructor|].
  destruct (isspace c); [assumption | now constructor].
Qed.

Lemma rstrip_Forall (P : char -> Prop) (s : str) : Forall P s -> Forall P (rstrip s).
Proof.
  induction 1 as [|c t Hc Ht IH]; cbn [rstrip]; [constructor|].
  destruct (isspace c && is_nil (rstrip t)); [constructor | now constructor].
Qed.

Lemma strip_Forall (P : char -> Prop) (s : str) : Forall P s -> Forall P (strip s).
Proof. intros H. unfold strip. now apply rstrip_Forall, lstrip_Forall. Qed.

Lemma single_spaced_tail (c : char) (t : str) : single_spaced (c :: t) -> single_spaced t.
Proof. cbn [single_spaced]. now intros [_ H]. Qed.

Lemma lstrip_single_spaced (s : str) : single_spaced s -> single_spaced (lstrip s).
Proof.
  induction s as [|c t IH]; intros H; cbn [lstrip]; [exact I|].
  destruct (isspace c); [|exact H]. apply IH. now apply single_spaced_tail in H.
Qed.

Lemma rstrip_single_spaced (s : str) : single_spaced s -> single_spaced (rstrip s).
Proof.
  induction s as [|c t IH]; intros H; cbn [rstrip]; [exact I|].
  destruct (isspace c && is_nil (rstrip t)); [exact I|].
  cbn [single_spaced] in *. destruct H as [Hc Ht]. split; [|now apply IH].
  destruct t as [|d t']; [exact I|]. cbn [rstrip] in *.
  destruct (isspace d && is_nil (rstrip t')); [exact I | exact Hc].
Qed.

Lemma strip_single_spaced (s : str) : single_spaced s -> single_spaced (strip s).
Proof. intros H. unfold strip. now apply rstrip_single_spaced, lstrip_single_spaced. Qed.

(** A text whose only whitespace is the plain space is one line. *)
Lemma split_on_absent (sep : char) (s : str) :
  ~ In sep s -> split_on sep s = [s].
Proof.
  induction s as [|c t IH]; intros H; cbn [split_on]; [reflexivity|].
  destruct (N.eqb_spec c sep) as [->|Hne]; [exfalso; apply H; now left|].
  rewrite IH; [reflexivity|]. intros Hin. apply H. now right.
Qed.

Lemma only_spaces_no_newline (s : str) : only_spaces s -> ~ In newline s.
Proof.
  unfold only_spaces. intros H Hin. rewrite Forall_forall in H.
  specialize (H newline Hin eq_refl). discriminate.
Qed.

Section Unicode.

Variable nfkc : str -> str.

Lemma clean_text_only_spaces (text : str) : only_spaces (clean_text nfkc text).
Proof.
  unfold clean_text. destruct (is_nil text); [constructor|]. cbv zeta.
  apply strip_Forall. rewrite space_parens_respace, space_punct_respace,
    collapse_spaces_collapse.
  apply respace_only_spaces;
    [repeat constructor | repeat constructor |].
  apply respace_only_spaces; [constructor | repeat constructor |].
  apply collapse_only_spaces.
Qed.

Lemma clean_text_stripped (text : str) :
  strip (clean_text nfkc text) = clean_text nfkc text.
Proof.
  unfold clean_text. destruct (is_nil text); [reflexivity|]. cbv zeta.
  apply ValidatorFacts.strip_idem.
Qed.

End Unicode.

End CleanFacts.

(** X13.  The output of [clean_text] holds no whitespace character other
    than the plain space: tabs, line breaks and the other Unicode
    spaces of the input are all replaced.  The cleaned text is therefore
    a single line (splitting it at line breaks gives the text itself),
    and, as a stripped text, it is not changed by stripping it again. *)
Theorem X13_cleaned_text_is_a_single_line (nfkc : Py.str -> Py.str) (text : Py.str) :
  Spec.only_spaces (TextUtils.clean_text nfkc text)
  /\ ~ In Py.newline (TextUtils.clean_text nfkc text)
  /\ Py.split_on Py.newline (TextUtils.clean_text nfkc text)
     = [TextUtils.clean_text nfkc text]
  /\ Py.strip (TextUtils.clean_text nfkc text) = TextUtils.clean_text nfkc text.
Proof.
  pose proof (CleanFacts.clean_text_only_spaces nfkc text) as H.
  pose proof (CleanFacts.only_spaces_no_newline _ H) as Hn.
  repeat split; try assumption.
  - now apply CleanFacts.split_on_absent.
  - apply CleanFacts.clean_text_stripped.
Qed.

(** ** The spans of the laws *)

Module LawSpans.
Import Py Re Spec ScanFacts.

Unset Implicit Arguments.

Lemma steps_times_class (fl : flags) (f : char -> bool) (n : nat) :
  forall p q,
    steps fl (Times n (Chr f)) p q ->
    exists w, snd p = w ++ snd q /\ length w = n /\ Forall (fun c => f c = true) w.
Proof.
  induction n as [|n IH]; intros p q H; cbn [Times] in H.
  - inversion H; subst. exists []. repeat split. constructor.
  - apply steps_seq_inv in H. destruct H as (u & H1 & H2).
    apply steps_chr_inv in H1. destruct H1 as (c & Hc & Hp & _).
    destruct (IH _ _ H2) as (w & Hw & Hl & Hall).
    exists (c :: w). repeat split.
    + rewrite Hp, Hw. reflexivity.
    + cbn. now rewrite Hl.
    + now constructor.
Qed.

Lemma all_eq_repeat (x : char) (w : str) :
  Forall (fun c => (x =? c)%N = true) w -> w = repeat x (length w).
Proof.
  induction 1 as [|c t Hc Ht IH]; cbn [repeat length]; [reflexivity|].
  apply N.eqb_eq in Hc. subst c. now rewrite <- IH.
Qed.

(** What the separator pattern matches ends with ten asterisks. *)
Lemma separator_matched (text : str) (mt : match_obj) :
  matched no_flags Patterns.law_separator text mt ->
  exists before after,
    text = before ++ separator_run ++ after
    /\ m_end mt = length before + 10.
Proof.
  intros (before & w & after & pv' & Ht & Hs & He & Hst).
  unfold Patterns.law_separator, AtLeast in Hst.
  apply steps_seq_inv in Hst. destruct Hst as (q & H1 & H2).
  apply steps_times_class in H1. destruct H1 as (w1 & Hw1 & Hl1 & Ha1).
  apply steps_star_class in H2. destruct H2 as (w2 & Hw2 & Ha2).
  cbn [snd] in Hw1, Hw2. rewrite Hw2, app_assoc in Hw1.
  apply app_inv_tail in Hw1. 
  assert (Hall : Forall (fun c => (0x2A =? c)%N = true) w).
  { rewrite Hw1. apply Forall_app. split; assumption. }
  apply all_eq_repeat in Hall.
  assert (Hlen : 10 <= length w).
  { rewrite Hw1, length_app. lia. }
  exists (before ++ repeat 0x2A%N (length w - 10)), after. split.
  - rewrite Ht. rewrite <- app_assoc. f_equal. rewrite app_assoc. f_equal.
    unfold separator_run. rewrite <- repeat_app.
    replace (length w - 10 + 10) with (length w) by lia. exact Hall.
  - rewrite He, length_app, repeat_length. lia.
Qed.

Lemma separator_end (before after : str) :
  ends_separator (before ++ separator_run ++ after) (length before + 10).
Proof.
  unfold ends_separator. split; [lia|].
  replace (length before + 10 - 10) with (length before) by lia.
  change 10 with (length separator_run) at 1. apply substr_middle.
Qed.

Lemma separator_ends (text : str) :
  Forall (ends_separator text)
    (map m_end (finditer no_flags Patterns.law_separator text)).
Proof.
  apply Forall_map. eapply Forall_impl; [|apply finditer_matched].
  intros mt H. apply separator_matched in H.
  destruct H as (before & after & -> & ->). apply separator_end.
Qed.

Lemma no_separator_no_match (text : str) :
  ~ has_separator text -> finditer no_flags Patterns.law_separator text = [].
Proof.
  intros Hno. pose proof (finditer_matched no_flags Patterns.law_separator text) as H.
  destruct (finditer no_flags Patterns.law_separator text) as [|mt ms]; [reflexivity|].
  inversion H as [|? ? Hm _]; subst. apply separator_matched in Hm.
  destruct Hm as (before & after & Ht & _). exfalso. apply Hno. now exists before, after.
Qed.

(** The loop: every span is non-empty, starts at the first offset or at a
    separator end, and ends at a separator end or at the end of the text. *)
Lemma boundaries_from_spans (n : nat) (seps : list nat) :
  forall lo,
    Forall (fun ab => fst ab < snd ab
                      /\ (fst ab = lo \/ In (fst ab) seps)
                      /\ (snd ab = n \/ In (snd ab) seps))
      (Splitter.boundaries_from lo seps n).
Proof.
  induction seps as [|sep rest IH]; intros lo; cbn [Splitter.boundaries_from].
  - destruct (lo <? n) eqn:E; [|constructor]. apply Nat.ltb_lt in E.
    constructor; [|constructor]. cbn [fst snd]. auto.
  - apply Forall_app. split.
    + destruct (lo <? sep) eqn:E; [|constructor]. apply Nat.ltb_lt in E.
      constructor; [|constructor]. cbn [fst snd In]. auto.
    + eapply Forall_impl; [|apply IH]. intros [a b]. cbn [fst snd In].
      intros (H1 & H2 & H3). split; [assumption|]. split.
      * destruct H2 as [->|H2]; auto.
      * destruct H3 as [->|H3]; auto.
Qed.

Lemma chain_bounded (n : nat) (spans : list (nat * nat)) :
  chain n spans -> Forall (fun ab => snd ab <= n) spans.
Proof.
  induction spans as [|[a b] rest IH]; intros H; [constructor|].
  cbn [chain] in H. destruct H as (Hab & Hlink & Hrest).
  specialize (IH Hrest). constructor; [|assumption]. cbn [snd].
  destruct rest as [|[a' b'] rest']; [lia|].
  inversion IH; subst. cbn [chain] in Hrest. cbn [snd] in *. lia.
Qed.

End LawSpans.

(** X14.  [identify_law_boundaries] returns no empty span and none that
    leaves the text.  A span starts at offset 0 or right after ten
    asterisks, and ends at the end of the text or right after ten
    asterisks: the separator that closes a law is part of its span.  A
    text without ten asterisks in a row is one span, the whole text, or
    no span at all when the text is empty. *)
Theorem X14_law_spans_are_cut_after_separators (text : Py.str) :
  let spans := Splitter.identify_law_boundaries text in
  Forall (fun ab =>
            fst ab < snd ab <= length text
            /\ (fst ab = 0 \/ Spec.ends_separator text (fst ab))
            /\ (snd ab = length text \/ Spec.ends_separator text (snd ab)))
    spans
  /\ (~ Spec.has_separator text ->
      spans = if Py.is_nil text then [] else [(0, length text)]).
Proof.
  intros spans. split.
  - pose proof (LawSpans.separator_ends text) as Hsep. rewrite Forall_forall in Hsep.
    pose proof (LawSpans.chain_bounded _ _ (proj1 (Boundaries.law_boundaries_chain text)))
      as Hb.
    pose proof (LawSpans.boundaries_from_spans (length text)
                  (map Re.m_end (Re.finditer Re.no_flags Patterns.law_separator text)) 0)
      as Hs.
    fold (Splitter.identify_law_boundaries text) in Hs. fold spans in Hs, Hb.
    rewrite Forall_forall in Hs, Hb |- *. intros ab Hin.
    destruct (Hs ab Hin) as (H1 & H2 & H3). specialize (Hb ab Hin).
    repeat split; [assumption | assumption | |].
    + destruct H2 as [H2|H2]; [now left | right; now apply Hsep].
    + destruct H3 as [H3|H3]; [now left | right; now apply Hsep].
  - intros Hno. unfold spans, Splitter.identify_law_boundaries.
    rewrite (LawSpans.no_separator_no_match text Hno). cbn [map Splitter.boundaries_from].
    destruct text; reflexivity.
Qed.

(** ** Anchored patterns *)

Module Anchored.
Import Py Re Spec ReFacts ReSound ScanFacts.

Unset Implicit Arguments.

Lemma steps_shrinks (fl : flags) (r : regex) (p q : place) :
  steps fl r p q -> length (snd q) <= length (snd p).
Proof.
  intros H. apply steps_between in H. destruct H as (w & Hw).
  unfold between in Hw. rewrite Hw, length_app. lia.
Qed.

Lemma steps_consumes (fl : flags) (r : regex) :
  consumes r = true ->
  forall p q, steps fl r p q -> length (snd q) < length (snd p).
Proof.
  induction r as [ | f | | r1 IH1 r2 IH2 | r1 IH1 r2 IH2 | g r1 IH1
                 | n r1 IH1 | | | | r1 IH1 ]; intros Hc p q H;
    cbn [consumes] in Hc; try discriminate; inversion H; subst; cbn [snd length].
  - lia.
  - lia.
  - match goal with
    | H1 : steps _ r1 _ _, H2 : steps _ r2 _ _ |- _ =>
        pose proof (steps_shrinks _ _ _ _ H1); pose proof (steps_shrinks _ _ _ _ H2);
        apply orb_true_iff in Hc; destruct Hc as [Hc|Hc];
        [specialize (IH1 Hc _ _ H1) | specialize (IH2 Hc _ _ H2)]; lia
    end.
  - apply andb_true_iff in Hc. now apply IH1.
  - apply andb_true_iff in Hc. now apply IH2.
  - now apply IH1.
Qed.

Lemma steps_ends_eol (fl : flags) (r : regex) :
  ends_at_eol r = true ->
  forall p q, steps fl r p q -> place_eol fl q = true.
Proof.
  induction r as [ | f | | r1 IH1 r2 IH2 | r1 IH1 r2 IH2 | g r1 IH1
                 | n r1 IH1 | | | | r1 IH1 ]; intros Hc p q H;
    cbn [ends_at_eol] in Hc; try discriminate; inversion H; subst.
  - eapply IH2; eassumption.
  - eapply IH1; eassumption.
  - assumption.
Qed.

(** A pattern that must pass a character gives one match at most where
    it is tried, and that match is not empty. *)
Lemma attempt_consuming (fl : flags) (r : regex) (i : nat) (pv : option char) (s : str) :
  consumes r = true ->
  attempt fl r i pv s
  = match m fl r {| pos := i; prev := pv; rest := s; caps := [] |} Some with
    | None => ([], 0)
    | Some st1 => ([found i st1], pos st1 - i)
    end
  /\ Forall (fun mt => m_start mt = i /\ i < m_end mt) (fst (attempt fl r i pv s)).
Proof.
  intros Hc. unfold attempt.
  destruct (m fl r {| pos := i; prev := pv; rest := s; caps := [] |} Some) as [st1|] eqn:E.
  - apply m_sound in E. destruct E as (st' & [= ->] & Hst & Hr).
    apply (steps_consumes fl r Hc) in Hst. unfold reached in Hr.
    cbn [place_of snd pos rest] in *.
    replace (pos st1 =? i) with false by (symmetry; apply Nat.eqb_neq; lia).
    split; [reflexivity|]. cbn [fst]. repeat constructor. cbn [found m_end]. lia.
  - split; [reflexivity | constructor].
Qed.

Lemma flat_map_empty {A B : Type} (l : list A) :
  flat_map (fun _ : A => @nil B) l = [].
Proof. induction l as [|x t IH]; [reflexivity | exact IH]. Qed.

Section Start.

Variable fl : flags.
Variable r : regex.

Lemma attempt_later (i : nat) (c : char) (s : str) :
  MULTILINE fl && (c =? newline)%N = false ->
  attempt fl (Seq Bol r) i (Some c) s = ([], 0).
Proof.
  intros H. unfold attempt. cbn [m]. unfold at_bol. cbn [prev]. rewrite H. reflexivity.
Qed.

Lemma later_char (c : char) (s : str) :
  start_only fl (c :: s) -> MULTILINE fl && (c =? newline)%N = false.
Proof.
  intros [H|H]; [now rewrite H|].
  destruct (N.eqb_spec c newline) as [->|Hne]; [|apply andb_false_r].
  exfalso. apply H. now left.
Qed.

Lemma start_only_tail (c : char) (s : str) : start_only fl (c :: s) -> start_only fl s.
Proof.
  intros [H|H]; [now left | right]. intros Hin. apply H. now right.
Qed.

(** Past the start of the text, an anchored pattern finds nothing. *)
Lemma scan_later :
  forall s i c skip,
    start_only fl (c :: s) -> scan fl (Seq Bol r) i (Some c) s skip = [].
Proof.
  induction s as [|d t IH]; intros i c skip H; cbn [scan].
  - destruct skip; [|reflexivity]. rewrite attempt_later; [reflexivity|].
    now apply later_char with (s := []).
  - destruct skip as [|k].
    + rewrite attempt_later by (now apply later_char with (s := d :: t)).
      cbn [app pred]. apply IH. now apply start_only_tail in H.
    + apply IH. now apply start_only_tail in H.
Qed.

Lemma within_nil (budget : option nat) : within budget [] = [].
Proof. destruct budget as [b|]; [apply firstn_nil | reflexivity]. Qed.

Lemma sub_scan_later (repl : match_obj -> str) :
  forall s i c budget,
    start_only fl (c :: s) ->
    sub_scan fl (Seq Bol r) repl budget i (Some c) s 0 = s.
Proof.
  induction s as [|d t IH]; intros i c budget H; cbn [sub_scan].
  - destruct (exhausted budget); [reflexivity|].
    rewrite attempt_later by (now apply later_char with (s := [])).
    cbn [fst]. now rewrite within_nil.
  - destruct (exhausted budget); [reflexivity|].
    rewrite attempt_later by (now apply later_char with (s := d :: t)).
    rewrite within_nil. cbn [flat_map length Nat.eqb app pred]. f_equal.
    apply IH. now apply start_only_tail in H.
Qed.

Lemma sub_scan_skip_all (p : regex) (repl : match_obj -> str) :
  forall s i pv, sub_scan fl p repl (Some 0) i pv s (length s) = [].
Proof.
  induction s as [|c t IH]; intros i pv; cbn [sub_scan length]; [reflexivity|].
  apply IH.
Qed.

(** The matches of an anchored pattern are those found at the start. *)
Lemma finditer_start (text : str) :
  start_only fl text ->
  finditer fl (Seq Bol r) text = fst (attempt fl (Seq Bol r) 0 None text).
Proof.
  intros H. unfold finditer. destruct text as [|c t]; [reflexivity|]. cbn [scan].
  destruct (attempt fl (Seq Bol r) 0 None (c :: t)) as [ms jump]. cbn [fst].
  rewrite scan_later by assumption. apply app_nil_r.
Qed.

(** An anchored pattern that must pass a character matches once at
    most, at offset 0. *)
Lemma finditer_once (text : str) :
  start_only fl text -> consumes r = true ->
  length (finditer fl (Seq Bol r) text) <= 1
  /\ Forall (fun mt => m_start mt = 0 /\ 0 < m_end mt) (finditer fl (Seq Bol r) text).
Proof.
  intros H Hc. rewrite finditer_start by assumption.
  assert (Hc' : consumes (Seq Bol r) = true) by exact Hc.
  destruct (attempt_consuming fl (Seq Bol r) 0 None text Hc') as [Ha Hall].
  split; [|exact Hall]. rewrite Ha.
  destruct (m fl (Seq Bol r) _ Some); cbn; lia.
Qed.

(** On a text of one line, a pattern that is anchored at both ends
    matches all of the text or nothing: removing its first match leaves
    the text as it is or removes it whole. *)
Lemma sub_once_anchored (text : str) :
  one_line text -> ends_at_eol r = true ->
  sub_count fl (Seq Bol r) (fun _ => []) 1 text
  = if is_nil (finditer fl (Seq Bol r) text) then text else [].
Proof.
  intros Hone He.
  assert (Hso : start_only fl text) by now right.
  rewrite finditer_start by assumption.
  unfold sub_count. destruct text as [|c t].
  - cbn [sub_scan exhausted]. rewrite flat_map_empty.
    now destruct (is_nil (fst (attempt fl (Seq Bol r) 0 None []))).
  - cbn [sub_scan exhausted]. unfold attempt.
    destruct (m fl (Seq Bol r) {| pos := 0; prev := None; rest := c :: t; caps := [] |} Some)
      as [st1|] eqn:E.
    + apply m_sound in E. destruct E as (st' & [= ->] & Hst & Hr).
      pose proof (steps_between _ _ _ _ Hst) as (w & Hw).
      assert (He' : ends_at_eol (Seq Bol r) = true) by exact He.
      pose proof (steps_ends_eol fl _ He' _ _ Hst) as Heol.
      unfold between, place_eol in *. unfold reached in Hr.
      cbn [place_of snd fst pos rest] in *.
      assert (Hrest : rest st1 = []).
      { destruct (rest st1) as [|d u]; [reflexivity|]. exfalso.
        apply andb_true_iff in Heol. destruct Heol as [Hd _].
        apply N.eqb_eq in Hd. subst d. apply Hone. rewrite Hw.
        apply in_or_app. right. now left. }
      rewrite Hrest in Hr. cbn [length] in Hr.
      assert (Hpos : pos st1 = S (length t)) by lia.
      rewrite Hpos. cbn [Nat.eqb fst is_nil within firstn length flat_map app Nat.sub pred].
      cbn [Nat.eqb]. cbn [pred]. apply sub_scan_skip_all.
    + cbn [fst is_nil within firstn length flat_map Nat.eqb app pred]. f_equal.
      apply sub_scan_later. assumption.
Qed.

End Start.

End Anchored.

(** ** Texts of one line *)

Module OneLine.
Import Py Re Spec.

Unset Implicit Arguments.

Lemma one_line_tail (c : char) (t : str) : one_line (c :: t) -> one_line t.
Proof. unfold one_line. intros H Hin. apply H. now right. Qed.

Lemma one_line_head (c : char) (t : str) : one_line (c :: t) -> (c =? newline)%N = false.
Proof.
  unfold one_line. intros H. apply N.eqb_neq. intros ->. apply H. now left.
Qed.

Lemma advance_one_line (c : char) (t : str) (st : state) :
  one_line (c :: t) -> one_line_state (advance c t st).
Proof.
  intros H. split; cbn [advance prev rest].
  - intros [= ->]. apply H. now left.
  - now apply one_line_tail in H.
Qed.

Section Flags.

Variables fl1 fl2 : flags.

Lemma star_loop_flags (g : bool)
  (step1 step2 : state -> (state -> option state) -> option state) :
  (forall st k1 k2,
      one_line_state st ->
      (forall st', one_line_state st' -> k1 st' = k2 st') ->
      step1 st k1 = step2 st k2) ->
  forall n st k1 k2,
    one_line_state st ->
    (forall st', one_line_state st' -> k1 st' = k2 st') ->
    star_loop step1 g k1 n st = star_loop step2 g k2 n st.
Proof.
  intros Hstep. induction n as [|n IH]; intros st k1 k2 Hst Hk; cbn [star_loop].
  - now apply Hk.
  - rewrite (Hk st Hst).
    rewrite (Hstep st
               (fun st1 => if pos st <? pos st1 then star_loop step1 g k1 n st1 else None)
               (fun st1 => if pos st <? pos st1 then star_loop step2 g k2 n st1 else None)
               Hst).
    + reflexivity.
    + intros st' Hst'. destruct (pos st <? pos st'); [|reflexivity]. now apply IH.
Qed.

(** Within a text of one line the flags MULTILINE and DOTALL change
    nothing. *)
Lemma m_flags (r : regex) :
  forall st k1 k2,
    one_line_state st ->
    (forall st', one_line_state st' -> k1 st' = k2 st') ->
    m fl1 r st k1 = m fl2 r st k2.
Proof.
  induction r as [ | f | | r1 IH1 r2 IH2 | r1 IH1 r2 IH2 | g r1 IH1
                 | n r1 IH1 | | | | r1 IH1 ]; intros st k1 k2 Hst Hk; cbn [m].
  - now apply Hk.
  - destruct Hst as [Hp Hr]. destruct (rest st) as [|c t] eqn:E; [reflexivity|].
    destruct (f c); [|reflexivity]. apply Hk. now apply advance_one_line.
  - destruct Hst as [Hp Hr]. destruct (rest st) as [|c t] eqn:E; [reflexivity|].
    unfold dot_ok. rewrite (one_line_head c t Hr). cbn [negb]. rewrite !orb_true_r.
    apply Hk. now apply advance_one_line.
  - apply IH1; [assumption|]. intros st' Hst'. now apply IH2.
  - now rewrite (IH1 st k1 k2 Hst Hk), (IH2 st k1 k2 Hst Hk).
  - apply star_loop_flags; assumption.
  - apply IH1; [assumption|]. intros st' Hst'. apply Hk. exact Hst'.
  - assert (Hb : at_bol fl1 st = at_bol fl2 st).
    { unfold at_bol. destruct Hst as [Hp _]. destruct (prev st) as [c|]; [|reflexivity].
      replace (c =? newline)%N with false; [now rewrite !andb_false_r|].
      symmetry. apply N.eqb_neq. congruence. }
    rewrite Hb. destruct (at_bol fl2 st); [now apply Hk | reflexivity].
  - assert (Hb : at_eol fl1 st = at_eol fl2 st).
    { unfold at_eol. destruct Hst as [_ Hr]. destruct (rest st) as [|c t]; [reflexivity|].
      now rewrite (one_line_head c t Hr). }
    rewrite Hb. destruct (at_eol fl2 st); [now apply Hk | reflexivity].
  - destruct (is_nil (rest st)); [now apply Hk | reflexivity].
  - rewrite (IH1 st Some Some Hst (fun _ _ => eq_refl)).
    destruct (m fl2 r1 st Some); [|reflexivity]. apply Hk. exact Hst.
Qed.

Lemma attempt_flags (r : regex) (i : nat) (pv : option char) (s : str) :
  pv <> Some newline -> one_line s ->
  attempt fl1 r i pv s = attempt fl2 r i pv s.
Proof.
  intros Hp Hs. unfold attempt.
  assert (Hst : one_line_state {| pos := i; prev := pv; rest := s; caps := [] |})
    by (split; assumption).
  rewrite (m_flags r _ Some Some Hst (fun _ _ => eq_refl)).
  rewrite (m_flags r _ (fun st' => if pos st' =? i then None else Some st')
             (fun st' => if pos st' =? i then None else Some st') Hst
             (fun _ _ => eq_refl)).
  reflexivity.
Qed.

Lemma scan_flags (r : regex) :
  forall s i pv skip,
    pv <> Some newline -> one_line s ->
    scan fl1 r i pv s skip = scan fl2 r i pv s skip.
Proof.
  induction s as [|c t IH]; intros i pv skip Hp Hs; cbn [scan].
  - destruct skip; [|reflexivity]. now rewrite attempt_flags.
  - assert (Hc : Some c <> Some newline).
    { intros [= ->]. apply Hs. now left. }
    pose proof (one_line_tail c t Hs) as Ht.
    destruct skip as [|k]; [|now apply IH].
    rewrite attempt_flags by assumption.
    destruct (attempt fl2 r i pv (c :: t)) as [ms jump]. f_equal. now apply IH.
Qed.

Lemma finditer_flags (r : regex) (text : str) :
  one_line text -> finditer fl1 r text = finditer fl2 r text.
Proof. intros H. apply scan_flags; [discriminate | assumption]. Qed.

End Flags.

End OneLine.

(** ** What [parse_article] finds in a cleaned text *)

Module ArticleFacts.
Import Py Re Spec Parser Anchored OneLine.

Unset Implicit Arguments.

Lemma found_in_nil (fl : flags) (r : regex) (text : str) :
  found_in fl r text = negb (is_nil (finditer fl r text)).
Proof. unfold found_in, search. now destruct (finditer fl r text). Qed.

Lemma one_line_nil : one_line [].
Proof. intros []. Qed.

Lemma strip_nil : strip [] = [].
Proof. reflexivity. Qed.

(** Removing the first article header from a text of one line. *)
Lemma remove_article_header (text : str) :
  one_line text ->
  sub_count no_flags Patterns.article_pattern (fun _ => []) 1 text
  = if found_in no_flags Patterns.article_pattern text then [] else text.
Proof.
  intros H. rewrite found_in_nil. unfold Patterns.article_pattern.
  rewrite sub_once_anchored by (assumption || reflexivity).
  now destruct (is_nil _).
Qed.

Lemma remove_single_header (text : str) :
  one_line text ->
  sub_count no_flags Patterns.single_article_pattern (fun _ => []) 1 text
  = if found_in no_flags Patterns.single_article_pattern text then [] else text.
Proof.
  intros H. rewrite found_in_nil. unfold Patterns.single_article_pattern.
  rewrite sub_once_anchored by (assumption || reflexivity).
  now destruct (is_nil _).
Qed.

Lemma remove_note_header (text : str) :
  one_line text ->
  sub_count no_flags Patterns.note_pattern (fun _ => []) 1 text
  = if is_nil (finditer multiline Patterns.note_pattern text) then text else [].
Proof.
  intros H. rewrite (finditer_flags multiline no_flags _ _ H).
  unfold Patterns.note_pattern.
  now rewrite sub_once_anchored by (assumption || reflexivity).
Qed.

Lemma extract_subsections_nil : extract_subsections [] = [].
Proof. vm_compute. reflexivity. Qed.

Lemma extract_notes_nil : extract_notes [] = [].
Proof. vm_compute. reflexivity. Qed.

Lemma flat_map_short {A B : Type} (f : A -> list B) (l : list A) :
  (forall x, length (f x) <= 1) -> length (flat_map f l) <= length l.
Proof.
  intros H. induction l as [|x t IH]; cbn [flat_map length]; [lia|].
  rewrite length_app. specialize (H x). lia.
Qed.

Lemma insert_by_length {A : Type} (key : A -> Z) (x : A) (l : list A) :
  length (insert_by key x l) = S (length l).
Proof.
  induction l as [|y t IH]; cbn [insert_by length]; [reflexivity|].
  destruct (key y <=? key x)%Z; cbn [length]; [now rewrite IH | reflexivity].
Qed.

Lemma sorted_by_length {A : Type} (key : A -> Z) (l : list A) :
  length (sorted_by key l) = length l.
Proof.
  unfold sorted_by.
  assert (H : forall acc,
            length (fold_left (fun acc x => insert_by key x acc) l acc)
            = length l + length acc).
  { induction l as [|x t IH]; intros acc; cbn [fold_left length]; [reflexivity|].
    rewrite IH, insert_by_length. lia. }
  rewrite H. cbn [length]. lia.
Qed.

(** The subsections of one pattern: one for a match at most, each with
    a content that is stripped and not empty. *)
Lemma subsections_of_spec (text : str) (pattern : regex) (kind : subsection_kind) :
  length (subsections_of text pattern kind)
  <= length (finditer multiline_dotall pattern text)
  /\ Forall (fun x => subsection_content x <> []
                      /\ strip (subsection_content x) = subsection_content x)
       (subsections_of text pattern kind).
Proof.
  unfold subsections_of. split.
  - apply flat_map_short. intros mt. destruct (truthy _); cbn; lia.
  - rewrite Forall_forall. intros x Hin. apply in_flat_map in Hin.
    destruct Hin as (mt & _ & Hx).
    destruct (truthy _) eqn:E; [|contradiction].
    destruct Hx as [<-|[]]. cbn [subsection_content]. split.
    + intros H. rewrite H in E. discriminate.
    + destruct kind; apply ValidatorFacts.strip_idem.
Qed.

Lemma subsections_once (text : str) (label : regex) (kind : subsection_kind) :
  one_line text -> consumes label = true ->
  length (subsections_of text (Patterns.labelled label) kind) <= 1.
Proof.
  intros H Hc. etransitivity; [apply subsections_of_spec|].
  unfold Patterns.labelled. apply finditer_once; [now right|].
  cbn [consumes Plus]. now rewrite Hc.
Qed.

Lemma extract_subsections_spec (text : str) :
  Forall (fun x => subsection_content x <> []
                   /\ strip (subsection_content x) = subsection_content x)
    (extract_subsections text)
  /\ (one_line text -> length (extract_subsections text) <= 3).
Proof.
  unfold extract_subsections. split.
  - apply Boundaries.sorted_by_spec. repeat (apply Forall_app; split);
      apply subsections_of_spec.
  - intros H. rewrite sorted_by_length, !length_app.
    pose proof (subsections_once text Patterns.persian_digit numbered H eq_refl) as H1.
    pose proof (subsections_once text Patterns.letter lettered H eq_refl) as H2.
    assert (H3 : length (subsections_of text Patterns.dash_pattern dash) <= 1).
    { etransitivity; [apply subsections_of_spec|].
      unfold Patterns.dash_pattern. apply finditer_once; [now right | reflexivity]. }
    unfold Patterns.numbered_pattern, Patterns.lettered_pattern. 
    change Parser.dash with dash in H3. lia.
Qed.

(** In a stripped text of one line a note is found at the start only,
    and removing its header removes all of it. *)
Lemma extract_notes_one_line (text : str) :
  one_line text -> strip text = text ->
  length (extract_notes text) <= 1
  /\ Forall (fun n => note_content n = [] /\ note_subsections n = [])
       (extract_notes text).
Proof.
  intros H Hs. unfold extract_notes.
  pose proof (remove_note_header text H) as Hsub.
  assert (Hso : start_only multiline text) by now right.
  assert (Honce : length (finditer multiline Patterns.note_pattern text) <= 1
                  /\ Forall (fun mt => m_start mt = 0 /\ 0 < m_end mt)
                       (finditer multiline Patterns.note_pattern text)).
  { unfold Patterns.note_pattern. apply finditer_once; [assumption | reflexivity]. }
  destruct Honce as [Hlen Hstart].
  destruct (finditer multiline Patterns.note_pattern text) as [|mt [|mt' l]];
    cbn [length] in Hlen; [| |lia].
  - cbn [notes_from length]. split; [lia | constructor].
  - cbn [notes_from length]. split; [lia|]. constructor; [|constructor].
    inversion Hstart as [|? ? [H0 _] _]; subst. rewrite H0.
    cbn [note_content note_subsections]. unfold substr.
    rewrite Nat.sub_0_r. cbn [skipn]. rewrite firstn_all, Hs.
    rewrite Hsub. cbn [is_nil].
    rewrite strip_nil. split; [reflexivity | apply extract_subsections_nil].
Qed.

Section Unicode.

Variable nfkc : str -> str.

Lemma clean_text_one_line (text : str) : one_line (TextUtils.clean_text nfkc text).
Proof. apply CleanFacts.only_spaces_no_newline, CleanFacts.clean_text_only_spaces. Qed.

Lemma article_interior_cases (text : str) :
  article_interior nfkc text
  = if headed (TextUtils.clean_text nfkc text) then []
    else TextUtils.clean_text nfkc text.
Proof.
  unfold article_interior, headed. cbv zeta.
  pose proof (clean_text_one_line text) as H.
  rewrite (remove_article_header _ H).
  destruct (found_in no_flags Patterns.article_pattern (TextUtils.clean_text nfkc text)).
  - rewrite (remove_single_header _ one_line_nil). cbn [orb].
    now destruct (found_in no_flags Patterns.single_article_pattern []).
  - rewrite (remove_single_header _ H). cbn [orb].
    destruct (found_in no_flags Patterns.single_article_pattern _); [reflexivity|].
    apply CleanFacts.clean_text_stripped.
Qed.

Lemma article_interior_one_line (text : str) :
  one_line (article_interior nfkc text)
  /\ strip (article_interior nfkc text) = article_interior nfkc text.
Proof.
  rewrite article_interior_cases. destruct (headed _).
  - split; [apply one_line_nil | reflexivity].
  - split; [apply clean_text_one_line | apply CleanFacts.clean_text_stripped].
Qed.

Lemma main_content_spaced (content_text : str) (subsections : list LegalSubsection)
  (notes : list LegalNote) :
  let c := main_content_of content_text subsections notes in
  only_spaces c /\ single_spaced c /\ strip c = c.
Proof.
  unfold main_content_of. cbv zeta. rewrite CleanFacts.collapse_spaces_collapse.
  split; [|split].
  - apply CleanFacts.strip_Forall, CleanFacts.collapse_only_spaces.
  - apply CleanFacts.strip_single_spaced, CleanFacts.collapse_single_spaced.
  - apply ValidatorFacts.strip_idem.
Qed.

End Unicode.

End ArticleFacts.

(** X15.  [parse_article] removes the article header all or nothing.
    The cleaned text is one line and the header patterns are anchored
    at both ends, so when the article pattern or the single-article
    pattern is found in the cleaned text, it matches all of it: the
    text left is empty, and the article is built with empty content, no
    subsection and no note.  When neither is found the text left is the
    cleaned text itself. *)
Theorem X15_article_header_removal_is_all_or_nothing
  (nfkc : Py.str -> Py.str) (article_text num title : Py.str) :
  let cleaned := TextUtils.clean_text nfkc article_text in
  Parser.article_interior nfkc article_text
  = (if Spec.headed cleaned then [] else cleaned)
  /\ (Spec.headed cleaned = true ->
      Parser.parse_article nfkc article_text num title
      = Parser.new_LegalArticle num title [] [] []).
Proof.
  intros cleaned. split; [apply ArticleFacts.article_interior_cases|].
  intros H. unfold Parser.parse_article. cbv zeta.
  rewrite ArticleFacts.article_interior_cases. fold cleaned. rewrite H.
  rewrite ArticleFacts.extract_subsections_nil, ArticleFacts.extract_notes_nil.
  reflexivity.
Qed.

(** X16.  As [parse_article] searches a cleaned text, which is one
    line, the patterns anchored at a line start can match at its start
    only.  The article it returns has at most one note, and a note it
    has is empty: its content is the empty text and it has no
    subsection.  It has at most three subsections, each with a content
    that is stripped and not empty.  The content of the article has no
    whitespace but single plain spaces, none of them at its ends, and
    the word count is the number of its words. *)
Theorem X16_parsed_article_has_one_empty_note_at_most
  (nfkc : Py.str -> Py.str) (article_text num title : Py.str) :
  let article := Parser.parse_article nfkc article_text num title in
  length (Parser.article_notes article) <= 1
  /\ Forall (fun n => Parser.note_content n = [] /\ Parser.note_subsections n = [])
       (Parser.article_notes article)
  /\ length (Parser.article_subsections article) <= 3
  /\ Forall (fun x => Parser.subsection_content x <> []
                      /\ Py.strip (Parser.subsection_content x)
                         = Parser.subsection_content x)
       (Parser.article_subsections article)
  /\ Spec.only_spaces (Parser.article_content article)
  /\ Spec.single_spaced (Parser.article_content article)
  /\ Py.strip (Parser.article_content article) = Parser.article_content article
  /\ Parser.article_word_count article
     = Py.len (Py.split (Parser.article_content article)).
Proof.
  intros article. subst article. unfold Parser.parse_article. cbv zeta.
  cbn [Parser.new_LegalArticle Parser.article_notes Parser.article_subsections
       Parser.article_content Parser.article_word_count].
  destruct (ArticleFacts.article_interior_one_line nfkc article_text) as [Hone Hs].
  destruct (ArticleFacts.extract_notes_one_line _ Hone Hs) as [Hn1 Hn2].
  destruct (ArticleFacts.extract_subsections_spec
              (Parser.article_interior nfkc article_text)) as [Hs1 Hs2].
  destruct (ArticleFacts.main_content_spaced
              (Parser.article_interior nfkc article_text)
              (Parser.extract_subsections (Parser.article_interior nfkc article_text))
              (Parser.extract_notes (Parser.article_interior nfkc article_text)))
    as (Hc1 & Hc2 & Hc3).
  split; [exact Hn1|]. split; [exact Hn2|]. split; [now apply Hs2|].
  split; [exact Hs1|]. split; [exact Hc1|]. split; [exact Hc2|]. split; [exact Hc3|].
  destruct (Parser.main_content_of _ _ _); reflexivity.
Qed.

(** ** Footnotes *)

Module FootnoteFacts.
Import Py Re Spec Parser ReSound ScanFacts Anchored.

Unset Implicit Arguments.

Section Unicode.

Variable nfkc : str -> str.
Variable isdecimal : char -> bool.

Lemma footnote_matches_once (text : str) :
  length (finditer {| MULTILINE := false; DOTALL := true |} (footnote_re isdecimal) text)
  <= 1.
Proof.
  unfold footnote_re. apply finditer_once; [now left | reflexivity].
Qed.

(** A footnote is found only in a text that starts with a parenthesis. *)
Lemma footnote_matches_start (text : str) :
  finditer {| MULTILINE := false; DOTALL := true |} (footnote_re isdecimal) text <> [] ->
  hd_error text = Some 0x28%N.
Proof.
  unfold footnote_re. rewrite finditer_start by now left.
  unfold attempt.
  match goal with
  | |- context [m ?fl ?p ?st Some] => destruct (m fl p st Some) as [st1|] eqn:E
  end; [intros _ | intros H; now contradiction H].
  apply m_sound in E. destruct E as (st' & _ & Hst & _).
  apply steps_seq_inv in Hst. destruct Hst as (q & Hb & Hst).
  inversion Hb; subst. clear Hb.
  apply steps_seq_inv in Hst. destruct Hst as (q1 & Hm & _).
  apply steps_seq_inv in Hm. destruct Hm as (q2 & Hc & _).
  apply steps_chr_inv in Hc. destruct Hc as (c & Hc & Hp & _).
  cbn [place_of snd rest] in Hp. rewrite Hp. apply N.eqb_eq in Hc. now subst c.
Qed.

Lemma filter_length_le {A : Type} (f : A -> bool) (l : list A) :
  length (filter f l) <= length l.
Proof.
  induction l as [|x t IH]; cbn [filter length]; [lia|].
  destruct (f x); cbn [length]; lia.
Qed.

Lemma extract_footnotes_spec (text : str) :
  length (extract_footnotes isdecimal text) <= 1
  /\ Forall (fun footnote => footnote <> [] /\ strip footnote = footnote)
       (extract_footnotes isdecimal text)
  /\ (hd_error text <> Some 0x28%N -> extract_footnotes isdecimal text = []).
Proof.
  unfold extract_footnotes. split; [|split].
  - etransitivity; [apply filter_length_le|]. rewrite length_map.
    apply footnote_matches_once.
  - rewrite Forall_forall. intros x Hin. apply filter_In in Hin.
    destruct Hin as [Hin Ht]. apply in_map_iff in Hin. destruct Hin as (mt & <- & _).
    split; [|apply ValidatorFacts.strip_idem].
    intros H. rewrite H in Ht. discriminate.
  - intros H.
    destruct (finditer {| MULTILINE := false; DOTALL := true |}
                (footnote_re isdecimal) text) as [|mt l] eqn:E;
      [reflexivity|].
    exfalso. apply H. apply footnote_matches_start. rewrite E. discriminate.
Qed.

End Unicode.

End FootnoteFacts.

(** X17.  [extract_footnotes] returns one footnote at most, whatever
    the number of markers in the text: its pattern is anchored at the
    start of the text and is searched without MULTILINE.  It returns
    none for a text that does not begin with an opening parenthesis.  A
    footnote returned is stripped and not empty.  So a document built by
    [parse_document_from_dict] has one footnote at most. *)
Theorem X17_at_most_one_footnote_is_extracted
  (nfkc : Py.str -> Py.str) (isdecimal : Py.char -> bool) (text : Py.str) :
  length (Parser.extract_footnotes isdecimal text) <= 1
  /\ Forall (fun footnote => footnote <> [] /\ Py.strip footnote = footnote)
       (Parser.extract_footnotes isdecimal text)
  /\ (hd_error text <> Some 0x28%N -> Parser.extract_footnotes isdecimal text = [])
  /\ (forall d doc,
        Parser.parse_document_from_dict nfkc isdecimal d = Exn.Ok doc ->
        length (Parser.footnotes doc) <= 1).
Proof.
  destruct (FootnoteFacts.extract_footnotes_spec isdecimal text) as (H1 & H2 & H3).
  split; [exact H1|]. split; [exact H2|]. split; [exact H3|].
  intros d doc. unfold Parser.parse_document_from_dict.
  destruct (Py.is_nil (Parser.raw_content d)); [discriminate|].
  intros [= <-]. cbn [Parser.footnotes].
  apply (FootnoteFacts.extract_footnotes_spec isdecimal (Parser.raw_content d)).
Qed.

(** ** The titles of the laws *)

Module TitleFacts.
Import Py Re Spec Splitter.

Unset Implicit Arguments.

Lemma lines_of_one_line (n : nat) (c : str) :
  one_line c -> firstn (S n) (split_on newline c) = [c].
Proof.
  intros H. rewrite CleanFacts.split_on_absent by exact H. cbn [firstn].
  now rewrite firstn_nil.
Qed.

Section Unicode.

Variable nfkc : str -> str.
Variable isword : char -> bool.

(** The first five lines of a cleaned text are the text itself. *)
Lemma extract_law_title_line (law_text : str) :
  extract_law_title nfkc law_text = title_of_line (TextUtils.clean_text nfkc law_text).
Proof.
  unfold extract_law_title, title_of_line. cbv zeta.
  pose proof (ArticleFacts.clean_text_one_line nfkc law_text) as H.
  rewrite (lines_of_one_line 4 _ H). cbn [join map filter].
  rewrite CleanFacts.clean_text_stripped.
  destruct (search no_flags Patterns.law_title_pattern _); [reflexivity|].
  unfold names_law. now destruct (existsb _ _).
Qed.

Lemma process_individual_law_title (law_text : str) (law_index : N) :
  let cleaned := TextUtils.clean_text nfkc law_text in
  process_individual_law nfkc isword law_text law_index
  = if (len cleaned <? min_law_length)%Z then None
    else
      let title1 :=
        match title_of_line (TextUtils.clean_text nfkc cleaned) with
        | Some t => t
        | None => []
        end in
      let title2 :=
        if truthy title1 then title1 else firstn 100 cleaned ++ ellipsis in
      Some {| id := law_prefix ++ zero_pad3 (law_index + 1);
              title := title2;
              raw_content := cleaned;
              word_count := len (Py.split cleaned);
              quality_score := calculate_quality_score isword cleaned title2 |}.
Proof.
  intros cleaned. unfold process_individual_law. cbv zeta. fold cleaned.
  destruct (len cleaned <? min_law_length)%Z eqn:E; [reflexivity|].
  rewrite extract_law_title_line.
  pose proof (ArticleFacts.clean_text_one_line nfkc law_text) as H. fold cleaned in H.
  assert (Hs : strip cleaned = cleaned) by apply CleanFacts.clean_text_stripped.
  rewrite (lines_of_one_line 2 _ H). cbn [filter]. rewrite !Hs.
  apply Z.ltb_ge in E. unfold min_law_length in E.
  assert (Ht : truthy cleaned = true).
  { destruct cleaned; [cbn in E; lia | reflexivity]. }
  rewrite Ht. replace (10 <? len cleaned)%Z with true by (symmetry; apply Z.ltb_lt; lia).
  cbn [andb]. rewrite !Hs. reflexivity.
Qed.

End Unicode.

End TitleFacts.

(** X18.  A cleaned text is one line, so the first lines in which
    [extract_law_title_and_date] and [process_individual_law] look for
    a title are the whole text of the law.  The title found is the
    first group of the title pattern, or else the whole cleaned text
    when it names a kind of law.  The title of a processed law is that
    title, taken from the text cleaned twice, or else the first hundred
    characters of the cleaned text followed by three dots: it is never
    empty, and the numbered default title is never used. *)
Theorem X18_law_title_is_taken_from_the_whole_text
  (nfkc : Py.str -> Py.str) (isword : Py.char -> bool)
  (law_text : Py.str) (law_index : N) :
  let cleaned := TextUtils.clean_text nfkc law_text in
  let again := TextUtils.clean_text nfkc cleaned in
  Splitter.extract_law_title nfkc law_text = Spec.title_of_line cleaned
  /\ (Re.search Re.no_flags Patterns.law_title_pattern cleaned = None ->
      Splitter.extract_law_title nfkc law_text
      = if Spec.names_law cleaned then Some cleaned else None)
  /\ (forall m,
        Splitter.process_individual_law nfkc isword law_text law_index = Some m ->
        (Splitter.min_law_length <= Py.len cleaned)%Z
        /\ Splitter.title m <> []
        /\ Splitter.title m
           = match Spec.title_of_line again with
             | Some (c :: t) => c :: t
             | _ => firstn 100 cleaned ++ Splitter.ellipsis
             end).
Proof.
  intros cleaned again.
  pose proof (TitleFacts.extract_law_title_line nfkc law_text) as Ht. fold cleaned in Ht.
  split; [exact Ht|]. split.
  - intros Hnone. rewrite Ht. unfold Spec.title_of_line. now rewrite Hnone.
  - intros m. rewrite TitleFacts.process_individual_law_title. cbv zeta.
    fold cleaned again.
    destruct (Py.len cleaned <? Splitter.min_law_length)%Z eqn:E; [discriminate|].
    intros Hm. injection Hm as <-. cbn [Splitter.title]. apply Z.ltb_ge in E.
    split; [exact E|].
    assert (Hdots : firstn 100 cleaned ++ Splitter.ellipsis <> []).
    { intros Habs. apply app_eq_nil in Habs. destruct Habs as [_ Habs]. discriminate. }
    destruct (Spec.title_of_line again) as [[|c t]|]; cbn [Py.truthy Py.is_nil negb].
    + split; [exact Hdots | reflexivity].
    + split; [discriminate | reflexivity].
    + split; [exact Hdots | reflexivity].
Qed.

(** ** Persian numbers *)

Module NumberFacts.
Import Py Re Spec TextUtils ScanFacts.

Unset Implicit Arguments.

Lemma sep_not_digit (c : char) : is_number_sep c = true -> is_persian_digit c = false.
Proof.
  unfold is_number_sep, one_of. cbn [existsb]. rewrite orb_false_r.
  intros H. apply orb_true_iff in H.
  destruct H as [H|H]; apply N.eqb_eq in H; subst c; reflexivity.
Qed.

Lemma number_tail_digits (w r : str) :
  Forall (fun c => is_persian_digit c = true) w -> number_tail (w ++ r) = number_tail r.
Proof.
  induction 1 as [|c t Hc Ht IH]; [reflexivity|].
  cbn [app number_tail]. now rewrite Hc.
Qed.

(** The groups that follow the first digits. *)
Lemma steps_groups (fl : flags) (g g' : bool) (p q : place) :
  steps fl (Star g (Seq (Chr is_number_sep) (Plus g' (Chr is_persian_digit)))) p q ->
  exists w,
    snd p = w ++ snd q
    /\ forall r, number_tail r = true -> number_tail (w ++ r) = true.
Proof.
  intros H.
  remember (Star g (Seq (Chr is_number_sep) (Plus g' (Chr is_persian_digit)))) as re
    eqn:Er.
  induction H; try discriminate.
  - exists []. split; [reflexivity | auto].
  - injection Er as -> ->. destruct (IHsteps2 eq_refl) as (w2 & Hw2 & Htail).
    apply steps_seq_inv in H. destruct H as (q0 & Hsep & Hdig).
    apply steps_chr_inv in Hsep. destruct Hsep as (c & Hc & Hp & _).
    apply steps_plus_class in Hdig. destruct Hdig as (d & ds & Hq0 & Hall).
    exists (c :: (d :: ds) ++ w2). split.
    + rewrite Hp, Hq0, Hw2. cbn [app]. now rewrite <- app_assoc.
    + intros r Hr. inversion Hall as [|? ? Hd Hds]; subst.
      cbn [app number_tail]. rewrite (sep_not_digit c Hc), Hc, Hd. cbn [andb].
      rewrite <- app_assoc, number_tail_digits by assumption. now apply Htail.
Qed.

Lemma number_matched (fl : flags) (p q : place) :
  steps fl persian_number_re p q ->
  exists w, snd p = w ++ snd q /\ persian_number w = true.
Proof.
  unfold persian_number_re. intros H.
  apply steps_seq_inv in H. destruct H as (q1 & Hd & Hg).
  apply steps_plus_class in Hd. destruct Hd as (c & w1 & Hp & Hall).
  apply steps_groups in Hg. destruct Hg as (w2 & Hq1 & Htail).
  exists ((c :: w1) ++ w2). split.
  - now rewrite Hp, Hq1, app_assoc.
  - inversion Hall as [|? ? Hc Hw1]; subst. cbn [app persian_number]. rewrite Hc.
    cbn [andb]. rewrite number_tail_digits by assumption.
    rewrite <- (app_nil_r w2). now apply Htail.
Qed.

End NumberFacts.

(** X19.  Every text returned by [extract_persian_numbers] is a piece
    of the subject made of groups of Persian digits with one dot or one
    slash between two groups: it starts and ends with a digit, holds no
    other character and no two separators in a row.  A text without a
    Persian digit gives the empty list. *)
Theorem X19_persian_numbers_are_digit_groups (text : Py.str) :
  Forall (fun w => Spec.persian_number w = true
                   /\ exists before after, text = before ++ w ++ after)
    (TextUtils.extract_persian_numbers text)
  /\ (Forall (fun c => TextUtils.is_persian_digit c = false) text ->
      TextUtils.extract_persian_numbers text = []).
Proof.
  assert (H : Forall (fun w => Spec.persian_number w = true
                               /\ exists before after, text = before ++ w ++ after)
                (TextUtils.extract_persian_numbers text)).
  { unfold TextUtils.extract_persian_numbers.
    eapply Forall_impl; [|apply ScanFacts.findall_matched].
    intros w (before & after & pv' & Ht & Hst).
    apply NumberFacts.number_matched in Hst. destruct Hst as (w' & Hw & Hnum).
    cbn [snd] in Hw. apply app_inv_tail in Hw. subst w'. eauto. }
  split; [exact H|]. intros Hno.
  destruct (TextUtils.extract_persian_numbers text) as [|w l]; [reflexivity|].
  exfalso. inversion H as [|? ? [Hnum (before & after & Ht)] _]; subst.
  destruct w as [|c t]; [discriminate|]. cbn [Spec.persian_number] in Hnum.
  apply andb_true_iff in Hnum. destruct Hnum as [Hc _].
  rewrite Forall_forall in Hno. rewrite (Hno c) in Hc; [discriminate|].
  apply in_or_app. right. now left.
Qed.

(** ** Keywords *)

Module KeywordFacts.
Import Py Spec TextUtils.

Unset Implicit Arguments.

Lemma str_eqb_refl (a : str) : str_eqb a a = true.
Proof. now apply LawFacts.str_eqb_eq. Qed.

Lemma str_eqb_sym (a b : str) : str_eqb a b = str_eqb b a.
Proof.
  destruct (str_eqb a b) eqn:E1, (str_eqb b a) eqn:E2; try reflexivity.
  - apply LawFacts.str_eqb_eq in E1. subst. rewrite str_eqb_refl in E2. discriminate.
  - apply LawFacts.str_eqb_eq in E2. subst. rewrite str_eqb_refl in E1. discriminate.
Qed.

Lemma str_eqb_neq (a b : str) : str_eqb a b = false <-> a <> b.
Proof.
  split.
  - intros H ->. rewrite str_eqb_refl in H. discriminate.
  - intros H. destruct (str_eqb a b) eqn:E; [|reflexivity].
    apply LawFacts.str_eqb_eq in E. contradiction.
Qed.

(** *** The dictionary *)

Lemma score_of_none (word : str) (l : list (str * Z)) :
  score_of word l = None <-> ~ In word (map fst l).
Proof.
  induction l as [|[w n] t IH]; cbn [score_of map fst In]; [tauto|].
  destruct (str_eqb w word) eqn:E.
  - apply LawFacts.str_eqb_eq in E. subst. split; [discriminate | tauto].
  - apply str_eqb_neq in E. tauto.
Qed.

Lemma score_of_in (word : str) (n : Z) (l : list (str * Z)) :
  NoDup (map fst l) -> In (word, n) l -> score_of word l = Some n.
Proof.
  induction l as [|[w k] t IH]; intros Hnd Hin; [contradiction|].
  cbn [map fst] in Hnd. inversion Hnd as [|? ? Hw Ht]; subst.
  cbn [score_of]. destruct Hin as [[= -> ->]|Hin].
  - now rewrite str_eqb_refl.
  - destruct (str_eqb w word) eqn:E; [|now apply IH].
    apply LawFacts.str_eqb_eq in E. subst. exfalso. apply Hw.
    apply in_map_iff. now exists (word, n).
Qed.

Lemma add_score_keys (word : str) (score : Z) (l : list (str * Z)) :
  map fst (add_score word score l)
  = match score_of word l with
    | Some _ => map fst l
    | None => map fst l ++ [word]
    end.
Proof.
  induction l as [|[w n] t IH]; cbn [add_score score_of map fst app]; [reflexivity|].
  destruct (str_eqb w word); [reflexivity|]. cbn [map fst]. rewrite IH.
  now destruct (score_of word t).
Qed.

Lemma add_score_get (word : str) (score : Z) (l : list (str * Z)) (w : str) :
  score_of w (add_score word score l)
  = if str_eqb word w
    then Some (match score_of word l with Some n => n | None => 0 end + score)%Z
    else score_of w l.
Proof.
  induction l as [|[x n] t IH]; cbn [add_score score_of].
  - destruct (str_eqb word w); reflexivity.
  - destruct (str_eqb x word) eqn:E; cbn [score_of].
    + apply LawFacts.str_eqb_eq in E. subst x. now destruct (str_eqb word w).
    + rewrite IH. destruct (str_eqb x w) eqn:E'; [|reflexivity].
      apply LawFacts.str_eqb_eq in E'. subst x. now rewrite str_eqb_sym, E.
Qed.

Lemma add_score_nodup (word : str) (score : Z) (l : list (str * Z)) :
  NoDup (map fst l) -> NoDup (map fst (add_score word score l)).
Proof.
  intros H. rewrite add_score_keys. destruct (score_of word l) eqn:E; [assumption|].
  apply score_of_none in E. apply NoDup_app; [assumption | repeat constructor; auto |].
  intros x Hx [<-|[]]. contradiction.
Qed.

(** *** Counting *)

Lemma occurrences_snoc (w x : str) (seen : list str) :
  occurrences w (seen ++ [x])
  = (occurrences w seen + if str_eqb w x then 1 else 0)%Z.
Proof.
  unfold occurrences, len. rewrite filter_app, length_app. cbn [filter].
  destruct (str_eqb w x); cbn [length]; lia.
Qed.

Lemma occurrences_nonneg (w : str) (seen : list str) : (0 <= occurrences w seen)%Z.
Proof. unfold occurrences, len. lia. Qed.

Lemma occurrences_in (w : str) (seen : list str) :
  (0 < occurrences w seen)%Z <-> In w seen.
Proof.
  unfold occurrences, len. split.
  - intros H. destruct (filter (str_eqb w) seen) as [|x l] eqn:E; [cbn in H; lia|].
    assert (Hin : In x (filter (str_eqb w) seen)) by (rewrite E; now left).
    apply filter_In in Hin. destruct Hin as [Hin Hx].
    apply LawFacts.str_eqb_eq in Hx. now subst.
  - intros H. assert (Hin : In w (filter (str_eqb w) seen)).
    { apply filter_In. split; [assumption | apply str_eqb_refl]. }
    destruct (filter (str_eqb w) seen); [contradiction | cbn [length]; lia].
Qed.

(** *** The loop over the words *)

Lemma scored_step (min_length : Z) (seen : list str) (l : list (str * Z)) (x : str) :
  scored min_length seen l ->
  scored min_length (seen ++ [x])
    (if (min_length <=? len x)%Z then add_score x (keyword_score x) l else l).
Proof.
  intros [Hnd Hget]. destruct (min_length <=? len x)%Z eqn:Hx.
  - split; [now apply add_score_nodup|]. intros w.
    rewrite add_score_get, occurrences_snoc. unfold total_score.
    rewrite occurrences_snoc. rewrite (str_eqb_sym w x).
    destruct (str_eqb x w) eqn:E.
    + apply LawFacts.str_eqb_eq in E. subst w. rewrite Hget, Hx. cbn [andb].
      pose proof (occurrences_nonneg x seen) as H0.
      replace (0 <? occurrences x seen + 1)%Z with true by (symmetry; apply Z.ltb_lt; lia).
      f_equal. unfold total_score.
      destruct (0 <? occurrences x seen)%Z eqn:Ho; [lia|].
      apply Z.ltb_ge in Ho. replace (occurrences x seen) with 0%Z by lia. lia.
    + rewrite Hget, !Z.add_0_r. reflexivity.
  - split; [assumption|]. intros w. rewrite Hget, occurrences_snoc.
    unfold total_score. rewrite occurrences_snoc.
    destruct (min_length <=? len w)%Z eqn:Hw; [|reflexivity]. cbn [andb].
    destruct (str_eqb w x) eqn:E; [|now rewrite !Z.add_0_r].
    apply LawFacts.str_eqb_eq in E. subst w. congruence.
Qed.

Lemma scored_fold (min_length : Z) (words : list str) :
  forall seen l,
    scored min_length seen l ->
    scored min_length (seen ++ words)
      (fold_left
         (fun keyword_scores word =>
            if (min_length <=? len word)%Z
            then add_score word (keyword_score word) keyword_scores
            else keyword_scores)
         words l).
Proof.
  induction words as [|x t IH]; intros seen l H; cbn [fold_left].
  - now rewrite app_nil_r.
  - replace (seen ++ x :: t) with ((seen ++ [x]) ++ t) by now rewrite <- app_assoc.
    apply IH. now apply scored_step.
Qed.

Lemma score_words_scored (min_length : Z) (words : list str) :
  scored min_length words (score_words min_length words).
Proof.
  apply (scored_fold min_length words [] []). split; [constructor|].
  intros w. cbn [score_of]. now rewrite andb_false_r.
Qed.

(** *** Sorting and slicing *)

Lemma insert_by_perm {A : Type} (key : A -> Z) (x : A) (l : list A) :
  Permutation (insert_by key x l) (x :: l).
Proof.
  induction l as [|y t IH]; cbn [insert_by]; [reflexivity|].
  destruct (key y <=? key x)%Z; [|reflexivity].
  rewrite IH. apply perm_swap.
Qed.

Lemma sorted_by_perm {A : Type} (key : A -> Z) (l : list A) :
  Permutation (sorted_by key l) l.
Proof.
  unfold sorted_by.
  assert (H : forall acc,
            Permutation (fold_left (fun acc x => insert_by key x acc) l acc) (l ++ acc)).
  { induction l as [|x t IH]; intros acc; cbn [fold_left app]; [reflexivity|].
    rewrite IH, insert_by_perm. symmetry. apply Permutation_middle. }
  rewrite H. now rewrite app_nil_r.
Qed.

Lemma slice_to_firstn {A : Type} (i : Z) (l : list A) :
  exists k, slice_to i l = firstn k l /\ ((0 <= i)%Z -> (Z.of_nat k <= i)%Z).
Proof.
  unfold slice_to. cbv zeta.
  exists (Z.to_nat (if (i <? 0)%Z then Z.max 0 (i + len l) else Z.min i (len l))).
  split; [reflexivity|]. intros H.
  replace (i <? 0)%Z with false by (symmetry; apply Z.ltb_ge; lia).
  unfold len. lia.
Qed.

Lemma NoDup_firstn {A : Type} (k : nat) (l : list A) : NoDup l -> NoDup (firstn k l).
Proof.
  intros H. rewrite <- (firstn_skipn k l) in H. now apply NoDup_app_remove_r in H.
Qed.

Lemma Forall_firstn {A : Type} (P : A -> Prop) (k : nat) (l : list A) :
  Forall P l -> Forall P (firstn k l).
Proof.
  intros H. rewrite <- (firstn_skipn k l) in H. now apply Forall_app in H.
Qed.

Lemma descending_firstn {A : Type} (score : A -> Z) (l : list A) :
  forall k, descending score l -> descending score (firstn k l).
Proof.
  induction l as [|x t IH]; intros k H; [now destruct k|].
  destruct k as [|k]; [exact I|]. cbn [firstn]. cbn [descending] in H.
  destruct H as [Hx Ht]. specialize (IH k Ht). cbn [descending]. split; [|exact IH].
  destruct t as [|y t']; [now destruct k|]. destruct k; [exact I | exact Hx].
Qed.

(** Items sorted by the negated score, each carrying the score of its
    word, have their words in descending order of score. *)
Lemma sorted_descending (score : str -> Z) (l : list (str * Z)) :
  Forall (fun x => snd x = score (fst x)) l ->
  sorted_keys (fun x => (- snd x)%Z) l ->
  descending score (map fst l).
Proof.
  induction 1 as [|x t Hx Ht IH]; intros Hs; [exact I|].
  cbn [sorted_keys] in Hs. destruct Hs as [Hxy Hs]. cbn [map descending].
  split; [|now apply IH].
  destruct t as [|y t']; [exact I|]. cbn [map].
  inversion Ht as [|? ? Hy _]; subst. rewrite <- Hx, <- Hy. lia.
Qed.

(** *** The words *)

Lemma words_matched (text : str) :
  Forall (fun w => w <> []
                   /\ Forall (fun c => is_word_char c = true) w
                   /\ exists before after, text = before ++ w ++ after)
    (Re.findall Re.no_flags word_re text).
Proof.
  eapply Forall_impl; [|apply ScanFacts.findall_matched].
  intros w (before & after & pv' & Ht & Hst). unfold word_re in Hst.
  apply ScanFacts.steps_plus_class in Hst. destruct Hst as (c & w' & Hw & Hall).
  cbn [snd] in Hw. apply app_inv_tail in Hw. subst w.
  split; [discriminate|]. split; [exact Hall|]. eauto.
Qed.

Section Unicode.

Variable nfkc : str -> str.

Lemma extract_keywords_spec (text : str) (min_length max_keywords : Z) :
  let words := Re.findall Re.no_flags word_re (clean_text nfkc text) in
  let keywords := extract_keywords nfkc text min_length max_keywords in
  NoDup keywords
  /\ ((0 <= max_keywords)%Z -> (len keywords <= max_keywords)%Z)
  /\ Forall (fun w => In w words /\ (min_length <= len w)%Z) keywords
  /\ descending (total_score words) keywords.
Proof.
  intros words keywords. subst keywords. unfold extract_keywords.
  destruct (is_nil text).
  - repeat split; try constructor. cbn. lia.
  - cbv zeta. fold words.
    destruct (score_words_scored min_length words) as [Hnd Hget].
    set (ks := score_words min_length words) in *.
    set (key := fun x : str * Z => (- snd x)%Z).
    pose proof (sorted_by_perm key ks) as Hperm.
    assert (Hitems : Forall (fun x => snd x = total_score words (fst x)
                                      /\ In (fst x) words
                                      /\ (min_length <= len (fst x))%Z) ks).
    { rewrite Forall_forall. intros [w n] Hin. cbn [fst snd].
      pose proof (score_of_in w n ks Hnd Hin) as Hw. rewrite Hget in Hw.
      destruct (min_length <=? len w)%Z eqn:Hlen; [|discriminate].
      destruct (0 <? occurrences w words)%Z eqn:Hocc; [|discriminate].
      injection Hw as <-. apply Z.leb_le in Hlen. apply Z.ltb_lt in Hocc.
      apply occurrences_in in Hocc. auto. }
    destruct (@Boundaries.sorted_by_spec _ key _ ks Hitems) as [Hsorted Hall].
    destruct (slice_to_firstn max_keywords (sorted_by key ks)) as (k & -> & Hk).
    rewrite <- firstn_map.
    split; [|split; [|split]].
    + apply NoDup_firstn. eapply Permutation_NoDup; [|exact Hnd].
      symmetry. now apply Permutation_map.
    + intros H. specialize (Hk H). unfold len. rewrite length_firstn. lia.
    + apply Forall_firstn. apply Forall_map.
      eapply Forall_impl; [|exact Hall]. cbn beta. tauto.
    + apply descending_firstn. apply sorted_descending; [|exact Hsorted].
      eapply Forall_impl; [|exact Hall]. cbn beta. tauto.
Qed.

End Unicode.

End KeywordFacts.

(** X20.  [extract_keywords] returns distinct words, at most
    [max_keywords] of them when that number is not negative.  Each one
    is a word found in the cleaned text, of [min_length] characters at
    least; a word found is a non-empty piece of the cleaned text made
    of characters of the Arabic block and of the two zero-width
    joiners.  The keywords come in descending order of score, the score
    of a word being the number of its occurrences, counted twice for a
    legal term. *)
Theorem X20_keywords_are_distinct_and_ranked_by_score
  (nfkc : Py.str -> Py.str) (text : Py.str) (min_length max_keywords : Z) :
  let words := Re.findall Re.no_flags TextUtils.word_re (TextUtils.clean_text nfkc text) in
  let keywords := TextUtils.extract_keywords nfkc text min_length max_keywords in
  NoDup keywords
  /\ ((0 <= max_keywords)%Z -> (Py.len keywords <= max_keywords)%Z)
  /\ Forall (fun w => In w words /\ (min_length <= Py.len w)%Z) keywords
  /\ Spec.descending (Spec.total_score words) keywords
  /\ Forall (fun w => w <> []
                      /\ Forall (fun c => TextUtils.is_word_char c = true) w
                      /\ exists before after,
                           TextUtils.clean_text nfkc text = before ++ w ++ after)
       words.
Proof.
  intros words keywords.
  destruct (KeywordFacts.extract_keywords_spec nfkc text min_length max_keywords)
    as (H1 & H2 & H3 & H4).
  repeat (split; [assumption|]). apply KeywordFacts.words_matched.
Qed.

(** ** Sentences *)

Module SentenceFacts.
Import Py Re Spec TextUtils ReFacts ScanFacts.

Unset Implicit Arguments.

Lemma skipn_three (t : str) (lo a b : nat) :
  lo <= a -> a <= b ->
  skipn lo t = substr t lo a ++ substr t a b ++ skipn b t.
Proof.
  intros H1 H2. unfold substr.
  rewrite <- (firstn_skipn (a - lo) (skipn lo t)) at 1. f_equal.
  rewrite skipn_skipn. replace (a - lo + lo) with a by lia.
  rewrite <- (firstn_skipn (b - a) (skipn a t)) at 1. f_equal.
  rewrite skipn_skipn. now replace (b - a + a) with b by lia.
Qed.

(** [re.split] and [re.findall] take the text apart: the pieces, with
    the matches between them, are the text. *)
Lemma split_build_weave (text : str) (ms : list match_obj) :
  forall lo,
    ordered_from lo (length text) ms ->
    skipn lo text
    = weave (split_build text lo ms)
        (map (fun mt => substr text (m_start mt) (m_end mt)) ms)
    /\ length (split_build text lo ms) = S (length ms).
Proof.
  induction ms as [|mt ms IH]; intros lo Ho; cbn [split_build map weave length].
  - split; reflexivity.
  - cbn [ordered_from] in Ho. destruct Ho as (H1 & H2 & H3 & H4).
    destruct (IH _ H4) as [Hw Hl]. split; [|now rewrite Hl].
    rewrite <- Hw. now apply skipn_three.
Qed.

Lemma split_weave (fl : flags) (r : regex) (text : str) :
  text = weave (split fl r text) (findall fl r text)
  /\ length (split fl r text) = S (length (findall fl r text)).
Proof.
  unfold split, findall. rewrite length_map.
  apply (split_build_weave text _ 0). apply finditer_ordered.
Qed.

Lemma sentence_breaks (text : str) :
  Forall sentence_break (findall no_flags sentence_re text).
Proof.
  eapply Forall_impl; [|apply findall_matched].
  intros w (before & after & pv' & Ht & Hst). unfold sentence_re in Hst.
  apply steps_seq_inv in Hst. destruct Hst as (q & Hc & Hws).
  apply steps_chr_inv in Hc. destruct Hc as (c & Hc & Hp & _).
  apply steps_plus_class in Hws. destruct Hws as (d & ws & Hq & Hall).
  cbn [snd] in Hp, Hq. rewrite Hq in Hp.
  change (c :: (d :: ws) ++ after) with ((c :: d :: ws) ++ after) in Hp.
  apply app_inv_tail in Hp. subst w.
  exists c, (d :: ws). repeat split; [assumption | discriminate | assumption].
Qed.

Lemma keep_long (l : list str) :
  filter (fun sentence => truthy sentence && (10 <? len sentence)%Z) l
  = filter (fun sentence => (10 <? len sentence)%Z) l.
Proof.
  apply filter_ext. intros [|c t]; [reflexivity|]. reflexivity.
Qed.

End SentenceFacts.

(** X21.  [split_sentences] takes the stripped text apart at the
    sentence breaks, an end mark followed by whitespace: the pieces
    with the breaks between them are the stripped text.  It returns the
    pieces, stripped, that are longer than ten characters, in their
    order; the breaks and the shorter pieces are dropped.  Every
    sentence returned is stripped and longer than ten characters. *)
Theorem X21_sentences_are_the_long_pieces_between_breaks (text : Py.str) :
  (exists pieces breaks,
      Py.strip text = Spec.weave pieces breaks
      /\ length pieces = S (length breaks)
      /\ Forall Spec.sentence_break breaks
      /\ TextUtils.split_sentences text
         = if Py.is_nil text then []
           else filter (fun piece => (10 <? Py.len piece)%Z) (map Py.strip pieces))
  /\ Forall (fun sentence => Py.strip sentence = sentence /\ (10 < Py.len sentence)%Z)
       (TextUtils.split_sentences text).
Proof.
  split.
  - exists (Re.split Re.no_flags TextUtils.sentence_re (Py.strip text)),
           (Re.findall Re.no_flags TextUtils.sentence_re (Py.strip text)).
    destruct (SentenceFacts.split_weave Re.no_flags TextUtils.sentence_re (Py.strip text))
      as [Hw Hl].
    split; [exact Hw|]. split; [exact Hl|].
    split; [apply SentenceFacts.sentence_breaks|].
    unfold TextUtils.split_sentences. destruct (Py.is_nil text); [reflexivity|].
    apply SentenceFacts.keep_long.
  - unfold TextUtils.split_sentences. destruct (Py.is_nil text); [constructor|].
    cbv zeta. rewrite Forall_forall. intros s Hin. apply filter_In in Hin.
    destruct Hin as [Hin Hlong]. apply in_map_iff in Hin.
    destruct Hin as (piece & <- & _). apply andb_true_iff in Hlong.
    destruct Hlong as [_ Hlong]. apply Z.ltb_lt in Hlong.
    split; [apply ValidatorFacts.strip_idem | exact Hlong].
Qed.

(** ** The statistics of chunk sizes *)

Module SizeFacts.
Import Py PyFacts Exn Models Chunker Spec.

Unset Implicit Arguments.

Lemma filter_disjoint {A : Type} (f g : A -> bool) (l : list A) :
  (forall x, f x = true -> g x = false) ->
  (len (filter f l) + len (filter g l) <= len l)%Z.
Proof.
  intros H. unfold len. induction l as [|x t IH]; cbn [filter length]; [lia|].
  destruct (f x) eqn:E.
  - rewrite (H x E). cbn [length]. lia.
  - destruct (g x); cbn [length]; lia.
Qed.

Section WithConfig.

Variable cfg : config.
Variable format_type : SubsectionType -> str.

Lemma chunk_document_sized (document : LegalDocument) (s s' : stats)
  (r : result (list TextChunk)) :
  chunk_document cfg format_type document s = (r, s') -> sized s -> sized s'.
Proof.
  intros H (H1 & H2 & H3). destruct r as [chunks|e].
  - destruct (ChunkerFacts.chunk_document_spec cfg format_type document s s' chunks H)
      as (_ & _ & Ht & Ho & Hu).
    pose proof (filter_disjoint (is_oversized cfg) (is_undersized cfg) chunks) as Hd.
    unfold sized. rewrite Ht, Ho, Hu.
    pose proof (len_nonneg (filter (is_oversized cfg) chunks)).
    pose proof (len_nonneg (filter (is_undersized cfg) chunks)).
    assert (len (filter (is_oversized cfg) chunks)
            + len (filter (is_undersized cfg) chunks) <= len chunks)%Z.
    { apply Hd. intros x Hx. unfold is_undersized. now rewrite Hx. }
    lia.
  - destruct (BatchFacts.chunk_document_raise cfg format_type document s s' e H)
      as (_ & Ht & Ho & Hu).
    unfold sized. rewrite Ht, Ho, Hu. lia.
Qed.

Lemma batch_loop_sized (documents : list LegalDocument) :
  forall all_chunks report s all_chunks' report' s',
    batch_loop cfg format_type documents all_chunks report s
    = (all_chunks', report', s') ->
    sized s -> sized s'.
Proof.
  induction documents as [|document rest IH];
    intros all_chunks report s all_chunks' report' s' H Hs; cbn [batch_loop] in H.
  - now injection H as <- <- <-.
  - destruct (chunk_document cfg format_type document s) as [[chunks|e] s1] eqn:Hdoc;
      (eapply IH; [exact H|]); eapply chunk_document_sized; eassumption.
Qed.

End WithConfig.

Lemma metrics_bounds (s : stats) :
  sized s ->
  match snd (get_chunking_statistics s) with
  | Some q =>
      (0 < total_chunks_created s)%Z
      /\ (average_chunk_size q == 0)%Q
      /\ (0 <= oversized_percentage q)%Q /\ (oversized_percentage q <= 100)%Q
      /\ (0 <= undersized_percentage q)%Q /\ (undersized_percentage q <= 100)%Q
  | None => (total_chunks_created s <= 0)%Z
  end.
Proof.
  intros (H1 & H2 & H3). unfold get_chunking_statistics. cbn [snd].
  destruct (0 <? total_chunks_created s)%Z eqn:E.
  - apply Z.ltb_lt in E.
    cbn [average_chunk_size oversized_percentage undersized_percentage].
    split; [exact E|]. split; [unfold Qdiv; ring|].
    destruct (BatchFacts.rate_bounds (oversized_chunks s) (total_chunks_created s))
      as [Ho Ho']; [lia | lia | lia|].
    destruct (BatchFacts.rate_bounds (undersized_chunks s) (total_chunks_created s))
      as [Hu Hu']; [lia | lia | lia|].
    repeat split; assumption.
  - now apply Z.ltb_ge in E.
Qed.

End SizeFacts.

(** X22.  The chunk-size counters stay consistent: if no more chunks
    were counted as oversized or undersized than were created, the same
    holds after [chunk_document], whether it returns or raises, and
    after [chunk_documents_batch].  [get_chunking_statistics] then adds
    quality metrics exactly when chunks were created, each of the two
    percentages lying between 0 and 100; the average chunk size it
    reports is always 0, as the total of characters is never
    recorded. *)
Theorem X22_size_percentages_stay_within_bounds
  (cfg : Chunker.config) (format_type : Models.SubsectionType -> Py.str)
  (documents : list Models.LegalDocument) (s : Chunker.stats)
  (Hs : Spec.sized s) :
  (forall document r s1,
      Chunker.chunk_document cfg format_type document s = (r, s1) -> Spec.sized s1)
  /\ let s' := snd (Chunker.chunk_documents_batch cfg format_type documents s) in
     Spec.sized s'
     /\ fst (Chunker.get_chunking_statistics s') = s'
     /\ match snd (Chunker.get_chunking_statistics s') with
        | Some q =>
            (0 < Chunker.total_chunks_created s')%Z
            /\ (Chunker.average_chunk_size q == 0)%Q
            /\ (0 <= Chunker.oversized_percentage q)%Q
            /\ (Chunker.oversized_percentage q <= 100)%Q
            /\ (0 <= Chunker.undersized_percentage q)%Q
            /\ (Chunker.undersized_percentage q <= 100)%Q
        | None => (Chunker.total_chunks_created s' <= 0)%Z
        end.
Proof.
  split.
  - intros document r s1 H. eapply SizeFacts.chunk_document_sized; eassumption.
  - intros s'.
    assert (Hs' : Spec.sized s').
    { subst s'. unfold Chunker.chunk_documents_batch.
      destruct (Chunker.batch_loop cfg format_type documents [] _ s)
        as [[all_chunks report] s1] eqn:E.
      cbn [snd]. eapply SizeFacts.batch_loop_sized; eassumption. }
    split; [exact Hs'|]. split; [reflexivity|].
    now apply SizeFacts.metrics_bounds.
Qed.

Lemma X22_size_percentages_witness :
  Spec.sized Chunker.stats0
  /\ let s' := snd (Chunker.chunk_documents_batch Inputs.small Inputs.format_value
                     [Inputs.two_chapters; Inputs.forty_footnotes] Chunker.stats0) in
     Spec.sized s'
     /\ match snd (Chunker.get_chunking_statistics s') with
        | Some q =>
            (0 < Chunker.total_chunks_created s')%Z
            /\ (Chunker.oversized_percentage q <= 100)%Q
            /\ (Chunker.undersized_percentage q <= 100)%Q
        | None => False
        end.
Proof.
  assert (Hs : Spec.sized Chunker.stats0) by (vm_compute; repeat split; discriminate).
  split; [exact Hs|].
  pose proof (proj2 (@X22_size_percentages_stay_within_bounds Inputs.small
                       Inputs.format_value
                       [Inputs.two_chapters; Inputs.forty_footnotes]
                       Chunker.stats0 Hs)) as H.
  cbv zeta in H. destruct H as (H1 & _ & H3). cbv zeta.
  split; [exact H1|].
  destruct (snd (Chunker.get_chunking_statistics _)) as [q|] eqn:E.
  - destruct H3 as (Ht & _ & _ & Ho & _ & Hu). repeat split; assumption.
  - vm_compute in E. discriminate.
Defined.

(** ** Where the headers are found *)

Module HeaderFacts.
Import Py Re Spec Parser ReFacts ReSound ScanFacts Anchored.

Unset Implicit Arguments.

Lemma steps_lit (fl : flags) (s : str) :
  forall p q, steps fl (Lit s) p q -> snd p = s ++ snd q.
Proof.
  induction s as [|c t IH]; intros p q H; cbn [Lit] in H.
  - inversion H; subst. reflexivity.
  - apply steps_seq_inv in H. destruct H as (u & Hc & Ht).
    apply steps_chr_inv in Hc. destruct Hc as (d & Hd & Hp & _).
    apply N.eqb_eq in Hd. subst d. rewrite Hp, (IH _ _ Ht). reflexivity.
Qed.

Lemma startswith_app (w s : str) : startswith w (w ++ s) = true.
Proof.
  induction w as [|c t IH]; [reflexivity|]. cbn [app startswith].
  now rewrite N.eqb_refl, IH.
Qed.

Lemma last_default (t : str) :
  t <> [] -> forall c d, last t c = last t d.
Proof.
  induction t as [|x t IH]; [contradiction|]. intros _ c d. cbn [last].
  destruct t; [reflexivity | apply IH; discriminate].
Qed.

Lemma nth_last (t : str) :
  forall c rest, nth_error ((c :: t) ++ rest) (length t) = Some (last t c).
Proof.
  induction t as [|d t IH]; intros c rest; [reflexivity|].
  change (nth_error ((d :: t) ++ rest) (length t) = Some (last (d :: t) c)).
  rewrite IH. f_equal. cbn [last]. destruct t; [reflexivity|].
  apply last_default. discriminate.
Qed.

Lemma line_start_after (before rest : str) :
  place_bol multiline (prev_after None before, rest) = true ->
  line_start (before ++ rest) (length before).
Proof.
  unfold place_bol. cbn [fst]. destruct before as [|c t]; [intros _; exact I|].
  cbn [prev_after MULTILINE multiline andb length line_start]. intros H.
  apply N.eqb_eq in H. rewrite nth_last. now f_equal.
Qed.

Lemma steps_bol_inv (fl : flags) (p q : place) :
  steps fl Bol p q -> q = p /\ place_bol fl p = true.
Proof. inversion 1; subst. auto. Qed.

Lemma steps_group_inv (fl : flags) (n : nat) (r : regex) (p q : place) :
  steps fl (Group n r) p q -> steps fl r p q.
Proof. inversion 1; subst. assumption. Qed.

(** A match of a header pattern, which is anchored and starts with a
    word. *)
Lemma header_matched (word : str) (r1 r2 : regex) (text : str) (mt : match_obj) :
  word <> [] ->
  matched multiline (Seq Bol (Seq (Group 1 (Seq (Lit word) r1)) r2)) text mt ->
  line_start text (m_start mt)
  /\ startswith word (skipn (m_start mt) text) = true
  /\ m_start mt < length text.
Proof.
  intros Hword (before & w & after & pv' & Ht & Hs & He & Hst).
  apply steps_seq_inv in Hst. destruct Hst as (q & Hb & Hst).
  apply steps_bol_inv in Hb. destruct Hb as [-> Hbol].
  apply steps_seq_inv in Hst. destruct Hst as (q1 & Hg & _).
  apply steps_group_inv in Hg.
  apply steps_seq_inv in Hg. destruct Hg as (q2 & Hl & _).
  apply steps_lit in Hl. cbn [snd] in Hl.
  rewrite Hs, Ht. split; [|split].
  - now apply line_start_after.
  - rewrite skipn_app, skipn_all, Nat.sub_diag. cbn [skipn app].
    rewrite Hl. apply startswith_app.
  - rewrite length_app, Hl, length_app. destruct word; [contradiction | cbn; lia].
Qed.

Lemma header_spans_at (word text : str) (ms : list (match_obj * bool)) :
  Forall (fun x => line_start text (m_start (fst x))
                   /\ startswith word (skipn (m_start (fst x)) text) = true
                   /\ m_start (fst x) < length text) ms ->
  Forall (header_at word text) (header_spans text ms).
Proof.
  induction 1 as [|[mt single] rest (H1 & H2 & H3) Hrest IH]; cbn [header_spans];
    [constructor|].
  constructor; [|exact IH]. cbn [fst] in *. unfold header_at.
  split; [exact H1|]. split; [exact H2|]. split; [exact H3|].
  split; [apply ValidatorFacts.strip_idem|].
  destruct single; [reflexivity|].
  destruct (truthy _); [apply ValidatorFacts.strip_idem | reflexivity].
Qed.

Lemma chapters_at (text : str) :
  Forall (header_at Patterns.fasl text) (extract_chapters text).
Proof.
  unfold extract_chapters. apply header_spans_at. apply Forall_map.
  eapply Forall_impl; [|apply finditer_matched].
  intros mt H. cbn [fst]. unfold Patterns.chapter_pattern in H.
  eapply header_matched; [|exact H]. discriminate.
Qed.

Lemma articles_at (text : str) :
  Forall (header_at Patterns.madeh text) (extract_articles text).
Proof.
  unfold extract_articles. cbv zeta. apply header_spans_at.
  apply Boundaries.sorted_by_spec. apply Forall_app. split; apply Forall_map.
  - eapply Forall_impl; [|apply finditer_matched].
    intros mt H. cbn [fst]. unfold Patterns.article_pattern in H.
    eapply header_matched; [|exact H]. discriminate.
  - eapply Forall_impl; [|apply finditer_matched].
    intros mt H. cbn [fst]. unfold Patterns.single_article_pattern in H.
    eapply header_matched; [|exact H]. discriminate.
Qed.

End HeaderFacts.

(** X23.  Every tuple of [extract_chapters] starts inside the text at
    the start of a line that begins with the word of a chapter, and
    every tuple of [extract_articles] at the start of a line that
    begins with the word of an article; the numbers and titles they
    carry are stripped.  A text in which no line begins with the word
    has no such tuple. *)
Theorem X23_headers_start_a_line_with_their_word (text : Py.str) :
  Forall (Spec.header_at Patterns.fasl text) (Parser.extract_chapters text)
  /\ Forall (Spec.header_at Patterns.madeh text) (Parser.extract_articles text)
  /\ ((forall i, Spec.line_start text i ->
                 Py.startswith Patterns.madeh (skipn i text) = false) ->
      Parser.extract_articles text = []).
Proof.
  pose proof (HeaderFacts.chapters_at text) as Hc.
  pose proof (HeaderFacts.articles_at text) as Ha.
  split; [exact Hc|]. split; [exact Ha|].
  intros Hno. destruct (Parser.extract_articles text) as [|[[[num title] a] b] l];
    [reflexivity|].
  exfalso. inversion Ha as [|? ? Hh _]; subst.
  unfold Spec.header_at in Hh. destruct Hh as (H1 & H2 & _).
  rewrite (Hno a H1) in H2. discriminate.
Qed.

(** ** Chunk identifiers *)

Module IdFacts.
Import Py Models Chunker Spec.

Unset Implicit Arguments.

(** *** Decimal strings *)

Lemma digits_fuel_digits (fuel : nat) :
  forall n acc,
    Forall (fun c => is_digit c = true) acc ->
    Forall (fun c => is_digit c = true) (digits_fuel fuel n acc).
Proof.
  induction fuel as [|f IH]; intros n acc H; cbn [digits_fuel]; [assumption|].
  assert (Hd : is_digit (0x30 + n mod 10)%N = true).
  { unfold is_digit. assert (Hlt : (n mod 10 < 10)%N) by (apply N.mod_lt; discriminate).
    generalize dependent (n mod 10)%N. intros d Hlt.
    apply andb_true_iff. split; apply N.leb_le; lia. }
  destruct (n / 10 =? 0)%N; [now constructor | apply IH; now constructor].
Qed.

Lemma str_of_N_digits (n : N) : Forall (fun c => is_digit c = true) (str_of_N n).
Proof. apply digits_fuel_digits. constructor. Qed.

Lemma zero_pad3_digits (n : N) : Forall (fun c => is_digit c = true) (zero_pad3 n).
Proof.
  unfold zero_pad3. apply Forall_app. split; [|apply str_of_N_digits].
  rewrite Forall_forall. intros x Hx. apply repeat_spec in Hx. now subst.
Qed.

Lemma str_of_N_inj (a b : N) : str_of_N a = str_of_N b -> a = b.
Proof.
  intros H. rewrite <- (LawFacts.str_of_N_val a), <- (LawFacts.str_of_N_val b).
  now rewrite H.
Qed.

Lemma zero_pad3_inj (a b : N) : zero_pad3 a = zero_pad3 b -> a = b.
Proof.
  intros H. rewrite <- (LawFacts.zero_pad3_val a), <- (LawFacts.zero_pad3_val b).
  now rewrite H.
Qed.

(** Digits up to an underscore are read in one way only. *)
Lemma digits_split (d1 : str) :
  Forall (fun c => is_digit c = true) d1 ->
  forall d2 r1 r2,
    Forall (fun c => is_digit c = true) d2 ->
    d1 ++ underscore :: r1 = d2 ++ underscore :: r2 ->
    d1 = d2 /\ r1 = r2.
Proof.
  induction 1 as [|c t Hc Ht IH]; intros d2 r1 r2 H2 H.
  - destruct d2 as [|c2 t2]; cbn [app] in H.
    + injection H as ->. auto.
    + injection H as <- _. inversion H2; subst. discriminate.
  - destruct d2 as [|c2 t2]; cbn [app] in H.
    + injection H as -> _. discriminate.
    + injection H as <- H. inversion H2 as [|? ? _ Ht2]; subst.
      destruct (IH _ _ _ Ht2 H) as [-> ->]. auto.
Qed.

Lemma digits_no_underscore (d a r : str) :
  Forall (fun c => is_digit c = true) d -> d <> a ++ underscore :: r.
Proof.
  intros H E. subst d. apply Forall_app in H. destruct H as [_ H].
  inversion H; subst. discriminate.
Qed.

(** *** A key has one identifier, and an identifier one key *)

Lemma key_suffix_injective (k1 k2 : chunk_key) :
  key_suffix k1 = key_suffix k2 -> k1 = k2.
Proof.
  destruct k1 as [i|i c j|i j|], k2 as [i'|i' c' j'|i' j'|]; cbn [key_suffix];
    intros H;
    try (unfold ch_tag, art_tag, footnotes_tag in H; cbn [app] in H; discriminate);
    try reflexivity.
  - apply app_inv_head in H.
    apply digits_split in H; try apply str_of_N_digits.
    destruct H as [H _]. apply str_of_N_inj in H. now subst.
  - apply app_inv_head in H.
    apply digits_split in H; try apply str_of_N_digits.
    destruct H as [_ H]. exfalso.
    exact (digits_no_underscore _ _ _ (zero_pad3_digits 0) H).
  - apply app_inv_head in H.
    apply digits_split in H; try apply str_of_N_digits.
    destruct H as [_ H]. exfalso. symmetry in H.
    exact (digits_no_underscore _ _ _ (zero_pad3_digits 0) H).
  - apply app_inv_head in H.
    apply digits_split in H; try apply str_of_N_digits.
    destruct H as [Hi H]. apply str_of_N_inj in Hi.
    apply digits_split in H; try apply str_of_N_digits.
    destruct H as [Hc H]. apply str_of_N_inj in Hc. apply zero_pad3_inj in H.
    now subst.
  - apply app_inv_head in H.
    apply digits_split in H; try apply str_of_N_digits.
    destruct H as [Hi H]. apply str_of_N_inj in Hi. apply zero_pad3_inj in H.
    now subst.
Qed.

(** *** The identifiers are those of the keys *)

Lemma ids_from_counters (base : str) :
  forall n c, ids_from base c n = map (chunk_id base) (counters c n).
Proof.
  induction n as [|n IH]; intros c; cbn [ids_from counters map]; [reflexivity|].
  now rewrite IH.
Qed.

Lemma chapter_article_ids_keys (document_id : str) (i : N)
  (article_chunks : list (list TextChunk)) :
  forall c,
    chapter_article_ids (document_id ++ ch_tag ++ str_of_N i) c article_chunks
    = map (fun k => document_id ++ key_suffix k)
        (chapter_article_keys i c article_chunks).
Proof.
  induction article_chunks as [|chunks rest IH]; intros c;
    cbn [chapter_article_ids chapter_article_keys]; [reflexivity|].
  rewrite map_app, IH. f_equal. unfold chunk_article_ids.
  rewrite ids_from_counters, map_map. apply map_ext. intros j.
  unfold chunk_id. cbn [key_suffix]. now rewrite <- !app_assoc.
Qed.

Lemma chunk_chapter_ids_keys (document_id : str) (i : N) (has_title : bool)
  (article_chunks : list (list TextChunk)) :
  chunk_chapter_ids (document_id ++ ch_tag ++ str_of_N i) has_title article_chunks
  = map (fun k => document_id ++ key_suffix k) (chapter_keys i has_title article_chunks).
Proof.
  unfold chunk_chapter_ids, chapter_keys. destruct has_title; cbn [map].
  - rewrite chapter_article_ids_keys. f_equal.
    unfold chunk_id. cbn [key_suffix]. now rewrite <- !app_assoc.
  - apply chapter_article_ids_keys.
Qed.

Lemma chapters_ids_keys (document_id : str)
  (chapters0 : list (bool * list (list TextChunk))) :
  forall i,
    chapters_ids document_id i chapters0
    = map (fun k => document_id ++ key_suffix k) (chapters_keys i chapters0).
Proof.
  induction chapters0 as [|[has_title article_chunks] rest IH]; intros i;
    cbn [chapters_ids chapters_keys]; [reflexivity|].
  now rewrite map_app, IH, chunk_chapter_ids_keys.
Qed.

Lemma standalone_ids_keys (document_id : str) (article_chunks : list (list TextChunk)) :
  forall i,
    standalone_ids document_id i article_chunks
    = map (fun k => document_id ++ key_suffix k) (standalone_keys i article_chunks).
Proof.
  induction article_chunks as [|chunks rest IH]; intros i;
    cbn [standalone_ids standalone_keys]; [reflexivity|].
  rewrite map_app, IH. f_equal. unfold chunk_article_ids.
  rewrite ids_from_counters, map_map. apply map_ext. intros j.
  unfold chunk_id. cbn [key_suffix]. now rewrite <- !app_assoc.
Qed.

Lemma chunk_document_ids_keys (document_id : str)
  (chapters0 : list (bool * list (list TextChunk)))
  (article_chunks : list (list TextChunk)) (has_footnotes : bool) :
  chunk_document_ids document_id chapters0 article_chunks has_footnotes
  = map (fun k => document_id ++ key_suffix k)
      (document_keys chapters0 article_chunks has_footnotes).
Proof.
  unfold chunk_document_ids, document_keys.
  rewrite !map_app, chapters_ids_keys, standalone_ids_keys.
  now destruct has_footnotes.
Qed.

(** *** The keys are distinct *)

Lemma counters_spec (n : nat) :
  forall c x, In x (counters c n) <-> (c <= x < c + N.of_nat n)%N.
Proof.
  induction n as [|n IH]; intros c x; cbn [counters In].
  - split; [contradiction | lia].
  - rewrite IH. lia.
Qed.

Lemma counters_nodup (n : nat) : forall c, NoDup (counters c n).
Proof.
  induction n as [|n IH]; intros c; cbn [counters]; constructor; [|apply IH].
  rewrite counters_spec. lia.
Qed.

Lemma NoDup_map_inj {A B : Type} (f : A -> B) (l : list A) :
  (forall x y, f x = f y -> x = y) -> NoDup l -> NoDup (map f l).
Proof.
  intros Hf. induction 1 as [|x t Hx Ht IH]; cbn [map]; constructor; [|exact IH].
  intros Hin. apply in_map_iff in Hin. destruct Hin as (y & Hy & Hin).
  apply Hf in Hy. now subst.
Qed.

Lemma chapter_article_keys_spec (i : N) (article_chunks : list (list TextChunk)) :
  forall c,
    NoDup (chapter_article_keys i c article_chunks)
    /\ forall k, In k (chapter_article_keys i c article_chunks) ->
                 exists c' j, k = ChapterKey i c' j /\ (c <= c')%N.
Proof.
  induction article_chunks as [|chunks rest IH]; intros c; cbn [chapter_article_keys].
  - split; [constructor | contradiction].
  - destruct (IH (c + N.of_nat (length chunks))%N) as [Hnd Hin]. split.
    + apply NoDup_app.
      * apply NoDup_map_inj; [|apply counters_nodup]. now intros x y [= ->].
      * exact Hnd.
      * intros k Hk1 Hk2. apply in_map_iff in Hk1. destruct Hk1 as (j & <- & Hj).
        apply counters_spec in Hj.
        destruct (Hin _ Hk2) as (c' & j' & [= <- _] & Hc'). lia.
    + intros k Hk. apply in_app_or in Hk. destruct Hk as [Hk|Hk].
      * apply in_map_iff in Hk. destruct Hk as (j & <- & _). exists c, j. split; [reflexivity | lia].
      * destruct (Hin _ Hk) as (c' & j & -> & Hc'). exists c', j. split; [reflexivity | lia].
Qed.

Lemma chapter_keys_spec (i : N) (has_title : bool)
  (article_chunks : list (list TextChunk)) :
  NoDup (chapter_keys i has_title article_chunks)
  /\ forall k, In k (chapter_keys i has_title article_chunks) ->
               k = TitleKey i \/ exists c j, k = ChapterKey i c j.
Proof.
  unfold chapter_keys. destruct has_title.
  - destruct (chapter_article_keys_spec i article_chunks 1) as [Hnd Hin]. split.
    + constructor; [|exact Hnd]. intros H.
      destruct (Hin _ H) as (c & j & E & _). discriminate.
    + intros k [<-|Hk]; [now left|]. right.
      destruct (Hin _ Hk) as (c & j & -> & _). eauto.
  - destruct (chapter_article_keys_spec i article_chunks 0) as [Hnd Hin].
    split; [exact Hnd|]. intros k Hk. right.
    destruct (Hin _ Hk) as (c & j & -> & _). eauto.
Qed.

Lemma chapters_keys_spec (chapters0 : list (bool * list (list TextChunk))) :
  forall i,
    NoDup (chapters_keys i chapters0)
    /\ forall k, In k (chapters_keys i chapters0) ->
                 exists i', (i <= i')%N
                   /\ (k = TitleKey i' \/ exists c j, k = ChapterKey i' c j).
Proof.
  induction chapters0 as [|[has_title article_chunks] rest IH]; intros i;
    cbn [chapters_keys].
  - split; [constructor | contradiction].
  - destruct (IH (i + 1)%N) as [Hnd Hin].
    destruct (chapter_keys_spec i has_title article_chunks) as [Hnd1 Hin1]. split.
    + apply NoDup_app; [exact Hnd1 | exact Hnd |].
      intros k Hk1 Hk2. destruct (Hin _ Hk2) as (i' & Hi' & Hk).
      destruct (Hin1 _ Hk1) as [->|(c & j & ->)];
        destruct Hk as [Hk|(c' & j' & Hk)]; try discriminate;
        injection Hk as ->; lia.
    + intros k Hk. apply in_app_or in Hk. destruct Hk as [Hk|Hk].
      * exists i. split; [lia | now apply Hin1].
      * destruct (Hin _ Hk) as (i' & Hi' & Hk'). exists i'. split; [lia | exact Hk'].
Qed.

Lemma standalone_keys_spec (article_chunks : list (list TextChunk)) :
  forall i,
    NoDup (standalone_keys i article_chunks)
    /\ forall k, In k (standalone_keys i article_chunks) ->
                 exists i' j, k = ArticleKey i' j /\ (i <= i')%N.
Proof.
  induction article_chunks as [|chunks rest IH]; intros i; cbn [standalone_keys].
  - split; [constructor | contradiction].
  - destruct (IH (i + 1)%N) as [Hnd Hin]. split.
    + apply NoDup_app.
      * apply NoDup_map_inj; [|apply counters_nodup]. now intros x y [= ->].
      * exact Hnd.
      * intros k Hk1 Hk2. apply in_map_iff in Hk1. destruct Hk1 as (j & <- & _).
        destruct (Hin _ Hk2) as (i' & j' & [= <- _] & Hi'). lia.
    + intros k Hk. apply in_app_or in Hk. destruct Hk as [Hk|Hk].
      * apply in_map_iff in Hk. destruct Hk as (j & <- & _). exists i, j. split; [reflexivity | lia].
      * destruct (Hin _ Hk) as (i' & j & -> & Hi'). exists i', j. split; [reflexivity | lia].
Qed.

Lemma document_keys_nodup (chapters0 : list (bool * list (list TextChunk)))
  (article_chunks : list (list TextChunk)) (has_footnotes : bool) :
  NoDup (document_keys chapters0 article_chunks has_footnotes).
Proof.
  unfold document_keys.
  destruct (chapters_keys_spec chapters0 0) as [Hnd1 Hin1].
  destruct (standalone_keys_spec article_chunks 0) as [Hnd2 Hin2].
  apply NoDup_app; [exact Hnd1 | |].
  - apply NoDup_app; [exact Hnd2 | destruct has_footnotes; repeat constructor; auto |].
    intros k Hk1 Hk2. destruct (Hin2 _ Hk1) as (i & j & -> & _).
    destruct has_footnotes; [|contradiction]. destruct Hk2 as [Hk2|[]]. discriminate.
  - intros k Hk1 Hk2. destruct (Hin1 _ Hk1) as (i & _ & Hk).
    apply in_app_or in Hk2. destruct Hk2 as [Hk2|Hk2].
    + destruct (Hin2 _ Hk2) as (i' & j' & -> & _).
      destruct Hk as [Hk|(c & j & Hk)]; discriminate.
    + destruct has_footnotes; [|contradiction]. destruct Hk2 as [<-|[]].
      destruct Hk as [Hk|(c & j & Hk)]; discriminate.
Qed.

Lemma ids_from_length (base : str) (n : nat) : forall c, length (ids_from base c n) = n.
Proof. induction n as [|n IH]; intros c; cbn [ids_from length]; [reflexivity | now rewrite IH]. Qed.

Lemma chapter_article_ids_length (base : str) (article_chunks : list (list TextChunk)) :
  forall c,
    length (chapter_article_ids base c article_chunks) = length (concat article_chunks).
Proof.
  induction article_chunks as [|chunks rest IH]; intros c;
    cbn [chapter_article_ids concat]; [reflexivity|].
  rewrite !length_app, IH. unfold chunk_article_ids. now rewrite ids_from_length.
Qed.

End IdFacts.

(** X24.  The identifiers that [chunk_document] gives its chunks are
    pairwise distinct, whatever the number of chunks of each article
    and whatever the identifier of the document, and each one starts
    with the identifier of the document.  [chunk_article] gives one
    identifier to each chunk it returns, the base followed by an
    underscore and the index of the chunk written with three digits at
    least; [chunk_chapter] gives one to the title, if any, and one to
    each chunk of its articles. *)
Theorem X24_chunk_identifiers_are_distinct
  (document_id base_chunk_id : Py.str)
  (chapters0 : list (bool * list (list Models.TextChunk)))
  (article_chunks : list (list Models.TextChunk)) (has_footnotes has_title : bool)
  (chunks : list Models.TextChunk) :
  NoDup (Chunker.chunk_document_ids document_id chapters0 article_chunks has_footnotes)
  /\ Forall (fun id => exists suffix, id = document_id ++ suffix)
       (Chunker.chunk_document_ids document_id chapters0 article_chunks has_footnotes)
  /\ length (Chunker.chunk_article_ids base_chunk_id chunks) = length chunks
  /\ NoDup (Chunker.chunk_article_ids base_chunk_id chunks)
  /\ length (Chunker.chunk_chapter_ids base_chunk_id has_title article_chunks)
     = (if has_title then 1 else 0) + length (concat article_chunks).
Proof.
  split; [|split; [|split; [|split]]].
  - rewrite IdFacts.chunk_document_ids_keys. apply IdFacts.NoDup_map_inj.
    + intros x y H. apply app_inv_head in H. now apply IdFacts.key_suffix_injective.
    + apply IdFacts.document_keys_nodup.
  - rewrite IdFacts.chunk_document_ids_keys. apply Forall_map.
    rewrite Forall_forall. intros k _. now exists (Spec.key_suffix k).
  - apply IdFacts.ids_from_length.
  - unfold Chunker.chunk_article_ids. rewrite IdFacts.ids_from_counters.
    apply IdFacts.NoDup_map_inj; [|apply IdFacts.counters_nodup].
    intros x y H. unfold Chunker.chunk_id in H. apply app_inv_head in H.
    injection H as H. now apply IdFacts.zero_pad3_inj.
  - unfold Chunker.chunk_chapter_ids. destruct has_title; cbn [length];
      now rewrite IdFacts.chapter_article_ids_length.
Qed.

(** ** The matcher finds what the pattern can match *)

Module ReComplete.
Import Py Re Spec ReFacts ReSound Anchored.

Unset Implicit Arguments.

(** A match that passes no character ends where it starts. *)
Lemma steps_empty (fl : flags) (r : regex) (p q : place) :
  steps fl r p q -> length (snd q) = length (snd p) -> q = p.
Proof.
  induction 1 as [ p | f pv c t Hc | pv c t Hc | r1 r2 p q u H1 IH1 H2 IH2
                 | r1 r2 p q H1 IH1 | r1 r2 p q H1 IH1 | g r1 p
                 | g r1 p q u H1 IH1 H2 IH2 | n r1 p q H1 IH1 | p Hb | p He | p He
                 | r1 p q H1 IH1 ]; intros Hlen; try reflexivity;
    try (cbn [snd length] in Hlen; lia); try (now apply IH1).
  - pose proof (steps_shrinks _ _ _ _ H1). pose proof (steps_shrinks _ _ _ _ H2).
    assert (q = p) by (apply IH1; lia). subst q. apply IH2. lia.
  - pose proof (steps_shrinks _ _ _ _ H1). pose proof (steps_shrinks _ _ _ _ H2).
    assert (q = p) by (apply IH1; lia). subst q. apply IH2. lia.
Qed.

(** The matcher succeeds with a continuation that succeeds more often. *)
Lemma star_loop_mono (g : bool)
  (step : state -> (state -> option state) -> option state) :
  (forall st k1 k2,
      (forall st', k1 st' <> None -> k2 st' <> None) ->
      step st k1 <> None -> step st k2 <> None) ->
  forall n n' st k1 k2,
    n <= n' ->
    (forall st', k1 st' <> None -> k2 st' <> None) ->
    star_loop step g k1 n st <> None -> star_loop step g k2 n' st <> None.
Proof.
  intros Hstep. induction n as [|n IH]; intros n' st k1 k2 Hn Hk H.
  - cbn [star_loop] in H. apply Hk in H. destruct n' as [|n']; [exact H|].
    cbn [star_loop]. destruct g.
    + destruct (step st _); [discriminate | exact H].
    + destruct (k2 st); [discriminate | contradiction].
  - destruct n' as [|n']; [lia|]. cbn [star_loop] in H |- *.
    set (more1 := step st (fun st1 => if pos st <? pos st1
                                      then star_loop step g k1 n st1 else None)) in *.
    set (more2 := step st (fun st1 => if pos st <? pos st1
                                      then star_loop step g k2 n' st1 else None)).
    assert (Hmore : more1 <> None -> more2 <> None).
    { apply Hstep. intros st'. destruct (pos st <? pos st'); [|auto].
      apply IH; [lia | exact Hk]. }
    destruct g.
    + destruct more1 eqn:E1.
      * destruct more2; [discriminate | exfalso; apply Hmore; [discriminate | reflexivity]].
      * cbn [orelse] in H. apply Hk in H. destruct more2; [discriminate | exact H].
    + destruct (k1 st) eqn:E1.
      * assert (H2 : k2 st <> None) by (apply Hk; rewrite E1; discriminate).
        destruct (k2 st); [discriminate | contradiction].
      * cbn [orelse] in H. destruct (k2 st); [discriminate|]. cbn [orelse].
        now apply Hmore.
Qed.

Lemma m_mono (fl : flags) (r : regex) :
  forall st k1 k2,
    (forall st', k1 st' <> None -> k2 st' <> None) ->
    m fl r st k1 <> None -> m fl r st k2 <> None.
Proof.
  induction r as [ | f | | r1 IH1 r2 IH2 | r1 IH1 r2 IH2 | g r1 IH1
                 | n r1 IH1 | | | | r1 IH1 ]; intros st k1 k2 Hk; cbn [m].
  - apply Hk.
  - destruct (rest st) as [|c t]; [auto|]. destruct (f c); [apply Hk | auto].
  - destruct (rest st) as [|c t]; [auto|]. destruct (dot_ok fl c); [apply Hk | auto].
  - apply IH1. intros st'. now apply IH2.
  - intros H. destruct (m fl r1 st k1) eqn:E1.
    + assert (H1 : m fl r1 st k2 <> None)
        by (apply (IH1 st k1 k2 Hk); rewrite E1; discriminate).
      destruct (m fl r1 st k2); [discriminate | contradiction].
    + cbn [orelse] in H. apply (IH2 st k1 k2 Hk) in H.
      destruct (m fl r1 st k2); [discriminate | exact H].
  - apply star_loop_mono; [exact IH1 | lia | exact Hk].
  - apply IH1. intros st'. apply Hk.
  - destruct (at_bol fl st); [apply Hk | auto].
  - destruct (at_eol fl st); [apply Hk | auto].
  - destruct (is_nil (rest st)); [apply Hk | auto].
  - destruct (m fl r1 st Some); [apply Hk | auto].
Qed.

(** If the pattern can match from the place of [st] to a place where
    the continuation succeeds, the matcher succeeds. *)
Lemma m_complete (fl : flags) (r : regex) (p q : place) :
  steps fl r p q ->
  forall st k,
    place_of st = p ->
    (forall st',
        place_of st' = q ->
        pos st' + length (snd q) = pos st + length (snd p) ->
        k st' <> None) ->
    m fl r st k <> None.
Proof.
  induction 1 as [ p | f pv c t Hc | pv c t Hc | r1 r2 p q u H1 IH1 H2 IH2
                 | r1 r2 p q H1 IH1 | r1 r2 p q H1 IH1 | g r1 p
                 | g r1 p q u H1 IH1 H2 IH2 | n r1 p q H1 IH1 | p Hb | p He | p He
                 | r1 p q H1 IH1 ]; intros st k Hst Hk.
  - cbn [m]. now apply Hk.
  - cbn [m]. unfold place_of in Hst. injection Hst as Hp Hr. rewrite Hr, Hc.
    apply Hk; [reflexivity|]. cbn [advance pos snd length]. lia.
  - cbn [m]. unfold place_of in Hst. injection Hst as Hp Hr. rewrite Hr, Hc.
    apply Hk; [reflexivity|]. cbn [advance pos snd length]. lia.
  - cbn [m]. apply IH1; [exact Hst|]. intros st1 Hst1 Hpos1.
    apply IH2; [exact Hst1|]. intros st2 Hst2 Hpos2. apply Hk; [exact Hst2 | lia].
  - cbn [m]. specialize (IH1 st k Hst Hk).
    destruct (m fl r1 st k); [discriminate | contradiction].
  - cbn [m]. specialize (IH1 st k Hst Hk).
    destruct (m fl r1 st k); [discriminate | exact IH1].
  - cbn [m star_loop]. assert (H : k st <> None) by (apply Hk; [exact Hst | lia]).
    destruct g.
    + destruct (m fl r1 st _); [discriminate | exact H].
    + destruct (k st); [discriminate | contradiction].
  - pose proof (steps_shrinks _ _ _ _ H1) as Hs1.
    pose proof (steps_shrinks _ _ _ _ H2) as Hs2.
    destruct (Nat.eq_dec (length (snd q)) (length (snd p))) as [Heq|Hne].
    + apply steps_empty in H1; [|exact Heq]. subst q. now apply IH2.
    + assert (Hmore :
                m fl r1 st
                  (fun st1 => if pos st <? pos st1
                              then star_loop (m fl r1) g k (length (rest st)) st1
                              else None) <> None).
      { apply IH1; [exact Hst|]. intros st1 Hst1 Hpos1.
        replace (pos st <? pos st1) with true by (symmetry; apply Nat.ltb_lt; lia).
        specialize (IH2 st1 k Hst1). cbn [m] in IH2.
        apply (star_loop_mono g (m fl r1) (m_mono fl r1)
                 (S (length (rest st1))) (length (rest st)) st1 k k).
        - rewrite <- Hst in Hs1, Hne. rewrite <- Hst1 in Hs1, Hne.
          cbn [place_of snd] in Hs1, Hne. lia.
        - auto.
        - apply IH2. intros st2 Hst2 Hpos2. apply Hk; [exact Hst2 | lia]. }
      cbn [m star_loop]. destruct g.
      * destruct (m fl r1 st _); [discriminate | contradiction].
      * destruct (k st); [discriminate | exact Hmore].
  - cbn [m]. apply IH1; [exact Hst|]. intros st1 Hst1 Hpos1.
    apply Hk; [exact Hst1 | exact Hpos1].
  - cbn [m]. replace (at_bol fl st) with (place_bol fl p) by (now rewrite <- Hst).
    rewrite Hb. now apply Hk.
  - cbn [m]. replace (at_eol fl st) with (place_eol fl p) by (now rewrite <- Hst).
    rewrite He. now apply Hk.
  - cbn [m]. rewrite <- Hst in He. cbn [place_of snd] in He. rewrite He.
    cbn [is_nil]. apply Hk; [exact Hst | reflexivity].
  - cbn [m].
    assert (Hin : m fl r1 st Some <> None).
    { apply IH1; [exact Hst | discriminate]. }
    destruct (m fl r1 st Some) as [st1|]; [|contradiction].
    apply Hk; [exact Hst | reflexivity].
Qed.

End ReComplete.

(** ** Articles that start with their header *)

Module HeadedFacts.
Import Py Re Spec Parser ReSound Anchored ReComplete.

Unset Implicit Arguments.

Lemma steps_lit_ex (fl : flags) (s : str) :
  forall pv t, exists pv', steps fl (Lit s) (pv, s ++ t) (pv', t).
Proof.
  induction s as [|c s IH]; intros pv t; cbn [Lit app].
  - exists pv. constructor.
  - destruct (IH (Some c) t) as (pv' & H). exists pv'.
    eapply steps_seq; [|exact H]. constructor. apply N.eqb_refl.
Qed.

Lemma steps_star_class_ex (fl : flags) (g : bool) (f : char -> bool) (w : str) :
  Forall (fun c => f c = true) w ->
  forall pv t, exists pv', steps fl (Star g (Chr f)) (pv, w ++ t) (pv', t).
Proof.
  induction 1 as [|c w Hc Hw IH]; intros pv t; cbn [app].
  - exists pv. constructor.
  - destruct (IH (Some c) t) as (pv' & H). exists pv'.
    eapply steps_star_more; [|exact H]. now constructor.
Qed.

Lemma steps_star_dot_ex (fl : flags) (g : bool) (w : str) :
  one_line w ->
  forall pv, exists pv', steps fl (Star g Dot) (pv, w) (pv', []).
Proof.
  induction w as [|c w IH]; intros Hone pv.
  - exists pv. constructor.
  - destruct (IH (OneLine.one_line_tail c w Hone) (Some c)) as (pv' & H). exists pv'.
    eapply steps_star_more; [|exact H]. constructor.
    unfold dot_ok. rewrite (OneLine.one_line_head c w Hone). apply orb_true_r.
Qed.

(** The header tail matches whatever follows on the line. *)
Lemma steps_header_tail (fl : flags) (pv : option char) (w : str) :
  one_line w -> exists pv', steps fl Patterns.header_tail (pv, w) (pv', []).
Proof.
  intros Hone. destruct (steps_star_dot_ex fl true w Hone pv) as (pv' & H).
  exists pv'. unfold Patterns.header_tail.
  eapply steps_seq; [apply steps_star_stop|].
  eapply steps_seq; [apply steps_alt_r, steps_eps|].
  eapply steps_seq; [apply steps_star_stop|].
  eapply steps_seq; [apply steps_group; exact H|].
  apply steps_eol. reflexivity.
Qed.

(** The article pattern matches a line that starts with the word of an
    article, whitespace or none, and one more character at least. *)
Lemma steps_article (ws : str) (c : char) (rest : str) :
  Forall (fun d => isspace d = true) ws -> isspace c = false ->
  one_line rest ->
  exists pv',
    steps no_flags Patterns.article_pattern
      (None, Patterns.madeh ++ ws ++ c :: rest) (pv', []).
Proof.
  intros Hws Hc Hone.
  destruct (steps_lit_ex no_flags Patterns.madeh None (ws ++ c :: rest)) as (pv1 & H1).
  destruct (steps_star_class_ex no_flags true isspace ws Hws pv1 (c :: rest))
    as (pv2 & H2).
  destruct (steps_header_tail no_flags (Some c) rest Hone) as (pv' & H3).
  exists pv'. unfold Patterns.article_pattern.
  eapply steps_seq; [apply steps_bol; reflexivity|].
  eapply steps_seq; [|exact H3].
  apply steps_group. eapply steps_seq; [exact H1|].
  eapply steps_seq; [exact H2|]. unfold Plus.
  eapply steps_seq; [|apply steps_star_stop].
  constructor. unfold Patterns.non_ws, not_space. now rewrite Hc.
Qed.

Lemma found_at_start (fl : flags) (r : regex) (text : str) (q : place) :
  MULTILINE fl = false ->
  steps fl (Seq Bol r) (None, text) q ->
  found_in fl (Seq Bol r) text = true.
Proof.
  intros Hfl Hst. rewrite ArticleFacts.found_in_nil.
  rewrite finditer_start by now left.
  unfold attempt.
  pose proof (m_complete fl (Seq Bol r) _ _ Hst
                {| pos := 0; prev := None; rest := text; caps := [] |} Some eq_refl) as H.
  destruct (m fl (Seq Bol r) _ Some) as [st1|].
  - destruct (pos st1 =? 0); [|reflexivity].
    now destruct (m fl (Seq Bol r) _ _).
  - exfalso. apply H; [discriminate | reflexivity].
Qed.

(** *** What follows the word in a stripped text *)

Lemma startswith_split (w s : str) :
  startswith w s = true -> s = w ++ skipn (length w) s.
Proof.
  revert s. induction w as [|c w IH]; intros s H; [reflexivity|].
  destruct s as [|d s]; [discriminate|]. cbn [startswith] in H.
  apply andb_true_iff in H. destruct H as [Hc Hw]. apply N.eqb_eq in Hc. subst d.
  cbn [length skipn app]. f_equal. now apply IH.
Qed.

Lemma last_app_right (w t : str) (d : char) : t <> [] -> last (w ++ t) d = last t d.
Proof.
  intros Ht. induction w as [|c w IH]; [reflexivity|]. cbn [app last].
  destruct (w ++ t) eqn:E; [|exact IH].
  apply app_eq_nil in E. destruct E as [_ E]. contradiction.
Qed.

Lemma all_space_last (t : str) (d : char) :
  Forall (fun c => isspace c = true) t -> t <> [] -> isspace (last t d) = true.
Proof.
  induction 1 as [|c t Hc Ht IH]; intros Hne; [contradiction|]. cbn [last].
  destruct t; [exact Hc | apply IH; discriminate].
Qed.

Lemma after_word (w tail : str) :
  strip (w ++ tail) = w ++ tail -> tail <> [] ->
  exists ws c rest,
    tail = ws ++ c :: rest
    /\ Forall (fun d => isspace d = true) ws /\ isspace c = false.
Proof.
  intros Hs Hne.
  pose proof (Spacing.leading_ws_split tail) as Hsplit.
  pose proof (Spacing.leading_ws_spaces tail) as Hsp.
  destruct (lstrip tail) as [|c rest] eqn:El.
  - exfalso. rewrite app_nil_r in Hsplit. rewrite <- Hsplit in Hsp.
    destruct (Spacing.strip_trimmed (w ++ tail)) as [_ Hlast].
    rewrite Hs in Hlast.
    assert (Hcat : w ++ tail <> []).
    { intros E. apply app_eq_nil in E. destruct E as [_ E]. contradiction. }
    specialize (Hlast Hcat). rewrite last_app_right in Hlast by exact Hne.
    rewrite all_space_last in Hlast by assumption. discriminate.
  - exists (firstn (Spec.leading_ws tail) tail), c, rest.
    split; [exact Hsplit|]. split; [exact Hsp|].
    eapply StripFacts.lstrip_head. exact El.
Qed.

Section Unicode.

Variable nfkc : str -> str.

Lemma headed_article (article_text : str) :
  startswith Patterns.madeh (TextUtils.clean_text nfkc article_text) = true ->
  TextUtils.clean_text nfkc article_text <> Patterns.madeh ->
  headed (TextUtils.clean_text nfkc article_text) = true.
Proof.
  intros Hstart Hmore.
  pose proof (ArticleFacts.clean_text_one_line nfkc article_text) as Hone.
  pose proof (CleanFacts.clean_text_stripped nfkc article_text) as Hs.
  apply startswith_split in Hstart.
  set (cleaned := TextUtils.clean_text nfkc article_text) in *.
  set (tail := skipn (length Patterns.madeh) cleaned) in *.
  clearbody tail. clearbody cleaned.
  assert (Hne : tail <> []).
  { intros E. apply Hmore. rewrite Hstart, E. apply app_nil_r. }
  rewrite Hstart in Hs.
  destruct (after_word _ _ Hs Hne) as (ws & c & rest & Ht & Hws & Hc).
  assert (Hrest : one_line rest).
  { intros Hin. apply Hone. rewrite Hstart, Ht.
    apply in_or_app. right. apply in_or_app. right. now right. }
  destruct (steps_article ws c rest Hws Hc Hrest) as (pv' & Hst).
  unfold headed. rewrite Hstart, Ht.
  unfold Patterns.article_pattern in *.
  rewrite (found_at_start no_flags _ _ _ eq_refl Hst). reflexivity.
Qed.

End Unicode.

End HeadedFacts.

(** X25.  An article text whose cleaned form starts with the word of
    an article and goes on after it is a header line for
    [parse_article]: the article pattern matches all of it, so the
    article is built with empty content, a word count of 0, no
    subsection and no note, whatever the text says after the header.
    The validated model [core.models.LegalArticle] refuses such an
    article. *)
Theorem X25_article_starting_with_its_header_is_emptied
  (nfkc : Py.str -> Py.str) (article_text num title : Py.str)
  (Hstart : Py.startswith Patterns.madeh (TextUtils.clean_text nfkc article_text) = true)
  (Hmore : TextUtils.clean_text nfkc article_text <> Patterns.madeh) :
  let article := Parser.parse_article nfkc article_text num title in
  Spec.headed (TextUtils.clean_text nfkc article_text) = true
  /\ article = Parser.new_LegalArticle num title [] [] []
  /\ Parser.article_content article = []
  /\ Parser.article_word_count article = 0%Z
  /\ Models.new_LegalArticle num title (Parser.article_content article) [] []
     = Exn.Raise Exn.ValueError.
Proof.
  intros article.
  pose proof (HeadedFacts.headed_article nfkc article_text Hstart Hmore) as Hh.
  assert (Ha : article = Parser.new_LegalArticle num title [] [] []).
  { subst article. unfold Parser.parse_article. cbv zeta.
    rewrite ArticleFacts.article_interior_cases, Hh.
    now rewrite ArticleFacts.extract_subsections_nil, ArticleFacts.extract_notes_nil. }
  split; [exact Hh|]. split; [exact Ha|]. rewrite Ha. repeat split.
Qed.

Lemma X25_article_starting_with_its_header_witness :
  let article :=
    Parser.parse_article Unicode.nfkc Inputs.short_article [] [] in
  Py.startswith Patterns.madeh (TextUtils.clean_text Unicode.nfkc Inputs.short_article)
  = true
  /\ Parser.article_content article = []
  /\ Models.new_LegalArticle [] [] (Parser.article_content article) [] []
     = Exn.Raise Exn.ValueError.
Proof.
  assert (Hstart : Py.startswith Patterns.madeh
                     (TextUtils.clean_text Unicode.nfkc Inputs.short_article) = true)
    by (vm_compute; reflexivity).
  assert (Hmore : TextUtils.clean_text Unicode.nfkc Inputs.short_article
                  <> Patterns.madeh)
    by (vm_compute; discriminate).
  pose proof (@X25_article_starting_with_its_header_is_emptied Unicode.nfkc
                Inputs.short_article [] [] Hstart Hmore) as H.
  cbv zeta in H. destruct H as (_ & _ & Hc & _ & Hv).
  cbv zeta. split; [exact Hstart|]. split; [exact Hc | exact Hv].
Defined.

(** ** Dates *)

Module DateFacts.
Import Py Re Spec Models ReSound ScanFacts ReComplete.

Unset Implicit Arguments.

Lemma steps_eps_inv (fl : flags) (p q : place) : steps fl Eps p q -> q = p.
Proof. now inversion 1. Qed.

Lemma steps_alt_inv (fl : flags) (r1 r2 : regex) (p q : place) :
  steps fl (Alt r1 r2) p q -> steps fl r1 p q \/ steps fl r2 p q.
Proof. inversion 1; subst; auto. Qed.

Lemma steps_eol_inv (fl : flags) (p q : place) :
  steps fl Eol p q -> q = p /\ place_eol fl p = true.
Proof. inversion 1; subst. auto. Qed.

(** *** What the date patterns match *)

Lemma steps_upto_class (fl : flags) (f : char -> bool) (n : nat) :
  forall p q,
    steps fl (UpTo n (Chr f)) p q ->
    exists w, snd p = w ++ snd q /\ length w <= n /\ Forall (fun c => f c = true) w.
Proof.
  induction n as [|n IH]; intros p q H; cbn [UpTo] in H.
  - apply steps_eps_inv in H. subst q. exists [].
    split; [reflexivity | split; [cbn; lia | constructor]].
  - unfold Opt in H. apply steps_alt_inv in H. destruct H as [H|H].
    + apply steps_seq_inv in H. destruct H as (u & Hc & Hn).
      apply steps_chr_inv in Hc. destruct Hc as (c & Hc & Hp & _).
      destruct (IH _ _ Hn) as (w & Hw & Hl & Hall).
      exists (c :: w). split; [|split].
      * rewrite Hp, Hw. reflexivity.
      * cbn [length]. lia.
      * now constructor.
    + apply steps_eps_inv in H. subst q. exists [].
      split; [reflexivity | split; [cbn; lia | constructor]].
Qed.

Lemma steps_one_or_two (fl : flags) (f : char -> bool) (p q : place) :
  steps fl (Between 1 2 (Chr f)) p q ->
  exists w, snd p = w ++ snd q /\ 1 <= length w <= 2 /\ Forall (fun c => f c = true) w.
Proof.
  unfold Between. intros H. apply steps_seq_inv in H. destruct H as (u & H1 & H2).
  apply LawSpans.steps_times_class in H1. destruct H1 as (w1 & Hw1 & Hl1 & Ha1).
  change (2 - 1) with 1 in H2.
  apply steps_upto_class in H2. destruct H2 as (w2 & Hw2 & Hl2 & Ha2).
  exists (w1 ++ w2). split; [|split].
  - now rewrite Hw1, Hw2, app_assoc.
  - rewrite length_app. lia.
  - apply Forall_app. now split.
Qed.

Lemma date_sound (digit : char -> bool) (year : nat) (s : str) (q : place) :
  trimmed s ->
  steps no_flags (date_pattern digit year) (None, s) q ->
  date_shape digit year s.
Proof.
  intros [_ Hlast] H. unfold date_pattern in H.
  apply steps_seq_inv in H. destruct H as (q0 & Hb & H).
  apply HeaderFacts.steps_bol_inv in Hb. destruct Hb as [-> _].
  apply steps_seq_inv in H. destruct H as (q1 & Hd & H).
  apply steps_one_or_two in Hd. destruct Hd as (day & Hday & Hlday & Haday).
  apply steps_seq_inv in H. destruct H as (q2 & Hs1 & H).
  apply steps_chr_inv in Hs1. destruct Hs1 as (c1 & Hc1 & Hq1 & _).
  apply N.eqb_eq in Hc1. subst c1.
  apply steps_seq_inv in H. destruct H as (q3 & Hm & H).
  apply steps_one_or_two in Hm. destruct Hm as (month & Hmonth & Hlmonth & Hamonth).
  apply steps_seq_inv in H. destruct H as (q4 & Hs2 & H).
  apply steps_chr_inv in Hs2. destruct Hs2 as (c2 & Hc2 & Hq3 & _).
  apply N.eqb_eq in Hc2. subst c2.
  apply steps_seq_inv in H. destruct H as (q5 & Hy & He).
  apply LawSpans.steps_times_class in Hy. destruct Hy as (yr & Hyr & Hlyr & Hayr).
  apply steps_eol_inv in He. destruct He as [-> Heol].
  cbn [snd] in Hday. rewrite Hq1, Hmonth, Hq3, Hyr in Hday.
  assert (Hend : snd q5 = []).
  { unfold place_eol in Heol. destruct (snd q5) as [|c t] eqn:E; [reflexivity|].
    exfalso. cbn [MULTILINE no_flags orb] in Heol.
    apply andb_true_iff in Heol. destruct Heol as [Hc Ht].
    apply N.eqb_eq in Hc. subst c. destruct t; [|discriminate].
    assert (Hne : s <> []) by (rewrite Hday; now destruct day).
    specialize (Hlast Hne). rewrite Hday in Hlast.
    change (day ++ slash :: month ++ slash :: yr ++ [newline])
      with (day ++ (slash :: month ++ slash :: yr ++ [newline])) in Hlast.
    rewrite HeadedFacts.last_app_right in Hlast by discriminate.
    change (slash :: month ++ slash :: yr ++ [newline])
      with ((slash :: month) ++ (slash :: yr ++ [newline])) in Hlast.
    rewrite HeadedFacts.last_app_right in Hlast by discriminate.
    change (slash :: yr ++ [newline]) with ((slash :: yr) ++ [newline]) in Hlast.
    rewrite HeadedFacts.last_app_right in Hlast by discriminate.
    discriminate. }
  rewrite Hend, app_nil_r in Hday.
  exists day, month, yr.
  split; [exact Hday|]. split; [exact Hlday|]. split; [exact Hlmonth|].
  split; [exact Hlyr|].
  repeat (apply Forall_app; split); assumption.
Qed.

(** *** The date patterns match every date of the shape *)

Lemma steps_times_ex (fl : flags) (f : char -> bool) (w : str) :
  Forall (fun c => f c = true) w ->
  forall pv t, exists pv', steps fl (Times (length w) (Chr f)) (pv, w ++ t) (pv', t).
Proof.
  induction 1 as [|c w Hc Hw IH]; intros pv t; cbn [length Times app].
  - exists pv. constructor.
  - destruct (IH (Some c) t) as (pv' & H). exists pv'.
    eapply steps_seq; [|exact H]. now constructor.
Qed.

Lemma steps_upto_ex (fl : flags) (f : char -> bool) (w : str) :
  Forall (fun c => f c = true) w ->
  forall n pv t,
    length w <= n ->
    exists pv', steps fl (UpTo n (Chr f)) (pv, w ++ t) (pv', t).
Proof.
  induction 1 as [|c w Hc Hw IH]; intros n pv t Hn; cbn [app].
  - exists pv. destruct n; cbn [UpTo]; [constructor|].
    apply steps_alt_r. constructor.
  - destruct n as [|n]; [cbn in Hn; lia|]. cbn [length] in Hn.
    destruct (IH n (Some c) t) as (pv' & H); [lia|]. exists pv'.
    cbn [UpTo]. apply steps_alt_l. eapply steps_seq; [|exact H]. now constructor.
Qed.

Lemma steps_one_or_two_ex (fl : flags) (f : char -> bool) (w : str) :
  Forall (fun c => f c = true) w -> 1 <= length w <= 2 ->
  forall pv t, exists pv', steps fl (Between 1 2 (Chr f)) (pv, w ++ t) (pv', t).
Proof.
  intros Hall Hl pv t. destruct w as [|c w]; [cbn in Hl; lia|].
  inversion Hall as [|? ? Hc Hw]; subst. cbn [length] in Hl.
  destruct (steps_upto_ex fl f w Hw 1 (Some c) t) as (pv' & H); [lia|].
  exists pv'. unfold Between. change (2 - 1) with 1. cbn [Times app].
  eapply steps_seq; [|exact H].
  eapply steps_seq; [now constructor | constructor].
Qed.

Lemma date_complete (digit : char -> bool) (year : nat) (s : str) :
  date_shape digit year s ->
  exists pv', steps no_flags (date_pattern digit year) (None, s) (pv', []).
Proof.
  intros (day & month & yr & -> & Hld & Hlm & Hly & Hall).
  apply Forall_app in Hall. destruct Hall as [Hday Hall].
  apply Forall_app in Hall. destruct Hall as [Hmonth Hyr].
  destruct (steps_one_or_two_ex no_flags digit day Hday Hld None
              (slash :: month ++ slash :: yr)) as (pv1 & H1).
  destruct (steps_one_or_two_ex no_flags digit month Hmonth Hlm (Some slash)
              (slash :: yr)) as (pv2 & H2).
  destruct (steps_times_ex no_flags digit yr Hyr (Some slash) []) as (pv3 & H3).
  rewrite Hly, app_nil_r in H3.
  exists pv3. unfold date_pattern.
  eapply steps_seq; [apply steps_bol; reflexivity|].
  eapply steps_seq; [exact H1|].
  eapply steps_seq; [constructor; apply N.eqb_refl|].
  eapply steps_seq; [exact H2|].
  eapply steps_seq; [constructor; apply N.eqb_refl|].
  eapply steps_seq; [exact H3|].
  apply steps_eol. reflexivity.
Qed.

(** [re.match] with a date pattern accepts the dates of its shape and
    nothing else. *)
Lemma match_date (digit : char -> bool) (year : nat) (s : str) :
  trimmed s ->
  (match match_ no_flags (date_pattern digit year) s with
   | Some _ => true
   | None => false
   end = true <-> date_shape digit year s).
Proof.
  intros Ht. unfold match_. split.
  - destruct (m no_flags (date_pattern digit year) _ Some) as [st1|] eqn:E;
      [intros _ | discriminate].
    apply m_sound in E. destruct E as (st' & _ & Hst & _).
    eapply date_sound; [exact Ht | exact Hst].
  - intros H. apply date_complete in H. destruct H as (pv' & H).
    pose proof (m_complete no_flags _ _ _ H
                  {| pos := 0; prev := None; rest := s; caps := [] |} Some eq_refl) as Hm.
    destruct (m no_flags (date_pattern digit year) _ Some); [reflexivity|].
    exfalso. apply Hm; [discriminate | reflexivity].
Qed.

End DateFacts.

(** X26.  [validate_persian_date] accepts the empty text, the text
    whose stripped form is the word for an unknown date, and the texts
    whose stripped form is a date: a day and a month of one or two
    digits and a year of four or of two digits, separated by slashes,
    the digits being all decimal digits or all Persian digits.  It
    accepts nothing else, and it does not look at the values of the day
    and the month. *)
Theorem X26_dates_accepted_have_the_shape_of_a_date
  (isdecimal : Py.char -> bool) (date_str : Py.str) :
  Models.validate_persian_date isdecimal date_str = true
  <-> (date_str = []
       \/ Py.strip date_str = Models.unknown
       \/ Spec.date_shape isdecimal 4 (Py.strip date_str)
       \/ Spec.date_shape isdecimal 2 (Py.strip date_str)
       \/ Spec.date_shape TextUtils.is_persian_digit 4 (Py.strip date_str)
       \/ Spec.date_shape TextUtils.is_persian_digit 2 (Py.strip date_str)).
Proof.
  pose proof (Spacing.strip_trimmed date_str) as Ht.
  pose proof (DateFacts.match_date isdecimal 4 _ Ht) as H1.
  pose proof (DateFacts.match_date isdecimal 2 _ Ht) as H2.
  pose proof (DateFacts.match_date TextUtils.is_persian_digit 4 _ Ht) as H3.
  pose proof (DateFacts.match_date TextUtils.is_persian_digit 2 _ Ht) as H4.
  unfold Models.validate_persian_date, Models.date_patterns. cbn [existsb].
  destruct date_str as [|c t]; [cbn; tauto|].
  cbn [Py.truthy Py.is_nil negb orb].
  destruct (Py.str_eqb (Py.strip (c :: t)) Models.unknown) eqn:E.
  - apply LawFacts.str_eqb_eq in E. tauto.
  - assert (Hne : Py.strip (c :: t) <> Models.unknown).
    { intros H. apply LawFacts.str_eqb_eq in H. congruence. }
    rewrite orb_false_r, !orb_true_iff, H1, H2, H3, H4.
    split; [tauto|]. intros [H|[H|H]]; [discriminate | contradiction | tauto].
Qed.

(** ** Legal references *)

Module RefFacts.
Import Py Re Spec TextUtils ReSound ScanFacts Anchored.

Unset Implicit Arguments.

(** What holds of the matches found at every index holds of the
    matches of [finditer]. *)
Lemma scan_Forall (P : match_obj -> Prop) (fl : flags) (r : regex) (text : str) :
  (forall before s,
      text = before ++ s ->
      Forall P (fst (attempt fl r (length before) (prev_after None before) s))) ->
  forall s before skip,
    text = before ++ s ->
    Forall P (scan fl r (length before) (prev_after None before) s skip).
Proof.
  intros Hatt. induction s as [|c t IH]; intros before skip Htext; cbn [scan].
  - destruct skip; [|constructor]. now apply Hatt.
  - assert (Hnext : forall skip',
              Forall P (scan fl r (S (length before)) (Some c) t skip')).
    { intros skip'. specialize (IH (before ++ [c]) skip').
      rewrite length_app, prev_after_snoc in IH. cbn [length] in IH.
      replace (length before + 1) with (S (length before)) in IH by lia.
      apply IH. rewrite Htext, <- app_assoc. reflexivity. }
    destruct skip as [|k]; [|apply Hnext].
    pose proof (Hatt before (c :: t) Htext) as Ha.
    destruct (attempt fl r (length before) (prev_after None before) (c :: t))
      as [ms jump].
    apply Forall_app. split; [exact Ha | apply Hnext].
Qed.

(** The group that holds the whole pattern captures the match. *)
Lemma attempt_group (fl : flags) (r : regex) (text before s : str) :
  text = before ++ s -> consumes r = true ->
  Forall (fun mt => group_or_empty mt 1 = substr text (m_start mt) (m_end mt))
    (fst (attempt fl (Group 1 r) (length before) (prev_after None before) s)).
Proof.
  intros Htext Hc.
  destruct (attempt_consuming fl (Group 1 r) (length before)
              (prev_after None before) s Hc) as [Ha _].
  rewrite Ha. clear Ha. cbn [m].
  match goal with
  | |- context [m fl r ?st ?k] => destruct (m fl r st k) as [res|] eqn:E
  end; [|constructor].
  apply m_sound in E. destruct E as (st' & Hk & _ & _ & _).
  injection Hk as <-. cbn [fst]. constructor; [|constructor].
  unfold group_or_empty, group, found. cbn [m_caps m_start m_end caps pos rest lookup_group].
  cbn [Nat.eqb]. unfold substr. rewrite Htext, skipn_app, skipn_all, Nat.sub_diag.
  reflexivity.
Qed.

Lemma findall1_whole (fl : flags) (r : regex) (text : str) :
  consumes r = true ->
  findall1 fl (Group 1 r) text = findall fl (Group 1 r) text.
Proof.
  intros Hc. unfold findall1, findall. apply map_ext_in.
  pose proof (scan_Forall _ fl (Group 1 r) text
                (fun before s H => attempt_group fl r text before s H Hc)
                text [] 0 eq_refl) as H.
  rewrite Forall_forall in H. exact H.
Qed.

Lemma map_const_repeat {A B : Type} (x : B) (l : list A) :
  map (fun _ => x) l = repeat x (length l).
Proof. induction l as [|a t IH]; [reflexivity|]. cbn [map length repeat]. now rewrite IH. Qed.

(** *** [str.find] *)

Lemma find_from_first (w : str) :
  forall s i,
    (exists before after, s = before ++ w ++ after) ->
    exists k,
      find_from w i s = (i + Z.of_nat k)%Z /\ occurs_first w s k.
Proof.
  induction s as [|c t IH]; intros i (before & after & Hs).
  - assert (w = []).
    { symmetry in Hs. apply app_eq_nil in Hs. destruct Hs as [_ Hs].
      now apply app_eq_nil in Hs. }
    subst w. exists 0. cbn. split; [f_equal; lia | split; [reflexivity | lia]].
  - cbn [find_from]. destruct (startswith w (c :: t)) eqn:E.
    + exists 0. split; [lia | split; [exact E | lia]].
    + destruct before as [|b before'].
      * cbn [app] in Hs. rewrite Hs, HeaderFacts.startswith_app in E. discriminate.
      * cbn [app] in Hs. injection Hs as -> Ht.
        destruct (IH (i + 1)%Z (ex_intro _ before' (ex_intro _ after Ht)))
          as (k & Hk & Hocc & Hbefore).
        exists (S k). split; [lia | split; [exact Hocc|]].
        intros [|j] Hj; [exact E | apply Hbefore; lia].
Qed.

Lemma reference_consumes (ty : reference_type) :
  consumes (Seq (Lit (reference_word ty))
              match ty with
              | note_ref =>
                  Seq (Star true (Chr isspace)) (Star true (Chr is_persian_digit))
              | law_ref => Seq (Plus true (Chr isspace)) (Plus true (Chr not_stop))
              | _ => Seq (Star true (Chr isspace)) (Plus true (Chr is_persian_digit))
              end) = true.
Proof. destruct ty; reflexivity. Qed.

(** The texts of the references of one type. *)
Lemma reference_texts (ty : reference_type) (text : str) :
  Forall (fun w => startswith (reference_word ty) w = true
                   /\ exists before after, text = before ++ w ++ after)
    (findall1 no_flags (reference_pattern ty) text).
Proof.
  unfold reference_pattern. rewrite findall1_whole by apply reference_consumes.
  eapply Forall_impl; [|apply findall_matched].
  intros w (before & after & pv' & Ht & Hst). split; [|eauto].
  apply HeaderFacts.steps_group_inv in Hst.
  apply steps_seq_inv in Hst. destruct Hst as (q & Hl & Hrest).
  apply HeaderFacts.steps_lit in Hl. cbn [snd] in Hl.
  destruct (steps_between _ _ _ _ Hrest) as (w2 & Hw2). unfold between in Hw2.
  cbn [snd] in Hw2. rewrite Hw2, app_assoc in Hl. apply app_inv_tail in Hl.
  rewrite Hl. apply HeaderFacts.startswith_app.
Qed.

End RefFacts.

(** X27.  Every reference of [extract_legal_references] has a text
    that starts with the word of its type and occurs in the subject,
    and its position is the offset at which that text occurs first: it
    is never negative, and two references with the same text have the
    same position, wherever they were found.  The references come by
    type, in the order article, note, subsection, chapter, law. *)
Theorem X27_reference_position_is_the_first_occurrence (text : Py.str) :
  let references := TextUtils.extract_legal_references text in
  Forall (fun r =>
            Py.startswith (TextUtils.reference_word (TextUtils.ref_type r))
              (TextUtils.ref_text r) = true
            /\ (0 <= TextUtils.ref_position r)%Z
            /\ Spec.occurs_first (TextUtils.ref_text r) text
                 (Z.to_nat (TextUtils.ref_position r)))
    references
  /\ (forall r1 r2, In r1 references -> In r2 references ->
        TextUtils.ref_text r1 = TextUtils.ref_text r2 ->
        TextUtils.ref_position r1 = TextUtils.ref_position r2)
  /\ exists n1 n2 n3 n4 n5,
       map TextUtils.ref_type references
       = repeat TextUtils.article_ref n1 ++ repeat TextUtils.note_ref n2
           ++ repeat TextUtils.subsection_ref n3 ++ repeat TextUtils.chapter_ref n4
           ++ repeat TextUtils.law_ref n5.
Proof.
  intros references. subst references. unfold TextUtils.extract_legal_references.
  split; [|split].
  - rewrite Forall_forall. intros r Hin. apply in_flat_map in Hin.
    destruct Hin as (ty & _ & Hin). apply in_map_iff in Hin.
    destruct Hin as (w & <- & Hw).
    pose proof (RefFacts.reference_texts ty text) as Hall.
    rewrite Forall_forall in Hall. destruct (Hall w Hw) as [Hstart Hocc].
    cbn [TextUtils.ref_text TextUtils.ref_type TextUtils.ref_position].
    destruct (RefFacts.find_from_first w text 0%Z Hocc) as (k & Hk & Hfirst).
    unfold Py.find. rewrite Hk. split; [exact Hstart|]. split; [lia|].
    now replace (Z.to_nat (0 + Z.of_nat k)) with k by lia.
  - intros r1 r2 H1 H2 Heq.
    apply in_flat_map in H1. destruct H1 as (ty1 & _ & H1).
    apply in_map_iff in H1. destruct H1 as (w1 & <- & _).
    apply in_flat_map in H2. destruct H2 as (ty2 & _ & H2).
    apply in_map_iff in H2. destruct H2 as (w2 & <- & _).
    cbn [TextUtils.ref_text TextUtils.ref_position] in *. now subst.
  - unfold TextUtils.reference_types. cbn [flat_map].
    rewrite app_nil_r, !map_app, !map_map. cbn [TextUtils.ref_type].
    rewrite !RefFacts.map_const_repeat. now eexists _, _, _, _, _.
Qed.

(** ** Where the law separators are found *)

Module SeparatorFacts.
Import Py Re Spec Respace.

Unset Implicit Arguments.

Section Class.

Variable fl : flags.
Variable f : char -> bool.

Lemma run_class_pos (s : str) :
  forall st, pos (run_class f st s) = pos st + leading f s.
Proof.
  induction s as [|c t IH]; intros st; cbn [run_class leading]; [lia|].
  destruct (f c); [|lia]. rewrite IH. cbn. lia.
Qed.

Lemma run_class_caps (s : str) :
  forall st, caps (run_class f st s) = caps st.
Proof.
  induction s as [|c t IH]; intros st; cbn [run_class]; [reflexivity|].
  destruct (f c); [|reflexivity]. now rewrite IH.
Qed.

Lemma pass_pos (n : nat) :
  forall s st, n <= length s -> pos (pass n st s) = pos st + n.
Proof.
  induction n as [|n IH]; intros s st Hn; cbn [pass]; [lia|].
  destruct s as [|c t]; [cbn in Hn; lia|]. rewrite IH by (cbn in Hn; lia). cbn. lia.
Qed.

Lemma pass_caps (n : nat) : forall s st, caps (pass n st s) = caps st.
Proof.
  induction n as [|n IH]; intros s st; cbn [pass]; [reflexivity|].
  destruct s as [|c t]; [reflexivity|]. now rewrite IH.
Qed.

Lemma pass_rest (n : nat) :
  forall s st, rest st = s -> rest (pass n st s) = skipn n s.
Proof.
  induction n as [|n IH]; intros s st Hst; cbn [pass skipn]; [assumption|].
  destruct s as [|c t]; [assumption|]. now apply IH.
Qed.

Lemma leading_skipn (n : nat) :
  forall s, n <= leading f s -> leading f s = n + leading f (skipn n s).
Proof.
  induction n as [|n IH]; intros s Hn; [reflexivity|].
  destruct s as [|c t]; [cbn in Hn; lia|]. cbn [leading skipn] in *.
  destruct (f c); [|lia]. specialize (IH t). lia.
Qed.

Lemma leading_length (s : str) : leading f s <= length s.
Proof.
  induction s as [|c t IH]; cbn [leading length]; [lia|]. destruct (f c); lia.
Qed.

(** The greedy star over a class passes the whole run when the
    continuation succeeds after it. *)
Lemma star_class_total (k : state -> option state) :
  forall s st n x,
    rest st = s -> length s < n ->
    k (run_class f st s) = Some x ->
    star_loop (m fl (Chr f)) true k n st = Some x.
Proof.
  induction s as [|c t IH]; intros st n x Hst Hn Hx.
  - destruct n; [cbn in Hn; lia|]. cbn [star_loop run_class] in *.
    rewrite m_chr, Hst. exact Hx.
  - destruct n; [cbn in Hn; lia|]. cbn [star_loop run_class] in *.
    rewrite m_chr, Hst.
    destruct (f c) eqn:Hc; [|exact Hx].
    replace (pos st <? pos (advance c t st)) with true
      by (symmetry; apply Nat.ltb_lt; cbn; lia).
    rewrite (IH (advance c t st) n x); [reflexivity | reflexivity | cbn in Hn; lia | exact Hx].
Qed.

(** [n] characters of the class in a row. *)
Lemma times_class (n : nat) (k : state -> option state) :
  forall s st,
    rest st = s ->
    m fl (Times n (Chr f)) st k
    = if n <=? leading f s then k (pass n st s) else None.
Proof.
  induction n as [|n IH]; intros s st Hst; cbn [Times pass].
  - reflexivity.
  - rewrite m_seq, m_chr, Hst. destruct s as [|c t]; [reflexivity|].
    cbn [leading]. destruct (f c); [|reflexivity].
    rewrite (IH t (advance c t st) eq_refl). reflexivity.
Qed.

Lemma at_least_class (n : nat) (s : str) (st : state) :
  rest st = s ->
  m fl (AtLeast n (Chr f)) st Some
  = if n <=? leading f s
    then Some (run_class f (pass n st s) (skipn n s))
    else None.
Proof.
  intros Hst. unfold AtLeast. rewrite m_seq, (times_class n _ s st Hst).
  destruct (n <=? leading f s); [|reflexivity].
  rewrite m_star.
  apply (star_class_total Some (skipn n s)); [now apply pass_rest | | reflexivity].
  rewrite (pass_rest n s st Hst). lia.
Qed.

End Class.

Lemma attempt_separator (i : nat) (pv : option char) (s : str) :
  attempt no_flags Patterns.law_separator i pv s
  = if 10 <=? leading is_asterisk s
    then ([ {| m_start := i; m_end := i + leading is_asterisk s; m_caps := [] |} ],
          leading is_asterisk s)
    else ([], 0).
Proof.
  unfold attempt, Patterns.law_separator.
  change (N.eqb 42) with is_asterisk.
  set (st0 := {| pos := i; prev := pv; rest := s; caps := [] |}).
  rewrite (at_least_class no_flags is_asterisk 10 s st0 eq_refl).
  destruct (10 <=? leading is_asterisk s) eqn:E; [|reflexivity].
  apply Nat.leb_le in E.
  pose proof (leading_length is_asterisk s) as Hlen.
  assert (Hpos : pos (run_class is_asterisk (pass 10 st0 s) (skipn 10 s))
                 = i + leading is_asterisk s).
  { rewrite run_class_pos, pass_pos by lia.
    rewrite (leading_skipn is_asterisk 10 s E). cbn [pos st0]. lia. }
  rewrite Hpos.
  replace (i + leading is_asterisk s =? i) with false
    by (symmetry; apply Nat.eqb_neq; lia).
  unfold found. rewrite Hpos, run_class_caps, pass_caps. cbn [caps st0].
  now replace (i + leading is_asterisk s - i) with (leading is_asterisk s) by lia.
Qed.

Lemma scan_separator (s : str) :
  forall i pv skip,
    map m_end (scan no_flags Patterns.law_separator i pv s skip)
    = separator_ends i s skip.
Proof.
  induction s as [|c t IH]; intros i pv skip; cbn [scan separator_ends].
  - destruct skip; [|reflexivity]. rewrite attempt_separator. reflexivity.
  - destruct skip as [|k]; [|apply IH]. rewrite attempt_separator.
    destruct (10 <=? leading is_asterisk (c :: t)).
    + cbn [app map m_end]. rewrite IH. f_equal. f_equal. lia.
    + cbn [app pred]. apply IH.
Qed.

Lemma separator_ends_found (text : str) :
  map m_end (finditer no_flags Patterns.law_separator text) = separator_ends 0 text 0.
Proof. apply scan_separator. Qed.

(** *** A text of two parts and one separator *)

Lemma separator_ends_plain (s : str) :
  Forall (fun c => is_asterisk c = false) s ->
  forall i t, separator_ends i (s ++ t) 0 = separator_ends (i + length s) t 0.
Proof.
  induction 1 as [|c s Hc Hs IH]; intros i t; cbn [app length].
  - now rewrite Nat.add_0_r.
  - cbn [separator_ends leading]. rewrite Hc. cbn [Nat.leb].
    rewrite IH. f_equal. lia.
Qed.

Lemma separator_ends_skip (w : str) :
  forall i t, separator_ends i (w ++ t) (length w) = separator_ends (i + length w) t 0.
Proof.
  induction w as [|c w IH]; intros i t; cbn [app length].
  - now rewrite Nat.add_0_r.
  - cbn [separator_ends]. rewrite IH. f_equal. lia.
Qed.

Lemma leading_run (n : nat) (t : str) :
  match t with [] => True | c :: _ => is_asterisk c = false end ->
  leading is_asterisk (repeat 0x2A%N n ++ t) = n.
Proof.
  intros Ht. induction n as [|n IH]; cbn [repeat app].
  - destruct t as [|c t']; [reflexivity|]. cbn [leading]. now rewrite Ht.
  - cbn [leading is_asterisk]. cbn [N.eqb Pos.eqb]. now rewrite IH.
Qed.

Lemma separator_ends_one (a b : str) (n : nat) :
  Forall (fun c => is_asterisk c = false) a ->
  Forall (fun c => is_asterisk c = false) b ->
  10 <= n ->
  separator_ends 0 (a ++ repeat 0x2A%N n ++ b) 0 = [length a + n].
Proof.
  intros Ha Hb Hn. rewrite separator_ends_plain by exact Ha. cbn [Nat.add].
  destruct n as [|n]; [lia|].
  assert (Hlead : leading is_asterisk (repeat 0x2A%N (S n) ++ b) = S n).
  { apply leading_run. destruct Hb; [exact I | assumption]. }
  cbn [repeat app] in Hlead |- *. cbn [separator_ends]. rewrite Hlead.
  replace (10 <=? S n) with true by (symmetry; apply Nat.leb_le; lia).
  f_equal. replace (S n - 1) with (length (repeat 0x2A%N n)) by (rewrite repeat_length; lia).
  rewrite separator_ends_skip.
  rewrite <- (app_nil_r b), separator_ends_plain by exact Hb. reflexivity.
Qed.

End SeparatorFacts.

(** X28.  [identify_law_boundaries] cuts the text after every run of
    ten asterisks or more, and nowhere else: the separator offsets are
    those of [separator_ends], which reads the text from left to right
    and takes a run whole.  So two parts without an asterisk, joined by
    ten asterisks or more, are two laws: the first span holds the first
    part and the separator, the second span the second part; there is
    no second span when nothing follows the separator. *)
Theorem X28_laws_are_cut_after_every_separator_run (text a b : Py.str) (n : nat) :
  Splitter.identify_law_boundaries text
  = Splitter.boundaries_from 0 (Spec.separator_ends 0 text 0) (length text)
  /\ (Forall (fun c => Spec.is_asterisk c = false) a ->
      Forall (fun c => Spec.is_asterisk c = false) b ->
      10 <= n ->
      Splitter.identify_law_boundaries (a ++ repeat 0x2A%N n ++ b)
      = (0, length a + n)
          :: (if Py.is_nil b then []
              else [(length a + n, length a + n + length b)])).
Proof.
  split.
  - unfold Splitter.identify_law_boundaries.
    now rewrite SeparatorFacts.separator_ends_found.
  - intros Ha Hb Hn. unfold Splitter.identify_law_boundaries.
    rewrite SeparatorFacts.separator_ends_found.
    rewrite SeparatorFacts.separator_ends_one by assumption.
    cbn [Splitter.boundaries_from app].
    rewrite !length_app, repeat_length.
    replace (0 <? length a + n) with true by (symmetry; apply Nat.ltb_lt; lia).
    destruct b as [|c b'].
    + cbn [length Py.is_nil]. rewrite Nat.add_0_r, Nat.ltb_irrefl. reflexivity.
    + cbn [Py.is_nil app]. rewrite Nat.add_assoc.
      match goal with
      | |- context [if ?cond then _ else _] => destruct cond eqn:E
      end; [reflexivity|].
      apply Nat.ltb_ge in E. cbn [length] in E. lia.
Qed.

(** ** The text read from the paragraphs *)

Module ReadFacts.
Import Py Spec Splitter.

Unset Implicit Arguments.

Lemma rstrip_fixed (s : str) :
  s <> [] -> isspace (last s space) = false -> rstrip s = s.
Proof.
  induction s as [|c t IH]; intros Hne Hlast; [contradiction|]. cbn [rstrip].
  destruct t as [|d t'].
  - cbn [last] in Hlast. cbn [rstrip is_nil]. now rewrite Hlast.
  - rewrite IH; [|discriminate|exact Hlast]. cbn [is_nil]. now rewrite andb_false_r.
Qed.

Lemma strip_fixed (s : str) : trimmed s -> strip s = s.
Proof.
  intros [Hfirst Hlast]. destruct s as [|c t]; [reflexivity|].
  unfold strip. cbn [lstrip]. rewrite (Hfirst c t eq_refl).
  apply rstrip_fixed; [discriminate | apply Hlast; discriminate].
Qed.

Lemma join_lines_trimmed (ls : list str) :
  Forall (fun l => l <> [] /\ trimmed l) ls ->
  ls <> [] ->
  join [newline] ls <> [] /\ trimmed (join [newline] ls).
Proof.
  induction 1 as [|x r [Hx Htx] Hr IH]; intros Hne; [contradiction|].
  cbn [join]. destruct r as [|y r']; [now split|].
  destruct (IH ltac:(discriminate)) as [Hj Htj].
  set (rest := join [newline] (y :: r')) in *. split.
  - destruct x; [contradiction | discriminate].
  - destruct Htx as [Hfirst _]. destruct Htj as [_ Hlast]. split.
    + intros c t Hc. destruct x as [|c0 x']; [contradiction|].
      cbn [app] in Hc. injection Hc as <- _. now apply (Hfirst c0 x').
    + intros _. rewrite HeadedFacts.last_app_right.
      * rewrite HeadedFacts.last_app_right by exact Hj. now apply Hlast.
      * discriminate.
Qed.

Lemma split_on_sep (sep : char) (w rest : str) :
  ~ In sep w -> split_on sep (w ++ sep :: rest) = w :: split_on sep rest.
Proof.
  induction w as [|c w IH]; intros H; cbn [app split_on].
  - now rewrite N.eqb_refl.
  - destruct (N.eqb_spec c sep) as [->|Hne]; [exfalso; apply H; now left|].
    rewrite IH; [reflexivity|]. intros Hin. apply H. now right.
Qed.

(** Joining lines and splitting the text again gives the lines. *)
Lemma split_join_lines (ls : list str) :
  Forall one_line ls -> ls <> [] -> split_on newline (join [newline] ls) = ls.
Proof.
  induction 1 as [|x r Hx Hr IH]; intros Hne; [contradiction|].
  cbn [join]. destruct r as [|y r'].
  - now apply CleanFacts.split_on_absent.
  - cbn [app]. rewrite split_on_sep by exact Hx. f_equal.
    apply IH. discriminate.
Qed.

Lemma strip_one_line (p : str) : one_line p -> one_line (strip p).
Proof.
  unfold one_line. intros H Hin.
  assert (Hall : Forall (fun c => c <> newline) p).
  { rewrite Forall_forall. intros c Hc ->. contradiction. }
  apply (CleanFacts.strip_Forall _ p) in Hall. rewrite Forall_forall in Hall.
  now apply (Hall newline Hin).
Qed.

End ReadFacts.

(** X29.  The text that [read_docx_file] makes of the paragraphs is
    the paragraphs that are not blank, stripped, one to a line: the
    text itself is stripped, and it is empty exactly when every
    paragraph is blank.  When no paragraph holds a line break,
    splitting the text at the line breaks gives back the stripped
    paragraphs that are not blank, none of them blank, if there is one;
    if every paragraph is blank (or there is none), splitting the empty
    text gives the single empty line that [str.split] makes of an
    empty string. *)
Theorem X29_read_text_has_one_line_for_each_paragraph (paragraphs : list Py.str) :
  let full_text := Splitter.read_docx_file paragraphs in
  let lines :=
    map Py.strip (filter (fun p => Py.truthy (Py.strip p)) paragraphs) in
  Py.strip full_text = full_text
  /\ (full_text = [] <-> Forall (fun p => Py.strip p = []) paragraphs)
  /\ Forall (fun l => l <> [] /\ Py.strip l = l) lines
  /\ (Forall Spec.one_line paragraphs ->
      Py.split_on Py.newline full_text
      = if Py.is_nil lines then [[]] else lines).
Proof.
  intros full_text lines.
  assert (Hlines : Forall (fun l => l <> [] /\ Spec.trimmed l) lines).
  { subst lines. rewrite Forall_forall. intros l Hin. apply in_map_iff in Hin.
    destruct Hin as (p & <- & Hp). apply filter_In in Hp. destruct Hp as [_ Hp].
    split; [|apply Spacing.strip_trimmed].
    intros E. rewrite E in Hp. discriminate. }
  assert (Hempty : lines = [] <-> Forall (fun p => Py.strip p = []) paragraphs).
  { subst lines. clear. induction paragraphs as [|p ps IH]; cbn [filter map].
    - split; [constructor | reflexivity].
    - destruct (Py.strip p) eqn:E; cbn [Py.truthy Py.is_nil negb].
      + rewrite IH. split; [now constructor | now inversion 1].
      + cbn [map]. split; [discriminate|]. inversion 1; subst. congruence. }
  assert (Htext : full_text = Py.join [Py.newline] lines) by reflexivity.
  split; [|split; [|split]].
  - destruct lines as [|l ls] eqn:El; [now rewrite Htext|].
    apply ReadFacts.strip_fixed. rewrite Htext.
    apply ReadFacts.join_lines_trimmed; [exact Hlines | discriminate].
  - rewrite <- Hempty. rewrite Htext. split.
    + intros E. destruct lines as [|l ls] eqn:El; [reflexivity|]. exfalso.
      destruct (ReadFacts.join_lines_trimmed (l :: ls) Hlines ltac:(discriminate))
        as [Hne _].
      contradiction.
    + now intros ->.
  - eapply Forall_impl; [|exact Hlines]. intros l [Hne Ht].
    split; [exact Hne | now apply ReadFacts.strip_fixed].
  - intros Hone. rewrite Htext.
    destruct (Py.is_nil lines) eqn:Hnil.
    { destruct lines; [reflexivity | discriminate]. }
    assert (Hne : lines <> []) by (intros E; rewrite E in Hnil; discriminate).
    apply ReadFacts.split_join_lines; [|exact Hne].
    subst lines. apply Forall_map. rewrite Forall_forall. intros p Hp.
    apply filter_In in Hp. destruct Hp as [Hp _]. rewrite Forall_forall in Hone.
    apply ReadFacts.strip_one_line. now apply Hone.
Qed.

(** ** Parsing the text of a kept law *)

Module PipelineFacts.
Import Py Re Spec Parser Anchored.

Unset Implicit Arguments.

Lemma header_spans_length (text : str) (ms : list (match_obj * bool)) :
  length (header_spans text ms) = length ms.
Proof.
  induction ms as [|[mt single] rest IH]; cbn [header_spans length]; [reflexivity|].
  now rewrite IH.
Qed.

Lemma extract_chapters_once (text : str) :
  one_line text -> length (extract_chapters text) <= 1.
Proof.
  intros H. unfold extract_chapters. rewrite header_spans_length, length_map.
  unfold Patterns.chapter_pattern. apply finditer_once; [now right | reflexivity].
Qed.

Lemma extract_articles_twice (text : str) :
  one_line text -> length (extract_articles text) <= 2.
Proof.
  intros H. unfold extract_articles. cbv zeta.
  rewrite header_spans_length, ArticleFacts.sorted_by_length, length_app, !length_map.
  assert (H1 : length (finditer multiline Patterns.article_pattern text) <= 1).
  { unfold Patterns.article_pattern. apply finditer_once; [now right | reflexivity]. }
  assert (H2 : length (finditer multiline Patterns.single_article_pattern text) <= 1).
  { unfold Patterns.single_article_pattern.
    apply finditer_once; [now right | reflexivity]. }
  lia.
Qed.

Lemma substr_one_line (text : str) (a b : nat) :
  one_line text -> one_line (substr text a b).
Proof.
  unfold one_line, substr. intros H Hin. apply H.
  rewrite <- (firstn_skipn a text). apply in_or_app. right.
  rewrite <- (firstn_skipn (b - a) (skipn a text)). apply in_or_app. now left.
Qed.

Lemma one_line_start (text : str) (i : nat) :
  one_line text -> line_start text i -> i = 0.
Proof.
  intros H Hi. destruct i as [|j]; [reflexivity|]. exfalso. apply H.
  cbn [line_start] in Hi. eapply nth_error_In. exact Hi.
Qed.

Lemma words_differ (text : str) :
  startswith Patterns.fasl text = true -> startswith Patterns.madeh text = true -> False.
Proof.
  destruct text as [|c t]; [discriminate|]. cbn [startswith Patterns.fasl Patterns.madeh].
  intros H1 H2. apply andb_true_iff in H1. destruct H1 as [H1 _].
  apply andb_true_iff in H2. destruct H2 as [H2 _].
  apply N.eqb_eq in H1. apply N.eqb_eq in H2. congruence.
Qed.

(** In a text of one line that starts with a chapter header, no
    article header is found. *)
Lemma chapter_without_articles (text num title0 : str) (a b : nat)
  (rest : list (str * str * nat * nat)) :
  one_line text ->
  extract_chapters text = (num, title0, a, b) :: rest ->
  rest = [] /\ extract_articles (substr text a b) = [].
Proof.
  intros Hone Hch.
  pose proof (extract_chapters_once text Hone) as Hlen.
  pose proof (HeaderFacts.chapters_at text) as Hat.
  rewrite Hch in Hlen, Hat. destruct rest; [|cbn [length] in Hlen; lia].
  split; [reflexivity|].
  inversion Hat as [|? ? Hh _]; subst. unfold header_at in Hh.
  destruct Hh as (Hstart & Hword & _).
  apply (one_line_start text a Hone) in Hstart. subst a. cbn [skipn] in Hword.
  assert (Hb : b = length text).
  { unfold extract_chapters in Hch.
    destruct (map (fun mt => (mt, false))
                (finditer multiline Patterns.chapter_pattern text))
      as [|[mt single] [|[mt2 single2] l]]; cbn [header_spans] in Hch;
      try discriminate.
    now injection Hch. }
  subst b. unfold substr. rewrite Nat.sub_0_r. cbn [skipn]. rewrite firstn_all.
  pose proof (HeaderFacts.articles_at text) as Harts.
  destruct (extract_articles text) as [|[[[n1 t1] a1] b1] l]; [reflexivity|].
  exfalso. inversion Harts as [|? ? Hh _]; subst. unfold header_at in Hh.
  destruct Hh as (Hs1 & Hw1 & _).
  apply (one_line_start text a1 Hone) in Hs1. subst a1. cbn [skipn] in Hw1.
  exact (words_differ text Hword Hw1).
Qed.

Section Unicode.

Variable nfkc : str -> str.
Variable isdecimal : char -> bool.

Lemma parse_articles_in_twice (text : str) :
  one_line text -> length (parse_articles_in nfkc text) <= 2.
Proof.
  intros H. unfold parse_articles_in. rewrite length_map.
  now apply extract_articles_twice.
Qed.

(** A text of one line is parsed into one chapter and two articles at
    most. *)
Lemma parse_one_line (d : law_dict) :
  one_line (raw_content d) -> raw_content d <> [] ->
  exists doc,
    parse_document_from_dict nfkc isdecimal d = Exn.Ok doc
    /\ length (chapters doc) <= 1
    /\ length (all_articles doc) <= 2
    /\ (chapters doc <> [] -> all_articles doc = [])
    /\ length (footnotes doc) <= 1.
Proof.
  intros Hone Hne. unfold parse_document_from_dict.
  destruct (raw_content d) as [|c t] eqn:E; [contradiction|]. cbn [is_nil].
  rewrite <- E in *. eexists. split; [reflexivity|].
  cbn [chapters footnotes]. unfold all_articles. cbn [chapters standalone_articles].
  pose proof (extract_chapters_once (raw_content d) Hone) as Hch.
  split; [now rewrite length_map|].
  destruct (extract_chapters (raw_content d)) as [|[[[num title0] a] b] rest] eqn:Ec.
  - cbn [map is_nil flat_map app]. split; [now apply parse_articles_in_twice|].
    split; [congruence|].
    apply (FootnoteFacts.extract_footnotes_spec isdecimal (raw_content d)).
  - destruct (chapter_without_articles _ _ _ _ _ _ Hone Ec) as [-> Hnone].
    cbn [map is_nil flat_map app]. rewrite !app_nil_r.
    unfold parse_chapter. cbn [chapter_articles].
    unfold parse_articles_in. rewrite Hnone. cbn [map length].
    split; [lia|]. split; [reflexivity|].
    apply (FootnoteFacts.extract_footnotes_spec isdecimal (raw_content d)).
Qed.

End Unicode.

End PipelineFacts.

(** X30.  The text of a law kept by [split_document] is a cleaned
    text: one line, stripped, with no whitespace but plain spaces.
    When [parse_document_from_dict] is given that text, it returns a
    document, and since the header patterns can match at the start of
    the line only, the document has one chapter at most, two articles
    at most in all, none at all when it has a chapter, and one footnote
    at most, however many chapters and articles the law has. *)
Theorem X30_kept_law_parses_to_one_chapter_at_most
  (nfkc : Py.str -> Py.str) (isword isdecimal : Py.char -> bool)
  (paragraphs : list Py.str) :
  Forall (fun law =>
            let text := Splitter.raw_content law in
            Spec.only_spaces text /\ Spec.one_line text /\ Py.strip text = text
            /\ exists doc,
                 Parser.parse_document_from_dict nfkc isdecimal
                   {| Parser.raw_content := text; Parser.title := Splitter.title law |}
                 = Exn.Ok doc
                 /\ length (Parser.chapters doc) <= 1
                 /\ length (Parser.all_articles doc) <= 2
                 /\ (Parser.chapters doc <> [] -> Parser.all_articles doc = [])
                 /\ length (Parser.footnotes doc) <= 1)
    (fst (Splitter.split_document nfkc isword paragraphs)).
Proof.
  pose proof (LawFacts.split_document_produced nfkc isword paragraphs) as Hp.
  pose proof (LawFacts.produced_records nfkc isword _ 0%N Hp) as Hrec.
  eapply Forall_impl; [|exact Hrec]. intros law (law_text & i & Hlaw).
  destruct (LawFacts.process_individual_law_record nfkc isword law_text i law Hlaw)
    as (_ & _ & Hraw & _ & _ & Hlen).
  cbv zeta. rewrite Hraw in Hlen |- *.
  pose proof (ArticleFacts.clean_text_one_line nfkc law_text) as Hone.
  split; [apply CleanFacts.clean_text_only_spaces|]. split; [exact Hone|].
  split; [apply CleanFacts.clean_text_stripped|].
  apply (PipelineFacts.parse_one_line nfkc isdecimal
           {| Parser.raw_content := TextUtils.clean_text nfkc law_text;
              Parser.title := Splitter.title law |}); [exact Hone|].
  cbn [Parser.raw_content]. intros E. rewrite E in Hlen.
  unfold Splitter.min_law_length in Hlen. cbn in Hlen. lia.
Qed.

(** * Properties that rest on the facts about the matcher

    The spans cut at headers, the articles of a parsed document and
    the spacing of a cleaned text, stated with what was shown above of
    the matcher and of the substitutions. *)

(** ** The spans cut at the headers *)

Module HeaderSpans.
Import Py Re Spec Parser ReFacts ReSound ScanFacts ReComplete Boundaries.

Unset Implicit Arguments.

(** Where the matcher succeeds, [attempt] has a match that starts
    there. *)
Lemma attempt_found (fl : flags) (r : regex) (i : nat) (pv : option char) (s : str) :
  m fl r {| pos := i; prev := pv; rest := s; caps := [] |} Some <> None ->
  exists mt, In mt (fst (attempt fl r i pv s)) /\ m_start mt = i.
Proof.
  intros H. unfold attempt.
  destruct (m fl r _ Some) as [st1|]; [|congruence].
  exists (found i st1). split; [|reflexivity].
  destruct (pos st1 =? i); [|now left].
  destruct (m fl r _ _); now left.
Qed.

Lemma attempt_jump (fl : flags) (r : regex) (i : nat) (pv : option char) (s : str) :
  snd (attempt fl r i pv s) <> 0 ->
  exists mt, In mt (fst (attempt fl r i pv s)) /\ m_start mt = i.
Proof.
  unfold attempt.
  destruct (m fl r _ Some) as [st1|]; [|cbn; congruence]. intros _.
  exists (found i st1). split; [|reflexivity].
  destruct (pos st1 =? i); [|now left].
  destruct (m fl r _ _); now left.
Qed.

Lemma prev_after_cons (pv : option char) (c : char) (before : str) :
  prev_after (Some c) before = prev_after pv (c :: before).
Proof.
  destruct before as [|x t]; [reflexivity|]. cbn [prev_after]. f_equal.
  cbn [last]. destruct t; [reflexivity|]. apply HeaderFacts.last_default. discriminate.
Qed.

(** The scan finds a match at every offset where the matcher succeeds,
    or before it. *)
Lemma scan_finds (fl : flags) (r : regex) (s : str) :
  forall i pv skip before ahead,
    s = before ++ ahead ->
    skip <= length before ->
    m fl r {| pos := i + length before; prev := prev_after pv before;
              rest := ahead; caps := [] |} Some <> None ->
    exists mt, In mt (scan fl r i pv s skip) /\ m_start mt <= i + length before.
Proof.
  induction s as [|c t IH]; intros i pv skip before ahead Hs Hskip Hm.
  - symmetry in Hs. apply app_eq_nil in Hs. destruct Hs as [-> ->].
    cbn [length] in Hskip, Hm. rewrite Nat.add_0_r in Hm.
    assert (skip = 0) by lia. subst skip. cbn [scan prev_after] in *.
    destruct (attempt_found _ _ _ _ _ Hm) as (mt & Hin & Hst).
    exists mt. split; [exact Hin | lia].
  - destruct before as [|b before'].
    + cbn [app] in Hs. subst ahead. cbn [length] in Hskip, Hm.
      rewrite Nat.add_0_r in Hm. assert (skip = 0) by lia. subst skip.
      cbn [scan prev_after] in *.
      destruct (attempt_found _ _ _ _ _ Hm) as (mt & Hin & Hst).
      destruct (attempt fl r i pv (c :: t)) as [ms jump]. cbn [fst] in Hin.
      exists mt. split; [apply in_or_app; now left | lia].
    + cbn [app] in Hs. injection Hs as <- Ht.
      cbn [length] in Hskip, Hm.
      rewrite <- (prev_after_cons pv c before') in Hm.
      replace (i + S (length before')) with (S i + length before') in Hm by lia.
      destruct skip as [|k]; cbn [scan].
      * pose proof (attempt_jump fl r i pv (c :: t)) as Hj.
        destruct (attempt fl r i pv (c :: t)) as [ms jump]. cbn [fst snd] in Hj.
        destruct (Nat.le_gt_cases (pred jump) (length before')) as [Hle | Hgt].
        -- destruct (IH (S i) (Some c) (pred jump) before' ahead Ht Hle Hm)
             as (mt & Hin & Hst).
           exists mt. split; [apply in_or_app; now right | cbn [length]; lia].
        -- destruct Hj as (mt & Hin & Hst); [lia|].
           exists mt. split; [apply in_or_app; now left | lia].
      * destruct (IH (S i) (Some c) k before' ahead Ht ltac:(lia) Hm)
          as (mt & Hin & Hst).
        exists mt. split; [exact Hin | cbn [length]; lia].
Qed.

(** [finditer] yields a match at every offset where the pattern can
    match, or before it. *)
Lemma finditer_finds (fl : flags) (r : regex) (text : str) (i : nat) :
  matches_at fl r text i ->
  exists mt, In mt (finditer fl r text) /\ m_start mt <= i.
Proof.
  intros (before & s & q & Ht & Hi & Hsteps). subst i.
  destruct (scan_finds fl r text 0 None 0 before s Ht ltac:(lia)) as (mt & Hin & Hst).
  - apply (m_complete fl r _ _ Hsteps); [reflexivity|]. intros st' _ _. discriminate.
  - exists mt. split; [exact Hin | exact Hst].
Qed.

Lemma matched_at (fl : flags) (r : regex) (text : str) (mt : match_obj) :
  matched fl r text mt -> matches_at fl r text (m_start mt).
Proof.
  intros (before & w & after & pv' & Ht & Hs & _ & Hsteps).
  exists before, (w ++ after), (pv', after). auto.
Qed.

Lemma header_spans_starts (text : str) (ms : list (match_obj * bool)) :
  map fst (map span_of (header_spans text ms)) = map (fun x => m_start (fst x)) ms.
Proof.
  induction ms as [|[mt single] rest IH]; [reflexivity|].
  cbn [header_spans map span_of fst]. now rewrite IH.
Qed.

(** In a chain no span starts before the first one. *)
Lemma chain_first (n : nat) (spans : list (nat * nat)) :
  chain n spans ->
  Forall (fun ab => first_start n spans <= fst ab) spans.
Proof.
  induction spans as [|[a b] rest IH]; intros Hc; [constructor|].
  cbn [chain] in Hc. destruct Hc as (Hab & Hlink & Hrest). specialize (IH Hrest).
  constructor; [cbn; lia|].
  destruct rest as [|[a2 b2] rest']; [constructor|].
  cbn [first_start] in IH |- *. eapply Forall_impl; [|exact IH].
  intros [a' b'] H. cbn [fst] in *. lia.
Qed.

Lemma covers_from_later (lo lo' n : nat) (spans : list (nat * nat)) :
  lo <= lo' -> covers_from lo n spans -> covers_from lo' n spans.
Proof. intros Hlo H i Hi Hn. apply H; lia. Qed.

(** The spans made of the matches of a family of patterns are cut at
    its headers. *)
Lemma header_spans_cut (fl : flags) (patterns : list regex) (text : str)
  (ms : list (match_obj * bool)) :
  chain (length text) (map span_of (header_spans text ms)) ->
  Forall (fun x => exists r, In r patterns /\ matched fl r text (fst x)) ms ->
  (forall r mt, In r patterns -> In mt (finditer fl r text) ->
                exists single, In (mt, single) ms) ->
  cut_at_headers fl patterns text (map span_of (header_spans text ms)).
Proof.
  intros Hchain Hsound Hall. split.
  - rewrite Forall_forall. intros ab Hab.
    apply (in_map fst) in Hab. rewrite header_spans_starts in Hab.
    apply in_map_iff in Hab. destruct Hab as (x & Hx & Hin).
    rewrite Forall_forall in Hsound. destruct (Hsound x Hin) as (r & Hr & Hm).
    exists r. split; [exact Hr|]. rewrite <- Hx. now apply matched_at.
  - intros r i Hr Hi.
    destruct (finditer_finds fl r text i Hi) as (mt & Hin & Hst).
    destruct (Hall r mt Hr Hin) as (single & Hms).
    assert (Hstart : In (m_start mt) (map fst (map span_of (header_spans text ms)))).
    { rewrite header_spans_starts. apply in_map_iff. exists (mt, single). auto. }
    apply in_map_iff in Hstart. destruct Hstart as (ab & Hab & Hspan).
    pose proof (chain_first _ _ Hchain) as Hfirst. rewrite Forall_forall in Hfirst.
    specialize (Hfirst ab Hspan). rewrite Hab in Hfirst.
    split; [|split].
    + intros E. rewrite E in Hspan. inversion Hspan.
    + lia.
    + apply (covers_from_later (first_start (length text)
                                  (map span_of (header_spans text ms))));
        [lia | now apply chain_covers].
Qed.

Lemma chapters_cut (text : str) :
  cut_at_headers multiline [Patterns.chapter_pattern] text
    (map span_of (extract_chapters text)).
Proof.
  unfold extract_chapters. apply header_spans_cut.
  - apply chapters_chain.
  - apply Forall_map. eapply Forall_impl; [|apply finditer_matched].
    intros mt Hm. exists Patterns.chapter_pattern. split; [now left | exact Hm].
  - intros r mt [<- | []] Hin. exists false. apply in_map_iff. exists mt. auto.
Qed.

Lemma articles_cut (text : str) :
  cut_at_headers multiline
    [Patterns.article_pattern; Patterns.single_article_pattern] text
    (map span_of (extract_articles text)).
Proof.
  unfold extract_articles. cbv zeta. apply header_spans_cut.
  - apply articles_chain.
  - rewrite Forall_forall. intros x Hx.
    apply (Permutation_in _ (KeywordFacts.sorted_by_perm _ _)) in Hx.
    apply in_app_or in Hx. destruct Hx as [Hx | Hx];
      apply in_map_iff in Hx; destruct Hx as (mt & <- & Hin); cbn [fst].
    + exists Patterns.article_pattern. split; [now left|].
      pose proof (finditer_matched multiline Patterns.article_pattern text) as H.
      rewrite Forall_forall in H. now apply H.
    + exists Patterns.single_article_pattern. split; [right; now left|].
      pose proof (finditer_matched multiline Patterns.single_article_pattern text) as H.
      rewrite Forall_forall in H. now apply H.
  - intros r mt Hr Hin.
    destruct Hr as [<- | [<- | []]]; [exists false | exists true];
      apply (Permutation_in _ (Permutation_sym (KeywordFacts.sorted_by_perm _ _)));
      apply in_or_app; [left | right]; apply in_map_iff; exists mt; auto.
Qed.

Lemma note_spans_header_spans (text : str) (ms : list match_obj) :
  note_spans_from text ms
  = map span_of (header_spans text (map (fun mt => (mt, false)) ms)).
Proof.
  induction ms as [|mt rest IH]; [reflexivity|].
  cbn [note_spans_from map header_spans span_of]. rewrite IH.
  destruct rest; reflexivity.
Qed.

Lemma notes_chain (text : str) : chain (length text) (note_spans text).
Proof.
  unfold note_spans. rewrite note_spans_header_spans.
  destruct (@ordered_starts (length text) _ false 0
              (finditer_ordered multiline Patterns.note_pattern text)).
  now apply header_spans_chain.
Qed.

Lemma notes_cut (text : str) :
  cut_at_headers multiline [Patterns.note_pattern] text (note_spans text).
Proof.
  unfold note_spans. rewrite note_spans_header_spans. apply header_spans_cut.
  - rewrite <- note_spans_header_spans. apply notes_chain.
  - apply Forall_map. eapply Forall_impl; [|apply finditer_matched].
    intros mt Hm. exists Patterns.note_pattern. split; [now left | exact Hm].
  - intros r mt [<- | []] Hin. exists false. apply in_map_iff. exists mt. auto.
Qed.

(** The notes of [extract_notes] are cut between the offsets of
    [note_spans]. *)
Lemma notes_from_spans (text : str) (ms : list match_obj) :
  map note_content (notes_from text ms)
  = map (note_content_between text) (note_spans_from text ms).
Proof.
  induction ms as [|mt rest IH]; [reflexivity|].
  cbn [notes_from note_spans_from map note_content]. rewrite IH.
  reflexivity.
Qed.

End HeaderSpans.

(** C2, as stated, fails: the offsets before the first header lie in
    no span.  The text is a preamble line followed by a chapter header
    and an article header, with no note; [extract_chapters] returns the
    single span from offset 6 to the end and [extract_articles] the
    single span from offset 22 to the end, no note span is cut, and
    offset 0 is covered by none of them. *)
Lemma C2_text_before_first_header_is_uncovered :
  ~ Spec.covers_from 0 (length Inputs.preamble_then_chapter)
      (map Spec.span_of (Parser.extract_chapters Inputs.preamble_then_chapter))
  /\ map Spec.span_of (Parser.extract_chapters Inputs.preamble_then_chapter)
     = [(6, 37)]
  /\ map Spec.span_of (Parser.extract_articles Inputs.preamble_then_chapter)
     = [(22, 37)]
  /\ Spec.note_spans Inputs.preamble_then_chapter = []
  /\ length Inputs.preamble_then_chapter = 37.
Proof.
  split; [|vm_compute; repeat split; reflexivity].
  intros H. specialize (H 0 (Nat.le_refl 0)).
  assert (Hlen : 0 < length Inputs.preamble_then_chapter) by (vm_compute; lia).
  specialize (H Hlen). vm_compute in H.
  inversion H as [? ? [Hlo _] | ? ? Hrest]; subst.
  - cbn in Hlo. lia.
  - inversion Hrest.
Qed.

(** C2, amended.  For every text, the spans of [identify_law_boundaries]
    follow one another without overlap, the last one ends at the end of
    the text, and together they cover the whole text.  The spans of
    [extract_chapters] and of [extract_articles], and the offsets
    between which [extract_notes] cuts its notes, also follow one
    another without overlap up to the end of the text.  They are cut at
    the headers of their family, the places where its pattern matches:
    every span starts at a header, and when the text has a header the
    spans cover it from the first header on.  What precedes the first
    header (all of the text when there is no header) is in no span. *)
Theorem C2_boundary_spans_follow_one_another (text : Py.str) :
  let n := length text in
  let laws := Splitter.identify_law_boundaries text in
  let chapters := map Spec.span_of (Parser.extract_chapters text) in
  let articles := map Spec.span_of (Parser.extract_articles text) in
  let notes := Spec.note_spans text in
  (Spec.chain n laws /\ Spec.covers_from 0 n laws)
  /\ (Spec.chain n chapters
      /\ Spec.covers_from (Spec.first_start n chapters) n chapters
      /\ Spec.cut_at_headers Re.multiline [Patterns.chapter_pattern] text chapters)
  /\ (Spec.chain n articles
      /\ Spec.covers_from (Spec.first_start n articles) n articles
      /\ Spec.cut_at_headers Re.multiline
           [Patterns.article_pattern; Patterns.single_article_pattern] text articles)
  /\ (Spec.chain n notes
      /\ Spec.covers_from (Spec.first_start n notes) n notes
      /\ Spec.cut_at_headers Re.multiline [Patterns.note_pattern] text notes
      /\ map Parser.note_content (Parser.extract_notes text)
         = map (Spec.note_content_between text) notes).
Proof.
  intros n laws chapters articles notes.
  destruct (Boundaries.law_boundaries_chain text) as [Hl Hf].
  pose proof (Boundaries.chapters_chain text) as Hc.
  pose proof (Boundaries.articles_chain text) as Ha.
  pose proof (HeaderSpans.notes_chain text) as Hn.
  split; [|split; [|split]].
  - split; [exact Hl|]. fold n laws in Hl, Hf. rewrite <- Hf.
    now apply Boundaries.chain_covers.
  - split; [exact Hc|]. split; [now apply Boundaries.chain_covers|].
    apply HeaderSpans.chapters_cut.
  - split; [exact Ha|]. split; [now apply Boundaries.chain_covers|].
    apply HeaderSpans.articles_cut.
  - split; [exact Hn|]. split; [now apply Boundaries.chain_covers|].
    split; [apply HeaderSpans.notes_cut|].
    apply HeaderSpans.notes_from_spans.
Qed.

(** ** The articles of a parsed document *)

Module ParsedArticles.
Import Py Spec Parser.

Unset Implicit Arguments.

Section Unicode.

Variable nfkc : str -> str.
Variable isdecimal : char -> bool.




End Unicode.

End ParsedArticles.




(** ** Whitespace in the cleaned text *)

Module SpaceRuns.
Import Py PyFacts StripFacts Re Spec TextUtils Respace Spacing.

Unset Implicit Arguments.

(** *** The neighbours of every character *)

Lemma neighbours_impl (P Q : option char -> char -> option char -> Prop) (s : str) :
  (forall x y z, P x y z -> Q x y z) ->
  forall before, neighbours P before s -> neighbours Q before s.
Proof.
  intros H. induction s as [|c t IH]; intros before; [trivial|].
  cbn [neighbours]. intros [Hc Ht]. split; [now apply H | now apply IH].
Qed.

Lemma neighbours_and (P Q : option char -> char -> option char -> Prop) (s : str) :
  forall before,
    neighbours P before s -> neighbours Q before s ->
    neighbours (fun x y z => P x y z /\ Q x y z) before s.
Proof.
  induction s as [|c t IH]; intros before; [trivial|].
  cbn [neighbours]. intros [Hp Ht] [Hq Ht']. split; [now split | now apply IH].
Qed.

(** The first character may be given another character in front of
    it when the property holds of it there. *)
Lemma neighbours_before (P : option char -> char -> option char -> Prop)
  (before before' : option char) (s : str) :
  (forall c t, s = c :: t -> P before' c (hd_error t)) ->
  neighbours P before s -> neighbours P before' s.
Proof.
  destruct s as [|c t]; [trivial|]. cbn [neighbours]. intros H [_ Ht].
  split; [now apply H | exact Ht].
Qed.

Lemma neighbours_suffix (P : option char -> char -> option char -> Prop)
  (w s : str) :
  forall before, neighbours P before (w ++ s) -> exists before', neighbours P before' s.
Proof.
  induction w as [|c w IH]; intros before H; [eauto|].
  cbn [app neighbours] in H. destruct H as [_ H]. eapply IH. exact H.
Qed.

Lemma single_spaced_suffix (w s : str) : single_spaced (w ++ s) -> single_spaced s.
Proof.
  induction w as [|c w IH]; [trivial|]. cbn [app single_spaced]. intros [_ H].
  now apply IH.
Qed.

(** *** One step of the substitution *)

Lemma respace_skip (cls : char -> bool) (pre post : str) (w s : str) :
  respace cls pre post (w ++ s) (length w) = respace cls pre post s 0.
Proof.
  induction w as [|c w IH]; [reflexivity|]. cbn [app length respace]. exact IH.
Qed.

Lemma leading_ws_firstn (s : str) : length (firstn (leading_ws s) s) = leading_ws s.
Proof. apply firstn_length_le, leading_ws_length. Qed.

(** Where the pattern matches, the replacement is followed by what the
    substitution makes of the text after the match, which does not
    start with whitespace. *)
Lemma respace_match (cls : char -> bool) (pre post : str) (c : char) (t : str)
  (d : char) (jump : nat) :
  ahead cls (c :: t) = Some (d, jump) ->
  exists w s',
    respace cls pre post (c :: t) 0
    = pre ++ [d] ++ post ++ respace cls pre post s' 0
    /\ cls d = true
    /\ c :: t = w ++ s'
    /\ length s' <= length t
    /\ (forall c' t', s' = c' :: t' -> isspace c' = false).
Proof.
  intros E. cbn [respace]. rewrite E. unfold ahead in E.
  destruct (lstrip (c :: t)) as [|d' t'] eqn:El; [discriminate|].
  destruct (cls d') eqn:Ec; [|discriminate]. injection E as <- <-.
  set (w1 := firstn (leading_ws (c :: t)) (c :: t)).
  set (w2 := firstn (leading_ws t') t').
  assert (Hs : c :: t = (w1 ++ d' :: w2) ++ lstrip t').
  { rewrite <- app_assoc. cbn [app]. unfold w2. rewrite <- leading_ws_split.
    rewrite <- El. apply leading_ws_split. }
  assert (Hlen : length (w1 ++ d' :: w2) = leading_ws (c :: t) + 1 + leading_ws t').
  { rewrite length_app. cbn [length]. unfold w1, w2.
    rewrite !leading_ws_firstn. lia. }
  exists (w1 ++ d' :: w2), (lstrip t'). split; [|split; [|split; [|split]]].
  - do 3 f_equal.
    change (if isspace c then S (leading_ws t) else 0) with (leading_ws (c :: t)).
    destruct (w1 ++ d' :: w2) as [|c0 w0] eqn:Ew.
    + cbn [length] in Hlen. lia.
    + cbn [app] in Hs. injection Hs as _ Ht. cbn [length] in Hlen.
      assert (Hp : Init.Nat.pred (leading_ws (c :: t) + 1 + leading_ws t')
                   = length w0) by lia.
      rewrite Hp, Ht. apply respace_skip.
  - exact Ec.
  - exact Hs.
  - apply (f_equal (@length char)) in Hs. rewrite length_app, Hlen in Hs.
    cbn [length] in Hs. lia.
  - intros c' t'' H. eapply lstrip_head. exact H.
Qed.

(** A character that is neither whitespace nor of the class is
    copied. *)
Lemma ahead_plain (cls : char -> bool) (c : char) (t : str) :
  isspace c = false -> cls c = false -> ahead cls (c :: t) = None.
Proof. intros Hs Hc. unfold ahead. cbn [lstrip]. now rewrite Hs, Hc. Qed.

(** Where the pattern does not match at a space, the text goes on with
    a character that is neither whitespace nor of the class, if it goes
    on. *)
Lemma ahead_none_space (cls : char -> bool) (c : char) (t : str) :
  single_spaced (c :: t) -> isspace c = true -> ahead cls (c :: t) = None ->
  t = [] \/ exists c2 t2, t = c2 :: t2 /\ isspace c2 = false /\ cls c2 = false.
Proof.
  intros Hs Hc E. destruct t as [|c2 t2]; [now left|]. right.
  cbn [single_spaced] in Hs. destruct Hs as [Hc2 _]. specialize (Hc2 Hc).
  exists c2, t2. split; [reflexivity|]. split; [exact Hc2|].
  unfold ahead in E. cbn [lstrip] in E. rewrite Hc, Hc2 in E.
  destruct (cls c2); [discriminate | reflexivity].
Qed.

Lemma ahead_class (cls : char -> bool) (s : str) (d : char) (jump : nat) :
  ahead cls s = Some (d, jump) -> cls d = true.
Proof.
  unfold ahead. destruct (lstrip s) as [|d' t']; [discriminate|].
  destruct (cls d') eqn:E; [|discriminate]. now intros [= <- _].
Qed.

Lemma paren_not_punct (c : char) : is_paren c = true -> is_punct c = false.
Proof. intros H. apply punct_not_paren. now right. Qed.

(** *** The punctuation rule *)

Lemma respace_punct_head (s : str) :
  (forall c t, s = c :: t -> isspace c = false) ->
  opt isspace (hd_error (respace is_punct [] [space] s 0)) = false.
Proof.
  intros H. destruct s as [|c t]; [reflexivity|]. specialize (H c t eq_refl).
  cbn [respace]. destruct (ahead is_punct (c :: t)) as [[d jump]|] eqn:E.
  - cbn [app hd_error opt]. apply punct_not_space. eapply ahead_class. exact E.
  - exact H.
Qed.

Lemma marks_respaced (n : nat) :
  forall s before,
    length s <= n -> single_spaced s ->
    neighbours after_marks before (respace is_punct [] [space] s 0).
Proof.
  induction n as [|n IH]; intros s before Hn Hs.
  - destruct s; [exact I | cbn [length] in Hn; lia].
  - destruct s as [|c t]; [exact I|]. cbn [length] in Hn.
    destruct (ahead is_punct (c :: t)) as [[d jump]|] eqn:E.
    + destruct (respace_match is_punct [] [space] c t d jump E)
        as (w & s' & Heq & Hd & Hsplit & Hlen & Hhead).
      rewrite Heq. cbn [app neighbours hd_error]. split; [|split].
      * intros Hsp. rewrite (punct_not_space d Hd) in Hsp. discriminate.
      * intros _. split; [now apply respace_punct_head|].
        intros _. exact Hd.
      * apply IH; [lia|]. apply (single_spaced_suffix w). now rewrite <- Hsplit.
    + cbn [respace]. rewrite E. cbn [neighbours]. split.
      * intros Hc.
        destruct (ahead_none_space is_punct c t Hs Hc E)
          as [-> | (c2 & t2 & -> & Hc2 & Hp2)].
        -- cbn. split; [reflexivity | discriminate].
        -- cbn [respace]. rewrite (ahead_plain is_punct c2 t2 Hc2 Hp2).
           cbn [hd_error opt]. split; [exact Hc2|]. rewrite Hp2. discriminate.
      * apply IH; [lia|]. cbn [single_spaced] in Hs. exact (proj2 Hs).
Qed.

Lemma after_marks_single (s : str) :
  forall before, neighbours after_marks before s -> single_spaced s.
Proof.
  induction s as [|c t IH]; intros before; [trivial|].
  cbn [neighbours single_spaced]. intros [Hc Ht]. split; [|now apply (IH (Some c))].
  destruct t as [|d t']; [exact I|]. intros Hsp.
  destruct (Hc Hsp) as [H _]. exact H.
Qed.

(** *** The parenthesis rule *)

Lemma free_not_space (x : option char) : opt isspace x = false -> free x = true.
Proof.
  destruct x as [c|]; [|reflexivity]. cbn. unfold not_space. now intros ->.
Qed.

Lemma parens_respaced (n : nat) :
  forall s before,
    length s <= n -> single_spaced s ->
    neighbours after_marks before s ->
    (opt isspace before = true -> forall c t, s = c :: t -> isspace c = false) ->
    neighbours (fun x y z => space_alone_loose x y z /\ space_before_mark x y z)
      before (respace is_paren [space] [space] s 0).
Proof.
  induction n as [|n IH]; intros s before Hn Hs Hin Hctx.
  - destruct s; [exact I | cbn [length] in Hn; lia].
  - destruct s as [|c t]; [exact I|]. cbn [length] in Hn.
    destruct (ahead is_paren (c :: t)) as [[d jump]|] eqn:E.
    + destruct (respace_match is_paren [space] [space] c t d jump E)
        as (w & s' & Heq & Hd & Hsplit & Hlen & Hhead).
      rewrite Heq. cbn [app neighbours hd_error]. split; [|split; [|split]].
      * split.
        -- intros _. right. left. exact Hd.
        -- intros _ Hp. cbn [opt] in Hp. rewrite (paren_not_punct d Hd) in Hp.
           discriminate.
      * split; intros Hsp; rewrite (paren_not_space d Hd) in Hsp; discriminate.
      * split.
        -- intros _. left. exact Hd.
        -- intros _ _. right. exact Hd.
      * apply IH.
        -- lia.
        -- apply (single_spaced_suffix w). now rewrite <- Hsplit.
        -- rewrite Hsplit in Hin.
           destruct (neighbours_suffix after_marks w s' before Hin) as [b' Hb'].
           apply (neighbours_before after_marks b'); [|exact Hb'].
           intros c' t' Hc' Hsp. rewrite (Hhead c' t' Hc') in Hsp. discriminate.
        -- intros _. exact Hhead.
    + cbn [respace]. rewrite E. cbn [neighbours] in Hin |- *.
      destruct Hin as [Hc Ht]. split.
      * unfold space_alone_loose, space_before_mark.
        destruct (isspace c) eqn:Hsp;
          [|split; intros H; discriminate].
        assert (Hfree : free before = true).
        { apply free_not_space. destruct (opt isspace before) eqn:Eb; [|reflexivity].
          rewrite (Hctx eq_refl c t eq_refl) in Hsp. discriminate. }
        destruct (ahead_none_space is_paren c t Hs Hsp E)
          as [-> | (c2 & t2 & -> & Hc2 & Hp2)].
        -- cbn. split.
           ++ intros _. right. right. now split.
           ++ intros _ H. discriminate.
        -- cbn [respace]. rewrite (ahead_plain is_paren c2 t2 Hc2 Hp2).
           cbn [hd_error]. split.
           ++ intros _. right. right. split; [exact Hfree|].
              cbn. unfold not_space. now rewrite Hc2.
           ++ intros _ Hp. left. cbn [hd_error] in Hc.
              destruct (Hc Hsp) as [_ H]. now apply H.
      * apply IH.
        -- lia.
        -- cbn [single_spaced] in Hs. exact (proj2 Hs).
        -- exact Ht.
        -- intros Hsp c2 t2 ->. cbn [opt] in Hsp.
           cbn [single_spaced] in Hs. destruct Hs as [H _]. now apply H.
Qed.

(** *** Stripping *)

Lemma rstrip_hd (s : str) : rstrip s <> [] -> hd_error (rstrip s) = hd_error s.
Proof.
  destruct s as [|c t]; [reflexivity|]. cbn [rstrip].
  destruct (isspace c && is_nil (rstrip t)); [congruence | reflexivity].
Qed.

Lemma neighbours_lstrip (P : option char -> char -> option char -> Prop) (s : str) :
  (forall x y z, isspace y = false -> P x y z) ->
  forall before, neighbours P before s -> neighbours P None (lstrip s).
Proof.
  intros HP. induction s as [|c t IH]; intros before H; [exact I|].
  cbn [lstrip]. cbn [neighbours] in H. destruct H as [Hc Ht].
  destruct (isspace c) eqn:E; [now apply (IH (Some c))|].
  cbn [neighbours]. split; [now apply HP | exact Ht].
Qed.

Lemma neighbours_rstrip (P : option char -> char -> option char -> Prop) (s : str) :
  (forall x y z, isspace y = false -> P x y z) ->
  forall before, neighbours P before s -> neighbours P before (rstrip s).
Proof.
  intros HP. induction s as [|c t IH]; intros before H; [exact I|].
  cbn [neighbours] in H. destruct H as [Hc Ht]. cbn [rstrip].
  destruct (isspace c && is_nil (rstrip t)) eqn:E; [exact I|].
  cbn [neighbours]. split; [|now apply IH].
  destruct (rstrip t) as [|d r] eqn:Er.
  - cbn [is_nil] in E. rewrite andb_true_r in E. now apply HP.
  - rewrite <- Er, rstrip_hd by (rewrite Er; discriminate). exact Hc.
Qed.

(** In a text without whitespace at its ends every whitespace
    character has a neighbour on both sides. *)
Lemma trimmed_inside (s : str) :
  forall before,
    (before = None -> forall c t, s = c :: t -> isspace c = false) ->
    (s <> [] -> isspace (last s space) = false) ->
    neighbours (fun x y z => isspace y = true -> x <> None /\ z <> None) before s.
Proof.
  induction s as [|c t IH]; intros before Hfirst Hlast; [exact I|].
  cbn [neighbours]. split.
  - intros Hc. split.
    + intros ->. rewrite (Hfirst eq_refl c t eq_refl) in Hc. discriminate.
    + destruct t; [|discriminate]. cbn [last] in Hlast.
      rewrite Hlast in Hc by discriminate. discriminate.
  - apply IH; [discriminate|]. intros Hne.
    destruct t as [|d t']; [congruence|]. apply Hlast. discriminate.
Qed.

Lemma followed_neighbours (cls : char -> bool) (s : str) :
  forall before,
    followed_unless_last cls s ->
    (opt cls before = true -> s = [] \/ exists t', s = space :: t') ->
    neighbours (fun x y z => opt cls x = true -> y = space) before s.
Proof.
  induction s as [|c t IH]; intros before H Hb; [exact I|].
  cbn [followed_unless_last] in H. destruct H as [Hc Ht]. cbn [neighbours]. split.
  - intros Hx. destruct (Hb Hx) as [E | [t' E]]; [discriminate|]. now injection E.
  - apply IH; [exact Ht | exact Hc].
Qed.

Lemma only_spaces_neighbours (s : str) :
  forall before,
    only_spaces s -> neighbours (fun x y z => isspace y = true -> y = space) before s.
Proof.
  induction s as [|c t IH]; intros before H; [exact I|].
  inversion H; subst. cbn [neighbours]. split; [assumption | now apply IH].
Qed.

(** *** The cleaned text *)

Lemma clean_text_spaces (nfkc : str -> str) (text : str) :
  neighbours (fun x y z => space_alone_loose x y z /\ space_before_mark x y z)
    None (clean_text nfkc text).
Proof.
  unfold clean_text. destruct (is_nil text); [exact I|]. cbv zeta.
  rewrite space_parens_respace, space_punct_respace,
    CleanFacts.collapse_spaces_collapse.
  set (u1 := collapse [space] (normalize_persian_text nfkc text) 0).
  assert (H2 : neighbours after_marks None (respace is_punct [] [space] u1 0)).
  { apply (marks_respaced (length u1)); [lia|].
    apply CleanFacts.collapse_single_spaced. }
  assert (Hws : forall x y z,
             isspace y = false ->
             space_alone_loose x y z /\ space_before_mark x y z).
  { intros x y z Hy. split; intros H; congruence. }
  unfold strip. apply neighbours_rstrip; [exact Hws|].
  apply (neighbours_lstrip _ _ Hws None).
  apply (parens_respaced (length (respace is_punct [] [space] u1 0))).
  - lia.
  - exact (after_marks_single _ None H2).
  - exact H2.
  - discriminate.
Qed.

(** What holds around the whitespace and after the marks of a text
    without whitespace at its ends. *)
Lemma spaces_inside (s : str) :
  trimmed s -> only_spaces s ->
  followed_unless_last is_punct s ->
  neighbours (fun x y z => space_alone_loose x y z /\ space_before_mark x y z) None s ->
  neighbours space_alone None s
  /\ neighbours (one_space_after is_punct) None s
  /\ neighbours space_before_mark None s.
Proof.
  intros [Hfirst Hlast] Honly Hfol Hsp.
  pose proof (trimmed_inside s None (fun _ => Hfirst) Hlast) as Hin.
  pose proof (only_spaces_neighbours s None Honly) as Hplain.
  assert (Hmark : neighbours (fun x y z => opt is_punct x = true -> y = space) None s).
  { apply followed_neighbours; [exact Hfol | discriminate]. }
  pose proof (neighbours_and _ _ s None Hsp
                (neighbours_and _ _ s None Hin
                   (neighbours_and _ _ s None Hplain Hmark))) as Hall.
  assert (Hopt : forall x, x <> None -> free x = true -> opt not_space x = true).
  { intros [c|] Hx H; [exact H | congruence]. }
  split; [|split]; (eapply neighbours_impl; [|exact Hall]); cbv beta;
    intros x y z ((Hl & Hb) & Hi & Hp & Hm).
  - intros Hy. split; [now apply Hp|]. destruct (Hi Hy) as [Hx Hz].
    destruct (Hl Hy) as [H | [H | [H1 H2]]]; [now left | right; now left|].
    right. right. split; now apply Hopt.
  - intros Hx. specialize (Hm Hx). split; [exact Hm|]. subst y.
    destruct (Hi eq_refl) as [_ Hz].
    destruct (Hl eq_refl) as [H | [H | [_ H]]].
    + destruct x as [c|]; [|discriminate]. cbn [opt] in Hx, H.
      rewrite (paren_not_punct c H) in Hx. discriminate.
    + destruct z as [c|]; [|discriminate]. cbn [opt] in H |- *.
      unfold not_space. now rewrite (paren_not_space c H).
    + now apply Hopt.
  - exact Hb.
Qed.

(** *** Parentheses *)

(** The neighbours of the character at a place of the text. *)
Lemma neighbours_at (P : option char -> char -> option char -> Prop) (a : str) :
  forall before y t,
    neighbours P before (a ++ y :: t) -> P (prev_after before a) y (hd_error t).
Proof.
  induction a as [|c a IH]; intros before y t H.
  - cbn [app neighbours] in H. exact (proj1 H).
  - cbn [app neighbours] in H. destruct H as [_ H].
    rewrite <- (HeaderSpans.prev_after_cons before c a). now apply IH.
Qed.

Lemma snoc_cases {A : Type} (l : list A) : l = [] \/ exists l' x, l = l' ++ [x].
Proof.
  destruct l as [|c t]; [now left|]. right.
  destruct (exists_last (l := c :: t)) as (l' & x & H); [discriminate | eauto].
Qed.

Lemma preceded_neighbours (cls : char -> bool) (s : str) :
  forall before,
    preceded_unless_first cls before s ->
    neighbours (fun x y z => cls y = true -> x = None \/ x = Some space) before s.
Proof.
  induction s as [|c t IH]; intros before H; [exact I|].
  cbn [preceded_unless_first] in H. cbn [neighbours].
  split; [exact (proj1 H) | apply IH; exact (proj2 H)].
Qed.

Lemma one_space_beside_parens (s : str) :
  trimmed s ->
  neighbours space_alone None s ->
  followed_unless_last is_paren s ->
  preceded_unless_first is_paren None s ->
  one_space_beside is_paren s.
Proof.
  intros [Hfirst Hlast] Halone Hfol Hprec a p b Hs Hp.
  pose proof (trimmed_inside s None (fun _ => Hfirst) Hlast) as Hin.
  assert (Hnext : neighbours (fun x y z => opt is_paren x = true -> y = space) None s).
  { apply followed_neighbours; [exact Hfol | discriminate]. }
  pose proof (preceded_neighbours is_paren s None Hprec) as Hprev.
  split.
  - destruct b as [|e1 b1]; [now left|]. right.
    assert (Hs1 : s = (a ++ [p]) ++ e1 :: b1) by (rewrite <- app_assoc; exact Hs).
    rewrite Hs1 in Hnext, Hin, Halone.
    pose proof (neighbours_at _ _ _ _ _ Hnext) as H1.
    rewrite ScanFacts.prev_after_snoc in H1. specialize (H1 Hp). subst e1.
    pose proof (neighbours_at _ _ _ _ _ Hin) as H2.
    destruct (H2 eq_refl) as [_ Hz].
    destruct b1 as [|e b']; [cbn in Hz; congruence|].
    exists e, b'. split; [reflexivity|].
    destruct (isspace e) eqn:He; [right | now left].
    assert (Hs2 : (a ++ [p]) ++ space :: e :: b' = ((a ++ [p]) ++ [space]) ++ e :: b')
      by (rewrite <- !app_assoc; reflexivity).
    rewrite Hs2 in Halone.
    pose proof (neighbours_at _ _ _ _ _ Halone) as H3.
    rewrite ScanFacts.prev_after_snoc in H3.
    destruct (H3 He) as [_ [H | [H | [H _]]]];
      [discriminate | exact H | discriminate].
  - destruct (snoc_cases a) as [-> | (a0 & s1 & ->)]; [now left|]. right.
    rewrite Hs in Hprev, Hin, Halone.
    pose proof (neighbours_at _ _ _ _ _ Hprev) as H1.
    rewrite ScanFacts.prev_after_snoc in H1.
    destruct (H1 Hp) as [H | H]; [discriminate|]. injection H as ->.
    assert (Hs1 : (a0 ++ [space]) ++ p :: b = a0 ++ space :: p :: b)
      by (rewrite <- app_assoc; reflexivity).
    rewrite Hs1 in Hin, Halone.
    pose proof (neighbours_at _ _ _ _ _ Hin) as H2.
    destruct (H2 eq_refl) as [Hx _].
    destruct (snoc_cases a0) as [-> | (a' & e & ->)]; [now exfalso; apply Hx|].
    exists a', e. split; [now rewrite <- app_assoc|].
    destruct (isspace e) eqn:He; [right | now left].
    rewrite <- app_assoc in Halone. cbn [app] in Halone.
    pose proof (neighbours_at _ _ _ _ _ Halone) as H3.
    destruct (H3 He) as [_ [H | [H | [_ H]]]];
      [exact H | discriminate | discriminate].
Qed.

End SpaceRuns.

(** C8, as stated, fails.  The text "بند (الف)(ب)" is cleaned to
    "بند ( الف )  ( ب )": each parenthesis is replaced by itself
    between two spaces, so two adjacent parentheses are separated by
    two spaces, a run of more than one whitespace character, and the
    last parenthesis, which ends the text, has no space after it.  The
    text "(الف)(ب)!." is cleaned to "( الف )  ( ب ) ! .": the first
    parenthesis has no space before it, the last mark no space after
    it, and both marks are preceded by a space, the one that follows
    the parenthesis and the one that follows the first mark. *)
Lemma C8_adjacent_parentheses_give_two_spaces :
  TextUtils.clean_text Unicode.nfkc Inputs.two_items
  = Py.utf8 "بند ( الف )  ( ب )"
  /\ Spec.has_space_run (TextUtils.clean_text Unicode.nfkc Inputs.two_items) = true
  /\ TextUtils.clean_text Unicode.nfkc Inputs.items_and_marks
     = Py.utf8 "( الف )  ( ب ) ! .".
Proof. vm_compute. repeat split; reflexivity. Qed.

(** C8, amended.  For every input string, the output of [clean_text]
    has no leading or trailing whitespace.  Every punctuation mark
    (،؛؟!.) in it is directly followed by a space unless it is the last
    character, and by exactly one: the character after that space is
    not whitespace.  Every parenthesis in it is directly followed by a
    space unless it is the last character and directly preceded by a
    space unless it is the first character.  Every whitespace character
    in it is a plain space that stands next to a parenthesis or between
    two characters that are not whitespace, so a run of more than one
    whitespace character is found nowhere but between two parentheses.
    A space in front of a punctuation mark is the space that follows
    another mark or a parenthesis.  And a parenthesis has exactly one
    space on a side, then a character that is not whitespace, unless
    the text ends on that side or another parenthesis is its neighbour
    there. *)
Theorem C8_clean_text_spacing (nfkc : Py.str -> Py.str) (text : Py.str) :
  let out := TextUtils.clean_text nfkc text in
  Spec.trimmed out
  /\ Spec.followed_unless_last TextUtils.is_punct out
  /\ Spec.followed_unless_last TextUtils.is_paren out
  /\ Spec.preceded_unless_first TextUtils.is_paren None out
  /\ Spec.neighbours Spec.space_alone None out
  /\ Spec.neighbours (Spec.one_space_after TextUtils.is_punct) None out
  /\ Spec.neighbours Spec.space_before_mark None out
  /\ Spec.one_space_beside TextUtils.is_paren out.
Proof.
  intros out.
  assert (Hold : Spec.trimmed out
                 /\ Spec.followed_unless_last TextUtils.is_punct out
                 /\ Spec.followed_unless_last TextUtils.is_paren out
                 /\ Spec.preceded_unless_first TextUtils.is_paren None out).
  { subst out. unfold TextUtils.clean_text.
    destruct (Py.is_nil text).
    - repeat split; try exact I; [discriminate | congruence].
    - set (u1 := TextUtils.collapse_spaces (TextUtils.normalize_persian_text nfkc text)).
      rewrite Respace.space_parens_respace, Respace.space_punct_respace.
      split; [apply Spacing.strip_trimmed|]. unfold Py.strip.
      split; [|split].
      + apply Spacing.followed_rstrip, Spacing.followed_lstrip, Spacing.followed_weaken.
        apply Spacing.punct_still_followed; [apply Spacing.punct_followed | constructor].
      + apply Spacing.followed_rstrip, Spacing.followed_lstrip, Spacing.followed_weaken.
        apply Spacing.paren_followed.
      + apply Spacing.preceded_rstrip. apply (Spacing.preceded_lstrip _ _ None).
        apply Spacing.paren_preceded. }
  destruct Hold as (Ht & Hp & Hq & Hr).
  destruct (SpaceRuns.spaces_inside out Ht
              (CleanFacts.clean_text_only_spaces nfkc text) Hp
              (SpaceRuns.clean_text_spaces nfkc text)) as (H1 & H2 & H3).
  pose proof (SpaceRuns.one_space_beside_parens out Ht H1 Hq Hr) as H4.
  exact (conj Ht (conj Hp (conj Hq (conj Hr (conj H1 (conj H2 (conj H3 H4))))))).
Qed.
